(* ===== verification/_CoqProject ===== *)
-Q . S2P
Prelude.v
CxxString.v
CxxMap.v
Env.v
ConfigParser.v
ConfigRoundTrip.v
RequestParser.v
RequestRoundTrip.v
Response.v
LogHelper.v
Handlers.v
StaticHandler.v
StatusHandler.v
LogFile.v
ProxyHandler.v
ProxyRelay.v
ProxyErrors.v
Session.v
SessionRouting.v
SessionReading.v
Server.v
ServerInvariant.v
ServerRuns.v
ServerAnswers.v
StatusRun.v
Main.v
