(* ===== verification/Prelude.v ===== *)
(** * The WNZA web server: a verification development

    The program is a small HTTP server on Boost.Asio. [main] reads an nginx-style
    config, makes one handler per [location] of it and runs an acceptor; every
    connection has a session that parses requests, picks the handler with the
    longest matching path, and writes the response. This library translates the
    program from the sources ([src/*.cc], [include/*.h]) and proves what makes its
    parts correct, and, where the code does something else than it means to,
    exactly what it does.

    ** How the code is modelled

    - A [std::string] or a buffer is a list of bytes, a [char] is signed. [size_t]
      and [int] values are integers of type [Z]; conversions, wrap-around and
      overflow are written out. A [std::map] is the list of its entries in key
      order (the order shows in every header block), with finite maps as its
      specification; the response cache, an [unordered_map] that is only looked
      up and assigned to, is a [gmap].
    - A call gives an [outcome]: it returns, throws, or is undefined ([UB]).
      Objects that are changed are passed in and returned.
    - An indeterminate value (the method of a default-initialised request, the
      status code of a new response) is [None].
    - A handler is anything with an instance of the class [RequestHandler]; what
      the session may rely on is the class [HandlerLaws]. The theorems about
      sessions are proved against these classes, and each handler of the program,
      and the sum of them the server stores, is an instance of both.
    - What is read from outside is a parameter: the record [Env.env] holds the
      files that open, the clock, the log directory, the name of the host, the
      servers the proxy talks to, the depth of the stack and
      [boost::replace_all]; the record [Main.platform] holds the config file, the
      result of binding the port and the texts of exceptions. Nothing is assumed
      about them but what a theorem states as its hypotheses.

    ** The files

    - [Prelude], [CxxString], [CxxMap]: shared notions; the operations of
      [std::string] (with [npos] arithmetic and exceptions), [stoi], [to_string];
      [std::map].
    - [Env]: the world outside of the program.
    - [ConfigParser], [ConfigRoundTrip]: [config_parser.cc]. The parser's stack of
      pointers into the tree it builds is kept as a path into one tree.
    - [RequestParser], [RequestRoundTrip]: [request.h], [request_parser.cc], the
      state machine of 21 states that consumes one byte at a time.
    - [Response]: [response.cc], the builder and the text it sends.
    - [LogHelper], [LogFile]: [log_helper.cc], the records that are logged, and the
      text the log files get for them. Boost.Log is a parameter, the class [BoostLog]
      with an abstract logging core; its laws say what each set-up call changes, which
      sinks get a record, and how a format is rendered when its attributes are known.
    - [Handlers]: [request_handler.h] and the echo, health and not-found handlers.
    - [StaticHandler]: [static_request_handler.cc].
    - [StatusHandler]: [status_request_handler.cc], which reads the server's own
      log back.
    - [ProxyHandler], [ProxyRelay], [ProxyErrors]: [reverse_proxy_request_handler.cc].
    - [Session], [SessionRouting], [SessionReading]: [session.cc].
    - [Server], [ServerInvariant]: [server.cc], [connection.cc], [connection.h].
      The constructor is a function that ends with the first [start_accept];
      [startup] adds what [main] logs around it. After it the server is a labelled
      transition system whose labels are the completions Asio can deliver. The log of
      a state holds every record since the start of the program, those of [main] first.
    - [ServerRuns], [ServerAnswers], [StatusRun]: theorems about whole runs of the
      server, in which the components act together.
    - [Main]: [server_main.cc].

    ** What is shown

    - Config: [ToString] and [Parse] are inverse in both directions; [Parse]
      terminates, is undefined only for a surplus closing brace (and is, for that,
      as soon as another token follows), and builds trees on which the queries do
      not throw; which port and which locations the queries return.
    - Requests: the wire form of a well-formed request is accepted at its last byte
      and gives the request back, wherever it is cut into reads, while the verdict on
      a malformed one depends on the cut; what is accepted is well-formed but for the
      length of the body, which two Content-Length headers can make differ from the
      stored one; what happens to lengths that are not numbers or negative.
    - Responses: a client on a persistent connection reads back what [build] wrote.
    - Handlers: every response is framed (its Content-Length is the length of its
      body). The static handler refines a contract (file or 404 page); an echo is
      accepted by the request parser as the request it answers; the status page
      reports the log, and can be forged through it; the proxy relays an answer
      independently of the chunks it comes in, sends well-formed requests as long as
      they have no body, loses redirects that arrive in pieces, and follows others
      until the stack is exhausted.
    - Log: every record is appended to the log files once and in order, in the common
      format, and is one line when it has no line feeds in it.
    - Sessions: the routing loop finds the longest matching location; [process_req]
      is characterised on every path; the shared state keeps its invariant; a
      request in any number of reads is answered exactly once, by the handler's
      response, which the client reads back when its headers are clean; an answer is
      replayed for every later request of its URI, "/status" apart. Several requests in
      one read, malformed requests and peers that are gone are stated as they behave.
    - Server: in every reachable state the counter is the number of connections and
      at most 101, and only framed responses have been written; the acceptor is never
      stuck, and comes back to accepting after every accept; each location is served
      by a handler of the kind and with the settings the config gives it; a location
      without a block dereferences a null pointer.
    - Runs: a request whose reads are interleaved with any other steps is answered
      by one write, of the response [process_req] gives at that moment; the log has
      one metrics record for each URI in the cache; a request for the status page on a
      running server, whose log files hold what earlier runs left and what this one has
      written, is answered by a page with the locations of the config and one row for
      each metrics record.
    - Main: the port that is bound is the configured one, through the conversions
      to [short] and [unsigned short]; no exception leaves [main], and how it ends on
      every path.

    ** Fuel and bounds

    - The loop of [Parse] gets one more unit than the input has bytes; each round
      consumes a byte or ends, and this is enough ([Parse_terminates]).
    - The loop of [received_req] may run forever, and [None] means that it did not
      end with the given fuel. The theorems about answers prove that it ends, with
      any fuel above the one named; the one about pipelined requests proves that no
      fuel is enough.
    - The loops over header lines of an upstream answer get one more unit than there
      are bytes in the buffer; a line takes at least one byte.
    - [send_request] and [handle_redirect] call each other; the recursion is bounded
      by [stack_depth], and to exceed it is undefined behaviour.
    - [data_] of a session holds 8192 bytes: reads of the server are at most that
      long.

    ** Not modelled

    - The rotation of the log files: their lines may be cut into files in any way.
      The options the program sets for it are recorded.
    - [io_service], strands, threads and sockets: their effect is the order of the
      steps, any order being possible. A callback runs as one step, so data races
      between callbacks on different threads are outside of the model (the code
      takes no lock for the cache and the handlers).
    - [log_metrics] asks for the peer with an error code and, when it is known, once
      more without: the two calls are one, so a peer that leaves between them (the second
      call then throws) is outside of the model.
    - Lines written to [std::cout] and [std::cerr] for debugging.
    - Tests, build files and deployment scripts, which hold no program logic. *)

From Stdlib Require Export ZArith Lia Ascii.
From stdpp Require Export base list strings gmap.

(** ** Byte strings *)

(** A [std::string] (and a [char] buffer) is a list of bytes. *)
Abbreviation bytes := (list ascii).

Declare Scope bytes_scope.
Delimit Scope bytes_scope with bytes.

(** [lit s] is the C string literal [s]. *)
Definition lit (s : string) : bytes := String.list_ascii_of_string s.

Notation "§ s" := (lit s%string) (at level 8, s at level 0, format "§ s") : bytes_scope.
Open Scope bytes_scope.

Definition dquote : ascii := "034"%char.
Definition squote : ascii := "039"%char.
Definition CR : ascii := "013"%char.
Definition LF : ascii := "010"%char.
Definition TAB : ascii := "009"%char.
Definition SP : ascii := " "%char.
Definition crlf : bytes := [CR; LF].

(** [char] is signed on the platform the build targets (x86-64): promoting a
    byte to [int] sign-extends it, so bytes 128..255 become negative. *)
Definition char_to_int (c : ascii) : Z :=
  let n := Z.of_N (N_of_ascii c) in if (n <? 128)%Z then n else (n - 256)%Z.

(** ** Machine integers *)

Definition INT_MAX : Z := 2147483647.
Definition INT_MIN : Z := -2147483648.
Definition SIZE_MOD : Z := 18446744073709551616.

Definition in_int (z : Z) : bool := ((INT_MIN <=? z) && (z <=? INT_MAX))%Z.

(** Unsigned subtraction on [size_t] wraps. *)
Definition size_sub (a b : Z) : Z := ((a - b) mod SIZE_MOD)%Z.

(** Conversion of an [int] to [size_t]. *)
Definition size_of_int (a : Z) : Z := (a mod SIZE_MOD)%Z.

(** Conversion of a [size_t] to [int] (modulo 2^32). *)
Definition int_of_size (a : Z) : Z := ((a + 2147483648) mod 4294967296 - 2147483648)%Z.

Definition zlen {A} (l : list A) : Z := Z.of_nat (length l).

(** ** Outcomes of C++ code *)

(** A call returns, throws one of the exceptions the code can raise, or runs
    into undefined behaviour. *)
Inductive exn := out_of_range | invalid_argument | system_error.

Inductive outcome (A : Type) : Type :=
| Ok (a : A)
| Throw (e : exn)
| UB.
Arguments Ok {A} _.
Arguments Throw {A} _.
Arguments UB {A}.

#[export] Instance exn_eq_dec : EqDecision exn.
Proof. solve_decision. Defined.

#[export] Instance outcome_eq_dec {A} `{EqDecision A} : EqDecision (outcome A).
Proof. solve_decision. Defined.

#[export] Instance outcome_ret : MRet outcome := @Ok.
#[export] Instance outcome_bind : MBind outcome := fun A B f m =>
  match m with Ok a => f a | Throw e => Throw e | UB => UB end.
#[export] Instance outcome_fmap : FMap outcome := fun A B f m =>
  match m with Ok a => Ok (f a) | Throw e => Throw e | UB => UB end.

(** [int] addition: overflow is undefined behaviour. *)
Definition int_add (a b : Z) : outcome Z := if in_int (a + b) then Ok (a + b)%Z else UB.

(** An assertion on every way a call can end: it returns and the value
    satisfies [P]. *)
Definition returns {A} (m : outcome A) (P : A -> Prop) : Prop :=
  match m with Ok a => P a | _ => False end.

Lemma int_of_size_small a : (0 <= a <= INT_MAX)%Z -> int_of_size a = a.
Proof. unfold INT_MAX, int_of_size. intros H. rewrite Z.mod_small by lia. lia. Qed.

Lemma int_add_Ok a b : (INT_MIN <= a + b <= INT_MAX)%Z -> int_add a b = Ok (a + b)%Z.
Proof.
  intros H. unfold int_add, in_int.
  by destruct (Z.leb_spec INT_MIN (a + b)), (Z.leb_spec (a + b) INT_MAX); try lia.
Qed.

Lemma size_of_int_small a : (0 <= a <= INT_MAX)%Z -> size_of_int a = a.
Proof. unfold INT_MAX, size_of_int, SIZE_MOD. intros H. apply Z.mod_small. lia. Qed.

Lemma Ok_inj {A} (a b : A) : Ok a = Ok b -> a = b.
Proof. by intros [= ->]. Qed.

Lemma Ok_pair {A B} (a c : A) (b d : B) : Ok (a, b) = Ok (c, d) -> a = c /\ b = d.
Proof. by intros [= -> ->]. Qed.

Lemma bind_Ok {A B} (m : outcome A) (f : A -> outcome B) b :
  (m ≫= f) = Ok b <-> exists a, m = Ok a /\ f a = Ok b.
Proof. destruct m; naive_solver. Qed.

Lemma bind_Throw {A B} (m : outcome A) (f : A -> outcome B) x :
  (a ← m; f a) = Throw x -> m = Throw x \/ exists a, m = Ok a /\ f a = Throw x.
Proof. destruct m as [a|y|]; cbn; [eauto|intros [= ->]; by left|done]. Qed.

Lemma fmap_Ok {A B} (f : A -> B) (m : outcome A) b :
  f <$> m = Ok b <-> exists a, m = Ok a /\ b = f a.
Proof. destruct m; naive_solver. Qed.

Lemma returns_Ok {A} (m : outcome A) P : returns m P <-> exists a, m = Ok a /\ P a.
Proof. destruct m; naive_solver. Qed.

Lemma returns_bind {A B} (m : outcome A) (f : A -> outcome B) (P : A -> Prop) Q :
  returns m P -> (forall a, P a -> returns (f a) Q) -> returns (m ≫= f) Q.
Proof. destruct m; naive_solver. Qed.

Lemma returns_mono {A} (m : outcome A) (P Q : A -> Prop) :
  returns m P -> (forall a, P a -> Q a) -> returns m Q.
Proof. destruct m; naive_solver. Qed.

(** ** Lists *)

Lemma list_snoc_cases {A} (l : list A) : l = [] \/ exists l' x, l = l' ++ [x].
Proof. destruct l as [|x l _] using rev_ind; eauto. Qed.

(** ** Automation *)

Create HintDb wnza discriminated.

(** Break the outcome of a bind known to have returned. *)
Ltac ok_inv :=
  repeat match goal with
  | H : mbind _ ?m = Ok _ |- _ =>
      let E := fresh "E" in destruct m eqn:E; cbn [mbind outcome_bind] in H; try discriminate H
  | H : fmap _ ?m = Ok _ |- _ =>
      let E := fresh "E" in destruct m eqn:E; cbn [fmap outcome_fmap] in H; try discriminate H
  | H : Ok _ = Ok _ |- _ => apply Ok_inj in H
  | H : mret _ = Ok _ |- _ => apply Ok_inj in H
  end; simplify_eq.

(** Case on the scrutinee of the first [match] or [if] of the goal. *)
Ltac case_goal :=
  match goal with
  | |- context [match ?x with _ => _ end] =>
      lazymatch x with context [match _ with _ => _ end] => fail | _ => destruct x eqn:? end
  end.

(** The same in a hypothesis. *)
Ltac case_hyp H :=
  match type of H with
  | context [match ?x with _ => _ end] =>
      lazymatch x with context [match _ with _ => _ end] => fail | _ => destruct x eqn:? end
  end.

(** A byte that does not occur in a literal, by evaluation. *)
Ltac not_in := apply (bool_decide_unpack _); vm_compute; exact I.
