(* ===== verification/CxxString.v ===== *)
(** * The part of [std::string] and of the numeric conversions the server uses

    [find], [rfind], [substr], [compare], [stoi], [atoi] and [to_string], with
    the exceptions and the undefined behaviour the C++ standard gives them.
    Positions and lengths are [size_t] values, held as [Z] in [0, 2^64). *)

From S2P Require Import Prelude.

(** ** Comparison *)

(** [char_traits<char>::compare]: lexicographic on the bytes as unsigned. *)
Fixpoint bytes_compare (s t : bytes) : comparison :=
  match s, t with
  | [], [] => Eq
  | [], _ :: _ => Lt
  | _ :: _, [] => Gt
  | c :: s', d :: t' =>
      match (N_of_ascii c ?= N_of_ascii d)%N with
      | Eq => bytes_compare s' t'
      | r => r
      end
  end.

Definition bytes_lt (s t : bytes) : Prop := bytes_compare s t = Lt.

(** [s.substr(pos, len)]. *)
Definition substr (s : bytes) (pos len : Z) : outcome bytes :=
  if (zlen s <? pos)%Z then Throw out_of_range
  else Ok (take (Z.to_nat (Z.min len (zlen s))) (drop (Z.to_nat pos) s)).

(** [s.substr(pos)], with the default length [npos]. *)
Definition substr_from (s : bytes) (pos : Z) : outcome bytes :=
  substr s pos (SIZE_MOD - 1).

(** [s.compare(pos, len, t)]. *)
Definition compare (s : bytes) (pos len : Z) (t : bytes) : outcome comparison :=
  u ← substr s pos len; Ok (bytes_compare u t).

(** ** Search *)

Fixpoint starts_with (p s : bytes) : bool :=
  match p, s with
  | [], _ => true
  | _ :: _, [] => false
  | c :: p', d :: s' => bool_decide (c = d) && starts_with p' s'
  end.

(** [s.find(p)]; [None] is [npos]. *)
Fixpoint find (p s : bytes) : option nat :=
  if starts_with p s then Some 0
  else match s with
       | [] => None
       | _ :: s' => S <$> find p s'
       end.

(** [s.rfind(p)]. *)
Fixpoint rfind (p s : bytes) : option nat :=
  match s with
  | [] => if starts_with p [] then Some 0 else None
  | _ :: s' =>
      match rfind p s' with
      | Some i => Some (S i)
      | None => if starts_with p s then Some 0 else None
      end
  end.

(** ** Numbers *)

Definition is_space (c : ascii) : bool :=
  let z := char_to_int c in ((z =? 32) || ((9 <=? z) && (z <=? 13)))%Z.

Definition is_dec_digit (c : ascii) : bool :=
  let z := char_to_int c in ((48 <=? z) && (z <=? 57))%Z.

Fixpoint skip_spaces (s : bytes) : bytes :=
  match s with
  | c :: s' => if is_space c then skip_spaces s' else s
  | [] => []
  end.

Fixpoint take_digits (s : bytes) : bytes :=
  match s with
  | c :: s' => if is_dec_digit c then c :: take_digits s' else []
  | [] => []
  end.

Definition digits_value (s : bytes) : Z :=
  fold_left (fun acc c => acc * 10 + (char_to_int c - 48))%Z s 0%Z.

(** [strtol(s, &end, 10)] before clamping; [None] when nothing is converted. *)
Definition strtol (s : bytes) : option Z :=
  let s1 := skip_spaces s in
  let '(neg, s2) :=
    match s1 with
    | "-"%char :: r => (true, r)
    | "+"%char :: r => (false, r)
    | _ => (false, s1)
    end in
  let ds := take_digits s2 in
  match ds with
  | [] => None
  | _ => Some (if (neg : bool) then (- digits_value ds)%Z else digits_value ds)
  end.

(** [std::stoi]. *)
Definition stoi (s : bytes) : outcome Z :=
  match strtol s with
  | None => Throw invalid_argument
  | Some z => if in_int z then Ok z else Throw out_of_range
  end.

(** [atoi]: no conversion gives 0; a value that is not an [int] is undefined
    behaviour. *)
Definition atoi (s : bytes) : outcome Z :=
  match strtol s with
  | None => Ok 0%Z
  | Some z => if in_int z then Ok z else UB
  end.

Definition digit_char (d : N) : ascii := ascii_of_N (48 + d).

Fixpoint to_string_aux (fuel : nat) (n : N) (acc : bytes) : bytes :=
  match fuel with
  | O => acc
  | S f =>
      let acc' := digit_char (n mod 10) :: acc in
      if (n / 10 =? 0)%N then acc' else to_string_aux f (n / 10) acc'
  end.

(** [std::to_string] on an unsigned value; a decimal has at most as many
    digits as the binary numeral has bits, so the fuel is enough. *)
Definition to_string_N (n : N) : bytes := to_string_aux (S (N.to_nat (N.log2 n))) n [].

Definition to_string_size (n : nat) : bytes := to_string_N (N.of_nat n).

(** [std::to_string] on an [int]. *)
Definition to_string_int (z : Z) : bytes :=
  if (z <? 0)%Z then "-"%char :: to_string_N (Z.to_N (- z)) else to_string_N (Z.to_N z).

#[global] Arguments to_string_N : simpl never.
#[global] Arguments to_string_size : simpl never.
#[global] Arguments to_string_int : simpl never.

(** ** Order lemmas *)

Lemma bytes_compare_refl s : bytes_compare s s = Eq.
Proof. induction s; simpl; [done|]. by rewrite N.compare_refl. Qed.

Lemma N_of_ascii_inj c d : N_of_ascii c = N_of_ascii d -> c = d.
Proof.
  intros H. by rewrite <- (ascii_N_embedding c), <- (ascii_N_embedding d), H.
Qed.

Lemma bytes_compare_eq s t : bytes_compare s t = Eq <-> s = t.
Proof.
  split; [|intros ->; apply bytes_compare_refl].
  revert t. induction s as [|c s IH]; intros [|d t]; simpl; try done.
  destruct (N.compare_spec (N_of_ascii c) (N_of_ascii d)) as [E|E|E]; try done.
  intros ?%IH. apply N_of_ascii_inj in E. by subst.
Qed.

Lemma bytes_compare_antisym s t : bytes_compare t s = CompOpp (bytes_compare s t).
Proof.
  revert t. induction s as [|c s IH]; intros [|d t]; simpl; try done.
  rewrite (N.compare_antisym (N_of_ascii c) (N_of_ascii d)).
  by destruct (N_of_ascii c ?= N_of_ascii d)%N; simpl.
Qed.

Lemma bytes_lt_trans s t u : bytes_lt s t -> bytes_lt t u -> bytes_lt s u.
Proof.
  unfold bytes_lt. revert t u.
  induction s as [|c s IH]; intros [|d t] [|e u]; simpl; try done.
  destruct (N.compare_spec (N_of_ascii c) (N_of_ascii d)) as [E1|E1|E1]; try done;
  destruct (N.compare_spec (N_of_ascii d) (N_of_ascii e)) as [E2|E2|E2]; try done;
  destruct (N.compare_spec (N_of_ascii c) (N_of_ascii e)) as [E3|E3|E3];
    try lia; try done; eauto.
Qed.

Lemma bytes_lt_irrefl s : ~ bytes_lt s s.
Proof. unfold bytes_lt. by rewrite bytes_compare_refl. Qed.

#[export] Instance bytes_lt_strict : StrictOrder bytes_lt.
Proof.
  split; [intros s; apply bytes_lt_irrefl | intros s t u; apply bytes_lt_trans].
Qed.

Lemma bytes_compare_gt s t : bytes_compare s t = Gt <-> bytes_lt t s.
Proof.
  unfold bytes_lt. rewrite (bytes_compare_antisym s t).
  by destruct (bytes_compare s t).
Qed.

(** ** Substring lemmas *)

Lemma zlen_nonneg {A} (l : list A) : (0 <= zlen l)%Z.
Proof. unfold zlen. lia. Qed.

Lemma substr_Ok s pos len :
  (pos <= zlen s)%Z ->
  substr s pos len = Ok (take (Z.to_nat (Z.min len (zlen s))) (drop (Z.to_nat pos) s)).
Proof. intros H. unfold substr. destruct (Z.ltb_spec (zlen s) pos); [lia|done]. Qed.

Lemma substr_throw s pos len : (zlen s < pos)%Z -> substr s pos len = Throw out_of_range.
Proof. intros H. unfold substr. by destruct (Z.ltb_spec (zlen s) pos); [|lia]. Qed.

Lemma substr_from_Ok s i :
  i <= length s -> (zlen s < SIZE_MOD)%Z -> substr_from s (Z.of_nat i) = Ok (drop i s).
Proof.
  intros Hi Hl. unfold substr_from, zlen in *. rewrite substr_Ok by (unfold zlen; lia).
  f_equal. rewrite Nat2Z.id. apply take_ge. rewrite length_drop. unfold zlen. lia.
Qed.

Lemma substr_prefix s n : n <= length s -> substr s 0 (Z.of_nat n) = Ok (take n s).
Proof.
  intros Hn. rewrite substr_Ok by apply zlen_nonneg. unfold zlen.
  rewrite Z.min_l by lia. by rewrite Nat2Z.id.
Qed.

(** A substring from 0 never throws and is a prefix, clipped to the string. *)
Lemma substr_prefix_clip s n : substr s 0 (Z.of_nat n) = Ok (take n s).
Proof.
  destruct (decide (n <= length s)) as [Hn|Hn]; [by apply substr_prefix|].
  rewrite substr_Ok by apply zlen_nonneg. f_equal.
  change (Z.to_nat 0) with 0. rewrite drop_0.
  by rewrite !take_ge by (unfold zlen; lia).
Qed.

Lemma size_sub_small a b : (0 <= b <= a)%Z -> (a < SIZE_MOD)%Z -> size_sub a b = (a - b)%Z.
Proof. intros. unfold size_sub. apply Z.mod_small. lia. Qed.

(** [s.substr(1, s.length() - 2)] removes the first and the last byte. *)
Lemma substr_unquote a s b :
  (zlen s + 2 < SIZE_MOD)%Z ->
  substr (a :: s ++ [b]) 1 (size_sub (zlen (a :: s ++ [b])) 2) = Ok s.
Proof.
  intros Hl. assert (E : zlen (a :: s ++ [b]) = (zlen s + 2)%Z).
  { unfold zlen. simpl. rewrite length_app. simpl. lia. }
  rewrite size_sub_small; rewrite E; [|pose proof (zlen_nonneg s); lia..].
  rewrite substr_Ok by (rewrite E; pose proof (zlen_nonneg s); lia).
  rewrite E. unfold zlen. f_equal. rewrite Z.min_l by lia.
  replace (Z.to_nat _) with (length s) by lia. apply take_app_length.
Qed.

(** ** Search lemmas *)

Lemma starts_with_spec p s : starts_with p s = true <-> exists t, s = p ++ t.
Proof.
  revert s. induction p as [|c p IH]; intros [|d s]; simpl.
  - split; eauto.
  - split; eauto.
  - split; [done | by intros [t [=]]].
  - rewrite andb_true_iff, bool_decide_eq_true, IH.
    split; [intros [-> [t ->]]; eauto | intros [t [= -> ->]]; eauto].
Qed.

Lemma starts_with_app p t : starts_with p (p ++ t) = true.
Proof. apply starts_with_spec. eauto. Qed.

Lemma starts_with_take p s : starts_with p s = bool_decide (take (length p) s = p).
Proof.
  apply eq_true_iff_eq. rewrite starts_with_spec, bool_decide_eq_true. split.
  - intros [t ->]. apply take_app_length.
  - intros H. exists (drop (length p) s). rewrite <- H at 1. by rewrite take_drop.
Qed.

(** [find] returns the first occurrence. *)
Lemma find_Some p s i :
  find p s = Some i ->
  (exists t, drop i s = p ++ t) /\ i <= length s /\
  forall j, j < i -> starts_with p (drop j s) = false.
Proof.
  revert i. induction s as [|c s IH]; intros i; simpl.
  - destruct (starts_with p []) eqn:E; [|done]. intros [= <-].
    apply starts_with_spec in E. split_and!; [done|lia|lia].
  - destruct (starts_with p (c :: s)) eqn:E.
    + intros [= <-]. apply starts_with_spec in E. split_and!; [done|lia|lia].
    + destruct (find p s) as [k|] eqn:Ek; simpl; [|done]. intros [= <-].
      destruct (IH k eq_refl) as (Ht & Hl & Hf).
      split_and!; [done|simpl; lia|]. intros [|j] Hj; [done|]. apply Hf. lia.
Qed.

Lemma find_None p s : find p s = None -> forall j, starts_with p (drop j s) = false.
Proof.
  induction s as [|c s IH]; simpl.
  - destruct (starts_with p []) eqn:E; [done|]. intros _ j. by rewrite drop_nil.
  - destruct (starts_with p (c :: s)) eqn:E; [done|].
    destruct (find p s); simpl; [done|]. intros _ [|j]; [done|]. by apply IH.
Qed.

(** [rfind] returns the last occurrence. *)
Lemma rfind_Some p s i :
  rfind p s = Some i ->
  (exists t, drop i s = p ++ t) /\ i <= length s /\
  forall j, i < j <= length s -> starts_with p (drop j s) = false.
Proof.
  revert i. induction s as [|c s IH]; intros i; simpl.
  - destruct (starts_with p []) eqn:E; [|done]. intros [= <-].
    apply starts_with_spec in E. split_and!; [done|lia|lia].
  - destruct (rfind p s) as [k|] eqn:Ek.
    + intros [= <-]. destruct (IH k eq_refl) as (Ht & Hl & Hf).
      split_and!; [done|simpl; lia|]. intros [|j] Hj; [lia|]. apply Hf. simpl in Hj. lia.
    + destruct (starts_with p (c :: s)) eqn:E; [|done]. intros [= <-].
      apply starts_with_spec in E. split_and!; [done|lia|].
      intros [|j] Hj; [lia|]. simpl. clear IH E. revert j Hj Ek.
      induction s as [|d s IHs]; simpl; intros j Hj Ek.
      * rewrite drop_nil. by destruct (starts_with p []).
      * destruct (rfind p s) eqn:Er; [done|].
        destruct (starts_with p (d :: s)) eqn:Ed; [done|].
        destruct j as [|j]; [done|]. apply IHs; [simpl in *; lia|done].
Qed.

Lemma rfind_None p s : rfind p s = None -> forall j, starts_with p (drop j s) = false.
Proof.
  induction s as [|c s IH]; simpl.
  - destruct (starts_with p []) eqn:E; [done|]. intros _ j. by rewrite drop_nil.
  - destruct (rfind p s) eqn:Er; [done|]. destruct (starts_with p (c :: s)) eqn:E; [done|].
    intros _ [|j]; [done|]. by apply IH.
Qed.

(** An occurrence with none after it is the one [rfind] finds. *)
Lemma rfind_last p s i :
  i <= length s -> starts_with p (drop i s) = true ->
  (forall j, i < j <= length s -> starts_with p (drop j s) = false) ->
  rfind p s = Some i.
Proof.
  intros Hi Hs Hl. destruct (rfind p s) as [k|] eqn:E.
  - apply rfind_Some in E as ([t Ht] & Hk & Hf). f_equal.
    destruct (Nat.lt_trichotomy i k) as [H|[->|H]]; [|done|].
    + specialize (Hl k). rewrite Ht, starts_with_app in Hl. by discriminate Hl; lia.
    + by rewrite Hf in Hs by lia.
  - by rewrite (rfind_None _ _ E) in Hs.
Qed.

(** The last occurrence of a byte. *)
Lemma rfind_byte c a b : c ∉ b -> rfind [c] (a ++ c :: b) = Some (length a).
Proof.
  intros Hb. apply rfind_last.
  - rewrite length_app. lia.
  - rewrite drop_app_length. apply (starts_with_app [c]).
  - intros j [Hj Hl]. rewrite drop_app_ge by lia.
    destruct (j - length a) as [|n] eqn:En; [lia|]. cbn [drop].
    destruct (starts_with [c] (drop n b)) eqn:E; [|done].
    apply starts_with_spec in E as [t Ht]. exfalso. apply Hb.
    rewrite <- (take_drop n b), Ht. set_solver.
Qed.

(** An occurrence with none before it is the one [find] finds. *)
Lemma find_first m s i :
  i <= length s -> starts_with m (drop i s) = true ->
  (forall j, j < i -> starts_with m (drop j s) = false) -> find m s = Some i.
Proof.
  intros Hi Hs Hf. destruct (find m s) as [k|] eqn:E.
  - apply find_Some in E as ([t Ht] & Hk & Hn). f_equal.
    destruct (Nat.lt_trichotomy i k) as [H|[->|H]]; [|done|].
    + by rewrite Hn in Hs.
    + specialize (Hf k H). by rewrite Ht, starts_with_app in Hf.
  - by rewrite (find_None _ _ E) in Hs.
Qed.

(** The first occurrence of a byte. *)
Lemma find_byte c a b : c ∉ a -> find [c] (a ++ c :: b) = Some (length a).
Proof.
  intros Ha. apply find_first.
  - rewrite length_app. lia.
  - rewrite drop_app_length. apply (starts_with_app [c]).
  - intros j Hj. rewrite drop_app_le by lia. destruct (drop j a) as [|d t] eqn:E.
    + apply (f_equal length) in E. rewrite length_drop in E. cbn in E. lia.
    + cbn. rewrite bool_decide_false; [done|]. intros ->. apply Ha.
      rewrite <- (take_drop j a), E. set_solver.
Qed.

Lemma find_here p t : find p (p ++ t) = Some 0.
Proof. destruct (p ++ t) eqn:E; simpl; rewrite <- E, starts_with_app; done. Qed.

(** ** Decimal conversions *)

Lemma char_to_int_digit d : (d < 10)%N -> char_to_int (digit_char d) = (48 + Z.of_N d)%Z.
Proof.
  intros H. unfold char_to_int, digit_char. rewrite N_ascii_embedding by lia.
  rewrite N2Z.inj_add. by destruct (Z.ltb_spec (Z.of_N 48 + Z.of_N d) 128); [|lia].
Qed.

Lemma is_dec_digit_char d : (d < 10)%N -> is_dec_digit (digit_char d) = true.
Proof. intros H. unfold is_dec_digit. rewrite char_to_int_digit by done. lia. Qed.

Lemma digits_value_app s t :
  digits_value (s ++ t) =
  fold_left (fun acc c => acc * 10 + (char_to_int c - 48))%Z t (digits_value s).
Proof. unfold digits_value. by rewrite fold_left_app. Qed.

Lemma digits_fold_shift t z :
  fold_left (fun acc c => acc * 10 + (char_to_int c - 48))%Z t z =
  (z * 10 ^ zlen t + digits_value t)%Z.
Proof.
  unfold digits_value. revert z. induction t as [|c t IH]; intros z; simpl.
  - change (zlen (@nil ascii)) with 0%Z. lia.
  - change (0 * 10 + (char_to_int c - 48))%Z with (char_to_int c - 48)%Z.
    rewrite IH, (IH (char_to_int c - 48)%Z).
    replace (zlen (c :: t)) with (zlen t + 1)%Z by (unfold zlen; simpl; lia).
    rewrite Z.pow_add_r by (unfold zlen; lia). lia.
Qed.

Lemma digits_value_cons c t :
  digits_value (c :: t) = ((char_to_int c - 48) * 10 ^ zlen t + digits_value t)%Z.
Proof. unfold digits_value at 1. simpl. apply digits_fold_shift. Qed.

Lemma to_string_aux_value fuel n acc :
  (n < 2 ^ N.of_nat fuel)%N -> fuel <> 0 ->
  digits_value (to_string_aux fuel n acc) = (Z.of_N n * 10 ^ zlen acc + digits_value acc)%Z.
Proof.
  revert n acc. induction fuel as [|f IH]; intros n acc Hn Hf; [done|].
  cbn [to_string_aux]. pose proof (N.div_mod n 10 ltac:(lia)) as Hdm.
  pose proof (N.mod_lt n 10 ltac:(lia)) as Hm.
  destruct (N.eqb_spec (n / 10) 0) as [E|E].
  - rewrite digits_value_cons, char_to_int_digit by done. nia.
  - assert (Hq : (n / 10 < 2 ^ N.of_nat f)%N).
    { apply N.Div0.div_lt_upper_bound. rewrite Nat2N.inj_succ, N.pow_succ_r' in Hn. nia. }
    rewrite IH; [|done|].
    + rewrite digits_value_cons, char_to_int_digit by done.
      replace (zlen (digit_char (n mod 10) :: acc)) with (zlen acc + 1)%Z
        by (unfold zlen; simpl; lia).
      rewrite Z.pow_add_r by (unfold zlen; lia). nia.
    + intros ->. simpl in Hq. lia.
Qed.

Lemma to_string_aux_digits fuel n acc :
  Forall (fun c => is_dec_digit c = true) acc ->
  Forall (fun c => is_dec_digit c = true) (to_string_aux fuel n acc).
Proof.
  revert n acc. induction fuel as [|f IH]; intros n acc Ha; [done|]. cbn [to_string_aux].
  pose proof (N.mod_lt n 10 ltac:(lia)) as Hm.
  destruct (n / 10 =? 0)%N; [|apply IH]; constructor; auto using is_dec_digit_char.
Qed.

Lemma to_string_N_value n : digits_value (to_string_N n) = Z.of_N n.
Proof.
  unfold to_string_N. rewrite to_string_aux_value; [|destruct (decide (n = 0%N)) as [->|]|done].
  - change (zlen (@nil ascii)) with 0%Z. change (digits_value []) with 0%Z. lia.
  - done.
  - rewrite Nat2N.inj_succ, N2Nat.id. apply N.log2_spec. lia.
Qed.

Lemma to_string_N_digits n : Forall (fun c => is_dec_digit c = true) (to_string_N n).
Proof. apply to_string_aux_digits. constructor. Qed.

Lemma to_string_aux_nonempty fuel n acc : fuel <> 0 -> to_string_aux fuel n acc <> [].
Proof.
  revert n acc. induction fuel as [|f IH]; intros n acc Hf; [done|]. cbn [to_string_aux].
  destruct (n / 10 =? 0)%N; [done|]. destruct f as [|f]; [done|]. by apply IH.
Qed.

Lemma to_string_N_nonempty n : to_string_N n <> [].
Proof. by apply to_string_aux_nonempty. Qed.

Lemma is_dec_digit_not_space c : is_dec_digit c = true -> is_space c = false.
Proof. unfold is_dec_digit, is_space. lia. Qed.

Lemma is_dec_digit_not_sign c :
  is_dec_digit c = true -> c <> "-"%char /\ c <> "+"%char.
Proof. intros H. split; intros ->; vm_compute in H; done. Qed.

Lemma take_digits_all s : Forall (fun c => is_dec_digit c = true) s -> take_digits s = s.
Proof. induction 1 as [|c s Hc _ IH]; simpl; [done|]. by rewrite Hc, IH. Qed.

Lemma strtol_digits s :
  s <> [] -> Forall (fun c => is_dec_digit c = true) s -> strtol s = Some (digits_value s).
Proof.
  intros Hne Hs. destruct s as [|c s]; [done|]. unfold strtol. simpl.
  inversion Hs as [|? ? Hc Hs']; subst.
  rewrite is_dec_digit_not_space by done.
  destruct (is_dec_digit_not_sign c Hc) as [H1 H2].
  assert (E : forall (a b : bool * bytes) d,
    (match c with "-"%char => a | "+"%char => b | _ => d end) = d).
  { intros a b d. destruct c as [[] [] [] [] [] [] [] []]; try done; by exfalso. }
  replace (match c with "-"%char => _ | "+"%char => _ | _ => _ end) with (false, c :: s)
    by (symmetry; apply E).
  by rewrite take_digits_all.
Qed.

(** Printing a number that is an [int] and reading it back gives the number. *)
Lemma stoi_to_string n : (Z.of_N n <= INT_MAX)%Z -> stoi (to_string_N n) = Ok (Z.of_N n).
Proof.
  intros Hn. unfold stoi.
  rewrite strtol_digits by eauto using to_string_N_nonempty, to_string_N_digits.
  rewrite to_string_N_value. unfold in_int, INT_MIN, INT_MAX in *.
  by replace (_ && _) with true by lia.
Qed.

Lemma stoi_to_string_size n :
  (Z.of_nat n <= INT_MAX)%Z -> stoi (to_string_size n) = Ok (Z.of_nat n).
Proof.
  intros H. unfold to_string_size. rewrite stoi_to_string; rewrite nat_N_Z; [done|lia].
Qed.

#[export] Hint Resolve to_string_N_nonempty to_string_N_digits zlen_nonneg : wnza.
