(* ===== verification/CxxMap.v ===== *)
(** * [std::map<std::string, V>]

    An ordered map iterates over its keys in increasing order, and that order
    shows in every header block the server prints, so the map is the list of its
    entries in iteration order. [insert] keeps an existing entry, [operator[]]
    with an assignment replaces it. The abstraction function [to_gmap] forgets
    the order; the refinement lemmas state each operation on finite maps. *)

From S2P Require Import Prelude CxxString.
From stdpp Require Import sorting.

Section ops.
Context {V : Type}.

Fixpoint map_find (k : bytes) (m : list (bytes * V)) : option V :=
  match m with
  | [] => None
  | (k', v) :: m' => if bool_decide (k = k') then Some v else map_find k m'
  end.

(** Set the entry of [k] from its old value, at its place in the order. *)
Fixpoint map_update (f : option V -> V) (k : bytes) (m : list (bytes * V))
    : list (bytes * V) :=
  match m with
  | [] => [(k, f None)]
  | (k', v') :: m' =>
      match bytes_compare k k' with
      | Lt => (k, f None) :: (k', v') :: m'
      | Eq => (k', f (Some v')) :: m'
      | Gt => (k', v') :: map_update f k m'
      end
  end.

(** [m.insert({k, v})]: no effect when [k] is present. *)
Definition map_insert (k : bytes) (v : V) (m : list (bytes * V)) : list (bytes * V) :=
  map_update (default v) k m.

(** [m[k] = v]. *)
Definition map_assign (k : bytes) (v : V) (m : list (bytes * V)) : list (bytes * V) :=
  map_update (fun _ => v) k m.

(** [m.erase(k)]. *)
Fixpoint map_erase (k : bytes) (m : list (bytes * V)) : list (bytes * V) :=
  match m with
  | [] => []
  | (k', v) :: m' => if bool_decide (k = k') then m' else (k', v) :: map_erase k m'
  end.

(** [m.at(k)]. *)
Definition map_at (k : bytes) (m : list (bytes * V)) : outcome V :=
  match map_find k m with Some v => Ok v | None => Throw out_of_range end.

(** The representation invariant: keys strictly increase. *)
Definition map_wf (m : list (bytes * V)) : Prop := StronglySorted bytes_lt m.*1.

(** The finite map a [std::map] stands for. *)
Definition to_gmap (m : list (bytes * V)) : gmap bytes V := list_to_map m.

End ops.

Abbreviation std_map V := (list (bytes * V)).

#[global] Arguments map_assign : simpl never.
#[global] Arguments map_insert : simpl never.

Section lemmas.
Context {V : Type}.
Implicit Types m : list (bytes * V).

Lemma map_wf_nil : map_wf (@nil (bytes * V)).
Proof. constructor. Qed.

Lemma map_wf_cons k v m :
  map_wf ((k, v) :: m) <-> map_wf m /\ Forall (bytes_lt k) m.*1.
Proof.
  unfold map_wf. simpl. split; [by inversion 1|]. intros [? ?]. by constructor.
Qed.

Lemma map_find_above k m : Forall (bytes_lt k) m.*1 -> map_find k m = None.
Proof.
  induction m as [|[k' v] m IH]; simpl; [done|].
  intros [Hk Hm]%Forall_cons. rewrite bool_decide_false; [by apply IH|].
  intros ->. by apply bytes_lt_irrefl in Hk.
Qed.

Lemma map_update_keys (P : bytes -> Prop) f k m :
  P k -> Forall P m.*1 -> Forall P (map_update f k m).*1.
Proof.
  intros Hk. induction m as [|[k' v] m IH]; simpl; [by repeat constructor|].
  intros [Hk' Hm]%Forall_cons. destruct (bytes_compare k k'); simpl; auto.
Qed.

Lemma map_update_wf f k m : map_wf m -> map_wf (map_update f k m).
Proof.
  induction m as [|[k' v] m IH]; simpl; intros Hm.
  - apply map_wf_cons. split; [apply map_wf_nil|constructor].
  - apply map_wf_cons in Hm as [Hm Hk].
    destruct (bytes_compare k k') eqn:E; apply map_wf_cons.
    + done.
    + split; [by apply map_wf_cons|]. simpl. constructor; [done|].
      eapply Forall_impl; [done|]. intros x Hx. by eapply bytes_lt_trans.
    + split; [by apply IH|]. apply map_update_keys; [by apply bytes_compare_gt|done].
Qed.

Lemma map_insert_wf k v m : map_wf m -> map_wf (map_insert k v m).
Proof. apply map_update_wf. Qed.

Lemma map_assign_wf k v m : map_wf m -> map_wf (map_assign k v m).
Proof. apply map_update_wf. Qed.

Lemma map_erase_wf k m : map_wf m -> map_wf (map_erase k m).
Proof.
  intros Hm. induction m as [|[k' v] m IH]; simpl; [done|].
  apply map_wf_cons in Hm as [Hm Hk]. case_bool_decide; [done|].
  apply map_wf_cons. split; [by apply IH|]. clear IH Hm.
  induction m as [|[k'' v''] m IH]; simpl; [constructor|].
  apply Forall_cons in Hk as [? ?]. case_bool_decide; simpl; auto.
Qed.

Lemma map_find_update f k m k' :
  map_wf m ->
  map_find k' (map_update f k m) =
    if bool_decide (k' = k) then Some (f (map_find k m)) else map_find k' m.
Proof.
  induction m as [|[j v] m IH]; simpl; intros Hm.
  { by case_bool_decide. }
  apply map_wf_cons in Hm as [Hm Hj].
  destruct (bytes_compare k j) eqn:E; simpl.
  - apply bytes_compare_eq in E. subst j.
    rewrite (bool_decide_true (k = k)) by done. by case_bool_decide.
  - rewrite (bool_decide_false (k = j)).
    2: { intros ->. by rewrite bytes_compare_refl in E. }
    rewrite (map_find_above k); [by repeat case_bool_decide|].
    eapply Forall_impl; [done|]. intros x Hx. by eapply bytes_lt_trans.
  - assert (k <> j) as Hkj. { intros ->. by rewrite bytes_compare_refl in E. }
    rewrite (bool_decide_false (k = j)) by done. rewrite IH by done.
    repeat case_bool_decide; naive_solver.
Qed.

Lemma map_find_insert k v m k' :
  map_wf m ->
  map_find k' (map_insert k v m) =
    if bool_decide (k' = k) then Some (default v (map_find k m)) else map_find k' m.
Proof. apply map_find_update. Qed.

Lemma map_find_assign k v m k' :
  map_wf m ->
  map_find k' (map_assign k v m) =
    if bool_decide (k' = k) then Some v else map_find k' m.
Proof. apply map_find_update. Qed.

Lemma map_find_erase k m k' :
  map_wf m ->
  map_find k' (map_erase k m) = if bool_decide (k' = k) then None else map_find k' m.
Proof.
  induction m as [|[j v] m IH]; simpl; intros Hm; [by case_bool_decide|].
  apply map_wf_cons in Hm as [Hm Hj]. destruct (decide (k = j)) as [->|Hkj].
  - rewrite (bool_decide_true (j = j)) by done. case_bool_decide; [|done].
    subst. by apply map_find_above.
  - rewrite (bool_decide_false (k = j)) by done. simpl. rewrite IH by done.
    repeat case_bool_decide; congruence.
Qed.

(** Two well-formed maps with the same entries are the same list. *)
Lemma map_ext m1 m2 :
  map_wf m1 -> map_wf m2 -> (forall k, map_find k m1 = map_find k m2) -> m1 = m2.
Proof.
  revert m2. induction m1 as [|[k1 v1] m1 IH]; intros [|[k2 v2] m2] H1 H2 Heq.
  - done.
  - specialize (Heq k2). simpl in Heq. by rewrite bool_decide_true in Heq.
  - specialize (Heq k1). simpl in Heq. by rewrite bool_decide_true in Heq.
  - apply map_wf_cons in H1 as [H1 Hk1]. apply map_wf_cons in H2 as [H2 Hk2].
    assert (k1 = k2) as <-.
    { destruct (bytes_compare k1 k2) eqn:E; [by apply bytes_compare_eq| |].
      - specialize (Heq k1). simpl in Heq. rewrite bool_decide_true in Heq by done.
        rewrite bool_decide_false, map_find_above in Heq; [done| |].
        + eapply Forall_impl; [done|]. intros x Hx. by eapply bytes_lt_trans.
        + intros ->. by rewrite bytes_compare_refl in E.
      - specialize (Heq k2). simpl in Heq. rewrite (bool_decide_true (k2 = k2)) in Heq by done.
        apply bytes_compare_gt in E.
        rewrite bool_decide_false, map_find_above in Heq; [done| |].
        + eapply Forall_impl; [done|]. intros x Hx. by eapply bytes_lt_trans.
        + intros ->. by apply bytes_lt_irrefl in E. }
    assert (v1 = v2) as <-.
    { specialize (Heq k1). simpl in Heq. rewrite !bool_decide_true in Heq by done. congruence. }
    f_equal. apply IH; [done|done|]. intros k. specialize (Heq k). simpl in Heq.
    case_bool_decide; [|done]. subst. by rewrite !map_find_above.
Qed.

(** Appending a key above all others inserts it at the end. *)
Lemma map_insert_last k v m :
  Forall (fun k' => bytes_lt k' k) m.*1 -> map_insert k v m = m ++ [(k, v)].
Proof.
  unfold map_insert. induction m as [|[k' v'] m IH]; simpl; [done|].
  intros [Hk Hm]%Forall_cons. apply bytes_compare_gt in Hk. rewrite Hk.
  by rewrite IH.
Qed.

Lemma map_insert_Forall (P : bytes * V -> Prop) k v m :
  Forall P m -> P (k, v) -> Forall P (map_insert k v m).
Proof.
  intros Hm Hv. unfold map_insert. induction Hm as [|[k' v'] m Hk Hm IH]; simpl; [auto|].
  destruct (bytes_compare k k'); simpl; auto.
Qed.

Lemma map_assign_Forall (P : bytes * V -> Prop) k v m :
  Forall P m -> P (k, v) -> Forall P (map_assign k v m).
Proof.
  intros Hm Hv. unfold map_assign. induction Hm as [|[k' v'] m Hk Hm IH]; simpl; [auto|].
  destruct (bytes_compare k k') eqn:E; simpl; auto. apply bytes_compare_eq in E as ->. auto.
Qed.

Lemma map_erase_Forall (P : bytes * V -> Prop) k m : Forall P m -> Forall P (map_erase k m).
Proof.
  induction 1 as [|[k' v'] m Hk Hm IH]; simpl; [done|]. case_bool_decide; [done|by constructor].
Qed.

(** Assigning to a key that is present keeps the keys. *)
Lemma map_assign_keys k v v' m :
  map_wf m -> map_find k m = Some v' -> (map_assign k v m).*1 = m.*1.
Proof.
  unfold map_assign. induction m as [|[k' w] m IH]; [done|]. intros Hwf Hf. simpl in Hf |- *.
  apply map_wf_cons in Hwf as [Hwf Hab].
  destruct (bytes_compare k k') eqn:E.
  - apply bytes_compare_eq in E as ->. done.
  - exfalso. case_bool_decide as Ek; [subst; by apply bytes_lt_irrefl in E|].
    assert (map_find k m = None); [|congruence]. apply map_find_above.
    eapply Forall_impl; [exact Hab|]. intros k2 H2. by eapply bytes_lt_trans.
  - rewrite bool_decide_false in Hf.
    + simpl. f_equal. by apply IH.
    + intros ->. rewrite bytes_compare_refl in E. done.
Qed.

Lemma map_find_in k v m : map_wf m -> (k, v) ∈ m -> map_find k m = Some v.
Proof.
  induction m as [|[k' w] m IH]; [by intros _ ?%elem_of_nil|].
  intros [Hwf Hab]%map_wf_cons [[= -> ->]|Hin]%elem_of_cons; cbn [map_find].
  - by rewrite bool_decide_true.
  - rewrite bool_decide_false; [auto|]. intros ->. rewrite Forall_forall in Hab.
    apply (bytes_lt_irrefl k'), Hab. apply list_elem_of_fmap. by exists (k', v).
Qed.

Lemma map_find_elem k v m : map_find k m = Some v -> k ∈ m.*1.
Proof.
  induction m as [|[k' w] m IH]; simpl; [done|]. case_bool_decide as E; [subst; left|].
  intros. right. auto.
Qed.

Lemma map_find_present k m : k ∈ m.*1 -> exists v, map_find k m = Some v.
Proof.
  induction m as [|[k' w] m IH]; simpl; [by intros ?%elem_of_nil|].
  intros [->|Hk]%elem_of_cons; [rewrite bool_decide_true by done; eauto|].
  case_bool_decide; eauto.
Qed.

Lemma map_wf_app_r m1 m2 : map_wf (m1 ++ m2) -> map_wf m2.
Proof. unfold map_wf. rewrite fmap_app. apply StronglySorted_app_1_r. Qed.

Lemma map_wf_app_l m1 m2 : map_wf (m1 ++ m2) -> map_wf m1.
Proof. unfold map_wf. rewrite fmap_app. apply StronglySorted_app_1_l. Qed.

Lemma map_assign_nonempty k v m : map_assign k v m <> [].
Proof. destruct m as [|[k' v'] m]; [done|]. unfold map_assign. cbn. by case_match. Qed.

Lemma map_wf_app_lt m1 k v m2 :
  map_wf (m1 ++ (k, v) :: m2) -> Forall (fun k' => bytes_lt k' k) m1.*1.
Proof.
  unfold map_wf. rewrite fmap_app. intros H. apply Forall_forall. intros k' Hk'.
  eapply StronglySorted_app_1_elem_of; [exact H|done|by left].
Qed.

(** ** Refinement to finite maps *)

Lemma to_gmap_lookup m k : to_gmap m !! k = map_find k m.
Proof.
  unfold to_gmap. induction m as [|[k' v] m IH]; simpl; [apply lookup_empty|].
  rewrite lookup_insert. case_decide as E; [by subst; rewrite bool_decide_true|].
  by rewrite bool_decide_false.
Qed.

Lemma to_gmap_assign k v m : map_wf m -> to_gmap (map_assign k v m) = <[k:=v]> (to_gmap m).
Proof.
  intros Hm. apply map_eq. intros i. rewrite to_gmap_lookup, map_find_assign by done.
  rewrite lookup_insert, to_gmap_lookup. repeat case_bool_decide; case_decide; congruence.
Qed.

Lemma to_gmap_insert k v m :
  map_wf m -> to_gmap (map_insert k v m) = <[k:=default v (to_gmap m !! k)]> (to_gmap m).
Proof.
  intros Hm. apply map_eq. intros i. rewrite to_gmap_lookup, map_find_insert by done.
  rewrite lookup_insert, !to_gmap_lookup. repeat case_bool_decide; case_decide; congruence.
Qed.

Lemma to_gmap_erase k m : map_wf m -> to_gmap (map_erase k m) = delete k (to_gmap m).
Proof.
  intros Hm. apply map_eq. intros i. rewrite to_gmap_lookup, map_find_erase by done.
  rewrite lookup_delete, to_gmap_lookup. repeat case_bool_decide; case_decide; congruence.
Qed.

Lemma map_at_Ok k m v : map_find k m = Some v -> map_at k m = Ok v.
Proof. unfold map_at. by intros ->. Qed.

End lemmas.

#[export] Hint Resolve map_wf_nil map_insert_wf map_assign_wf map_erase_wf : wnza.
