(* ===== verification/Env.v ===== *)
(** * What the handlers read from outside of the program

    The files that can be opened, the clock, the log directory, the name of the
    host and the servers the proxy talks to. All of it is a parameter of the
    definitions that use it: nothing is assumed about it here. *)

From S2P Require Import Prelude.

(** How a stream of bytes from another server ends: [boost::asio::error::eof] or
    any other error. *)
Inductive stream_end := end_eof | end_failure.

(** One exchange with another server: the name does not resolve, no endpoint
    accepts, or the bytes of the answer as successive reads bring them. *)
Inductive upstream_reply :=
| unresolved
| unreachable
| answered (chunks : list bytes) (last : stream_end).

Record env := mkEnv {
  (* contents of the files that open *)
  open_file : bytes -> option bytes;
  (* time(0) *)
  time_now : Z;
  (* the regular files of ../log in the order of the directory iterator, each with its contents
     when it opens; None when there is no such directory *)
  log_dir : option (list (option bytes));
  (* boost::asio::ip::host_name() *)
  host_name : bytes;
  (* the [n]-th exchange a request causes: host, port, text sent *)
  upstream : nat -> bytes -> bytes -> bytes -> upstream_reply;
  (* how many nested calls of the proxy's send_request fit on the stack *)
  stack_depth : nat;
  (* boost::replace_all(input, search, format), the string after it *)
  replace_all : bytes -> bytes -> bytes -> bytes
}.

(** A world with one file. *)
Definition one_file_env (name contents : bytes) : env :=
  mkEnv (fun f => if bool_decide (f = name) then Some contents else None) 1700000000
    (Some []) (§"localhost") (fun _ _ _ _ => unresolved) 1000 (fun s _ _ => s).
