(* ===== verification/ConfigParser.v ===== *)
(** * The nginx-style config parser

    Models [src/config_parser.cc] and [include/config_parser.h]: the tokenizer
    [ParseToken], the statement parser [Parse], the printer [ToString] and the
    queries [parse_port], [get_value_from_statement] and [get_location_result].

    The parser keeps a [std::stack] of pointers into the tree it builds: the
    bottom is the caller's config, and each further element is the child block of
    the last statement of the element below it. The model keeps the caller's
    config as one value and the size of the stack; [top()] is the block reached
    from the root by following the last statement's child [size - 1] times, so a
    write through [top()] is visible in the caller's config, as in the code.
    [top()] or [pop()] on an empty stack is undefined behaviour. *)

From S2P Require Import Prelude CxxString.

(** ** Data *)

Inductive TokenType :=
| TOKEN_TYPE_START | TOKEN_TYPE_NORMAL | TOKEN_TYPE_START_BLOCK | TOKEN_TYPE_END_BLOCK
| TOKEN_TYPE_COMMENT | TOKEN_TYPE_STATEMENT_END | TOKEN_TYPE_EOF | TOKEN_TYPE_ERROR.

#[export] Instance TokenType_eq_dec : EqDecision TokenType.
Proof. solve_decision. Defined.

Inductive TokenParserState :=
| TOKEN_STATE_INITIAL_WHITESPACE | TOKEN_STATE_SINGLE_QUOTE | TOKEN_STATE_DOUBLE_QUOTE
| TOKEN_STATE_TOKEN_TYPE_COMMENT | TOKEN_STATE_TOKEN_TYPE_NORMAL.

(** [NginxConfigStatement]; an [NginxConfig] is its vector [statements_]. *)
Inductive NginxConfigStatement :=
| Statement (tokens_ : list bytes) (child_block_ : option (list NginxConfigStatement)).

Abbreviation NginxConfig := (list NginxConfigStatement).

Definition tokens_ (s : NginxConfigStatement) : list bytes :=
  match s with Statement ts _ => ts end.

Definition child_block_ (s : NginxConfigStatement) : option NginxConfig :=
  match s with Statement _ c => c end.

Record location_parse_result := {
  uri : bytes;
  handler_name : bytes;
  block_config : option NginxConfig
}.

(** ** Queries *)

(** One iteration of the loop of [parse_port]; -1 stands for "go on". *)
Fixpoint parse_port_statement (s : NginxConfigStatement) : outcome Z :=
  match s with
  | Statement ts None =>
      match ts with
      | [k; v] =>
          if bool_decide (k = §"port") then
            port_number ← atoi v;
            if ((0 <=? port_number) && (port_number <=? 65535))%Z
            then Ok port_number else Ok (-1)%Z
          else Ok (-1)%Z
      | _ => Ok (-1)%Z
      end
  | Statement _ (Some block) =>
      (fix loop (l : NginxConfig) : outcome Z :=
         match l with
         | [] => Ok (-1)%Z
         | s' :: l' =>
             p ← parse_port_statement s';
             if (p =? -1)%Z then loop l' else Ok p
         end) block
  end.

Fixpoint parse_port (statements_ : NginxConfig) : outcome Z :=
  match statements_ with
  | [] => Ok (-1)%Z
  | s :: l =>
      p ← parse_port_statement s;
      if (p =? -1)%Z then parse_port l else Ok p
  end.

(** [tokens_[1]] on a vector of size 1 is undefined behaviour. *)
Fixpoint get_value_from_statement (key : bytes) (statements_ : NginxConfig) : outcome bytes :=
  match statements_ with
  | [] => Ok []
  | s :: l =>
      match tokens_ s with
      | k :: rest =>
          if bool_decide (k = key) then
            match rest with v :: _ => Ok v | [] => UB end
          else get_value_from_statement key l
      | [] => get_value_from_statement key l
      end
  end.

Fixpoint get_location_result (statements_ : NginxConfig)
    : outcome (list location_parse_result) :=
  match statements_ with
  | [] => Ok []
  | s :: l =>
      match tokens_ s with
      | [t0; t1; t2] =>
          if bool_decide (t0 = §"location") then
            source ← substr t1 1 (size_sub (zlen t1) 2);
            rest ← get_location_result l;
            Ok ({| uri := source; handler_name := t2; block_config := child_block_ s |} :: rest)
          else get_location_result l
      | _ => get_location_result l
      end
  end.

(** ** Printing *)

Definition indent (depth : nat) : bytes := mjoin (replicate depth (§"  ")).

Fixpoint join_tokens (ts : list bytes) : bytes :=
  match ts with
  | [] => []
  | [t] => t
  | t :: ts' => t ++ §" " ++ join_tokens ts'
  end.

Fixpoint statement_ToString (depth : nat) (s : NginxConfigStatement) : bytes :=
  match s with
  | Statement ts child =>
      indent depth ++ join_tokens ts ++
      match child with
      | Some block =>
          §" {" ++ [LF] ++
          (fix loop (l : NginxConfig) : bytes :=
             match l with
             | [] => []
             | s' :: l' => statement_ToString (S depth) s' ++ loop l'
             end) block ++
          indent depth ++ §"}"
      | None => §";"
      end ++ [LF]
  end.

Fixpoint config_ToString (depth : nat) (statements_ : NginxConfig) : bytes :=
  match statements_ with
  | [] => []
  | s :: l => statement_ToString depth s ++ config_ToString depth l
  end.

Definition TokenTypeAsString (type : TokenType) : bytes :=
  match type with
  | TOKEN_TYPE_START => §"TOKEN_TYPE_START"
  | TOKEN_TYPE_NORMAL => §"TOKEN_TYPE_NORMAL"
  | TOKEN_TYPE_START_BLOCK => §"TOKEN_TYPE_START_BLOCK"
  | TOKEN_TYPE_END_BLOCK => §"TOKEN_TYPE_END_BLOCK"
  | TOKEN_TYPE_COMMENT => §"TOKEN_TYPE_COMMENT"
  | TOKEN_TYPE_STATEMENT_END => §"TOKEN_TYPE_STATEMENT_END"
  | TOKEN_TYPE_EOF => §"TOKEN_TYPE_EOF"
  | TOKEN_TYPE_ERROR => §"TOKEN_TYPE_ERROR"
  end.

(** ** Tokenizer *)

(** The characters that end an unquoted token. The code lists the tab twice
    and the carriage return not at all. *)
Definition ends_normal (c : ascii) : bool :=
  bool_decide (c = SP) || bool_decide (c = TAB) || bool_decide (c = LF) ||
  bool_decide (c = ";"%char) || bool_decide (c = "{"%char) || bool_decide (c = "}"%char).

Definition is_initial_ws (c : ascii) : bool :=
  bool_decide (c = SP) || bool_decide (c = TAB) || bool_decide (c = LF) ||
  bool_decide (c = CR).

(** The loop of [ParseToken]: the stream is the list of the bytes left in it;
    the result is the token type, the value and the stream after the call. *)
Fixpoint ParseToken_loop (state : TokenParserState) (value input : bytes)
    : TokenType * bytes * bytes :=
  match input with
  | [] =>
      match state with
      | TOKEN_STATE_SINGLE_QUOTE | TOKEN_STATE_DOUBLE_QUOTE => (TOKEN_TYPE_ERROR, value, [])
      | _ => (TOKEN_TYPE_EOF, value, [])
      end
  | c :: rest =>
      match state with
      | TOKEN_STATE_INITIAL_WHITESPACE =>
          if bool_decide (c = "{"%char) then (TOKEN_TYPE_START_BLOCK, [c], rest)
          else if bool_decide (c = "}"%char) then (TOKEN_TYPE_END_BLOCK, [c], rest)
          else if bool_decide (c = "#"%char) then
            ParseToken_loop TOKEN_STATE_TOKEN_TYPE_COMMENT [c] rest
          else if bool_decide (c = dquote) then
            ParseToken_loop TOKEN_STATE_DOUBLE_QUOTE [c] rest
          else if bool_decide (c = squote) then
            ParseToken_loop TOKEN_STATE_SINGLE_QUOTE [c] rest
          else if bool_decide (c = ";"%char) then (TOKEN_TYPE_STATEMENT_END, [c], rest)
          else if is_initial_ws c then
            ParseToken_loop TOKEN_STATE_INITIAL_WHITESPACE value rest
          else ParseToken_loop TOKEN_STATE_TOKEN_TYPE_NORMAL (value ++ [c]) rest
      | TOKEN_STATE_SINGLE_QUOTE =>
          if bool_decide (c = squote) then (TOKEN_TYPE_NORMAL, value ++ [c], rest)
          else ParseToken_loop TOKEN_STATE_SINGLE_QUOTE (value ++ [c]) rest
      | TOKEN_STATE_DOUBLE_QUOTE =>
          if bool_decide (c = dquote) then (TOKEN_TYPE_NORMAL, value ++ [c], rest)
          else ParseToken_loop TOKEN_STATE_DOUBLE_QUOTE (value ++ [c]) rest
      | TOKEN_STATE_TOKEN_TYPE_COMMENT =>
          if bool_decide (c = LF) || bool_decide (c = CR) then (TOKEN_TYPE_COMMENT, value, rest)
          else ParseToken_loop TOKEN_STATE_TOKEN_TYPE_COMMENT (value ++ [c]) rest
      | TOKEN_STATE_TOKEN_TYPE_NORMAL =>
          if ends_normal c then (TOKEN_TYPE_NORMAL, value, c :: rest)
          else ParseToken_loop TOKEN_STATE_TOKEN_TYPE_NORMAL (value ++ [c]) rest
      end
  end.

(** [ParseToken] as [Parse] calls it, with an empty [value]. *)
Definition ParseToken (input : bytes) : TokenType * bytes * bytes :=
  ParseToken_loop TOKEN_STATE_INITIAL_WHITESPACE [] input.

(** ** Statement parser *)

(** [v.back()] of a vector, changed in place; undefined on an empty vector. *)
Fixpoint update_back (f : NginxConfigStatement -> outcome NginxConfigStatement)
    (v : NginxConfig) : outcome NginxConfig :=
  match v with
  | [] => UB
  | [s] => s' ← f s; Ok [s']
  | s :: v' => v'' ← update_back f v'; Ok (s :: v'')
  end.

(** Change the block reached by following the last child [depth] times. *)
Fixpoint modify_top (depth : nat) (f : NginxConfig -> outcome NginxConfig)
    (config : NginxConfig) : outcome NginxConfig :=
  match depth with
  | O => f config
  | S d =>
      update_back (fun s =>
        match s with
        | Statement ts (Some block) => block' ← modify_top d f block; Ok (Statement ts (Some block'))
        | Statement _ None => UB
        end) config
  end.

Record parse_state := {
  ps_config : NginxConfig;          (* the out-parameter *)
  ps_stack_size : nat;              (* config_stack.size() *)
  ps_last : TokenType;              (* last_token_type *)
  ps_brackets : Z;                  (* BracketCount *)
  ps_input : bytes                  (* config_file *)
}.

(** A write through [config_stack.top()]. *)
Definition write_top (f : NginxConfig -> outcome NginxConfig) (st : parse_state)
    : outcome NginxConfig :=
  match ps_stack_size st with
  | O => UB
  | S d => modify_top d f (ps_config st)
  end.

(** How an iteration of the loop of [Parse] ends. *)
Inductive parse_status :=
| Continue (st : parse_state)
| Return (result : bool) (config : NginxConfig) (output : bytes)
| Undefined.

(** [break]: the diagnostic is printed and [false] returned. *)
Definition bad_transition (st : parse_state) (token_type : TokenType) : parse_status :=
  Return false (ps_config st)
    (§"Bad transition from " ++ TokenTypeAsString (ps_last st) ++ §" to " ++
     TokenTypeAsString token_type ++ [LF]).

Definition emplace_back (v : NginxConfig) : outcome NginxConfig := Ok (v ++ [Statement [] None]).

Definition push_token (token : bytes) (v : NginxConfig) : outcome NginxConfig :=
  update_back (fun s => Ok (Statement (tokens_ s ++ [token]) (child_block_ s))) v.

Definition reset_child (v : NginxConfig) : outcome NginxConfig :=
  update_back (fun s => Ok (Statement (tokens_ s) (Some []))) v.

(** A NORMAL token: a new statement unless one is open, then the token. *)
Definition add_token (last : TokenType) (token : bytes) (v : NginxConfig) : outcome NginxConfig :=
  v' ← (if bool_decide (last <> TOKEN_TYPE_NORMAL) then emplace_back v else Ok v);
  push_token token v'.

Definition Parse_normal (st : parse_state) (token : bytes) (rest : bytes) : parse_status :=
  match ps_last st with
  | TOKEN_TYPE_START | TOKEN_TYPE_STATEMENT_END | TOKEN_TYPE_START_BLOCK
  | TOKEN_TYPE_END_BLOCK | TOKEN_TYPE_NORMAL =>
      match write_top (add_token (ps_last st) token) st with
      | Ok config => Continue {| ps_config := config; ps_stack_size := ps_stack_size st;
          ps_last := TOKEN_TYPE_NORMAL; ps_brackets := ps_brackets st; ps_input := rest |}
      | _ => Undefined
      end
  | _ => bad_transition st TOKEN_TYPE_NORMAL
  end.

Definition Parse_start_block (st : parse_state) (rest : bytes) : parse_status :=
  if bool_decide (ps_last st <> TOKEN_TYPE_NORMAL) then bad_transition st TOKEN_TYPE_START_BLOCK
  else match write_top reset_child st with
       | Ok config => Continue {| ps_config := config; ps_stack_size := S (ps_stack_size st);
           ps_last := TOKEN_TYPE_START_BLOCK; ps_brackets := (ps_brackets st + 1)%Z;
           ps_input := rest |}
       | _ => Undefined
       end.

Definition Parse_end_block (st : parse_state) (rest : bytes) : parse_status :=
  match ps_last st with
  | TOKEN_TYPE_STATEMENT_END | TOKEN_TYPE_START_BLOCK | TOKEN_TYPE_END_BLOCK =>
      match ps_stack_size st with
      | O => Undefined
      | S n => Continue {| ps_config := ps_config st; ps_stack_size := n;
          ps_last := TOKEN_TYPE_END_BLOCK; ps_brackets := (ps_brackets st - 1)%Z;
          ps_input := rest |}
      end
  | _ => bad_transition st TOKEN_TYPE_END_BLOCK
  end.

Definition Parse_eof (st : parse_state) : parse_status :=
  match ps_last st with
  | TOKEN_TYPE_STATEMENT_END | TOKEN_TYPE_END_BLOCK | TOKEN_TYPE_START =>
      if (ps_brackets st =? 0)%Z then Return true (ps_config st) []
      else bad_transition st TOKEN_TYPE_EOF
  | _ => bad_transition st TOKEN_TYPE_EOF
  end.

(** One iteration of the loop of [Parse]. *)
Definition Parse_step (st : parse_state) : parse_status :=
  let '(token_type, token, rest) := ParseToken (ps_input st) in
  match token_type with
  | TOKEN_TYPE_ERROR => bad_transition st TOKEN_TYPE_ERROR
  | TOKEN_TYPE_COMMENT =>
      Continue {| ps_config := ps_config st; ps_stack_size := ps_stack_size st;
        ps_last := ps_last st; ps_brackets := ps_brackets st; ps_input := rest |}
  | TOKEN_TYPE_START => bad_transition st TOKEN_TYPE_START
  | TOKEN_TYPE_NORMAL => Parse_normal st token rest
  | TOKEN_TYPE_STATEMENT_END =>
      if bool_decide (ps_last st <> TOKEN_TYPE_NORMAL) then
        bad_transition st TOKEN_TYPE_STATEMENT_END
      else Continue {| ps_config := ps_config st; ps_stack_size := ps_stack_size st;
        ps_last := TOKEN_TYPE_STATEMENT_END; ps_brackets := ps_brackets st; ps_input := rest |}
  | TOKEN_TYPE_START_BLOCK => Parse_start_block st rest
  | TOKEN_TYPE_END_BLOCK => Parse_end_block st rest
  | TOKEN_TYPE_EOF => Parse_eof st
  end.

(** The [while (true)] loop; [None] when the fuel runs out. *)
Fixpoint Parse_loop (fuel : nat) (st : parse_state)
    : option (outcome (bool * NginxConfig * bytes)) :=
  match fuel with
  | O => None
  | S n =>
      match Parse_step st with
      | Continue st' => Parse_loop n st'
      | Return b config out => Some (Ok (b, config, out))
      | Undefined => Some UB
      end
  end.

Definition Parse_init (input : bytes) (config : NginxConfig) : parse_state :=
  {| ps_config := config; ps_stack_size := 1; ps_last := TOKEN_TYPE_START;
     ps_brackets := 0; ps_input := input |}.

(** [Parse] on a stream: every iteration but the last reads at least a byte, so
    [length input + 1] iterations are enough ([Parse_loop_total]). The result is
    the return value, the out-parameter and what is printed. *)
Definition Parse (input : bytes) (config : NginxConfig) : outcome (bool * NginxConfig * bytes) :=
  default UB (Parse_loop (S (length input)) (Parse_init input config)).

(** [Parse] on a file name; [open] gives the contents of the files that can be
    opened. *)
Definition Parse_file (open : bytes -> option bytes) (file_name : bytes)
    (config : NginxConfig) : outcome (bool * NginxConfig * bytes) :=
  match open file_name with
  | None => Ok (false, config, §"Failed to open config file: " ++ file_name ++ [LF])
  | Some contents => Parse contents config
  end.

(** ** Well-formed trees *)

(** The text of a token [ParseToken] can produce. *)
Definition quoted_by (q : ascii) (t : bytes) : bool :=
  match t with
  | c :: r => bool_decide (c = q) &&
      match List.rev r with
      | d :: b => bool_decide (d = q) && bool_decide (q ∉ b)
      | [] => false
      end
  | [] => false
  end.

Definition starts_normal (c : ascii) : bool :=
  negb (ends_normal c || is_initial_ws c || bool_decide (c = "#"%char) ||
        bool_decide (c = dquote) || bool_decide (c = squote)).

Definition plain_token (t : bytes) : bool :=
  match t with
  | c :: r => starts_normal c && forallb (fun d => negb (ends_normal d)) r
  | [] => false
  end.

Definition token_ok (t : bytes) : bool :=
  quoted_by dquote t || quoted_by squote t || plain_token t.

Fixpoint statement_ok (s : NginxConfigStatement) : bool :=
  match s with
  | Statement ts child =>
      match ts with [] => false | _ => true end && forallb token_ok ts &&
      match child with
      | Some block =>
          (fix loop (l : NginxConfig) : bool :=
             match l with [] => true | s' :: l' => statement_ok s' && loop l' end) block
      | None => true
      end
  end.

Definition config_ok (statements_ : NginxConfig) : bool := forallb statement_ok statements_.

(** ** Specification of [parse_port] *)

(** The values of the leaf [port] statements, in document order. *)
Fixpoint statement_ports (s : NginxConfigStatement) : list bytes :=
  match s with
  | Statement ts None =>
      match ts with
      | [k; v] => if bool_decide (k = §"port") then [v] else []
      | _ => []
      end
  | Statement _ (Some block) =>
      (fix loop (l : NginxConfig) : list bytes :=
         match l with [] => [] | s' :: l' => statement_ports s' ++ loop l' end) block
  end.

Definition config_ports (statements_ : NginxConfig) : list bytes :=
  mjoin (statement_ports <$> statements_).

(** The first value that reads as a port number. *)
Fixpoint first_port (vs : list bytes) : outcome Z :=
  match vs with
  | [] => Ok (-1)%Z
  | v :: vs' =>
      p ← atoi v;
      if ((0 <=? p) && (p <=? 65535))%Z then Ok p else first_port vs'
  end.

(** ** Structure lemmas *)

Section statement_ind.
Variable P : NginxConfigStatement -> Prop.
Hypothesis Hleaf : forall ts, P (Statement ts None).
Hypothesis Hblock : forall ts block, Forall P block -> P (Statement ts (Some block)).

(** Induction on a statement, with the hypothesis for its whole block. *)
Fixpoint statement_ind' (s : NginxConfigStatement) : P s :=
  match s with
  | Statement ts None => Hleaf ts
  | Statement ts (Some block) =>
      Hblock ts block
        ((fix go (l : NginxConfig) : Forall P l :=
            match l with
            | [] => Forall_nil_2 P
            | s' :: l' => Forall_cons_2 P s' l' (statement_ind' s') (go l')
            end) block)
  end.
End statement_ind.

Lemma parse_port_block ts block :
  parse_port_statement (Statement ts (Some block)) = parse_port block.
Proof. simpl. induction block as [|s l IH]; simpl; [done|]. by rewrite IH. Qed.

Lemma statement_ToString_eq depth ts child :
  statement_ToString depth (Statement ts child) =
  indent depth ++ join_tokens ts ++
  match child with
  | Some block => §" {" ++ [LF] ++ config_ToString (S depth) block ++ indent depth ++ §"}"
  | None => §";"
  end ++ [LF].
Proof.
  destruct child as [block|]; [|done]. cbn [statement_ToString].
  match goal with |- context [?F block ++ _] =>
    assert (E : F block = config_ToString (S depth) block) end; [|by rewrite E].
  induction block as [|s l IH]; cbn; [done|]. by f_equal.
Qed.

Lemma statement_ok_eq ts child :
  statement_ok (Statement ts child) =
  match ts with [] => false | _ => true end && forallb token_ok ts &&
  match child with Some block => config_ok block | None => true end.
Proof. by destruct child. Qed.

Lemma statement_ports_block ts block :
  statement_ports (Statement ts (Some block)) = config_ports block.
Proof. unfold config_ports. simpl. induction block as [|s l IH]; cbn; [done|]. by rewrite IH. Qed.

Lemma config_ok_app c1 c2 : config_ok (c1 ++ c2) = config_ok c1 && config_ok c2.
Proof. apply forallb_app. Qed.

Lemma config_ok_snoc c s : config_ok (c ++ [s]) = config_ok c && statement_ok s.
Proof. rewrite config_ok_app. cbn [config_ok forallb]. by rewrite andb_true_r. Qed.

Lemma config_ToString_app d c1 c2 :
  config_ToString d (c1 ++ c2) = config_ToString d c1 ++ config_ToString d c2.
Proof. induction c1; simpl; [done|]. by rewrite IHc1, (assoc_L (++)). Qed.

(** ** Ports *)

Lemma first_port_app vs ws :
  first_port (vs ++ ws) =
  (p ← first_port vs; if (p =? -1)%Z then first_port ws else Ok p).
Proof.
  induction vs as [|v vs IH]; simpl; [done|].
  destruct (atoi v) as [p| |]; simpl; [|done|done].
  destruct (Z.leb_spec 0 p), (Z.leb_spec p 65535); simpl; try done.
  by destruct (Z.eqb_spec p (-1)); [lia|].
Qed.

Lemma parse_port_statement_spec s : parse_port_statement s = first_port (statement_ports s).
Proof.
  induction s as [ts|ts block IH] using statement_ind'.
  - simpl. destruct ts as [|k [|v [|? ?]]]; try done. case_bool_decide; [|done]. simpl.
    by destruct (atoi v).
  - rewrite parse_port_block, statement_ports_block. unfold config_ports.
    induction IH as [|s l Hs _ IHl]; cbn; [done|].
    by rewrite first_port_app, <- Hs, IHl.
Qed.

Lemma parse_port_spec (config : NginxConfig) :
  parse_port config = first_port (config_ports config).
Proof.
  rewrite <- (parse_port_block []), <- (statement_ports_block []).
  apply parse_port_statement_spec.
Qed.

Lemma first_port_range vs p : first_port vs = Ok p -> p = (-1)%Z \/ (0 <= p <= 65535)%Z.
Proof.
  induction vs as [|v vs IH]; simpl; intros H; [naive_solver|].
  destruct (atoi v) as [q| |]; simpl in H; [|done|done].
  destruct (Z.leb_spec 0 q), (Z.leb_spec q 65535); simpl in H; naive_solver.
Qed.

(** ** Tokenizer lemmas *)

Lemma ParseToken_loop_length state value input tt t rest :
  ParseToken_loop state value input = (tt, t, rest) ->
  length rest <= length input /\
  (tt <> TOKEN_TYPE_EOF -> tt <> TOKEN_TYPE_ERROR ->
   state <> TOKEN_STATE_TOKEN_TYPE_NORMAL -> length rest < length input).
Proof.
  revert state value. induction input as [|c input IH]; intros state value H.
  - destruct state; simplify_eq/=; naive_solver.
  - simpl in H.
    assert (HIH : forall state' value', ParseToken_loop state' value' input = (tt, t, rest) ->
      length rest < length (c :: input)).
    { intros st' v' E. apply IH in E as [E _]. simpl. lia. }
    destruct state; repeat case_match; simplify_eq/=;
      try (apply HIH in H); split; intros; try done; lia.
Qed.

(** Every token but the end of the file consumes input. *)
Lemma ParseToken_length input tt t rest :
  ParseToken input = (tt, t, rest) ->
  tt <> TOKEN_TYPE_EOF -> tt <> TOKEN_TYPE_ERROR -> length rest < length input.
Proof. intros H H1 H2. apply ParseToken_loop_length in H as [_ H]. by apply H. Qed.

Lemma forallb_snoc {A} (f : A -> bool) l x : forallb f (l ++ [x]) = forallb f l && f x.
Proof. rewrite forallb_app. simpl. by rewrite andb_true_r. Qed.

Lemma plain_token_snoc t c :
  plain_token t = true -> ends_normal c = false -> plain_token (t ++ [c]) = true.
Proof.
  destruct t as [|d t]; simpl; [done|]. intros [-> H]%andb_true_iff Hc.
  by rewrite forallb_snoc, H, Hc.
Qed.

Lemma quoted_by_intro q b : q ∉ b -> quoted_by q (q :: b ++ [q]) = true.
Proof.
  intros H. unfold quoted_by. rewrite bool_decide_true by done. simpl.
  rewrite rev_app_distr. simpl. rewrite !bool_decide_true; [done| |done].
  by rewrite list_elem_of_In, <- in_rev, <- list_elem_of_In.
Qed.

Lemma quoted_by_elim q t : quoted_by q t = true -> exists b, t = q :: b ++ [q] /\ q ∉ b.
Proof.
  destruct t as [|c r]; simpl; [done|].
  intros [->%bool_decide_eq_true H]%andb_true_iff.
  destruct (List.rev r) as [|d b] eqn:E; [done|].
  apply andb_true_iff in H as [->%bool_decide_eq_true Hb%bool_decide_eq_true].
  exists (List.rev b). apply (f_equal (@List.rev _)) in E.
  rewrite rev_involutive in E. subst r. split; [done|].
  by rewrite list_elem_of_In, <- in_rev, <- list_elem_of_In.
Qed.

(** The state of the tokenizer inside a token quoted by [q]. *)
Definition quote_state (q : ascii) : TokenParserState :=
  if bool_decide (q = dquote) then TOKEN_STATE_DOUBLE_QUOTE else TOKEN_STATE_SINGLE_QUOTE.

Lemma quote_loop_cons q value c input :
  q = dquote \/ q = squote ->
  ParseToken_loop (quote_state q) value (c :: input) =
    if bool_decide (c = q) then (TOKEN_TYPE_NORMAL, value ++ [c], input)
    else ParseToken_loop (quote_state q) (value ++ [c]) input.
Proof. by intros [-> | ->]. Qed.

Lemma quote_loop_sound q value b input t rest :
  q = dquote \/ q = squote -> value = q :: b -> q ∉ b ->
  ParseToken_loop (quote_state q) value input = (TOKEN_TYPE_NORMAL, t, rest) ->
  quoted_by q t = true.
Proof.
  intros Hq. revert value b. induction input as [|c input IH]; intros value b -> Hb H.
  - by destruct Hq; subst.
  - rewrite quote_loop_cons in H by done. case_bool_decide; simplify_eq.
    + by apply quoted_by_intro.
    + eapply (IH _ (b ++ [c])); [done| |exact H].
      rewrite elem_of_app, list_elem_of_singleton. intros [?|?]; congruence.
Qed.

Lemma plain_loop_sound value input t rest :
  plain_token value = true ->
  ParseToken_loop TOKEN_STATE_TOKEN_TYPE_NORMAL value input = (TOKEN_TYPE_NORMAL, t, rest) ->
  plain_token t = true.
Proof.
  revert value. induction input as [|c input IH]; intros value Hv H; simplify_eq/=.
  destruct (ends_normal c) eqn:Ec; simplify_eq; [done|].
  eapply IH; [|exact H]. by apply plain_token_snoc.
Qed.

Lemma comment_loop_type value input tt t rest :
  ParseToken_loop TOKEN_STATE_TOKEN_TYPE_COMMENT value input = (tt, t, rest) ->
  tt = TOKEN_TYPE_COMMENT \/ tt = TOKEN_TYPE_EOF.
Proof.
  revert value. induction input as [|c input IH]; intros value H; simplify_eq/=; [auto|].
  case_match; simplify_eq; eauto.
Qed.

(** Every token the parser stores is well formed. *)
Lemma ParseToken_ok input t rest :
  ParseToken input = (TOKEN_TYPE_NORMAL, t, rest) -> token_ok t = true.
Proof.
  unfold ParseToken, token_ok. induction input as [|c input IH]; simpl; intros H; [done|].
  repeat case_bool_decide; simplify_eq.
  - by apply comment_loop_type in H as [?|?].
  - eapply (quote_loop_sound dquote _ []) in H as ->; auto using not_elem_of_nil.
  - eapply (quote_loop_sound squote _ []) in H as ->; auto using not_elem_of_nil.
    by rewrite orb_true_r.
  - destruct (is_initial_ws c) eqn:Ew; [by apply IH|].
    apply plain_loop_sound in H as ->; [by rewrite orb_true_r|]. simpl.
    unfold starts_normal, ends_normal. unfold is_initial_ws in *.
    apply orb_false_iff in Ew as [[[-> ->]%orb_false_iff ->]%orb_false_iff ->].
    by rewrite !bool_decide_false by done.
Qed.

(** ** The loop of [Parse] *)

Definition parse_step_rel (st st' : parse_state) : Prop := Parse_step st = Continue st'.

(** Break one iteration into its branches. *)
Ltac parse_step_inv H :=
  unfold Parse_step, Parse_normal, Parse_start_block, Parse_end_block, Parse_eof,
    bad_transition in H;
  let E := fresh "Etok" in destruct (ParseToken _) as [[? ?] ?] eqn:E in H;
  repeat case_match; simplify_eq.

Lemma Parse_step_input st st' :
  parse_step_rel st st' -> length (ps_input st') < length (ps_input st).
Proof.
  unfold parse_step_rel. intros H. parse_step_inv H; simpl;
    by eapply ParseToken_length.
Qed.

(** The loop ends: it takes at most one iteration per byte and one more. *)
Lemma Parse_loop_total n st :
  length (ps_input st) < n -> exists o, Parse_loop n st = Some o.
Proof.
  revert st. induction n as [|n IH]; intros st Hn; [lia|]. simpl.
  destruct (Parse_step st) as [st'| |] eqn:E; [|eauto|eauto].
  apply IH. apply Parse_step_input in E. lia.
Qed.

Lemma Parse_loop_mono n m st o : Parse_loop n st = Some o -> n <= m -> Parse_loop m st = Some o.
Proof.
  revert m st. induction n as [|n IH]; intros [|m] st H Hm; try done; [lia|]. simpl in *.
  destruct (Parse_step st); [|done|done]. apply IH; [done|lia].
Qed.

Lemma Parse_loop_steps st st' n o :
  rtc parse_step_rel st st' -> Parse_loop n st' = Some o -> exists m, Parse_loop m st = Some o.
Proof.
  induction 1 as [st|st st1 st' Hs _ IH]; intros Ho; [eauto|].
  destruct (IH Ho) as [m Hm]. exists (S m). simpl. by rewrite Hs.
Qed.

(** Reaching a final iteration gives the result of [Parse]. *)
Lemma Parse_of_steps input config st b c out :
  rtc parse_step_rel (Parse_init input config) st -> Parse_step st = Return b c out ->
  Parse input config = Ok (b, c, out).
Proof.
  intros Hs Hr. destruct (Parse_loop_total (S (length input)) (Parse_init input config))
    as [o Ho]; [simpl; lia|].
  destruct (Parse_loop_steps _ _ 1 (Ok (b, c, out)) Hs) as [m Hm]; [simpl; by rewrite Hr|].
  unfold Parse. rewrite Ho. simpl.
  apply Parse_loop_mono with (m := Nat.max (S (length input)) m) in Ho; [|lia].
  apply Parse_loop_mono with (m := Nat.max (S (length input)) m) in Hm; [|lia]. congruence.
Qed.

Lemma Parse_loop_inv n st o :
  Parse_loop n st = Some o ->
  exists st', rtc parse_step_rel st st' /\
    match Parse_step st' with
    | Return b c out => o = Ok (b, c, out)
    | Undefined => o = UB
    | Continue _ => False
    end.
Proof.
  revert st. induction n as [|n IH]; intros st H; [done|]. simpl in H.
  destruct (Parse_step st) as [st1|b c out|] eqn:E; simplify_eq.
  - apply IH in H as (st' & Hs & Hr). exists st'. split; [by eapply rtc_l|done].
  - exists st. rewrite E. split; [apply rtc_refl|done].
  - exists st. rewrite E. split; [apply rtc_refl|done].
Qed.

(** Every result of [Parse] comes from a final iteration that is reached. *)
Lemma Parse_inv input config o :
  Parse input config = o ->
  exists st, rtc parse_step_rel (Parse_init input config) st /\
    match Parse_step st with
    | Return b c out => o = Ok (b, c, out)
    | Undefined => o = UB
    | Continue _ => False
    end.
Proof.
  intros H. destruct (Parse_loop_total (S (length input)) (Parse_init input config))
    as [o' Ho]; [simpl; lia|].
  unfold Parse in H. rewrite Ho in H. simpl in H. subst o'. by apply Parse_loop_inv in Ho.
Qed.

(** An invariant of the iteration holds in every state that is reached. *)
Lemma rtc_invariant {A} (R : relation A) (I : A -> Prop) x y :
  (forall a b, I a -> R a b -> I b) -> rtc R x y -> I x -> I y.
Proof. intros HI. induction 1; eauto. Qed.

(** ** Writing through the stack *)

(** A config seen from the top of the stack: the blocks around the top one, the
    outermost first, each with the statements before its last statement and the
    tokens of that statement. *)
Fixpoint plug (ctx : list (NginxConfig * list bytes)) (block : NginxConfig) : NginxConfig :=
  match ctx with
  | [] => block
  | (pre, ts) :: ctx' => pre ++ [Statement ts (Some (plug ctx' block))]
  end.

Lemma plug_snoc ctx pre ts block :
  plug (ctx ++ [(pre, ts)]) block = plug ctx (pre ++ [Statement ts (Some block)]).
Proof. induction ctx as [|[p u] ctx IH]; simpl; [done|]. by rewrite IH. Qed.

Lemma update_back_snoc f v s : update_back f (v ++ [s]) = (s' ← f s; Ok (v ++ [s'])).
Proof.
  induction v as [|x v IH]; [by cbn; destruct (f s)|].
  assert (E : update_back f ((x :: v) ++ [s]) =
    (v'' ← update_back f (v ++ [s]); Ok (x :: v''))) by (by destruct v).
  rewrite E, IH. by destruct (f s).
Qed.

Lemma modify_top_plug f ctx block :
  modify_top (length ctx) f (plug ctx block) = (b ← f block; Ok (plug ctx b)).
Proof.
  induction ctx as [|[pre ts] ctx IH]; simpl; [by destruct (f block)|].
  rewrite update_back_snoc, IH. by destruct (f block).
Qed.

(** [config_ok] is kept by a write that keeps it in the block it changes. *)
Lemma config_ok_plug ctx block :
  config_ok (plug ctx block) = config_ok (plug ctx []) && config_ok block.
Proof.
  induction ctx as [|[pre ts] ctx IH]; cbn [plug]; [done|].
  rewrite !config_ok_app. unfold config_ok at 2 4. cbn [forallb].
  rewrite !statement_ok_eq, IH. by rewrite !andb_true_r, !andb_assoc.
Qed.

(** The invariant of [Parse]: the stack is a chain of last children, a last
    token of type NORMAL belongs to the last statement of the top block, the
    bracket count is the depth, and the tree built so far is well formed. *)
Definition parse_inv (st : parse_state) : Prop :=
  ps_brackets st = (Z.of_nat (ps_stack_size st) - 1)%Z /\ config_ok (ps_config st) = true /\
  match ps_stack_size st with
  | O => ps_last st = TOKEN_TYPE_END_BLOCK
  | S d => exists ctx block, length ctx = d /\ ps_config st = plug ctx block /\
      (ps_last st = TOKEN_TYPE_NORMAL -> exists pre s, block = pre ++ [s])
  end.

Lemma parse_inv_init input config :
  config_ok config = true -> parse_inv (Parse_init input config).
Proof. intros H. split_and!; [done|done|]. exists [], config. by split_and!. Qed.

Lemma add_token_fresh last token v :
  last <> TOKEN_TYPE_NORMAL -> add_token last token v = Ok (v ++ [Statement [token] None]).
Proof.
  intros H. unfold add_token. rewrite bool_decide_true by done.
  unfold emplace_back, push_token. cbn [mbind outcome_bind]. by rewrite update_back_snoc.
Qed.

Lemma add_token_more token pre s :
  add_token TOKEN_TYPE_NORMAL token (pre ++ [s]) =
  Ok (pre ++ [Statement (tokens_ s ++ [token]) (child_block_ s)]).
Proof.
  unfold add_token, push_token. rewrite bool_decide_false by naive_solver.
  cbn [mbind outcome_bind]. by rewrite update_back_snoc.
Qed.

Lemma reset_child_snoc pre s :
  reset_child (pre ++ [s]) = Ok (pre ++ [Statement (tokens_ s) (Some [])]).
Proof. unfold reset_child. by rewrite update_back_snoc. Qed.

Lemma write_top_plug f st ctx block :
  ps_stack_size st = S (length ctx) -> ps_config st = plug ctx block ->
  write_top f st = (b ← f block; Ok (plug ctx b)).
Proof. intros H1 H2. unfold write_top. rewrite H1, H2. apply modify_top_plug. Qed.

Lemma config_ok_add_token last token block block' ctx :
  token_ok token = true -> config_ok (plug ctx block) = true ->
  add_token last token block = Ok block' -> config_ok (plug ctx block') = true.
Proof.
  intros Ht. rewrite (config_ok_plug ctx block), (config_ok_plug ctx block').
  intros [-> Hb]%andb_true_iff H. simpl. destruct (decide (last = TOKEN_TYPE_NORMAL)) as [->|Hl].
  - destruct (list_snoc_cases block) as [->|(pre & s & ->)].
    + done.
    + rewrite add_token_more in H. simplify_eq. rewrite config_ok_snoc in *.
      apply andb_true_iff in Hb as [-> Hs]. destruct s as [ts child].
      rewrite statement_ok_eq in *. cbn [tokens_ child_block_].
      apply andb_true_iff in Hs as [[H1 H2]%andb_true_iff H3].
      destruct ts; [done|]. cbn [app forallb andb] in *.
      by rewrite forallb_snoc, (andb_assoc (token_ok _)), H2, Ht, H3.
  - rewrite add_token_fresh in H by done. simplify_eq.
    rewrite config_ok_snoc, Hb, statement_ok_eq. cbn [forallb]. by rewrite Ht.
Qed.

Lemma ok_plug_reset ctx pre s :
  config_ok (plug ctx (pre ++ [s])) = true ->
  config_ok (plug ctx (pre ++ [Statement (tokens_ s) (Some [])])) = true.
Proof.
  rewrite (config_ok_plug ctx (_ ++ [s])), (config_ok_plug ctx (_ ++ [Statement _ _])).
  intros [-> H]%andb_true_iff. rewrite config_ok_snoc in *.
  apply andb_true_iff in H as [-> H]. destruct s as [ts child].
  rewrite statement_ok_eq in *. cbn [tokens_ child_block_].
  by apply andb_true_iff in H as [-> _].
Qed.

(** What an iteration reads from the invariant: the top block. *)
Lemma parse_inv_top st :
  parse_inv st -> ps_stack_size st <> 0 ->
  exists ctx block, ps_stack_size st = S (length ctx) /\ ps_config st = plug ctx block /\
    config_ok (plug ctx block) = true /\
    (ps_last st = TOKEN_TYPE_NORMAL -> exists pre s, block = pre ++ [s]).
Proof.
  intros (_ & Hok & Hst) Hne. destruct (ps_stack_size st) as [|d]; [done|].
  destruct Hst as (ctx & block & <- & Hc & Hn). rewrite Hc in Hok. eauto 10.
Qed.

Lemma add_token_Ok last token block :
  (last = TOKEN_TYPE_NORMAL -> exists pre s, block = pre ++ [s]) ->
  exists pre s, add_token last token block = Ok (pre ++ [s]).
Proof.
  intros H. destruct (decide (last = TOKEN_TYPE_NORMAL)) as [->|Hl].
  - destruct (H eq_refl) as (pre & s & ->). rewrite add_token_more. eauto.
  - rewrite add_token_fresh by done. eauto.
Qed.

Lemma Parse_normal_inv st token rest :
  parse_inv st -> token_ok token = true ->
  match Parse_normal st token rest with
  | Continue st' => parse_inv st'
  | Undefined => ps_stack_size st = 0
  | Return b _ _ => b = false
  end.
Proof.
  intros HI Ht. unfold Parse_normal.
  destruct (decide (ps_stack_size st = 0)) as [E|E].
  { unfold write_top. rewrite E. by destruct (ps_last st). }
  destruct (parse_inv_top st HI E) as (ctx & block & Hs & Hc & Hok & Hn).
  destruct (add_token_Ok (ps_last st) token block Hn) as (pre & s & Ha).
  rewrite (write_top_plug _ _ ctx block) by done. rewrite Ha. cbn [mbind outcome_bind].
  destruct HI as [Hb _].
  enough (Hg : parse_inv {| ps_config := plug ctx (pre ++ [s]); ps_stack_size := ps_stack_size st;
    ps_last := TOKEN_TYPE_NORMAL; ps_brackets := ps_brackets st; ps_input := rest |})
    by (by destruct (ps_last st)).
  split_and!; simpl; [done|by eapply config_ok_add_token|].
  rewrite Hs. exists ctx, (pre ++ [s]). split_and!; eauto.
Qed.

Lemma Parse_start_block_inv st rest :
  parse_inv st ->
  match Parse_start_block st rest with
  | Continue st' => parse_inv st'
  | Undefined => ps_stack_size st = 0
  | Return b _ _ => b = false
  end.
Proof.
  intros HI. unfold Parse_start_block.
  case_bool_decide as Hl; [done|].
  destruct (decide (ps_stack_size st = 0)) as [E|E]; [unfold write_top; by rewrite E|].
  destruct (parse_inv_top st HI E) as (ctx & block & Hs & Hc & Hok & Hn).
  destruct (Hn Hl) as (pre & s & ->). rewrite (write_top_plug _ _ ctx (pre ++ [s])) by done.
  rewrite reset_child_snoc. cbn [mbind outcome_bind]. destruct HI as [Hb _].
  split_and!; simpl; [lia|by apply ok_plug_reset|].
  exists (ctx ++ [(pre, tokens_ s)]), [].
  rewrite length_app, plug_snoc, Hs. simpl. split_and!; [lia|done|done].
Qed.

Lemma Parse_end_block_inv st rest :
  parse_inv st ->
  match Parse_end_block st rest with
  | Continue st' => parse_inv st'
  | Undefined => ps_stack_size st = 0
  | Return b _ _ => b = false
  end.
Proof.
  intros (Hb & Hok & Hst). unfold Parse_end_block.
  destruct (ps_stack_size st) as [|n] eqn:Es; [by destruct (ps_last st)|].
  enough (Hg : parse_inv {| ps_config := ps_config st; ps_stack_size := n;
    ps_last := TOKEN_TYPE_END_BLOCK; ps_brackets := ps_brackets st - 1; ps_input := rest |})
    by (by destruct (ps_last st)).
  split_and!; simpl; [lia|done|]. destruct n as [|n]; [done|].
  destruct Hst as (ctx & block & Hd & Hc & _).
  destruct (list_snoc_cases ctx) as [->|(ctx' & [pre ts] & ->)]; [done|].
  rewrite plug_snoc in Hc. rewrite length_app in Hd. simpl in Hd.
  exists ctx', (pre ++ [Statement ts (Some block)]). split_and!; [lia|done|done].
Qed.

(** One iteration from a state that satisfies the invariant: the invariant is
    kept, undefined behaviour needs an empty stack, and success returns the tree. *)
Lemma Parse_step_inv st :
  parse_inv st ->
  match Parse_step st with
  | Continue st' => parse_inv st'
  | Undefined => ps_stack_size st = 0
  | Return b c out => b = true ->
      c = ps_config st /\ ps_stack_size st = 1 /\ out = []
  end.
Proof.
  intros HI. unfold Parse_step. destruct (ParseToken (ps_input st)) as [[tt t] rest] eqn:Et.
  destruct tt; try done.
  - pose proof (Parse_normal_inv st t rest HI (ParseToken_ok _ _ _ Et)) as H.
    case_match; naive_solver.
  - pose proof (Parse_start_block_inv st rest HI) as H. case_match; naive_solver.
  - pose proof (Parse_end_block_inv st rest HI) as H. case_match; naive_solver.
  - case_bool_decide as Hl; [done|].
    destruct HI as (Hb & Hok & Hst). split_and!; [done|done|]. simpl.
    destruct (ps_stack_size st); [congruence|]. naive_solver.
  - destruct HI as (Hb & _). unfold Parse_eof.
    destruct (ps_last st); try done; (destruct (Z.eqb_spec (ps_brackets st) 0); [|done]);
      intros _; split_and!; try done; lia.
Qed.

Lemma parse_inv_reach input config st :
  config_ok config = true -> rtc parse_step_rel (Parse_init input config) st -> parse_inv st.
Proof.
  intros Hc Hr. eapply rtc_invariant; [|exact Hr|by apply parse_inv_init].
  intros a b Ha Hab. pose proof (Parse_step_inv a Ha) as H. by rewrite Hab in H.
Qed.
