(* ===== verification/ConfigRoundTrip.v ===== *)
(** * Correctness of the config parser

    The printer and the parser of [src/config_parser.cc] are inverse: [Parse]
    reads back what [ToString] prints, and every tree [Parse] accepts is one
    [ToString] can print. Undefined behaviour of [Parse] is exactly a block that
    is closed more often than opened, and is ruled out by a check on the tokens.
    The queries on a parsed tree do not throw. *)

From S2P Require Import Prelude CxxString ConfigParser.

(** ** The braces of the token stream *)

(** The types of the tokens of a stream, to the end of the file or an error. *)
Fixpoint lex_types (fuel : nat) (input : bytes) : list TokenType :=
  match fuel with
  | O => []
  | S n =>
      let '(ty, _, rest) := ParseToken input in
      match ty with
      | TOKEN_TYPE_EOF | TOKEN_TYPE_ERROR => [ty]
      | _ => ty :: lex_types n rest
      end
  end.

(** From depth [k], no block is closed that was not opened. *)
Fixpoint braces_ok (k : nat) (tys : list TokenType) : bool :=
  match tys with
  | [] => true
  | TOKEN_TYPE_START_BLOCK :: l => braces_ok (S k) l
  | TOKEN_TYPE_END_BLOCK :: l => match k with O => false | S k' => braces_ok k' l end
  | _ :: l => braces_ok k l
  end.

Definition input_braces_ok (input : bytes) : bool :=
  braces_ok 0 (lex_types (S (length input)) input).

(** A state inside a tree, seen through its context. *)
Definition state_at (ctx : list (NginxConfig * list bytes)) (block : NginxConfig)
    (last : TokenType) (input : bytes) : parse_state :=
  {| ps_config := plug ctx block; ps_stack_size := S (length ctx); ps_last := last;
     ps_brackets := Z.of_nat (length ctx); ps_input := input |}.

(** The token types after which a statement may start. *)
Definition between (last : TokenType) : Prop :=
  last = TOKEN_TYPE_START \/ last = TOKEN_TYPE_STATEMENT_END \/
  last = TOKEN_TYPE_START_BLOCK \/ last = TOKEN_TYPE_END_BLOCK.

(** The token types after which a block or the file may end. *)
Definition complete (last : TokenType) : Prop :=
  last = TOKEN_TYPE_STATEMENT_END \/ last = TOKEN_TYPE_END_BLOCK.

(** Tokens, each after a space. *)
Fixpoint spaced (ts : list bytes) : bytes :=
  match ts with [] => [] | t :: ts' => SP :: t ++ spaced ts' end.

(** ** Reading tokens back *)

Lemma ParseToken_ws ws s :
  forallb is_initial_ws ws = true -> ParseToken (ws ++ s) = ParseToken s.
Proof.
  unfold ParseToken. induction ws as [|c ws IH]; [done|]. cbn [forallb].
  intros [Hc Hws]%andb_true_iff. rewrite <- IH by done. cbn [app ParseToken_loop].
  rewrite !bool_decide_false by (intros ->; vm_compute in Hc; done). by rewrite Hc.
Qed.

Lemma plain_loop_complete value r d rest :
  forallb (fun c => negb (ends_normal c)) r = true -> ends_normal d = true ->
  ParseToken_loop TOKEN_STATE_TOKEN_TYPE_NORMAL value (r ++ d :: rest) =
    (TOKEN_TYPE_NORMAL, value ++ r, d :: rest).
Proof.
  intros Hr Hd. revert value. induction r as [|c r IH]; intros value; cbn.
  - by rewrite Hd, app_nil_r.
  - cbn [forallb] in Hr. apply andb_true_iff in Hr as [Hc%negb_true_iff Hr].
    rewrite Hc, IH by done. by rewrite <- (assoc_L (++)).
Qed.

Lemma quote_loop_complete q value b rest :
  q = dquote \/ q = squote -> q ∉ b ->
  ParseToken_loop (quote_state q) value (b ++ q :: rest) =
    (TOKEN_TYPE_NORMAL, value ++ b ++ [q], rest).
Proof.
  intros Hq. revert value. induction b as [|c b IH]; intros value Hb; cbn [app];
    rewrite quote_loop_cons by done.
  - by rewrite bool_decide_true.
  - apply not_elem_of_cons in Hb as [Hc Hb].
    rewrite bool_decide_false, IH by congruence. by rewrite <- (assoc_L (++)).
Qed.

(** A well-formed token followed by a delimiter is read back. *)
Lemma ParseToken_complete t d rest :
  token_ok t = true -> ends_normal d = true ->
  ParseToken (t ++ d :: rest) = (TOKEN_TYPE_NORMAL, t, d :: rest).
Proof.
  unfold token_ok. intros [[H|H]%orb_true_iff|H]%orb_true_iff Hd.
  - apply quoted_by_elim in H as (b & -> & Hb). unfold ParseToken. simpl.
    rewrite <- (assoc_L (++)). by apply (quote_loop_complete dquote [dquote]); auto.
  - apply quoted_by_elim in H as (b & -> & Hb). unfold ParseToken. simpl.
    rewrite <- (assoc_L (++)). by apply (quote_loop_complete squote [squote]); auto.
  - destruct t as [|c r]; [done|]. apply andb_true_iff in H as [Hc Hr].
    unfold ParseToken. cbn [app ParseToken_loop].
    rewrite !bool_decide_false by (intros ->; vm_compute in Hc; done).
    assert (is_initial_ws c = false) as ->.
    { unfold starts_normal in Hc. destruct (is_initial_ws c); [|done].
      by rewrite orb_true_r in Hc. }
    by rewrite plain_loop_complete.
Qed.

(** ** Steps of the parser on printed text *)

Section steps.
Variables (ctx : list (NginxConfig * list bytes)) (ws : bytes).
Hypothesis Hws : forallb is_initial_ws ws = true.

Lemma step_token_fresh block last t d r :
  between last -> token_ok t = true -> ends_normal d = true ->
  parse_step_rel (state_at ctx block last (ws ++ t ++ d :: r))
    (state_at ctx (block ++ [Statement [t] None]) TOKEN_TYPE_NORMAL (d :: r)).
Proof.
  intros Hl Ht Hd. unfold parse_step_rel, Parse_step. simpl ps_input.
  rewrite ParseToken_ws, ParseToken_complete by done.
  unfold Parse_normal. simpl ps_last. rewrite (write_top_plug _ _ ctx block) by done.
  rewrite add_token_fresh by (by destruct Hl as [->|[->|[->| ->]]]).
  by destruct Hl as [->|[->|[->| ->]]].
Qed.

Lemma step_token_more pre ts t d r :
  token_ok t = true -> ends_normal d = true ->
  parse_step_rel (state_at ctx (pre ++ [Statement ts None]) TOKEN_TYPE_NORMAL (ws ++ t ++ d :: r))
    (state_at ctx (pre ++ [Statement (ts ++ [t]) None]) TOKEN_TYPE_NORMAL (d :: r)).
Proof.
  intros Ht Hd. unfold parse_step_rel, Parse_step. simpl ps_input.
  rewrite ParseToken_ws, ParseToken_complete by done.
  unfold Parse_normal. simpl ps_last.
  rewrite (write_top_plug _ _ ctx (pre ++ [Statement ts None])) by done.
  by rewrite add_token_more.
Qed.

Lemma step_semicolon block r :
  parse_step_rel (state_at ctx block TOKEN_TYPE_NORMAL (ws ++ ";"%char :: r))
    (state_at ctx block TOKEN_TYPE_STATEMENT_END r).
Proof. unfold parse_step_rel, Parse_step. simpl ps_input. by rewrite ParseToken_ws. Qed.

Lemma step_open pre ts r :
  parse_step_rel (state_at ctx (pre ++ [Statement ts None]) TOKEN_TYPE_NORMAL (ws ++ "{"%char :: r))
    (state_at (ctx ++ [(pre, ts)]) [] TOKEN_TYPE_START_BLOCK r).
Proof.
  unfold parse_step_rel, Parse_step. simpl ps_input. rewrite ParseToken_ws by done.
  cbn [ParseToken ParseToken_loop]. rewrite bool_decide_true by done.
  unfold Parse_start_block. rewrite bool_decide_false by naive_solver.
  rewrite (write_top_plug _ _ ctx (pre ++ [Statement ts None])) by done.
  rewrite reset_child_snoc. cbn. unfold state_at.
  rewrite length_app, plug_snoc. simpl. do 2 f_equal; lia.
Qed.

Lemma step_close pre ts block last r :
  last = TOKEN_TYPE_START_BLOCK \/ complete last ->
  parse_step_rel (state_at (ctx ++ [(pre, ts)]) block last (ws ++ "}"%char :: r))
    (state_at ctx (pre ++ [Statement ts (Some block)]) TOKEN_TYPE_END_BLOCK r).
Proof.
  intros Hl. unfold parse_step_rel, Parse_step. simpl ps_input. rewrite ParseToken_ws by done.
  cbn [ParseToken ParseToken_loop]. rewrite bool_decide_false, bool_decide_true by done.
  unfold Parse_end_block, state_at. cbn [ps_last ps_stack_size ps_config ps_brackets].
  rewrite length_app, plug_snoc. simpl length. rewrite Nat.add_comm. cbn [Nat.add].
  replace (Z.of_nat (S (length ctx)) - 1)%Z with (Z.of_nat (length ctx)) by lia.
  by destruct Hl as [->|[->| ->]].
Qed.

End steps.

Lemma complete_between last : complete last -> between last.
Proof. unfold complete, between. naive_solver. Qed.

Lemma join_tokens_cons t ts :
  join_tokens (t :: ts) = t ++ spaced ts.
Proof.
  revert t. induction ts as [|u ts IH]; intros t; [by rewrite app_nil_r|].
  change (join_tokens (t :: u :: ts)) with (t ++ §" " ++ join_tokens (u :: ts)).
  by rewrite IH.
Qed.

Lemma indent_ws depth : forallb is_initial_ws (indent depth) = true.
Proof. unfold indent. induction depth as [|n IH]; [done|]. exact IH. Qed.

Lemma spaced_delim ts d r :
  ends_normal d = true -> exists e r', spaced ts ++ d :: r = e :: r' /\ ends_normal e = true.
Proof. destruct ts; cbn; eauto. Qed.

(** The tokens of a statement after the first. *)
Lemma steps_more_tokens ctx pre ts0 ts d r :
  forallb token_ok ts = true -> ends_normal d = true ->
  rtc parse_step_rel
    (state_at ctx (pre ++ [Statement ts0 None]) TOKEN_TYPE_NORMAL
       (spaced ts ++ d :: r))
    (state_at ctx (pre ++ [Statement (ts0 ++ ts) None]) TOKEN_TYPE_NORMAL (d :: r)).
Proof.
  intros Hts Hd. revert ts0. induction ts as [|t ts IH]; intros ts0.
  { by rewrite app_nil_r. }
  cbn [forallb] in Hts. apply andb_true_iff in Hts as [Ht Hts].
  destruct (spaced_delim ts d r Hd) as (e & r' & He & Hn).
  eapply rtc_l.
  - cbn [spaced app]. rewrite <- (assoc_L (++)), He.
    by apply (step_token_more ctx [SP]).
  - rewrite <- He. change (t :: ts) with ([t] ++ ts). rewrite (assoc_L (++)). by apply IH.
Qed.

(** All the tokens of a statement. *)
Lemma steps_tokens ctx ws block last ts d r :
  forallb is_initial_ws ws = true -> between last -> ts <> [] ->
  forallb token_ok ts = true -> ends_normal d = true ->
  rtc parse_step_rel (state_at ctx block last (ws ++ join_tokens ts ++ d :: r))
    (state_at ctx (block ++ [Statement ts None]) TOKEN_TYPE_NORMAL (d :: r)).
Proof.
  intros Hws Hl Hne Hts Hd. destruct ts as [|t ts]; [done|]. clear Hne.
  cbn [forallb] in Hts. apply andb_true_iff in Hts as [Ht Hts].
  destruct (spaced_delim ts d r Hd) as (e & r' & He & Hn).
  rewrite join_tokens_cons, <- (assoc_L (++)). eapply rtc_l.
  - rewrite He. by apply step_token_fresh.
  - rewrite <- He. by apply (steps_more_tokens ctx block [t]).
Qed.

(** ** Printing and parsing back *)

Section print_parse.

(** What parsing the text of a statement does to the block it stands in. *)
Definition statement_reads (s : NginxConfigStatement) : Prop :=
  forall ctx ws block last depth r,
  forallb is_initial_ws ws = true -> between last ->
  exists last', complete last' /\
  rtc parse_step_rel (state_at ctx block last (ws ++ statement_ToString depth s ++ r))
    (state_at ctx (block ++ [s]) last' (LF :: r)).

Lemma config_reads c :
  Forall statement_reads c ->
  forall ctx ws block last depth r,
  forallb is_initial_ws ws = true -> between last ->
  exists last' ws', (c = [] /\ last' = last \/ complete last') /\
  forallb is_initial_ws ws' = true /\
  rtc parse_step_rel (state_at ctx block last (ws ++ config_ToString depth c ++ r))
    (state_at ctx (block ++ c) last' (ws' ++ r)).
Proof.
  induction 1 as [|s c Hs _ IH]; intros ctx ws block last depth r Hws Hl.
  - exists last, ws. rewrite app_nil_r. naive_solver.
  - destruct (Hs ctx ws block last depth (config_ToString depth c ++ r)) as (l1 & H1 & R1);
      [done|done|].
    destruct (IH ctx [LF] (block ++ [s]) l1 depth r) as (l2 & ws2 & H2 & Hws2 & R2);
      [done|by apply complete_between|].
    exists l2, ws2. split_and!; [naive_solver|done|].
    cbn [config_ToString]. rewrite <- (assoc_L (++) _ (config_ToString _ _)).
    etrans; [exact R1|]. by rewrite <- (assoc_L (++)) in R2.
Qed.

Lemma statement_reads_ok s : statement_ok s = true -> statement_reads s.
Proof.
  induction s as [ts|ts block IH] using statement_ind'; rewrite statement_ok_eq;
    intros [[Hne Hts]%andb_true_iff Hc]%andb_true_iff ctx ws b last depth r Hws Hl;
    rewrite statement_ToString_eq;
    (assert (Hw : forallb is_initial_ws (ws ++ indent depth) = true)
       by (by rewrite forallb_app, Hws, indent_ws)).
  - exists TOKEN_TYPE_STATEMENT_END. split; [by left|].
    rewrite <- !(assoc_L (++)), (assoc_L (++) ws).
    etrans; [apply steps_tokens; try done; by destruct ts|].
    apply rtc_once, (step_semicolon ctx []); done.
  - exists TOKEN_TYPE_END_BLOCK. split; [by right|].
    rewrite <- !(assoc_L (++)), (assoc_L (++) ws).
    etrans; [apply (steps_tokens ctx (ws ++ indent depth) b last ts SP); try done; by destruct ts|].
    eapply rtc_l; [apply (step_open ctx [SP]); done|].
    assert (HF : Forall statement_reads block).
    { apply Forall_forall. intros s Hs. rewrite Forall_forall in IH. apply IH; [done|].
      unfold config_ok in Hc. rewrite forallb_forall in Hc. apply Hc. by apply list_elem_of_In. }
    destruct (config_reads block HF (ctx ++ [(b, ts)]) [LF] [] TOKEN_TYPE_START_BLOCK
      (S depth) (indent depth ++ §"}" ++ [LF] ++ r)) as (l2 & ws2 & H2 & Hws2 & R2);
      [done|by right; right; left|].
    etrans; [exact R2|]. rewrite (assoc_L (++) ws2). apply rtc_once.
    apply (step_close ctx (ws2 ++ indent depth)); [by rewrite forallb_app, Hws2, indent_ws|].
    naive_solver.
Qed.

End print_parse.

Lemma forallb_ws_eof ws :
  forallb is_initial_ws ws = true -> ParseToken ws = (TOKEN_TYPE_EOF, [], []).
Proof. intros H. rewrite <- (app_nil_r ws). by rewrite ParseToken_ws. Qed.

Lemma config_ok_reads c : config_ok c = true -> Forall statement_reads c.
Proof.
  intros Hc. apply Forall_forall. intros s Hs. apply statement_reads_ok.
  unfold config_ok in Hc. rewrite forallb_forall in Hc. apply Hc. by apply list_elem_of_In.
Qed.

Lemma Parse_print c : config_ok c = true -> Parse (config_ToString 0 c) [] = Ok (true, c, []).
Proof.
  intros Hc. destruct (config_reads c (config_ok_reads c Hc) [] [] [] TOKEN_TYPE_START 0 [])
    as (l & ws & Hl & Hws & R); [done|by left|].
  rewrite !app_nil_r in R. eapply Parse_of_steps; [exact R|].
  unfold Parse_step. simpl ps_input. rewrite forallb_ws_eof by done. unfold Parse_eof. simpl.
  by destruct Hl as [[_ ->]|[->| ->]].
Qed.

Lemma Parse_accepts_ok input c out :
  Parse input [] = Ok (true, c, out) -> config_ok c = true /\ out = [].
Proof.
  intros (st & R & H)%Parse_inv. pose proof (parse_inv_reach input [] st eq_refl R) as HI.
  pose proof (Parse_step_inv st HI) as HS.
  destruct (Parse_step st) as [|b c' out'|]; [done| |done]. simplify_eq.
  destruct (HS eq_refl) as (-> & _ & ->). by destruct HI as (_ & ? & _).
Qed.

(** A reached iteration that is undefined makes [Parse] undefined. *)
Lemma Parse_UB_of_steps input config st :
  rtc parse_step_rel (Parse_init input config) st -> Parse_step st = Undefined ->
  Parse input config = UB.
Proof.
  intros Hs Hr. destruct (Parse_loop_total (S (length input)) (Parse_init input config))
    as [o Ho]; [simpl; lia|].
  destruct (Parse_loop_steps _ _ 1 UB Hs) as [m Hm]; [simpl; by rewrite Hr|].
  unfold Parse. rewrite Ho. simpl.
  apply Parse_loop_mono with (m := Nat.max (S (length input)) m) in Ho; [|lia].
  apply Parse_loop_mono with (m := Nat.max (S (length input)) m) in Hm; [|lia]. congruence.
Qed.

(** The stack is never used below its bottom when no block is closed too often. *)
Definition braces_inv (st : parse_state) : Prop :=
  parse_inv st /\
  exists k n, ps_stack_size st = S k /\ length (ps_input st) < n /\
    braces_ok k (lex_types n (ps_input st)) = true.

Lemma braces_inv_step st :
  braces_inv st ->
  match Parse_step st with Continue st' => braces_inv st' | Undefined => False | _ => True end.
Proof.
  intros (HI & k & n & Hk & Hn & Hb). pose proof (Parse_step_inv st HI) as HS.
  destruct (Parse_step st) as [st'| |] eqn:E; [|done|congruence].
  split; [done|]. clear HS HI. destruct n as [|n]; [lia|].
  assert (forall ty t rest, ParseToken (ps_input st) = (ty, t, rest) -> ty <> TOKEN_TYPE_EOF ->
    ty <> TOKEN_TYPE_ERROR -> length rest < n) as Hlt.
  { intros ty t rest Et H1 H2. apply ParseToken_length in Et; [lia|done|done]. }
  cbn [lex_types] in Hb. parse_step_inv E;
    specialize (Hlt _ _ _ eq_refl ltac:(done) ltac:(done));
    cbn [ps_stack_size ps_input braces_ok] in *; eauto 10.
  all: destruct k; [done|]; eauto 10.
Qed.

Lemma braces_inv_init input :
  input_braces_ok input = true -> braces_inv (Parse_init input []).
Proof.
  intros H. split; [by apply parse_inv_init|].
  exists 0, (S (length input)). simpl ps_input. split_and!; [done|lia|exact H].
Qed.

(** ** Locations *)

(** [t1] without its first and its last byte. *)
Definition unquote (t : bytes) : bytes := take (length t - 2) (drop 1 t).

(** What [get_location_result] should return on a tree. *)
Definition location_of (s : NginxConfigStatement) : option location_parse_result :=
  match tokens_ s with
  | [t0; t1; t2] =>
      if bool_decide (t0 = §"location")
      then Some {| uri := unquote t1; handler_name := t2; block_config := child_block_ s |}
      else None
  | _ => None
  end.

Lemma substr_unquote_any t :
  t <> [] -> (zlen t < SIZE_MOD)%Z -> substr t 1 (size_sub (zlen t) 2) = Ok (unquote t).
Proof.
  intros Hne Hl. unfold unquote, zlen in *.
  destruct t as [|a t]; [done|]. destruct (decide (t = [])) as [->|Ht]; [done|].
  destruct t as [|b t]; [done|]. clear Hne Ht. cbn [length] in *.
  rewrite size_sub_small by lia. rewrite substr_Ok by (unfold zlen; cbn [length]; lia).
  unfold zlen. cbn [length]. f_equal. f_equal. lia.
Qed.

Lemma unquote_quoted q b : unquote (q :: b ++ [q]) = b.
Proof.
  unfold unquote. simpl. rewrite length_app. simpl.
  replace (length b + 1 - 1) with (length b) by lia. apply take_app_length.
Qed.

Lemma token_ok_nonempty t : token_ok t = true -> t <> [].
Proof. by intros H ->. Qed.

(** ** Properties *)

(** C26: the loop of [Parse] terminates: on any stream and any out-parameter it
    produces a result within one iteration per byte and one more. *)
Theorem Parse_terminates (input : bytes) (config : NginxConfig) :
  exists o, Parse_loop (S (length input)) (Parse_init input config) = Some o /\
    Parse input config = o.
Proof.
  destruct (Parse_loop_total (S (length input)) (Parse_init input config)) as [o Ho];
    [simpl; lia|]. exists o. split; [done|]. unfold Parse. by rewrite Ho.
Qed.

(** C3: whatever text [Parse] accepts into an empty config, the printed form of
    the resulting tree is accepted again and gives the same tree: [ToString] loses
    nothing that [Parse] reads. *)
Theorem Parse_ToString_roundtrip (input : bytes) (c : NginxConfig) (out : bytes) :
  Parse input [] = Ok (true, c, out) ->
  Parse (config_ToString 0 c) [] = Ok (true, c, []).
Proof. intros H. apply Parse_print. by eapply Parse_accepts_ok. Qed.

Lemma Parse_ToString_roundtrip_witness :
  exists c, Parse (§"port 80; # comment
  location '/a' Echo { root b; }") [] = Ok (true, c, []) /\
  Parse (config_ToString 0 c) [] = Ok (true, c, []).
Proof.
  eexists. split; [vm_compute; reflexivity|].
  eapply (Parse_ToString_roundtrip (§"port 80; # comment
  location '/a' Echo { root b; }")). vm_compute. reflexivity.
Defined.

(** C22: every tree of well-formed tokens (statements with at least one token, each
    token plain or quoted) is read back by [Parse] from its printed form, at the top
    level, with nothing printed to the console. *)
Theorem ToString_Parse_roundtrip (c : NginxConfig) :
  config_ok c = true -> Parse (config_ToString 0 c) [] = Ok (true, c, []).
Proof. apply Parse_print. Qed.

Definition sample_config : NginxConfig :=
  [Statement [§"port"; §"80"] None;
   Statement [§"location"; [dquote] ++ §"/static/" ++ [dquote]; §"StaticHandler"]
     (Some [Statement [§"root"; [dquote] ++ §"." ++ [dquote]] None])].

Lemma ToString_Parse_roundtrip_witness :
  config_ok sample_config = true /\
  Parse (config_ToString 0 sample_config) [] = Ok (true, sample_config, []).
Proof. split; [reflexivity|]. apply ToString_Parse_roundtrip. reflexivity. Defined.

(** C23: when no block is closed that was not opened, [Parse] into an empty config
    has no undefined behaviour: it returns a well-formed tree and a boolean, and an
    accepted text leaves every block closed. *)
Theorem Parse_defined (input : bytes) :
  input_braces_ok input = true ->
  exists b c out, Parse input [] = Ok (b, c, out) /\ config_ok c = true.
Proof.
  intros Hb. destruct (Parse_inv input [] _ eq_refl) as (st & R & H).
  assert (HB : braces_inv st).
  { eapply rtc_invariant; [|exact R|by apply braces_inv_init].
    intros a b Ha Hab. pose proof (braces_inv_step a Ha) as HS. by rewrite Hab in HS. }
  pose proof (braces_inv_step st HB) as HS. destruct HB as ((_ & Hok & _) & _).
  destruct (Parse_step st) as [|b c out|] eqn:E; [done| |done].
  exists b, c, out. split; [done|]. parse_step_inv E; done.
Qed.

Lemma Parse_defined_witness :
  input_braces_ok (§"a { b c; } d") = true /\
  exists b c out, Parse (§"a { b c; } d") [] = Ok (b, c, out) /\ config_ok c = true.
Proof. split; [reflexivity|]. apply Parse_defined. reflexivity. Defined.

(** C35: a closing brace too many, followed by a further token, is undefined
    behaviour: after any well-formed config text, [Parse] pops the caller's own config
    off its stack and then writes through [top()] of the empty stack. *)
Theorem Parse_unmatched_brace (c : NginxConfig) (t r : bytes) :
  config_ok c = true -> c <> [] -> token_ok t = true ->
  Parse (config_ToString 0 c ++ §"} " ++ t ++ §";" ++ r) [] = UB.
Proof.
  intros Hc Hne Ht.
  destruct (config_reads c (config_ok_reads c Hc) [] [] [] TOKEN_TYPE_START 0
    (§"} " ++ t ++ §";" ++ r)) as (l & ws & Hl & Hws & R); [done|by left|].
  assert (complete l) as Hl' by naive_solver. clear Hl.
  set (st := {| ps_config := c; ps_stack_size := 0; ps_last := TOKEN_TYPE_END_BLOCK;
    ps_brackets := -1; ps_input := [SP] ++ t ++ ";"%char :: r |}).
  apply (Parse_UB_of_steps _ _ st).
  - eapply rtc_r; [exact R|]. unfold parse_step_rel, Parse_step. simpl ps_input.
    rewrite ParseToken_ws by done. by destruct Hl' as [-> | ->].
  - unfold Parse_step. cbn [ps_input st].
    by rewrite ParseToken_ws, ParseToken_complete by done.
Qed.

Lemma Parse_unmatched_brace_witness :
  Parse (config_ToString 0 sample_config ++ §"} " ++ §"x" ++ §";" ++ []) [] = UB.
Proof. apply Parse_unmatched_brace; [reflexivity|discriminate|reflexivity]. Defined.

(** C24: [parse_port] returns the first value, in document order over the nested
    blocks, among the two-token [port] statements without a block that reads as a number in
    0..65535, and -1 when there is none; no other number is ever returned. *)
Theorem parse_port_first (config : NginxConfig) :
  parse_port config = first_port (config_ports config) /\
  forall p, parse_port config = Ok p -> p = (-1)%Z \/ (0 <= p <= 65535)%Z.
Proof.
  split; [apply parse_port_spec|]. intros p. rewrite parse_port_spec. apply first_port_range.
Qed.

(** C25: on a tree of well-formed tokens [get_location_result] does not throw; it
    lists the three-token [location] statements in order, each with its handler name, its block
    and its second token without the first and the last byte, so a quoted path is unquoted. *)
Theorem get_location_result_spec (c : NginxConfig) :
  config_ok c = true ->
  (forall s t, s ∈ c -> t ∈ tokens_ s -> (zlen t < SIZE_MOD)%Z) ->
  get_location_result c = Ok (omap location_of c) /\
  forall q b, unquote (q :: b ++ [q]) = b.
Proof.
  intros Hok Hlen. split; [|apply unquote_quoted].
  induction c as [|s c IH]; [done|].
  unfold config_ok in Hok. cbn [forallb] in Hok. apply andb_true_iff in Hok as [Hs Hc].
  assert (IH' : get_location_result c = Ok (omap location_of c)).
  { apply IH; [done|]. intros s' t Hs'. apply Hlen. by right. }
  cbn [get_location_result omap list_omap]. unfold location_of at 1.
  destruct s as [ts child]. cbn [tokens_ child_block_].
  destruct ts as [|t0 [|t1 [|t2 [|? ?]]]]; try done.
  case_bool_decide; [|done].
  rewrite statement_ok_eq in Hs. cbn [forallb andb] in Hs.
  rewrite substr_unquote_any; [cbn [mbind outcome_bind]; by rewrite IH'| |].
  - apply token_ok_nonempty. destruct (token_ok t0), (token_ok t1); done.
  - eapply Hlen; [by left|]. simpl. set_solver.
Qed.

Lemma get_location_result_spec_witness :
  get_location_result sample_config = Ok (omap location_of sample_config) /\
  forall q b, unquote (q :: b ++ [q]) = b.
Proof.
  apply get_location_result_spec; [reflexivity|].
  intros s t Hs Ht. unfold sample_config in Hs.
  repeat (apply elem_of_cons in Hs as [->|Hs];
    [repeat (apply elem_of_cons in Ht as [->|Ht]; [reflexivity|]); by apply elem_of_nil in Ht|]).
  by apply elem_of_nil in Hs.
Defined.
