(* ===== verification/RequestParser.v ===== *)
(** * Requests and the incremental request parser

    Models [include/request.h], [include/request_parser.h] and
    [src/request_parser.cc]: the request record, the character classes, the state
    machine [consume], the driver [parse] and [reset].

    [method_] is an [option]: a default-initialised [request] holds an
    indeterminate enum, which is [None] here. [parse] takes the bytes
    [data .. end) and the offset of [begin]; addresses are flat, so
    [begin + body_length <= end] is a comparison of offsets. [body_length] is an
    [int]: its decrement below [INT_MIN] is undefined behaviour, and [std::stoi]
    may throw. *)

From S2P Require Import Prelude CxxString CxxMap.

(** ** Data *)

Inductive http_method := GET | POST | PUT | HEAD | INVALID.

#[export] Instance http_method_eq_dec : EqDecision http_method.
Proof. solve_decision. Defined.

Record request := mkRequest {
  method_ : option http_method;
  uri_ : bytes;
  version_ : bytes;
  headers_ : std_map bytes;
  body_ : bytes
}.

#[export] Instance request_eq_dec : EqDecision request.
Proof. solve_decision. Defined.

(** A default-initialised [request]: the method is indeterminate. *)
Definition request_default : request := mkRequest None [] [] [] [].

(** [request_ = {}]: value-initialised, the enum is 0. *)
Definition request_value_init : request := mkRequest (Some GET) [] [] [] [].

Inductive result_type := good | bad | indeterminate.

#[export] Instance result_type_eq_dec : EqDecision result_type.
Proof. solve_decision. Defined.

(** The states of the parser, with the prefix [s_] before the source's names. *)
Inductive state :=
| s_method_start | s_method | s_uri | s_http_version_h | s_http_version_t_1
| s_http_version_t_2 | s_http_version_p | s_http_version_slash
| s_http_version_major_start | s_http_version_major | s_http_version_minor_start
| s_http_version_minor | s_expecting_newline_1 | s_header_line_start | s_header_lws
| s_header_name | s_space_before_header_value | s_header_value | s_expecting_newline_2
| s_expecting_newline_3 | s_body.

#[export] Instance state_eq_dec : EqDecision state.
Proof. solve_decision. Defined.

Record request_parser := mkParser {
  state_ : state;
  header_key : bytes;
  header_val : bytes;
  method_str : bytes;
  body_length : Z
}.

(** The constructor, and what [reset] assigns. *)
Definition request_parser_init : request_parser := mkParser s_method_start [] [] [] 0.

Definition reset (p : request_parser) : request_parser := mkParser s_method_start [] [] [] 0.

(** ** Character classes, on the promoted [char] *)

Definition is_char (c : Z) : bool := ((0 <=? c) && (c <=? 127))%Z.

Definition is_ctl (c : Z) : bool := (((0 <=? c) && (c <=? 31)) || (c =? 127))%Z.

Definition tspecials : bytes :=
  §"()<>@,;:\" ++ [dquote] ++ §"/[]?={} " ++ [TAB].

Definition is_tspecial (c : Z) : bool :=
  existsb (fun d => Z.eqb c (char_to_int d)) tspecials.

Definition is_digit (c : Z) : bool := ((48 <=? c) && (c <=? 57))%Z.

(** [!is_char(input) || is_ctl(input) || is_tspecial(input)]. *)
Definition not_token_char (c : ascii) : bool :=
  negb (is_char (char_to_int c)) || is_ctl (char_to_int c) || is_tspecial (char_to_int c).

(** ** Field updates *)

Definition set_state (s : state) (p : request_parser) : request_parser :=
  mkParser s (header_key p) (header_val p) (method_str p) (body_length p).

Definition push_method (c : ascii) (p : request_parser) : request_parser :=
  mkParser (state_ p) (header_key p) (header_val p) (method_str p ++ [c]) (body_length p).

Definition push_key (c : ascii) (p : request_parser) : request_parser :=
  mkParser (state_ p) (header_key p ++ [c]) (header_val p) (method_str p) (body_length p).

Definition push_val (c : ascii) (p : request_parser) : request_parser :=
  mkParser (state_ p) (header_key p) (header_val p ++ [c]) (method_str p) (body_length p).

Definition clear_header (p : request_parser) : request_parser :=
  mkParser (state_ p) [] [] (method_str p) (body_length p).

Definition set_body_length (n : Z) (p : request_parser) : request_parser :=
  mkParser (state_ p) (header_key p) (header_val p) (method_str p) n.

Definition push_uri (c : ascii) (r : request) : request :=
  mkRequest (method_ r) (uri_ r ++ [c]) (version_ r) (headers_ r) (body_ r).

Definition push_version (c : ascii) (r : request) : request :=
  mkRequest (method_ r) (uri_ r) (version_ r ++ [c]) (headers_ r) (body_ r).

Definition push_body (c : ascii) (r : request) : request :=
  mkRequest (method_ r) (uri_ r) (version_ r) (headers_ r) (body_ r ++ [c]).

Definition insert_header (k v : bytes) (r : request) : request :=
  mkRequest (method_ r) (uri_ r) (version_ r) (map_insert k v (headers_ r)) (body_ r).

Definition set_method (m : http_method) (r : request) : request :=
  mkRequest (Some m) (uri_ r) (version_ r) (headers_ r) (body_ r).

(** [body_length--] on an [int]. *)
Definition int_pred (z : Z) : outcome Z := if (z =? INT_MIN)%Z then UB else Ok (z - 1)%Z.

(** ** The state machine *)

(** [if (header_key != "") { insert; if (header_key == "Content-Length")
    body_length = stoi(header_val); }], common to two states. *)
Definition store_header (p : request_parser) (r : request) : outcome (request_parser * request) :=
  if bool_decide (header_key p <> []) then
    let r' := insert_header (header_key p) (header_val p) r in
    if bool_decide (header_key p = §"Content-Length") then
      n ← stoi (header_val p); Ok (set_body_length n p, r')
    else Ok (p, r')
  else Ok (p, r).

(** A transition that only moves to another state. *)
Definition go (s : state) (p : request_parser) (r : request)
    : outcome (result_type * request_parser * request) :=
  Ok (indeterminate, set_state s p, r).

(** A version character that moves to another state. *)
Definition go_version (s : state) (c : ascii) (p : request_parser) (r : request)
    : outcome (result_type * request_parser * request) :=
  Ok (indeterminate, set_state s p, push_version c r).

Definition reject (p : request_parser) (r : request)
    : outcome (result_type * request_parser * request) := Ok (bad, p, r).

(** The cases of the machine from the name of a header on. *)
Definition header_name_byte (p : request_parser) (r : request) (input : ascii) : outcome (result_type * request_parser * request) :=
  if bool_decide (input = ":"%char) then go s_space_before_header_value p r
  else if not_token_char input then reject p r
  else Ok (indeterminate, push_key input p, r).

Definition before_value_byte (p : request_parser) (r : request) (input : ascii) : outcome (result_type * request_parser * request) :=
  if bool_decide (input = SP) then go s_header_value p r else reject p r.

Definition header_value_byte (p : request_parser) (r : request) (input : ascii) : outcome (result_type * request_parser * request) :=
  if bool_decide (input = CR) then go s_expecting_newline_2 p r
  else if is_ctl (char_to_int input) then reject p r
  else Ok (indeterminate, push_val input p, r).

Definition header_newline_byte (p : request_parser) (r : request) (input : ascii) : outcome (result_type * request_parser * request) :=
  if bool_decide (input = LF) then go s_header_line_start p r else reject p r.

Definition headers_end_byte (p : request_parser) (r : request) (input : ascii) : outcome (result_type * request_parser * request) :=
  '(p0, r1) ← store_header p r;
  let p1 := if bool_decide (header_key p <> []) then clear_header p0 else p0 in
  if bool_decide (input = LF) then
    if (body_length p1 =? 0)%Z then Ok (good, p1, r1)
    else Ok (indeterminate, set_state s_body p1, r1)
  else Ok (bad, p1, r1).

Definition body_byte (p : request_parser) (r : request) (input : ascii) : outcome (result_type * request_parser * request) :=
  n ← int_pred (body_length p);
  let p1 := set_body_length n p in
  let r1 := push_body input r in
  if (n =? 0)%Z then Ok (good, p1, r1) else Ok (indeterminate, p1, r1).

Definition consume (p : request_parser) (r : request) (input : ascii)
    : outcome (result_type * request_parser * request) :=
  let c := char_to_int input in
  match state_ p with
  | s_method_start =>
      if not_token_char input then reject p r
      else Ok (indeterminate, push_method input (set_state s_method p), r)
  | s_method =>
      if bool_decide (input = SP) then go s_uri p r
      else if not_token_char input then reject p r
      else Ok (indeterminate, push_method input p, r)
  | s_uri =>
      if bool_decide (input = SP) then go s_http_version_h p r
      else if is_ctl c then reject p r
      else Ok (indeterminate, p, push_uri input r)
  | s_http_version_h =>
      if bool_decide (input = "H"%char) then go_version s_http_version_t_1 input p r else reject p r
  | s_http_version_t_1 =>
      if bool_decide (input = "T"%char) then go_version s_http_version_t_2 input p r else reject p r
  | s_http_version_t_2 =>
      if bool_decide (input = "T"%char) then go_version s_http_version_p input p r else reject p r
  | s_http_version_p =>
      if bool_decide (input = "P"%char) then go_version s_http_version_slash input p r else reject p r
  | s_http_version_slash =>
      if bool_decide (input = "/"%char)
      then go_version s_http_version_major_start input p r else reject p r
  | s_http_version_major_start =>
      if is_digit c then go_version s_http_version_major input p r else reject p r
  | s_http_version_major =>
      if bool_decide (input = "."%char) then go_version s_http_version_minor_start input p r
      else if is_digit c then Ok (indeterminate, p, push_version input r)
      else reject p r
  | s_http_version_minor_start =>
      if is_digit c then go_version s_http_version_minor input p r else reject p r
  | s_http_version_minor =>
      if bool_decide (input = CR) then go s_expecting_newline_1 p r
      else if is_digit c then Ok (indeterminate, p, push_version input r)
      else reject p r
  | s_expecting_newline_1 =>
      if bool_decide (input = LF) then go s_header_line_start p r else reject p r
  | s_header_line_start =>
      if bool_decide (input = CR) then go s_expecting_newline_3 p r
      else if bool_decide (headers_ r <> []) &&
              (bool_decide (input = SP) || bool_decide (input = TAB)) then
        go s_header_lws p r
      else if not_token_char input then reject p r
      else
        '(p1, r1) ← store_header p r;
        Ok (indeterminate, set_state s_header_name (push_key input (clear_header p1)), r1)
  | s_header_lws =>
      if bool_decide (input = CR) then go s_expecting_newline_2 p r
      else if bool_decide (input = SP) || bool_decide (input = TAB) then
        Ok (indeterminate, p, r)
      else if is_ctl c then reject p r
      else Ok (indeterminate, push_val input (set_state s_header_value p), r)
  | s_header_name => header_name_byte p r input
  | s_space_before_header_value => before_value_byte p r input
  | s_header_value => header_value_byte p r input
  | s_expecting_newline_2 => header_newline_byte p r input
  | s_expecting_newline_3 => headers_end_byte p r input
  | s_body => body_byte p r input
  end.

(** One step of the machine, with its cases. *)
Tactic Notation "unfold_consume" :=
  unfold consume, header_name_byte, before_value_byte, header_value_byte, header_newline_byte,
    headers_end_byte, body_byte.
Tactic Notation "unfold_consume" "in" hyp(H) :=
  unfold consume, header_name_byte, before_value_byte, header_value_byte, header_newline_byte,
    headers_end_byte, body_byte in H.

(** The chain of comparisons at the end of [parse]. *)
Definition method_of_str (s : bytes) : http_method :=
  if bool_decide (s = §"GET") then GET
  else if bool_decide (s = §"POST") then POST
  else if bool_decide (s = §"PUT") then PUT
  else if bool_decide (s = §"HEAD") then HEAD
  else INVALID.

Record parse_result := mkParseResult {
  pr_result : result_type;
  pr_begin : Z;            (* the returned pointer, as an offset *)
  pr_body_length : Z;
  pr_parser : request_parser;
  pr_request : request
}.

(** The loop of [parse], from offset [begin] with the bytes [buf] left. *)
Fixpoint parse_loop (p : request_parser) (r : request) (buf : bytes) (begin end_ : Z)
    : outcome parse_result :=
  match buf with
  | [] => Ok (mkParseResult indeterminate begin (body_length p) p r)
  | c :: rest =>
      '(result, p', r') ← consume p r c;
      match result with
      | indeterminate => parse_loop p' r' rest (begin + 1) end_
      | _ =>
          let r'' := set_method (method_of_str (method_str p')) r' in
          let begin' := (begin + 1)%Z in
          if (begin' + body_length p' <=? end_)%Z
          then Ok (mkParseResult result begin' (body_length p') p' r'')
          else Ok (mkParseResult indeterminate begin' (body_length p') p' r'')
      end
  end.

(** [parse(req, data + begin, data + length data)]; a start outside of the
    buffer makes the loop read outside of it. *)
Definition parse (p : request_parser) (r : request) (data : bytes) (begin : Z)
    : outcome parse_result :=
  if ((0 <=? begin) && (begin <=? zlen data))%Z
  then parse_loop p r (drop (Z.to_nat begin) data) begin (zlen data)
  else UB.
