(* ===== verification/RequestRoundTrip.v ===== *)
(** * Correctness of the request parser

    [feed] runs the state machine to its first verdict and is the reference for
    [parse]: it does not depend on how the bytes are split into reads. On the wire
    form of a well-formed request it accepts at the last byte and rebuilds the
    request; what it accepts is always syntactically valid. The error theorems state
    what the machine does with the lengths it does not check. *)

From S2P Require Import Prelude CxxString CxxMap RequestParser.

(** ** Reference semantics *)

(** Consume bytes up to the first verdict; the last component is what is left. *)
Fixpoint feed (p : request_parser) (r : request) (buf : bytes)
    : outcome (result_type * request_parser * request * bytes) :=
  match buf with
  | [] => Ok (indeterminate, p, r, [])
  | c :: rest =>
      '(result, p', r') ← consume p r c;
      match result with
      | indeterminate => feed p' r' rest
      | _ => Ok (result, p', r', rest)
      end
  end.

(** All of [s] is consumed without a verdict. *)
Definition runs (p : request_parser) (r : request) (s : bytes)
    (p' : request_parser) (r' : request) : Prop :=
  feed p r s = Ok (indeterminate, p', r', []).

(** ** The wire form of a request *)

Definition header_line (kv : bytes * bytes) : bytes := kv.1 ++ §": " ++ kv.2 ++ crlf.

Definition wire (m : bytes) (r : request) : bytes :=
  m ++ §" " ++ uri_ r ++ §" " ++ version_ r ++ crlf ++
  mjoin (header_line <$> headers_ r) ++ crlf ++ body_ r.

Definition http_token (s : bytes) : bool :=
  bool_decide (s <> []) && forallb (fun c => negb (not_token_char c)) s.

Definition uri_ok (s : bytes) : bool :=
  forallb (fun c => negb (bool_decide (c = SP)) && negb (is_ctl (char_to_int c))) s.

Definition value_ok (s : bytes) : bool := forallb (fun c => negb (is_ctl (char_to_int c))) s.

Definition digits_ok (s : bytes) : bool :=
  bool_decide (s <> []) && forallb (fun c => is_digit (char_to_int c)) s.

(** "HTTP/" digits "." digits *)
Definition version_ok (v : bytes) : Prop :=
  exists a b, v = §"HTTP/" ++ a ++ §"." ++ b /\ digits_ok a = true /\ digits_ok b = true.

Definition header_ok (kv : bytes * bytes) : bool := http_token kv.1 && value_ok kv.2.

(** The declared length is the length of the body. *)
Definition framing_ok (r : request) : Prop :=
  match map_find (§"Content-Length") (headers_ r) with
  | Some v => stoi v = Ok (zlen (body_ r))
  | None => body_ r = []
  end.

Record wf_request (r : request) : Prop := {
  wf_uri : uri_ok (uri_ r) = true;
  wf_version : version_ok (version_ r);
  wf_headers : map_wf (headers_ r);
  wf_header_syntax : forallb header_ok (headers_ r) = true;
  wf_framing : framing_ok r
}.

(** ** Composition of runs *)

Lemma feed_runs p r a p' r' b : runs p r a p' r' -> feed p r (a ++ b) = feed p' r' b.
Proof.
  unfold runs. revert p r. induction a as [|c a IH]; intros p r H; simpl in *; [by simplify_eq|].
  destruct (consume p r c) as [[[res p1] r1]| |]; simpl in *; [|done|done].
  destruct res; [done|done|]. by apply IH.
Qed.

Lemma runs_nil p r : runs p r [] p r.
Proof. done. Qed.

Lemma runs_app p r a p1 r1 b p2 r2 :
  runs p r a p1 r1 -> runs p1 r1 b p2 r2 -> runs p r (a ++ b) p2 r2.
Proof. intros H1 H2. unfold runs. by rewrite (feed_runs _ _ _ _ _ _ H1). Qed.

Lemma runs_one p r c p' r' :
  consume p r c = Ok (indeterminate, p', r') -> runs p r [c] p' r'.
Proof. intros H. unfold runs. simpl. by rewrite H. Qed.

Lemma runs_cons p r c p1 r1 s p2 r2 :
  consume p r c = Ok (indeterminate, p1, r1) -> runs p1 r1 s p2 r2 -> runs p r (c :: s) p2 r2.
Proof. intros H1 H2. by eapply (runs_app _ _ [c]); [apply runs_one|]. Qed.

(** [feed] of two chunks, in one read or in two. *)
Lemma feed_app p r a b :
  feed p r (a ++ b) =
  ('(res, p', r', rest) ← feed p r a;
   match res with
   | indeterminate => feed p' r' b
   | _ => Ok (res, p', r', rest ++ b)
   end).
Proof.
  revert p r. induction a as [|c a IH]; intros p r; simpl; [done|].
  destruct (consume p r c) as [[[res p1] r1]| |]; simpl; [|done|done].
  by destruct res.
Qed.

Lemma feed_suffix p r s res p' r' rest :
  feed p r s = Ok (res, p', r', rest) ->
  exists pre, s = pre ++ rest /\ (res = indeterminate -> rest = []).
Proof.
  revert p r. induction s as [|c s IH]; intros p r H; simpl in H.
  - simplify_eq. by exists [].
  - destruct (consume p r c) as [[[res1 p1] r1]| |]; simpl in H; [|done|done].
    destruct res1; simplify_eq; [by exists [c]|by exists [c]|].
    destruct (IH _ _ H) as (pre & -> & Hp). by exists (c :: pre).
Qed.

(** [parse_loop] is [feed], then the method and the length test. *)
Lemma parse_loop_feed p r buf begin end_ :
  parse_loop p r buf begin end_ =
  ('(res, p', r', rest) ← feed p r buf;
   let begin' := (begin + zlen buf - zlen rest)%Z in
   match res with
   | indeterminate => Ok (mkParseResult indeterminate begin' (body_length p') p' r')
   | _ =>
       Ok (mkParseResult (if (begin' + body_length p' <=? end_)%Z then res else indeterminate)
             begin' (body_length p') p' (set_method (method_of_str (method_str p')) r'))
   end).
Proof.
  revert p r begin. induction buf as [|c buf IH]; intros p r begin;
    cbn [parse_loop feed mbind outcome_bind].
  - do 2 f_equal. unfold zlen. simpl. lia.
  - destruct (consume p r c) as [[[res p1] r1]| |]; cbn [mbind outcome_bind]; [|done|done].
    assert (Hz : forall rest : bytes, (begin + 1 + zlen buf - zlen rest =
      begin + zlen (c :: buf) - zlen rest)%Z) by (intros; unfold zlen; simpl; lia).
    destruct res; cbn [mbind outcome_bind].
    1-2: rewrite <- Hz; replace (begin + 1 + zlen buf - zlen buf)%Z with (begin + 1)%Z by lia;
      by case_match.
    rewrite IH. destruct (feed p1 r1 buf) as [[[[res2 p2] r2] rest]| |];
      cbn [mbind outcome_bind]; [|done|done].
    by rewrite Hz.
Qed.

(** ** Runs over the parts of a request *)

(** One step of a run whose guards are known. *)
Ltac run_step :=
  eapply runs_cons; [unfold_consume; unfold go, go_version; cbn [state_ set_state]; reflexivity|].

Lemma negb_true_false b : negb b = true -> b = false.
Proof. by destruct b. Qed.

Lemma not_token_SP : not_token_char SP = true.
Proof. reflexivity. Qed.

Lemma token_char_not c d : not_token_char d = true -> not_token_char c = false -> c <> d.
Proof. intros H1 H2 ->. congruence. Qed.

Lemma ctl_char_not c d :
  is_ctl (char_to_int d) = true -> is_ctl (char_to_int c) = false -> c <> d.
Proof. intros H1 H2 ->. congruence. Qed.

Lemma run_method_rest k v ms n r s :
  forallb (fun c => negb (not_token_char c)) s = true ->
  runs (mkParser s_method k v ms n) r s (mkParser s_method k v (ms ++ s) n) r.
Proof.
  revert ms. induction s as [|c s IH]; intros ms H; [rewrite app_nil_r; apply runs_nil|].
  cbn [forallb] in H. apply andb_true_iff in H as [Hc%negb_true_false Hs].
  eapply runs_cons; [|rewrite cons_middle, (assoc_L (++)); by apply IH].
  unfold_consume. cbn [state_]. rewrite bool_decide_false, Hc; [done|].
  by eapply token_char_not.
Qed.

Lemma run_method m r :
  http_token m = true ->
  runs request_parser_init r (m ++ §" ") (mkParser s_uri [] [] m 0) r.
Proof.
  intros [Hne%bool_decide_eq_true Hm]%andb_true_iff. destruct m as [|c m]; [done|].
  cbn [forallb] in Hm. apply andb_true_iff in Hm as [Hc%negb_true_false Hm].
  eapply runs_cons; [unfold_consume; cbn [state_ request_parser_init]; by rewrite Hc|].
  eapply runs_app; [by apply run_method_rest|]. by apply runs_one.
Qed.

Lemma run_uri k v ms n r s :
  uri_ok s = true ->
  runs (mkParser s_uri k v ms n) r (s ++ §" ") (mkParser s_http_version_h k v ms n)
    (mkRequest (method_ r) (uri_ r ++ s) (version_ r) (headers_ r) (body_ r)).
Proof.
  revert r. induction s as [|c s IH]; intros r H.
  - apply runs_one. rewrite app_nil_r. by destruct r.
  - unfold uri_ok in H. cbn [forallb] in H.
    apply andb_true_iff in H as [[Hsp%negb_true_false Hc%negb_true_false]%andb_true_iff Hs].
    eapply runs_cons; [unfold_consume; cbn [state_]; by rewrite Hsp, Hc|].
    rewrite cons_middle, (assoc_L (++) (uri_ r)). by apply (IH (push_uri c r)).
Qed.

(** Digits of the version, in a state that loops on digits. *)
Lemma run_digits st k v ms n r s :
  st = s_http_version_major \/ st = s_http_version_minor ->
  forallb (fun c => is_digit (char_to_int c)) s = true ->
  runs (mkParser st k v ms n) r s (mkParser st k v ms n)
    (mkRequest (method_ r) (uri_ r) (version_ r ++ s) (headers_ r) (body_ r)).
Proof.
  intros Hst. revert r. induction s as [|c s IH]; intros r H.
  - rewrite app_nil_r. destruct r. apply runs_nil.
  - cbn [forallb] in H. apply andb_true_iff in H as [Hc Hs].
    eapply (runs_cons _ _ _ _ (push_version c r)).
    + unfold_consume. destruct Hst as [-> | ->]; cbn [state_];
        rewrite bool_decide_false by (intros ->; vm_compute in Hc; done); by rewrite Hc.
    + rewrite cons_middle, (assoc_L (++) (version_ r)). by apply (IH (push_version c r)).
Qed.

(** Requests with equal fields, without unfolding how they were built. *)
Lemma request_eq r1 r2 :
  method_ r1 = method_ r2 -> uri_ r1 = uri_ r2 -> version_ r1 = version_ r2 ->
  headers_ r1 = headers_ r2 -> body_ r1 = body_ r2 -> r1 = r2.
Proof. destruct r1, r2. cbn. by intros -> -> -> -> ->. Qed.

Lemma runs_nil_eq p r p' r' : p = p' -> r = r' -> runs p r [] p' r'.
Proof. intros -> ->. apply runs_nil. Qed.

Lemma run_version k v ms n r s :
  version_ok s -> version_ r = [] ->
  runs (mkParser s_http_version_h k v ms n) r (s ++ crlf)
    (mkParser s_header_line_start k v ms n)
    (mkRequest (method_ r) (uri_ r) s (headers_ r) (body_ r)).
Proof.
  intros (a & b & -> & [Ha%bool_decide_eq_true Ha']%andb_true_iff &
    [Hb%bool_decide_eq_true Hb']%andb_true_iff) Hv.
  destruct a as [|a0 a]; [done|]. destruct b as [|b0 b]; [done|]. clear Ha Hb.
  cbn [forallb] in Ha', Hb'. apply andb_true_iff in Ha' as [Ha0 Ha], Hb' as [Hb0 Hb].
  cbn [lit String.list_ascii_of_string app]. do 5 run_step.
  eapply runs_cons; [unfold_consume; unfold go_version; cbn [state_ set_state]; rewrite Ha0; reflexivity|].
  rewrite <- (assoc_L (++)). eapply runs_app; [by apply run_digits; [left|]|]. run_step.
  eapply runs_cons; [unfold_consume; unfold go_version; cbn [state_ set_state]; rewrite Hb0; reflexivity|].
  eapply runs_app; [by apply run_digits; [right|]|]. do 2 run_step.
  apply runs_nil_eq; [done|apply request_eq; cbn; try reflexivity].
  rewrite Hv, <- !(assoc_L (++)). reflexivity.
Qed.

Lemma run_key k0 v ms n r s :
  forallb (fun c => negb (not_token_char c)) s = true ->
  runs (mkParser s_header_name k0 v ms n) r s (mkParser s_header_name (k0 ++ s) v ms n) r.
Proof.
  revert k0. induction s as [|c s IH]; intros k0 H; [rewrite app_nil_r; apply runs_nil|].
  cbn [forallb] in H. apply andb_true_iff in H as [Hc%negb_true_false Hs].
  eapply runs_cons; [|rewrite cons_middle, (assoc_L (++)); by apply IH].
  unfold_consume. cbn [state_]. rewrite bool_decide_false, Hc; [done|].
  by eapply token_char_not.
Qed.

Lemma run_value k v0 ms n r s :
  value_ok s = true ->
  runs (mkParser s_header_value k v0 ms n) r s (mkParser s_header_value k (v0 ++ s) ms n) r.
Proof.
  revert v0. induction s as [|c s IH]; intros v0 H; [rewrite app_nil_r; apply runs_nil|].
  unfold value_ok in H. cbn [forallb] in H. apply andb_true_iff in H as [Hc%negb_true_false Hs].
  eapply runs_cons; [|rewrite cons_middle, (assoc_L (++)); by apply IH].
  unfold_consume. cbn [state_]. rewrite bool_decide_false, Hc; [done|].
  by eapply ctl_char_not.
Qed.

Lemma store_header_fields p r p1 r1 :
  store_header p r = Ok (p1, r1) ->
  state_ p1 = state_ p /\ method_str p1 = method_str p /\
  method_ r1 = method_ r /\ uri_ r1 = uri_ r /\ version_ r1 = version_ r /\ body_ r1 = body_ r.
Proof.
  unfold store_header. intros H. repeat case_bool_decide; ok_inv; naive_solver.
Qed.

(** The first byte of a header line stores the header before it. *)
Lemma consume_header_start p r c p1 r1 :
  state_ p = s_header_line_start -> not_token_char c = false ->
  store_header p r = Ok (p1, r1) ->
  consume p r c = Ok (indeterminate, mkParser s_header_name [c] [] (method_str p) (body_length p1), r1).
Proof.
  intros Hst Hc Hs. unfold_consume. rewrite Hst.
  rewrite !(bool_decide_false (c = _)) by (by eapply token_char_not).
  rewrite andb_false_r, Hc, Hs. cbn [mbind outcome_bind].
  destruct (store_header_fields _ _ _ _ Hs) as (_ & <- & _). done.
Qed.

Lemma run_header_line p r p1 r1 kv :
  state_ p = s_header_line_start -> store_header p r = Ok (p1, r1) -> header_ok kv = true ->
  runs p r (header_line kv)
    (mkParser s_header_line_start kv.1 kv.2 (method_str p) (body_length p1)) r1.
Proof.
  destruct kv as [k v]. intros Hst Hs [Hk Hv]%andb_true_iff. cbn [fst snd] in *.
  unfold http_token in Hk. apply andb_true_iff in Hk as [Hne%bool_decide_eq_true Hk].
  destruct k as [|c k]; [done|]. cbn [forallb] in Hk.
  apply andb_true_iff in Hk as [Hc%negb_true_false Hk].
  unfold header_line. cbn [fst snd app].
  eapply runs_cons; [by eapply consume_header_start|].
  eapply runs_app; [by apply run_key|]. do 2 run_step.
  eapply runs_app; [by apply run_value|]. do 2 run_step. apply runs_nil.
Qed.

(** The headers stored and the body length after the lines [hs]. *)
Fixpoint stored (hs : list (bytes * bytes)) (m : std_map bytes) (n : Z)
    : outcome (std_map bytes * Z) :=
  match hs with
  | [] => Ok (m, n)
  | (k, v) :: hs' =>
      n' ← (if bool_decide (k = §"Content-Length") then stoi v else Ok n);
      stored hs' (map_insert k v m) n'
  end.

(** A header line and its storage is one step of [stored]. *)
Lemma store_header_pending k v ms n r :
  k <> [] ->
  store_header (mkParser s_header_line_start k v ms n) r =
  (n' ← (if bool_decide (k = §"Content-Length") then stoi v else Ok n);
   Ok (mkParser s_header_line_start k v ms n', insert_header k v r)).
Proof.
  intros Hk. unfold store_header. cbn [header_key header_val].
  rewrite bool_decide_true by done. case_bool_decide; [|done]. by destruct (stoi v).
Qed.

Lemma run_headers hs p r p1 r1 m n :
  state_ p = s_header_line_start -> store_header p r = Ok (p1, r1) ->
  forallb header_ok hs = true -> stored hs (headers_ r1) (body_length p1) = Ok (m, n) ->
  exists p' r' p2 r2, runs p r (mjoin (header_line <$> hs)) p' r' /\
    state_ p' = s_header_line_start /\ method_str p' = method_str p /\
    store_header p' r' = Ok (p2, r2) /\ headers_ r2 = m /\ body_length p2 = n /\
    r2 = mkRequest (method_ r1) (uri_ r1) (version_ r1) m (body_ r1).
Proof.
  revert p r p1 r1. induction hs as [|[k v] hs IH]; intros p r p1 r1 Hst Hs Hok Hm.
  - cbn in Hm. simplify_eq. exists p, r, p1, r1. split_and!; try done. by destruct r1.
  - cbn [forallb] in Hok. apply andb_true_iff in Hok as [Hkv Hok].
    cbn [stored] in Hm. apply bind_Ok in Hm as (n' & Hn' & Hm).
    pose proof (run_header_line _ _ _ _ _ Hst Hs Hkv) as R. cbn [fst snd] in R.
    assert (Hk : k <> []).
    { unfold header_ok, http_token in Hkv. cbn [fst] in Hkv. by destruct k. }
    destruct (IH (mkParser s_header_line_start k v (method_str p) (body_length p1)) r1
      (mkParser s_header_line_start k v (method_str p) n')
      (insert_header k v r1)) as (p' & r' & p2 & r2 & R' & H1 & H2 & H3 & H4 & H5 & H6);
      [done|by rewrite store_header_pending, Hn' by done|done|done|].
    exists p', r', p2, r2. split_and!; try done.
    cbn [fmap list_fmap mjoin list_join]. by eapply runs_app.
Qed.

(** ** The end of the head, and the body *)

Lemma feed_body n p r s rest :
  state_ p = s_body -> body_length p = n -> (0 < n)%Z -> zlen s = n ->
  exists p', feed p r (s ++ rest) = Ok (good, p',
    mkRequest (method_ r) (uri_ r) (version_ r) (headers_ r) (body_ r ++ s), rest) /\
    method_str p' = method_str p /\ body_length p' = 0%Z.
Proof.
  revert n p r. induction s as [|c s IH]; intros n p r Hst Hn Hpos Hl.
  { unfold zlen in Hl. simpl in Hl. lia. }
  cbn [app feed]. unfold_consume. rewrite Hst. unfold int_pred. rewrite Hn.
  destruct (Z.eqb_spec n INT_MIN) as [E|_]; [unfold INT_MIN in E; lia|].
  cbn [mbind outcome_bind]. assert (Hs : zlen s = (n - 1)%Z) by (unfold zlen in *; simpl in Hl; lia).
  destruct (Z.eqb_spec (n - 1) 0) as [E|E].
  - assert (s = []) as -> by (destruct s; [done|unfold zlen in Hs; simpl in Hs; lia]).
    cbn [mbind outcome_bind]. eexists. split; [done|]. cbn. split; [done|lia].
  - cbn [mbind outcome_bind].
    destruct (IH (n - 1)%Z (set_body_length (n - 1) p) (push_body c r)) as (p' & R & H1 & H2);
      [done|done|unfold zlen in Hs; lia|done|].
    exists p'. rewrite R. split; [|done]. cbn. by rewrite <- (assoc_L (++)).
Qed.

Lemma feed_end p r p2 r2 s rest :
  state_ p = s_header_line_start -> store_header p r = Ok (p2, r2) ->
  body_length p2 = zlen s ->
  exists p', feed p r (crlf ++ s ++ rest) = Ok (good, p',
    mkRequest (method_ r2) (uri_ r2) (version_ r2) (headers_ r2) (body_ r2 ++ s), rest) /\
    method_str p' = method_str p /\ body_length p' = 0%Z.
Proof.
  intros Hst Hs Hn. destruct (store_header_fields _ _ _ _ Hs) as (H1 & H2 & _).
  change (crlf ++ s ++ rest) with ([CR] ++ LF :: s ++ rest).
  rewrite (feed_runs p r [CR] (set_state s_expecting_newline_3 p) r).
  2: { apply runs_one. unfold_consume. rewrite Hst. reflexivity. }
  assert (Hs' : store_header (set_state s_expecting_newline_3 p) r =
    Ok (set_state s_expecting_newline_3 p2, r2)).
  { revert Hs. unfold store_header. cbn. repeat case_bool_decide; intros; ok_inv; done. }
  cbn [app feed]. unfold_consume. cbn [state_ set_state]. rewrite Hs'. cbn [mbind outcome_bind].
  rewrite (bool_decide_true (LF = LF)) by done.
  set (p1 := if bool_decide _ then _ else _).
  assert (Hp1 : body_length p1 = zlen s /\ method_str p1 = method_str p).
  { unfold p1. by case_bool_decide; cbn. }
  destruct Hp1 as [Hb Hm]. rewrite Hb.
  destruct (Z.eqb_spec (zlen s) 0) as [E|E].
  - assert (s = []) as -> by (destruct s; [done|unfold zlen in E; simpl in E; lia]).
    cbn [mbind outcome_bind]. exists p1. split_and!; [|done|lia]. cbn [app]. rewrite app_nil_r.
    by destruct r2.
  - cbn [mbind outcome_bind].
    destruct (feed_body (zlen s) (set_state s_body p1) r2 s rest) as (p' & R & H3 & H4);
      [done|done|unfold zlen in *; lia|done|].
    exists p'. rewrite R. split_and!; [done|by rewrite H3|done].
Qed.

(** Storing the lines of an ordered header map rebuilds the map, and leaves the
    declared length in [body_length]. *)
Lemma stored_ordered hs m n z :
  map_wf (m ++ hs) ->
  (forall v, map_find (§"Content-Length") hs = Some v -> stoi v = Ok z) ->
  stored hs m n =
  Ok (m ++ hs, match map_find (§"Content-Length") hs with Some _ => z | None => n end).
Proof.
  revert m n. induction hs as [|[k v] hs IH]; intros m n Hwf Hz; [by rewrite app_nil_r|].
  assert (Hins : map_insert k v m = m ++ [(k, v)])
    by (by eapply map_insert_last, map_wf_app_lt).
  assert (Happ : m ++ (k, v) :: hs = (m ++ [(k, v)]) ++ hs) by (by rewrite <- (assoc_L (++))).
  cbn [stored map_find] in *. rewrite Hins.
  rewrite (bool_decide_ext (k = _) (§"Content-Length" = k)) by done.
  case_bool_decide as E; cbn [mbind outcome_bind].
  - rewrite (Hz v eq_refl). cbn [mbind outcome_bind].
    apply map_wf_app_r in Hwf as Hkv. apply map_wf_cons in Hkv as [_ Habove].
    rewrite E in *. rewrite Happ in *. rewrite IH; [|done|];
      by rewrite (map_find_above k hs).
  - rewrite Happ in *. by apply IH.
Qed.

(** The wire form of a well-formed request is accepted at its last byte. *)
Lemma feed_wire ms r r0 rest :
  wf_request r -> http_token ms = true ->
  uri_ r0 = [] -> version_ r0 = [] -> headers_ r0 = [] -> body_ r0 = [] ->
  exists p', feed request_parser_init r0 (wire ms r ++ rest) =
    Ok (good, p', mkRequest (method_ r0) (uri_ r) (version_ r) (headers_ r) (body_ r), rest) /\
    method_str p' = ms /\ body_length p' = 0%Z.
Proof.
  intros [Hu Hv Hm Hh Hf] Hms Hu0 Hv0 Hh0 Hb0. unfold wire. rewrite <- !(assoc_L (++)).
  rewrite (assoc_L (++) ms), (assoc_L (++) (uri_ r)), (assoc_L (++) (version_ r)).
  rewrite (feed_runs _ _ _ _ _ _ (run_method ms r0 Hms)).
  rewrite (feed_runs _ _ _ _ _ _ (run_uri _ _ _ _ _ _ Hu)).
  erewrite feed_runs by (by apply run_version). cbn [method_ uri_ headers_ body_].
  rewrite Hu0, Hh0, Hb0. cbn [app].
  set (p := mkParser s_header_line_start [] [] ms 0).
  set (r1 := mkRequest (method_ r0) (uri_ r) (version_ r) [] []).
  assert (Hst : stored (headers_ r) [] 0 = Ok (headers_ r, zlen (body_ r))).
  { unfold framing_ok in Hf. rewrite (stored_ordered _ _ _ (zlen (body_ r))); [|done|].
    - destruct (map_find _ (headers_ r)); [done|]. by rewrite Hf.
    - intros v E. by rewrite E in Hf. }
  destruct (run_headers (headers_ r) p r1 p r1 (headers_ r) (zlen (body_ r)))
    as (p' & r' & p2 & r2 & R & H1 & H2 & H3 & H4 & H5 & ->); [done..|].
  rewrite (feed_runs _ _ _ _ _ _ R).
  destruct (feed_end p' r' p2 _ (body_ r) rest H1 H3 H5) as (p3 & -> & H6 & H7).
  exists p3. split_and!; [done|by rewrite H6|done].
Qed.

(** [parse] on a whole read. *)
Lemma parse_0 p r data :
  parse p r data 0 = parse_loop p r data 0 (zlen data).
Proof.
  unfold parse. pose proof (zlen_nonneg data). by destruct (Z.leb_spec 0 (zlen data)); [|lia].
Qed.

Lemma parse_wire ms r r0 rest :
  wf_request r -> http_token ms = true ->
  uri_ r0 = [] -> version_ r0 = [] -> headers_ r0 = [] -> body_ r0 = [] ->
  exists p', parse request_parser_init r0 (wire ms r ++ rest) 0 =
    Ok (mkParseResult good (zlen (wire ms r)) 0 p' (set_method (method_of_str ms) r)) /\
    method_str p' = ms.
Proof.
  intros Hwf Hms H1 H2 H3 H4.
  destruct (feed_wire ms r r0 rest Hwf Hms H1 H2 H3 H4) as (p' & R & Hp & Hb).
  exists p'. split; [|done]. rewrite parse_0, parse_loop_feed, R. cbn [mbind outcome_bind].
  rewrite Hb, Hp. replace (0 + zlen (wire ms r ++ rest) - zlen rest)%Z with (zlen (wire ms r))
    by (unfold zlen; rewrite length_app; lia).
  assert (Hle : (zlen (wire ms r) <= zlen (wire ms r ++ rest))%Z)
    by (unfold zlen; rewrite length_app; lia).
  by destruct (Z.leb_spec (zlen (wire ms r) + 0) (zlen (wire ms r ++ rest))); [|lia].
Qed.

(** ** What is accepted is well formed *)

(** The part of the version read so far, by state. *)
Definition version_state (st : state) (v : bytes) : Prop :=
  match st with
  | s_method_start | s_method | s_uri | s_http_version_h => v = []
  | s_http_version_t_1 => v = §"H"
  | s_http_version_t_2 => v = §"HT"
  | s_http_version_p => v = §"HTT"
  | s_http_version_slash => v = §"HTTP"
  | s_http_version_major_start => v = §"HTTP/"
  | s_http_version_major => exists a, v = §"HTTP/" ++ a /\ digits_ok a = true
  | s_http_version_minor_start => exists a, v = §"HTTP/" ++ a ++ §"." /\ digits_ok a = true
  | _ => version_ok v
  end.

Definition inv_version (p : request_parser) (r : request) : Prop :=
  version_state (state_ p) (version_ r).

Definition inv_uri (p : request_parser) (r : request) : Prop := uri_ok (uri_ r) = true.

Definition inv_method (p : request_parser) (r : request) : Prop :=
  (state_ p = s_method_start /\ method_str p = []) \/
  (state_ p <> s_method_start /\ http_token (method_str p) = true).

(** The header being read, by state: empty until the first header line, and a
    name and value of legal characters from then on. *)
Definition pending_ok (st : state) (k v : bytes) (hs : std_map bytes) : Prop :=
  match st with
  | s_header_name | s_space_before_header_value | s_header_value | s_expecting_newline_2
  | s_header_lws => header_ok (k, v) = true
  | s_header_line_start => (k = [] /\ v = [] /\ hs = []) \/ header_ok (k, v) = true
  | s_expecting_newline_3 => (k = [] /\ v = []) \/ header_ok (k, v) = true
  | s_body => k = [] /\ v = []
  | _ => k = [] /\ v = [] /\ hs = []
  end.

Definition inv_headers (p : request_parser) (r : request) : Prop :=
  map_wf (headers_ r) /\ Forall (fun kv => header_ok kv = true) (headers_ r) /\
  pending_ok (state_ p) (header_key p) (header_val p) (headers_ r).

(** A body is read only when a length was declared. *)
Definition inv_body (p : request_parser) (r : request) : Prop :=
  (state_ p <> s_body -> body_ r = []) /\
  (map_find (§"Content-Length") (headers_ r) = None ->
   body_length p = 0%Z /\ state_ p <> s_body).

(** Split a step of the machine, from a state in constructor form, into the
    branches of the code. *)
Ltac consume_inv H :=
  unfold_consume in H; unfold go, go_version, reject in H; cbn [state_ header_key] in H;
  repeat (match type of H with
    | context [if ?b then _ else _] =>
        lazymatch b with context [if _ then _ else _] => fail | _ => destruct b eqn:? end
    | context [mbind _ (store_header ?p ?r)] =>
        let E := fresh "Estore" in
        destruct (store_header p r) as [[? ?]| |] eqn:E;
        [apply store_header_fields in E as Hfields|..]
    | context [mbind _ (int_pred ?n)] => destruct (int_pred n) eqn:?
    end; cbn [mbind outcome_bind] in H; try discriminate H);
  try (injection H; clear H; intros; subst);
  repeat match goal with
    | E : bool_decide _ = true |- _ => apply bool_decide_eq_true in E
    | E : bool_decide _ = false |- _ => apply bool_decide_eq_false in E
    end;
  cbn [state_ set_state push_key push_val push_method clear_header
    set_body_length method_str header_key header_val body_length
    push_uri push_version push_body method_ uri_ version_ headers_ body_] in *.

Lemma digits_ok_snoc a c :
  digits_ok a = true -> is_digit (char_to_int c) = true -> digits_ok (a ++ [c]) = true.
Proof.
  unfold digits_ok. intros [Hne%bool_decide_eq_true Ha]%andb_true_iff Hc.
  rewrite bool_decide_true by (by destruct a). simpl.
  rewrite forallb_app, Ha. simpl. by rewrite Hc.
Qed.

Lemma http_token_snoc a c :
  http_token a = true -> not_token_char c = false -> http_token (a ++ [c]) = true.
Proof.
  unfold http_token. intros [Hne%bool_decide_eq_true Ha]%andb_true_iff Hc.
  rewrite bool_decide_true by (by destruct a). simpl.
  rewrite forallb_app, Ha. simpl. by rewrite Hc.
Qed.

Lemma http_token_one c : not_token_char c = false -> http_token [c] = true.
Proof. intros H. unfold http_token. simpl. by rewrite H. Qed.

Lemma value_ok_snoc a c :
  value_ok a = true -> is_ctl (char_to_int c) = false -> value_ok (a ++ [c]) = true.
Proof. unfold value_ok. intros Ha Hc. rewrite forallb_app, Ha. simpl. by rewrite Hc. Qed.

#[local] Hint Resolve digits_ok_snoc http_token_snoc http_token_one value_ok_snoc : wnza.


Lemma digits_ok_one c : is_digit (char_to_int c) = true -> digits_ok [c] = true.
Proof. intros H. unfold digits_ok. simpl. by rewrite H. Qed.

Lemma version_ok_one a c :
  digits_ok a = true -> is_digit (char_to_int c) = true ->
  version_ok ((§"HTTP/" ++ a ++ §".") ++ [c]).
Proof.
  intros Ha Hc. exists a, [c]. rewrite <- !(assoc_L (++)). auto using digits_ok_one.
Qed.

Lemma version_ok_snoc v c :
  version_ok v -> is_digit (char_to_int c) = true -> version_ok (v ++ [c]).
Proof.
  intros (a & b & -> & Ha & Hb) Hc. exists a, (b ++ [c]). rewrite <- !(assoc_L (++)).
  auto using digits_ok_snoc.
Qed.

Lemma consume_version p r c res p' r' :
  consume p r c = Ok (res, p', r') -> inv_version p r -> inv_version p' r'.
Proof.
  unfold inv_version. intros H HI.
  destruct p as [st k v ms n]. destruct r as [m u w hs b].
  destruct st; consume_inv H; cbn [version_state] in *; try done; try (subst; done);
    try (destruct Hfields as (Hs & _ & _ & _ & Hv & _); try rewrite Hs; rewrite Hv; done).
  all: try (destruct HI as (a & -> & Ha)).
  - subst w. exists [c]. auto using digits_ok_one.
  - exists a. by subst c; rewrite <- !(assoc_L (++)).
  - exists (a ++ [c]). rewrite <- (assoc_L (++)). auto using digits_ok_snoc.
  - by apply version_ok_one.
  - by apply version_ok_snoc.
Qed.

Lemma uri_ok_snoc u c :
  uri_ok u = true -> c <> SP -> is_ctl (char_to_int c) = false -> uri_ok (u ++ [c]) = true.
Proof.
  unfold uri_ok. intros Hu Hs Hc. rewrite forallb_app, Hu. simpl.
  by rewrite bool_decide_false, Hc.
Qed.

Lemma consume_uri p r c res p' r' :
  consume p r c = Ok (res, p', r') -> inv_uri p r -> inv_uri p' r'.
Proof.
  unfold inv_uri. intros H HI.
  destruct p as [st k v ms n]. destruct r as [m u w hs b].
  destruct st; consume_inv H; try done;
    try (destruct Hfields as (_ & _ & _ & Hu & _); by rewrite Hu).
  by apply uri_ok_snoc.
Qed.

Lemma consume_method p r c res p' r' :
  consume p r c = Ok (res, p', r') -> inv_method p r -> inv_method p' r'.
Proof.
  unfold inv_method. intros H HI.
  destruct p as [st k v ms n]. destruct r as [m u w hs b].
  cbn [state_ method_str] in HI. destruct HI as [[-> ->]|[Hne Hm]].
  - consume_inv H; [by left|]. right. split; [done|]. by apply http_token_one.
  - right. destruct st; consume_inv H; try done;
      try (destruct Hfields as (Hs & Hms & _); rewrite ?Hs, ?Hms; done).
    split; [done|]. by apply http_token_snoc.
Qed.

(** Storing the pending header keeps the stored headers well formed. *)
Lemma store_header_ok p r p1 r1 :
  store_header p r = Ok (p1, r1) ->
  map_wf (headers_ r) -> Forall (fun kv => header_ok kv = true) (headers_ r) ->
  header_key p = [] \/ header_ok (header_key p, header_val p) = true ->
  map_wf (headers_ r1) /\ Forall (fun kv => header_ok kv = true) (headers_ r1) /\
  header_key p1 = header_key p /\ header_val p1 = header_val p /\
  (header_key p = [] -> headers_ r1 = headers_ r).
Proof.
  intros H Hwf Hok Hp. unfold store_header in H.
  assert (Hins : header_key p <> [] ->
    map_wf (map_insert (header_key p) (header_val p) (headers_ r)) /\
    Forall (fun kv => header_ok kv = true) (map_insert (header_key p) (header_val p) (headers_ r))).
  { intros Hk. split; [by apply map_insert_wf|]. apply map_insert_Forall; [done|].
    by destruct Hp. }
  repeat case_bool_decide; ok_inv; naive_solver.
Qed.

Lemma header_ok_push_key k v c :
  header_ok (k, v) = true -> not_token_char c = false -> header_ok (k ++ [c], v) = true.
Proof.
  unfold header_ok. cbn [fst snd]. intros [Hk ->]%andb_true_iff Hc.
  by rewrite http_token_snoc.
Qed.

Lemma header_ok_push_val k v c :
  header_ok (k, v) = true -> is_ctl (char_to_int c) = false -> header_ok (k, v ++ [c]) = true.
Proof.
  unfold header_ok. cbn [fst snd]. intros [-> Hv]%andb_true_iff Hc.
  by rewrite value_ok_snoc.
Qed.

Lemma header_ok_start c : not_token_char c = false -> header_ok ([c], []) = true.
Proof. intros H. unfold header_ok. cbn [fst snd]. by rewrite http_token_one. Qed.

Lemma header_ok_key k v : header_ok (k, v) = true -> k <> [].
Proof. unfold header_ok, http_token. by destruct k. Qed.

Lemma consume_headers p r c res p' r' :
  consume p r c = Ok (res, p', r') -> inv_headers p r -> inv_headers p' r'.
Proof.
  unfold inv_headers. intros H (Hwf & Hok & Hp).
  destruct p as [st k v ms n]. destruct r as [m u w hs b].
  destruct st; cbn [pending_ok state_ headers_ header_key header_val] in *; consume_inv H;
    cbn [pending_ok] in *; try done; eauto using header_ok_push_val, header_ok_push_key.
  1: naive_solver.
  1: split_and!; try done; destruct Hp as [(_ & _ & ->)|?]; [by rewrite andb_false_l in *|done].
  all: destruct (store_header_ok _ _ _ _ Estore) as (? & ? & Hk & Hv & _); cbn;
    [done|done|naive_solver|]; destruct Hfields as (Hst & _); cbn in Hst, Hk, Hv;
    rewrite ?Hst, ?Hk, ?Hv; cbn [pending_ok]; auto using header_ok_start.
  all: pose proof (header_ok_key k v); naive_solver.
Qed.

(** Storing a header changes [body_length] only when it adds a declared length. *)
Lemma store_header_length p r p1 r1 :
  store_header p r = Ok (p1, r1) -> map_wf (headers_ r) ->
  (map_find (§"Content-Length") (headers_ r) = None -> body_length p = 0%Z) ->
  map_find (§"Content-Length") (headers_ r1) = None -> body_length p1 = 0%Z.
Proof.
  intros H Hwf Hb Hn. unfold store_header in H.
  repeat case_bool_decide; ok_inv; cbn [body_length set_body_length insert_header headers_] in *;
    [|apply Hb|by apply Hb].
  - rewrite map_find_insert, bool_decide_true in Hn by done. done.
  - rewrite map_find_insert in Hn by done. by case_bool_decide.
Qed.

Lemma consume_body p r c res p' r' :
  consume p r c = Ok (res, p', r') -> inv_headers p r -> inv_body p r -> inv_body p' r'.
Proof.
  unfold inv_body. intros H (Hwf & _ & _) [Hb Hn].
  destruct p as [st k v ms n]. destruct r as [m u w hs b].
  destruct st; cbn [state_ headers_ body_ body_length] in *; consume_inv H; try done;
    try (split; [by intros|exact Hn]);
    try (split; [by (done || (intros _; apply Hb))|intros Hf; by destruct (Hn Hf)]).
  all: try (pose proof (store_header_length _ _ _ _ Estore) as Hl; cbn in Hl;
    destruct Hfields as (Hst & _ & _ & _ & _ & Hbody); cbn in Hst, Hbody; rewrite ?Hst, ?Hbody).
  all: try (split; [naive_solver|]; intros Hf; split; [|done]; apply Hl; naive_solver).
  all: split; [done|]; intros Hf; exfalso; rewrite Hl in *; naive_solver.
Qed.

Lemma consume_good p r c p' r' : consume p r c = Ok (good, p', r') -> body_length p' = 0%Z.
Proof.
  intros H. destruct p as [st k v ms n]. destruct r as [m u w hs b].
  destruct st; consume_inv H; repeat match goal with E : (_ =? _)%Z = true |- _ =>
    apply Z.eqb_eq in E end; done.
Qed.

(** ** Invariants over a run *)

Definition parser_inv (p : request_parser) (r : request) : Prop :=
  inv_version p r /\ inv_uri p r /\ inv_method p r /\ inv_headers p r /\ inv_body p r.

Lemma parser_inv_init r :
  uri_ r = [] -> version_ r = [] -> headers_ r = [] -> body_ r = [] ->
  parser_inv request_parser_init r.
Proof.
  destruct r as [m u v hs b]; cbn. intros -> -> -> ->.
  unfold parser_inv, inv_version, inv_uri, inv_method, inv_headers, inv_body. cbn.
  split_and!; auto using map_wf_nil.
Qed.

Lemma consume_inv_all p r c res p' r' :
  consume p r c = Ok (res, p', r') -> parser_inv p r -> parser_inv p' r'.
Proof.
  intros H (H1 & H2 & H3 & H4 & H5).
  split_and!; eauto using consume_version, consume_uri, consume_method, consume_headers, consume_body.
Qed.

Lemma feed_inv p r s res p' r' rest :
  feed p r s = Ok (res, p', r', rest) -> parser_inv p r ->
  parser_inv p' r' /\ (res = good -> body_length p' = 0%Z).
Proof.
  revert p r. induction s as [|c s IH]; intros p r H HI; simpl in H; [by simplify_eq|].
  destruct (consume p r c) as [[[res1 p1] r1]| |] eqn:E; simpl in H; [|done|done].
  pose proof (consume_inv_all _ _ _ _ _ _ E HI) as HI1.
  destruct res1; simplify_eq; [|done|by eapply IH]. split; [done|]. intros _. by eapply consume_good.
Qed.

(** In state [s_method_start] only a verdict [bad] is possible at once; elsewhere
    a verdict [good] needs the end of the head. *)
Lemma consume_good_state p r c p' r' :
  consume p r c = Ok (good, p', r') ->
  state_ p' = s_expecting_newline_3 \/ state_ p' = s_body.
Proof.
  intros H. destruct p as [st k v ms n]. destruct r as [m u w hs b].
  destruct st; consume_inv H; auto; destruct Hfields as (-> & _); auto.
Qed.

Lemma feed_good_state p r s p' r' rest :
  feed p r s = Ok (good, p', r', rest) ->
  state_ p' = s_expecting_newline_3 \/ state_ p' = s_body.
Proof.
  revert p r. induction s as [|c s IH]; intros p r H; simpl in H; [done|].
  destruct (consume p r c) as [[[res1 p1] r1]| |] eqn:E; simpl in H; [|done|done].
  destruct res1; simplify_eq; [|by eapply IH]. by eapply consume_good_state.
Qed.

(** ** Heads of requests *)

Definition request_line (ms u v : bytes) : bytes := ms ++ §" " ++ u ++ §" " ++ v ++ crlf.

(** A request line and header lines, up to the blank line. *)
Definition head (ms u v : bytes) (hs : list (bytes * bytes)) : bytes :=
  request_line ms u v ++ mjoin (header_line <$> hs).

(** The request with nothing read yet but its line. *)
Definition line_request (u v : bytes) : request := mkRequest None u v [] [].

Section heads.
Variables (ms u v : bytes).
Hypothesis Hms : http_token ms = true.
Hypothesis Hu : uri_ok u = true.
Hypothesis Hv : version_ok v.

Lemma run_request_line :
  runs request_parser_init request_default (request_line ms u v)
    (mkParser s_header_line_start [] [] ms 0) (line_request u v).
Proof.
  unfold request_line. rewrite (assoc_L (++) ms), (assoc_L (++) u).
  eapply runs_app; [by apply run_method|]. eapply runs_app; [by apply run_uri|].
  by apply run_version.
Qed.

Lemma run_head hs m n :
  forallb header_ok hs = true -> stored hs [] 0 = Ok (m, n) ->
  exists p' r' p2 r2, runs request_parser_init request_default (head ms u v hs) p' r' /\
    state_ p' = s_header_line_start /\ store_header p' r' = Ok (p2, r2) /\
    body_length p2 = n /\ r2 = mkRequest None u v m [].
Proof.
  intros Hok Hst.
  destruct (run_headers hs (mkParser s_header_line_start [] [] ms 0) (line_request u v)
    (mkParser s_header_line_start [] [] ms 0) (line_request u v) m n)
    as (p' & r' & p2 & r2 & R & H1 & H2 & H3 & H4 & H5 & ->); [done..|].
  exists p', r', p2, (mkRequest None u v m []). split_and!; try done.
  eapply runs_app; [apply run_request_line|exact R].
Qed.

(** After the line of a last header [kv] the header is pending. *)
Lemma run_head_last hs kv m n :
  forallb header_ok hs = true -> header_ok kv = true -> stored hs [] 0 = Ok (m, n) ->
  runs request_parser_init request_default (head ms u v (hs ++ [kv]))
    (mkParser s_header_line_start kv.1 kv.2 ms n) (mkRequest None u v m []).
Proof.
  intros Hok Hkv Hst.
  destruct (run_headers hs (mkParser s_header_line_start [] [] ms 0) (line_request u v)
    (mkParser s_header_line_start [] [] ms 0) (line_request u v) m n)
    as (p' & r' & p2 & r2 & R & H1 & H2 & H3 & H4 & H5 & ->); [done..|].
  pose proof (run_header_line _ _ _ _ _ H1 H3 Hkv) as R2. cbn [method_str] in H2.
  rewrite H2, H5 in R2.
  unfold head. rewrite fmap_app, join_app. cbn [fmap list_fmap mjoin list_join].
  rewrite app_nil_r, (assoc_L (++)). eapply runs_app; [|exact R2].
  eapply runs_app; [apply run_request_line|exact R].
Qed.

End heads.

(** A read without a verdict is indeterminate at its end. *)
Lemma parse_runs p r a p1 r1 :
  runs p r a p1 r1 ->
  parse p r a 0 = Ok (mkParseResult indeterminate (zlen a) (body_length p1) p1 r1).
Proof.
  intros R. rewrite parse_0, parse_loop_feed. unfold runs in R. rewrite R.
  cbn [mbind outcome_bind]. do 2 f_equal. unfold zlen. simpl. lia.
Qed.

(** In the body with a negative length every byte is taken, without a verdict. *)
Lemma feed_negative s n ms m0 u v hs b :
  (n < 0)%Z -> (zlen s <= n - INT_MIN)%Z ->
  runs (mkParser s_body [] [] ms n) (mkRequest m0 u v hs b) s
    (mkParser s_body [] [] ms (n - zlen s)) (mkRequest m0 u v hs (b ++ s)).
Proof.
  revert n b. induction s as [|c s IH]; intros n b Hn Hs.
  { rewrite app_nil_r. replace (n - zlen (@nil ascii))%Z with n by (unfold zlen; simpl; lia).
    apply runs_nil. }
  assert (Hl : zlen (c :: s) = (zlen s + 1)%Z) by (unfold zlen; simpl; lia).
  pose proof (zlen_nonneg s). eapply (runs_cons _ _ _ (mkParser s_body [] [] ms (n - 1))
    (mkRequest m0 u v hs (b ++ [c]))).
  - unfold_consume; unfold int_pred. cbn [state_ body_length].
    destruct (Z.eqb_spec n INT_MIN); [lia|]. cbn [mbind outcome_bind].
    by destruct (Z.eqb_spec (n - 1) 0); [lia|].
  - rewrite Hl. replace (b ++ c :: s) with ((b ++ [c]) ++ s) by (by rewrite <- (assoc_L (++))).
    replace (n - (zlen s + 1))%Z with (n - 1 - zlen s)%Z by lia. apply IH; lia.
Qed.

(** Before its last byte an accepted message brings no verdict. *)
Lemma feed_prefix p r a b rest p' r' :
  feed p r (a ++ b ++ rest) = Ok (good, p', r', rest) -> b <> [] ->
  exists p1 r1, runs p r a p1 r1 /\ feed p1 r1 (b ++ rest) = Ok (good, p', r', rest).
Proof.
  intros E Hb. rewrite feed_app in E. apply bind_Ok in E as ([[[res p1] r1] rest1] & Ea & E).
  destruct res.
  - injection E as _ _ E. apply (f_equal length) in E. rewrite !length_app in E. destruct b; [done|simpl in E; lia].
  - done.
  - assert (rest1 = []) as -> by (destruct (feed_suffix _ _ _ _ _ _ _ Ea) as (? & _ & Hr); auto).
    eauto.
Qed.

(** [parse] on a read that brings the end of a message. *)
Lemma parse_feed_good p r b rest p' r' :
  feed p r (b ++ rest) = Ok (good, p', r', rest) -> body_length p' = 0%Z ->
  parse p r (b ++ rest) 0 =
    Ok (mkParseResult good (zlen b) 0 p' (set_method (method_of_str (method_str p')) r')).
Proof.
  intros E Hb. rewrite parse_0, parse_loop_feed, E. cbn [mbind outcome_bind].
  assert (Hz : (0 + zlen (b ++ rest) - zlen rest = zlen b)%Z) by (unfold zlen; rewrite length_app; lia).
  rewrite Hz, Hb. assert (Hle : (zlen b + 0 <= zlen (b ++ rest))%Z) by (unfold zlen; rewrite length_app; lia).
  by rewrite (proj2 (Z.leb_le _ _) Hle).
Qed.

(** The byte that is refused at the start of a header line, after headers that
    declare a length [n]. *)
Lemma parse_bad_byte (ms u v : bytes) (hs : list (bytes * bytes)) (kv : bytes * bytes)
    (c : ascii) (rest : bytes) (m : std_map bytes) (n : Z) :
  http_token ms = true -> uri_ok u = true -> version_ok v ->
  forallb header_ok hs = true -> header_ok kv = true -> stored hs [] 0 = Ok (m, n) ->
  not_token_char c = true -> c <> CR -> c <> SP -> c <> TAB ->
  exists p' r', parse request_parser_init request_default
      (head ms u v (hs ++ [kv]) ++ c :: rest) 0 =
    Ok (mkParseResult (if (n <=? zlen rest)%Z then bad else indeterminate)
          (zlen (head ms u v (hs ++ [kv])) + 1) n p' r').
Proof.
  intros Hms Hu Hv Hhs Hkv Hst Hc H1 H2 H3.
  pose proof (run_head_last ms u v Hms Hu Hv hs kv m n Hhs Hkv Hst) as R.
  rewrite parse_0, parse_loop_feed, (feed_runs _ _ _ _ _ _ R). cbn [feed].
  assert (E : consume (mkParser s_header_line_start kv.1 kv.2 ms n) (mkRequest None u v m []) c =
    Ok (bad, mkParser s_header_line_start kv.1 kv.2 ms n, mkRequest None u v m [])).
  { unfold_consume. cbn [state_]. rewrite !(bool_decide_false (c = _)) by done.
    by rewrite andb_false_r, Hc. }
  rewrite E. cbn [mbind outcome_bind body_length method_str].
  set (h := head ms u v (hs ++ [kv])).
  replace (0 + zlen (h ++ c :: rest) - zlen rest)%Z with (zlen h + 1)%Z
    by (unfold zlen; rewrite length_app; simpl; lia).
  replace (zlen h + 1 + n <=? zlen (h ++ c :: rest))%Z with (n <=? zlen rest)%Z; [eauto|].
  assert (Hl : zlen (h ++ c :: rest) = (zlen h + 1 + zlen rest)%Z)
    by (unfold zlen; rewrite length_app; simpl; lia).
  rewrite Hl. destruct (Z.leb_spec n (zlen rest)), (Z.leb_spec (zlen h + 1 + n) (zlen h + 1 + zlen rest)); lia.
Qed.

(** The blank line after a pending Content-Length header. *)
Lemma run_blank_length ms val n0 n r :
  stoi val = Ok n -> n <> 0%Z ->
  runs (mkParser s_header_line_start (§"Content-Length") val ms n0) r crlf
    (mkParser s_body [] [] ms n) (insert_header (§"Content-Length") val r).
Proof.
  intros He Hn. eapply runs_cons; [reflexivity|]. apply runs_one.
  unfold_consume; unfold store_header. cbn [state_ set_state header_key header_val method_str body_length].
  rewrite !bool_decide_true by done. rewrite He. cbn.
  by destruct (Z.eqb_spec n 0).
Qed.

(** ** Properties *)

(** C2: the wire form of a well-formed request, with any further bytes after it,
    is accepted: [parse] reports [good] exactly at its last byte, with no body bytes
    outstanding, and the request it filled is the request that was printed. *)
Theorem parse_wire_roundtrip (ms : bytes) (r : request) (rest : bytes) :
  wf_request r -> http_token ms = true ->
  exists p', parse request_parser_init request_default (wire ms r ++ rest) 0 =
    Ok (mkParseResult good (zlen (wire ms r)) 0 p' (set_method (method_of_str ms) r)).
Proof.
  intros Hwf Hms. destruct (parse_wire ms r request_default rest) as (p' & R & _); eauto.
Qed.

Definition sample_request : request :=
  mkRequest (Some POST) (§"/echo/x") (§"HTTP/1.1")
    [(§"Content-Length", §"3"); (§"Host", §"a b")] (§"abc").

Lemma sample_request_wf : wf_request sample_request.
Proof.
  split; try reflexivity.
  - exists (§"1"), (§"1"). by split_and!.
  - by repeat constructor.
Qed.

Lemma parse_wire_roundtrip_witness :
  exists p', parse request_parser_init request_default (wire (§"POST") sample_request ++ §"GET") 0 =
    Ok (mkParseResult good (zlen (wire (§"POST") sample_request)) 0 p' sample_request).
Proof.
  exact (parse_wire_roundtrip (§"POST") sample_request (§"GET") sample_request_wf eq_refl).
Defined.

(** C13: parsing does not depend on where the reads cut a well-formed request: wherever its wire form is
    cut, [parse] on the first read is indeterminate at its end, with no verdict, and going on with
    the next read from the saved state accepts exactly at the last byte of the request, with the
    same parser and the same request, its method included, as [parse] on one read of the whole. For a
    message that is refused it does depend on the reads: at a byte that no header line can start
    with, after headers that declare a length [n], the verdict is [bad] when at least [n] bytes follow
    in the same read, and there is none when fewer do. *)
Theorem parse_split (ms : bytes) (r : request) (a b rest : bytes) :
  wf_request r -> http_token ms = true -> wire ms r = a ++ b -> b <> [] ->
  (exists p1 r1 p2,
    let r2 := set_method (method_of_str ms) r in
    parse request_parser_init request_default a 0 =
      Ok (mkParseResult indeterminate (zlen a) (body_length p1) p1 r1) /\
    parse p1 r1 (b ++ rest) 0 = Ok (mkParseResult good (zlen b) 0 p2 r2) /\
    parse request_parser_init request_default (a ++ b ++ rest) 0 =
      Ok (mkParseResult good (zlen a + zlen b) 0 p2 r2)) /\
  forall u v hs kv c m n s1 s2,
    uri_ok u = true -> version_ok v -> forallb header_ok hs = true -> header_ok kv = true ->
    stored hs [] 0 = Ok (m, n) -> not_token_char c = true -> c <> CR -> c <> SP -> c <> TAB ->
    (zlen s1 < n <= zlen (s1 ++ s2))%Z ->
    let h := head ms u v (hs ++ [kv]) in
    (exists p' r', parse request_parser_init request_default (h ++ c :: s1 ++ s2) 0 =
      Ok (mkParseResult bad (zlen h + 1) n p' r')) /\
    (exists p' r', parse request_parser_init request_default (h ++ c :: s1) 0 =
      Ok (mkParseResult indeterminate (zlen h + 1) n p' r')).
Proof.
  intros Hwf Hms Hw Hne. split.
  - destruct (feed_wire ms r request_default rest Hwf Hms) as (p2 & E & Hm & Hb); [done..|].
    rewrite Hw, <- (assoc_L (++)) in E.
    destruct (feed_prefix _ _ _ _ _ _ _ E Hne) as (p1 & r1 & R & E1).
    exists p1, r1, p2. cbn zeta. split_and!; [by apply parse_runs| |].
    + rewrite (parse_feed_good _ _ _ _ _ _ E1 Hb), Hm. done.
    + rewrite (assoc_L (++)) in E |- *. rewrite (parse_feed_good _ _ _ _ _ _ E Hb), Hm.
      replace (zlen (a ++ b)) with (zlen a + zlen b)%Z by (unfold zlen; rewrite length_app; lia). done.
  - intros u v hs kv c m n s1 s2 Hu Hv Hhs Hkv Hst Hc H1 H2 H3 [Hlt Hle]. cbn zeta. split.
    + destruct (parse_bad_byte ms u v hs kv c (s1 ++ s2) m n) as (p' & r' & ->); try done.
      rewrite (proj2 (Z.leb_le _ _) Hle). eauto.
    + destruct (parse_bad_byte ms u v hs kv c s1 m n) as (p' & r' & ->); try done.
      rewrite (proj2 (Z.leb_gt _ _) Hlt). eauto.
Qed.

Lemma parse_split_witness :
  (exists p1 r1 p2,
    parse request_parser_init request_default (§"POST /echo/x HT") 0 =
      Ok (mkParseResult indeterminate 15 0 p1 r1) /\
    parse p1 r1 (drop 15 (wire (§"POST") sample_request)) 0 = Ok (mkParseResult good
      (zlen (drop 15 (wire (§"POST") sample_request))) 0 p2 sample_request)) /\
  exists p' r', parse request_parser_init request_default
      (head (§"POST") (§"/") (§"HTTP/1.1") ([(§"Content-Length", §"9")] ++ [(§"Host", §"a")]) ++
       "("%char :: §"x") 0 =
    Ok (mkParseResult indeterminate 46 9 p' r').
Proof.
  destruct (parse_split (§"POST") sample_request (§"POST /echo/x HT")
    (drop 15 (wire (§"POST") sample_request)) [] sample_request_wf eq_refl eq_refl) as [H1 H2]; [discriminate|].
  split.
  - destruct H1 as (p1 & r1 & p2 & E1 & E2 & _). exists p1, r1, p2. rewrite app_nil_r in E2.
    assert (Hb : body_length p1 = 0%Z).
    { revert E1. vm_compute. by intros [= <- _]. }
    rewrite Hb in E1. split; [exact E1|exact E2].
  - refine (proj2 (H2 (§"/") (§"HTTP/1.1") [(§"Content-Length", §"9")] (§"Host", §"a") "("%char
      [(§"Content-Length", §"9")] 9%Z (§"x") (§"12345678") eq_refl _ eq_refl eq_refl eq_refl eq_refl _ _ _ _));
      try discriminate; [exists (§"1"), (§"1"); by split_and!|by split].
Defined.

(** C16: what [parse] accepts from its initial state: the method name is a nonempty token that
    determines [method_], the URI has no space or control character, the version is
    HTTP/digits.digits, the stored headers are in order with legal names and values, the returned
    body length is 0, there is a body only when a Content-Length header was stored, and the request
    is well formed as soon as its body has the length that the stored header says. That it has is
    not promised: of two Content-Length headers the first is stored and the last counts. *)
Theorem parse_good_wf (data : bytes) (pr : parse_result) :
  parse request_parser_init request_default data 0 = Ok pr -> pr_result pr = good ->
  let r := pr_request pr in
  http_token (method_str (pr_parser pr)) = true /\
  method_ r = Some (method_of_str (method_str (pr_parser pr))) /\
  uri_ok (uri_ r) = true /\ version_ok (version_ r) /\ map_wf (headers_ r) /\
  Forall (fun kv => header_ok kv = true) (headers_ r) /\ pr_body_length pr = 0%Z /\
  (map_find (§"Content-Length") (headers_ r) = None -> body_ r = []) /\
  (framing_ok r -> wf_request r).
Proof.
  rewrite parse_0, parse_loop_feed. intros H Hg.
  destruct (feed request_parser_init request_default data) as [[[[res p'] r'] rest]| |] eqn:E;
    cbn [mbind outcome_bind] in H; [|done|done].
  destruct res; apply Ok_inj in H; subst pr; cbn [pr_result] in Hg; [|by case_match|done].
  apply feed_good_state in E as Hst.
  apply feed_inv in E as [(Hv & Hu & Hm & (Hwf & Hok & _) & Hb & Hn) Hl];
    [|by apply parser_inv_init].
  cbn [pr_parser pr_request pr_body_length set_method method_ uri_ version_ headers_ body_].
  assert (Hver : version_ok (version_ r')).
  { unfold inv_version in Hv. by destruct Hst as [E1|E1]; rewrite E1 in Hv. }
  split_and!; auto.
  - destruct Hm as [[E1 _]|[_ ?]]; [|done]. by rewrite E1 in Hst; destruct Hst.
  - intros Hf. apply Hb. by apply Hn.
  - intros Hf. split; [done..| |exact Hf]. apply forallb_forall. intros kv Hin%list_elem_of_In.
    rewrite Forall_forall in Hok. by apply Hok.
Qed.

Lemma parse_good_wf_witness :
  exists pr, parse request_parser_init request_default (wire (§"POST") sample_request) 0 = Ok pr /\
  pr_result pr = good /\ version_ok (version_ (pr_request pr)) /\ pr_body_length pr = 0%Z.
Proof.
  eexists. split; [vm_compute; reflexivity|]. split; [reflexivity|].
  match goal with |- context [pr_request ?pr] =>
    pose proof (parse_good_wf (wire (§"POST") sample_request) pr ltac:(vm_compute; reflexivity) eq_refl)
      as (_ & _ & _ & Hv & _ & _ & Hb & _ & _) end.
  split; [exact Hv|exact Hb].
Defined.

(** C34: a Content-Length value that [std::stoi] does not convert is not
    rejected: the exception of [stoi] leaves [parse] when the head ends, after any legal
    request line and headers. *)
Theorem parse_length_throws (ms u v : bytes) (hs : list (bytes * bytes)) (val rest : bytes)
    (m : std_map bytes) (n : Z) (e : exn) :
  http_token ms = true -> uri_ok u = true -> version_ok v -> forallb header_ok hs = true ->
  stored hs [] 0 = Ok (m, n) -> value_ok val = true -> stoi val = Throw e ->
  parse request_parser_init request_default
    (head ms u v (hs ++ [(§"Content-Length", val)]) ++ crlf ++ rest) 0 = Throw e.
Proof.
  intros Hms Hu Hv Hhs Hst Hval He.
  pose proof (run_head_last ms u v Hms Hu Hv hs (§"Content-Length", val) m n Hhs) as R.
  rewrite parse_0, parse_loop_feed.
  erewrite feed_runs by (apply R; [unfold header_ok; cbn [snd]; by rewrite Hval|done]).
  change (crlf ++ rest) with ([CR] ++ LF :: rest). cbn [fst snd].
  erewrite feed_runs by (apply runs_one; reflexivity).
  cbn [feed]. unfold_consume. cbn [state_ set_state].
  assert (E : store_header (set_state s_expecting_newline_3
    (mkParser s_header_line_start (§"Content-Length") val ms n)) (mkRequest None u v m []) = Throw e).
  { unfold store_header. cbn [header_key header_val set_state].
    rewrite !bool_decide_true by done. by rewrite He. }
  cbn [set_state header_key header_val method_str body_length] in E. by rewrite E.
Qed.

Lemma parse_length_throws_witness :
  parse request_parser_init request_default
    (head (§"GET") (§"/") (§"HTTP/1.1") ([(§"Host", §"a")] ++ [(§"Content-Length", §"abc")]) ++ crlf ++ []) 0
  = Throw invalid_argument.
Proof.
  apply (parse_length_throws _ _ _ _ _ _ [(§"Host", §"a")] 0); try reflexivity.
  exists (§"1"), (§"1"). by split_and!.
Defined.

(** A negative Content-Length is accepted as a length and the request never
    ends: whatever follows the head, [parse] stays indeterminate and takes every byte into the
    body (up to the underflow of [body_length]). *)
Theorem parse_negative_length (ms u v : bytes) (hs : list (bytes * bytes)) (val s : bytes)
    (m : std_map bytes) (n0 n : Z) :
  http_token ms = true -> uri_ok u = true -> version_ok v -> forallb header_ok hs = true ->
  stored hs [] 0 = Ok (m, n0) -> value_ok val = true -> stoi val = Ok n -> (n < 0)%Z ->
  (zlen s <= n - INT_MIN)%Z ->
  exists p' r', parse request_parser_init request_default
    (head ms u v (hs ++ [(§"Content-Length", val)]) ++ crlf ++ s) 0 =
    Ok (mkParseResult indeterminate
          (zlen (head ms u v (hs ++ [(§"Content-Length", val)]) ++ crlf ++ s)) (n - zlen s) p' r') /\
    state_ p' = s_body /\ body_ r' = s.
Proof.
  intros Hms Hu Hv Hhs Hst Hval He Hneg Hs.
  pose proof (run_head_last ms u v Hms Hu Hv hs (§"Content-Length", val) m n0 Hhs) as R.
  exists (mkParser s_body [] [] ms (n - zlen s)),
    (mkRequest None u v (map_insert (§"Content-Length") val m) s).
  split; [|done].
  apply (parse_runs _ _ _ (mkParser s_body [] [] ms (n - zlen s))).
  eapply runs_app; [apply R; [unfold header_ok; cbn [snd]; by rewrite Hval|done]|].
  eapply runs_app; [apply run_blank_length; [done|lia]|].
  by apply (feed_negative s n ms None u v).
Qed.

Lemma parse_negative_length_witness :
  exists p' r', parse request_parser_init request_default
    (head (§"GET") (§"/") (§"HTTP/1.1") ([] ++ [(§"Content-Length", §"-1")]) ++ crlf ++ §"xyz") 0 =
    Ok (mkParseResult indeterminate 41 (-4) p' r') /\
    state_ p' = s_body /\ body_ r' = §"xyz".
Proof.
  apply (parse_negative_length (§"GET") (§"/") (§"HTTP/1.1") [] (§"-1") (§"xyz") [] 0 (-1));
    try reflexivity; try discriminate.
  exists (§"1"), (§"1"). by split_and!.
Defined.

(** A folded header line (a line that starts with a space or a tab) is
    accepted as the continuation of the header before it, except after the first header: the
    first header is not yet in the map when the next line starts, so its continuation is
    rejected. *)
Theorem parse_folded_line (ms u v : bytes) (kv kv0 : bytes * bytes) (c : ascii) (rest : bytes)
    (m : std_map bytes) (n : Z) :
  http_token ms = true -> uri_ok u = true -> version_ok v ->
  header_ok kv = true -> header_ok kv0 = true -> stored [kv0] [] 0 = Ok (m, n) ->
  c = SP \/ c = TAB ->
  (exists p' r', parse request_parser_init request_default (head ms u v [kv] ++ c :: rest) 0 =
     Ok (mkParseResult bad (zlen (head ms u v [kv]) + 1) 0 p' r')) /\
  (exists p' r', parse request_parser_init request_default (head ms u v [kv0; kv] ++ [c]) 0 =
     Ok (mkParseResult indeterminate (zlen (head ms u v [kv0; kv] ++ [c])) n p' r') /\
     state_ p' = s_header_lws /\ header_key p' = kv.1 /\ header_val p' = kv.2).
Proof.
  intros Hms Hu Hv Hkv Hkv0 Hst Hc. split.
  - pose proof (run_head_last ms u v Hms Hu Hv [] kv [] 0 eq_refl Hkv eq_refl) as R.
    cbn [app] in R. rewrite parse_0, parse_loop_feed.
    rewrite (feed_runs _ _ _ _ _ _ R). cbn [feed].
    assert (E : consume (mkParser s_header_line_start kv.1 kv.2 ms 0) (mkRequest None u v [] []) c =
      Ok (bad, mkParser s_header_line_start kv.1 kv.2 ms 0, mkRequest None u v [] []))
      by (by destruct Hc as [-> | ->]).
    rewrite E. cbn [mbind outcome_bind body_length method_str].
    replace (0 + zlen (head ms u v [kv] ++ c :: rest) - zlen rest)%Z
      with (zlen (head ms u v [kv]) + 1)%Z by (unfold zlen; rewrite length_app; simpl; lia).
    destruct (Z.leb_spec (zlen (head ms u v [kv]) + 1 + 0) (zlen (head ms u v [kv] ++ c :: rest)))
      as [_|E2]; [eauto|].
    exfalso. unfold zlen in E2. rewrite length_app in E2. simpl in E2. lia.
  - exists (mkParser s_header_lws kv.1 kv.2 ms n), (mkRequest None u v m []).
    split; [|done]. apply (parse_runs _ _ _ (mkParser s_header_lws kv.1 kv.2 ms n)).
    assert (Hok0 : forallb header_ok [kv0] = true) by (cbn; by rewrite Hkv0).
    eapply runs_app; [exact (run_head_last ms u v Hms Hu Hv [kv0] kv m n Hok0 Hkv Hst)|].
    apply runs_one. unfold_consume. cbn [state_ headers_].
    assert (Hm : m <> []).
    { destruct kv0 as [k0 v0]. cbn in Hst.
      destruct (if bool_decide _ then _ else _); cbn in Hst; by simplify_eq. }
    rewrite (bool_decide_true (m <> [])) by done. by destruct Hc as [-> | ->].
Qed.

Lemma parse_folded_line_witness :
  exists p' r', parse request_parser_init request_default
    (head (§"GET") (§"/") (§"HTTP/1.1") [(§"Host", §"a")] ++ SP :: []) 0 =
  Ok (mkParseResult bad 26 0 p' r').
Proof.
  refine (proj1 (parse_folded_line (§"GET") (§"/") (§"HTTP/1.1") (§"Host", §"a") (§"Accept", §"b")
    SP [] [(§"Accept", §"b")] 0 eq_refl eq_refl _ eq_refl eq_refl eq_refl (or_introl eq_refl))).
  exists (§"1"), (§"1"). by split_and!.
Defined.

(** Of two Content-Length headers the first stays in the request and the last decides about the
    length of the body: what is accepted need not be framed. *)
Theorem parse_two_lengths (ms u v v1 v2 body rest : bytes) (n1 : Z) :
  http_token ms = true -> uri_ok u = true -> version_ok v -> value_ok v1 = true -> value_ok v2 = true ->
  stoi v1 = Ok n1 -> stoi v2 = Ok (zlen body) -> n1 <> zlen body ->
  exists p', let r := mkRequest (Some (method_of_str ms)) u v [(§"Content-Length", v1)] body in
    parse request_parser_init request_default
      (head ms u v [(§"Content-Length", v1); (§"Content-Length", v2)] ++ crlf ++ body ++ rest) 0 =
    Ok (mkParseResult good (zlen (head ms u v [(§"Content-Length", v1); (§"Content-Length", v2)] ++ crlf ++ body))
          0 p' r) /\
    ~ framing_ok r.
Proof.
  intros Hms Hu Hv H1 H2 E1 E2 Hne. set (CL := §"Content-Length").
  assert (Hok : forall w, value_ok w = true -> header_ok (CL, w) = true)
    by (intros w Hw; unfold header_ok; cbn [fst snd]; by rewrite Hw).
  pose proof (run_head_last ms u v Hms Hu Hv [(CL, v1)] (CL, v2) [(CL, v1)] n1) as R.
  cbn [app] in R. cbn [fst snd] in R.
  destruct (feed_end (mkParser s_header_line_start CL v2 ms n1) (mkRequest None u v [(CL, v1)] [])
    (mkParser s_header_line_start CL v2 ms (zlen body)) (mkRequest None u v [(CL, v1)] []) body rest)
    as (p' & E & Hm & Hb); [done| |done|].
  { rewrite store_header_pending by done. by rewrite bool_decide_true, E2. }
  assert (R' : runs request_parser_init request_default (head ms u v [(CL, v1); (CL, v2)])
    (mkParser s_header_line_start CL v2 ms n1) (mkRequest None u v [(CL, v1)] [])).
  { apply R; [cbn [forallb]; by rewrite Hok|by apply Hok|]. cbn [stored]. rewrite bool_decide_true by done.
    by rewrite E1. }
  exists p'. split.
  - cbn zeta. rewrite (assoc_L (++) crlf), (assoc_L (++)).
    rewrite (parse_feed_good _ _ _ rest p' (mkRequest None u v [(CL, v1)] body)); [by rewrite Hm| |done].
    rewrite <- (assoc_L (++)), <- (assoc_L (++)), (feed_runs _ _ _ _ _ _ R'). exact E.
  - change (~ (stoi v1 = Ok (zlen body))). rewrite E1. intros H. by apply Ok_inj in H.
Qed.

Lemma parse_two_lengths_witness :
  exists p', parse request_parser_init request_default
      (head (§"POST") (§"/") (§"HTTP/1.1") [(§"Content-Length", §"1"); (§"Content-Length", §"3")] ++
       crlf ++ §"abc" ++ []) 0 =
    Ok (mkParseResult good 60 0 p' (mkRequest (Some POST) (§"/") (§"HTTP/1.1") [(§"Content-Length", §"1")] (§"abc"))).
Proof.
  destruct (parse_two_lengths (§"POST") (§"/") (§"HTTP/1.1") (§"1") (§"3") (§"abc") [] 1)
    as (p' & E & _); try reflexivity; [exists (§"1"), (§"1"); by split_and!|discriminate|].
  exists p'. exact E.
Defined.
