(* ===== verification/Response.v ===== *)
(** * Responses and the response builder

    Models [include/response.h] and [src/response.cc]. A default-constructed
    [response] has an indeterminate status code, [None] here; [build] on it is
    undefined behaviour. The buffers [build] returns are the contents of the two
    strings the builder keeps alive in [head_] and [body_].

    [http_date] is [gmtime] and [strftime] with the format of the code, in the C
    locale. *)

From S2P Require Import Prelude CxxString CxxMap Env.

(** ** Dates *)

(** [n] in at least two digits ([%d], [%H], [%M], [%S]). *)
Definition pad2 (n : Z) : bytes :=
  if (n <? 10)%Z then §"0" ++ to_string_int n else to_string_int n.

Definition day_names : list bytes :=
  [§"Sun"; §"Mon"; §"Tue"; §"Wed"; §"Thu"; §"Fri"; §"Sat"].

Definition month_names : list bytes :=
  [§"Jan"; §"Feb"; §"Mar"; §"Apr"; §"May"; §"Jun"; §"Jul"; §"Aug"; §"Sep"; §"Oct"; §"Nov"; §"Dec"].

(** Year, month 1..12 and day 1..31 of a day counted from 1970-01-01, in the
    proleptic Gregorian calendar. *)
Definition civil_of_days (days : Z) : Z * Z * Z :=
  (let z := days + 719468 in
   let era := z / 146097 in
   let doe := z mod 146097 in
   let yoe := (doe - doe / 1460 + doe / 36524 - doe / 146096) / 365 in
   let doy := doe - (365 * yoe + yoe / 4 - yoe / 100) in
   let mp := (5 * doy + 2) / 153 in
   let d := doy - (153 * mp + 2) / 5 + 1 in
   let m := if mp <? 10 then mp + 3 else mp - 9 in
   (yoe + era * 400 + (if m <=? 2 then 1 else 0), m, d))%Z.

(** [strftime("%a, %d %b %Y %H:%M:%S %Z", gmtime(&t))]. *)
Definition http_date (t : Z) : bytes :=
  let days := (t / 86400)%Z in
  let secs := (t mod 86400)%Z in
  let '(y, m, d) := civil_of_days days in
  nth (Z.to_nat ((days + 4) mod 7)) day_names [] ++ §", " ++ pad2 d ++ §" " ++
  nth (Z.to_nat (m - 1)) month_names [] ++ §" " ++ to_string_int y ++ §" " ++
  pad2 (secs / 3600)%Z ++ §":" ++ pad2 ((secs / 60) mod 60)%Z ++ §":" ++ pad2 (secs mod 60)%Z ++
  §" GMT".

(** ** Responses *)

Inductive status_code := BAD_REQ | NOT_FOUND | OK.

#[export] Instance status_code_eq_dec : EqDecision status_code.
Proof. solve_decision. Defined.

Record response := mkResponse {
  code_ : option status_code;
  res_headers_ : std_map bytes;
  res_body_ : bytes
}.

#[export] Instance response_eq_dec : EqDecision response.
Proof. solve_decision. Defined.

Definition response_default : response := mkResponse None [] [].

Record response_builder := mkBuilder {
  response_ : response;
  head_ : option bytes;      (* null before build() *)
  rb_body_ : option bytes
}.

Definition response_builder_default : response_builder := mkBuilder response_default None None.

Definition set_response (res : response) (b : response_builder) : response_builder :=
  mkBuilder res (head_ b) (rb_body_ b).

Definition get_response (b : response_builder) : response := response_ b.

Definition status_text (code : status_code) : bytes :=
  match code with
  | OK => §"200 OK"
  | BAD_REQ => §"400 Bad Request"
  | NOT_FOUND => §"404 Not Found"
  end.

Definition res_header_line (h : bytes * bytes) : bytes := h.1 ++ §": " ++ h.2 ++ crlf.

(** [build]: the two buffers, and the builder that owns them. *)
Definition build (b : response_builder) : outcome (list bytes * response_builder) :=
  match code_ (response_ b) with
  | None => UB
  | Some code =>
      let entire_header :=
        §"HTTP/1.1 " ++ status_text code ++ crlf ++
        mjoin (res_header_line <$> res_headers_ (response_ b)) ++ crlf in
      let body := res_body_ (response_ b) in
      Ok ([entire_header; body], mkBuilder (response_ b) (Some entire_header) (Some body))
  end.

Definition add_header (key val : bytes) (b : response_builder) : response_builder :=
  set_response (mkResponse (code_ (response_ b)) (map_assign key val (res_headers_ (response_ b)))
    (res_body_ (response_ b))) b.

Definition add_body (data : bytes) (b : response_builder) : response_builder :=
  set_response (mkResponse (code_ (response_ b)) (res_headers_ (response_ b)) data) b.

Definition set_code (code : status_code) (b : response_builder) : response_builder :=
  set_response (mkResponse (Some code) (res_headers_ (response_ b)) (res_body_ (response_ b))) b.

Definition make_400_error (b : response_builder) : response_builder :=
  add_body [] (add_header (§"Content-Length") (§"0") (set_code BAD_REQ b)).

Definition make_404_error (e : env) (b : response_builder) : response_builder :=
  let b1 := set_code NOT_FOUND b in
  let body := default [] (open_file e (§"404page.html")) in
  add_header (§"Content-Length") (to_string_size (length body))
    (add_header (§"Content-Type") (§"text/html") (add_body body b1)).

Definition make_date_servername_headers (e : env) (b : response_builder) : response_builder :=
  add_header (§"Server") (§"WNZA") (add_header (§"Date") (http_date (time_now e)) b).

#[global] Arguments http_date : simpl never.

(** ** The contract of a response *)

(** A response that can be put on the wire: its code is set, its headers are in
    order, and the declared length is the length of the body. *)
Definition framed (res : response) : Prop :=
  code_ res <> None /\ map_wf (res_headers_ res) /\
  map_find (§"Content-Length") (res_headers_ res) = Some (to_string_size (length (res_body_ res))).

(** ** Lemmas *)

Lemma framed_400 b :
  map_wf (res_headers_ (response_ b)) -> framed (get_response (make_400_error b)).
Proof.
  intros H. split_and!; cbn; [done|by apply map_assign_wf|].
  by rewrite map_find_assign, bool_decide_true.
Qed.

Lemma framed_404 e b :
  map_wf (res_headers_ (response_ b)) -> framed (get_response (make_404_error e b)).
Proof.
  intros H. split_and!; cbn; [done|eauto using map_assign_wf|].
  by rewrite map_find_assign, bool_decide_true by eauto using map_assign_wf.
Qed.

(** Adding a header other than the length keeps the frame. *)
Lemma framed_add_header k v b :
  k <> §"Content-Length" -> framed (response_ b) -> framed (response_ (add_header k v b)).
Proof.
  intros Hk (Hc & Hw & Hl). split_and!; cbn; [done|by apply map_assign_wf|].
  rewrite map_find_assign by done. by rewrite bool_decide_false by (intros <-; by apply Hk).
Qed.

Lemma framed_date e b :
  framed (response_ b) -> framed (response_ (make_date_servername_headers e b)).
Proof. intros H. by do 2 (apply framed_add_header; [done|]). Qed.

(** A body and its length in either order make a frame. *)
Lemma framed_length_body c hs n body :
  map_wf hs -> n = to_string_size (length body) ->
  framed (mkResponse (Some c) (map_assign (§"Content-Length") n hs) body).
Proof.
  intros Hw ->. split_and!; cbn; [done|by apply map_assign_wf|].
  by rewrite map_find_assign, bool_decide_true.
Qed.

#[export] Hint Resolve framed_400 framed_404 framed_date framed_length_body : wnza.

(** ** Reading a response back *)

(** A line up to CRLF, and what follows. *)
Fixpoint take_line (s : bytes) : option (bytes * bytes) :=
  match s with
  | [] => None
  | c :: s' =>
      if bool_decide (c = CR) && starts_with [LF] s' then Some ([], drop 1 s')
      else ('(l, r) ← take_line s'; Some (c :: l, r))
  end.

(** A header line at its first colon, followed by a space. *)
Fixpoint split_header (l : bytes) : option (bytes * bytes) :=
  match l with
  | [] => None
  | c :: l' =>
      if bool_decide (c = ":"%char) then
        if starts_with [SP] l' then Some ([], drop 1 l') else None
      else ('(k, v) ← split_header l'; Some (c :: k, v))
  end.

Fixpoint read_headers (fuel : nat) (s : bytes) : option (list (bytes * bytes) * bytes) :=
  match fuel with
  | O => None
  | S n =>
      '(l, r) ← take_line s;
      match l with
      | [] => Some ([], r)
      | _ => h ← split_header l; '(hs, r') ← read_headers n r; Some (h :: hs, r')
      end
  end.

Definition read_status (l : bytes) : option status_code :=
  if bool_decide (l = §"HTTP/1.1 200 OK") then Some OK
  else if bool_decide (l = §"HTTP/1.1 400 Bad Request") then Some BAD_REQ
  else if bool_decide (l = §"HTTP/1.1 404 Not Found") then Some NOT_FOUND
  else None.

(** A client on a persistent connection: one response, and the bytes after it. *)
Definition read_response (s : bytes) : option (response * bytes) :=
  '(l, r) ← take_line s;
  code ← read_status l;
  '(hs, r') ← read_headers (length r) r;
  v ← map_find (§"Content-Length") hs;
  match stoi v with
  | Ok n => Some (mkResponse (Some code) hs (take (Z.to_nat n) r'), drop (Z.to_nat n) r')
  | _ => None
  end.

(** No separator inside a name, no line end inside a name or a value. *)
Definition header_clean (h : bytes * bytes) : Prop :=
  (":"%char ∉ h.1) /\ (CR ∉ h.1) /\ (CR ∉ h.2).

Definition clean (res : response) : Prop := Forall header_clean (res_headers_ res).

Lemma to_string_N_no_CR n : CR ∉ to_string_N n.
Proof.
  intros H. pose proof (to_string_N_digits n) as Hd. rewrite Forall_forall in Hd.
  by apply Hd in H.
Qed.

Lemma to_string_size_no_CR n : CR ∉ to_string_size n.
Proof. apply to_string_N_no_CR. Qed.

Lemma to_string_int_no_CR z : CR ∉ to_string_int z.
Proof.
  unfold to_string_int. pose proof to_string_N_no_CR. destruct (z <? 0)%Z; [|done].
  by apply not_elem_of_cons.
Qed.

Lemma pad2_no_CR z : CR ∉ pad2 z.
Proof.
  unfold pad2. pose proof (to_string_int_no_CR z). destruct (z <? 10)%Z; [|done].
  by apply not_elem_of_cons.
Qed.

Lemma nth_no_CR n names : Forall (fun s => CR ∉ s) names -> CR ∉ nth n names [].
Proof.
  intros H. revert n. induction H as [|s names Hs _ IH]; intros [|n]; simpl; auto using not_elem_of_nil.
Qed.

(** The date is one line. *)
Lemma http_date_no_CR t : CR ∉ http_date t.
Proof.
  unfold http_date. destruct (civil_of_days _) as [[y m] d].
  rewrite !not_elem_of_app. split_and!;
    first [ apply pad2_no_CR | apply to_string_int_no_CR
          | apply nth_no_CR; repeat constructor; not_in | not_in ].
Qed.

Lemma clean_add_header k v b :
  header_clean (k, v) -> clean (response_ b) -> clean (response_ (add_header k v b)).
Proof. intros. by apply map_assign_Forall. Qed.

Lemma clean_date e b :
  clean (response_ b) -> clean (response_ (make_date_servername_headers e b)).
Proof.
  intros. apply clean_add_header; [split_and!; not_in|].
  apply clean_add_header; [|done]. split_and!; [not_in..|apply http_date_no_CR].
Qed.

Lemma clean_length n b :
  clean (response_ b) -> clean (response_ (add_header (§"Content-Length") (to_string_size n) b)).
Proof.
  intros. apply clean_add_header; [|done]. split_and!; [not_in..|apply to_string_size_no_CR].
Qed.

Lemma clean_400 b : clean (response_ b) -> clean (get_response (make_400_error b)).
Proof. intros. apply (clean_add_header _ _ (set_code BAD_REQ b)); [split_and!; not_in|done]. Qed.

Lemma clean_404 e b : clean (response_ b) -> clean (get_response (make_404_error e b)).
Proof. intros. apply clean_length, clean_add_header; [split_and!; not_in|done]. Qed.

Lemma clean_default : clean (response_ response_builder_default).
Proof. constructor. Qed.

#[export] Hint Resolve clean_add_header clean_date clean_length clean_400 clean_404 clean_default : wnza.

Lemma take_line_app l r : CR ∉ l -> take_line (l ++ crlf ++ r) = Some (l, r).
Proof.
  induction l as [|c l IH]; intros Hl; [done|].
  apply not_elem_of_cons in Hl as [Hc Hl]. cbn [app take_line].
  rewrite bool_decide_false by congruence. cbn [andb]. by rewrite IH.
Qed.

Lemma split_header_app k v : ":"%char ∉ k -> split_header (k ++ §": " ++ v) = Some (k, v).
Proof.
  induction k as [|c k IH]; intros Hk; [done|].
  apply not_elem_of_cons in Hk as [Hc Hk]. cbn [app split_header].
  rewrite bool_decide_false by congruence. by rewrite IH.
Qed.

Lemma read_headers_app fuel hs r :
  length hs < fuel -> Forall header_clean hs ->
  read_headers fuel (mjoin (res_header_line <$> hs) ++ crlf ++ r) = Some (hs, r).
Proof.
  intros Hf Hhs. revert fuel Hf. induction Hhs as [|[k v] hs (H1 & H2 & H3) _ IH]; intros fuel Hf.
  - destruct fuel; [lia|]. done.
  - destruct fuel as [|n]; [simpl in Hf; lia|]. cbn [length] in Hf.
    cbn [fmap list_fmap mjoin list_join read_headers]. unfold res_header_line at 1.
    cbn [fst snd] in *. rewrite <- (assoc_L (++)).
    replace ((k ++ §": " ++ v ++ crlf) ++ mjoin (res_header_line <$> hs) ++ crlf ++ r)
      with ((k ++ §": " ++ v) ++ crlf ++ mjoin (res_header_line <$> hs) ++ crlf ++ r)
      by (by rewrite <- !(assoc_L (++))).
    rewrite take_line_app.
    2: { rewrite !not_elem_of_app. split_and!; [done| |done]. by vm_compute; set_solver. }
    cbn [mbind option_bind]. destruct (k ++ §": " ++ v) as [|c l] eqn:E; [by destruct k|].
    rewrite <- E, split_header_app by done. cbn [mbind option_bind].
    by rewrite IH by lia.
Qed.

Lemma header_lines_length hs : length hs <= length (mjoin (res_header_line <$> hs)).
Proof.
  induction hs as [|[k v] hs IH]; [done|].
  change (mjoin (res_header_line <$> (k, v) :: hs))
    with (res_header_line (k, v) ++ mjoin (res_header_line <$> hs)).
  rewrite length_app.
  unfold res_header_line at 1. cbn [fst snd length].
  rewrite !length_app. change (length crlf) with 2. lia.
Qed.

Lemma read_status_line code :
  read_status (§"HTTP/1.1 " ++ status_text code) = Some code /\
  CR ∉ §"HTTP/1.1 " ++ status_text code.
Proof. destruct code; (split; [done|]); not_in. Qed.

Lemma build_read b b' bufs rest :
  framed (response_ b) -> clean (response_ b) ->
  (zlen (res_body_ (response_ b)) <= INT_MAX)%Z ->
  build b = Ok (bufs, b') ->
  read_response (mjoin bufs ++ rest) = Some (response_ b, rest).
Proof.
  intros (Hc & Hw & Hl) Hclean Hlen H. unfold build in H.
  destruct (code_ (response_ b)) as [code|] eqn:Ec; [|done].
  apply Ok_inj, pair_eq in H as [<- _]. cbn [mjoin list_join].
  destruct (response_ b) as [c hs body] eqn:Er. cbn [code_ res_headers_ res_body_] in *. subst c.
  destruct (read_status_line code) as [Hs Hcr].
  rewrite app_nil_r. unfold read_response.
  replace (((§"HTTP/1.1 " ++ status_text code ++ crlf ++ mjoin (res_header_line <$> hs) ++ crlf) ++ body) ++ rest)
    with ((§"HTTP/1.1 " ++ status_text code) ++ crlf ++ mjoin (res_header_line <$> hs) ++ crlf ++ body ++ rest)
    by (by rewrite <- !(assoc_L (++))).
  rewrite take_line_app by done. cbn [mbind option_bind]. rewrite Hs. cbn [mbind option_bind].
  rewrite read_headers_app; [| |done].
  2: { rewrite length_app. pose proof (header_lines_length hs). cbn. lia. }
  cbn [mbind option_bind]. rewrite Hl. cbn [mbind option_bind].
  rewrite stoi_to_string_size by done. rewrite Nat2Z.id.
  by rewrite take_app_length, drop_app_length.
Qed.

(** A framed response can be built. *)
Lemma build_framed res : framed res ->
  exists bufs b', build (set_response res response_builder_default) = Ok (bufs, b').
Proof. intros [Hc _]. unfold build. cbn. destruct (code_ res); [eauto|done]. Qed.

(** C14: what [build] writes for a framed response can be read back on a persistent
    connection: status line, headers up to the blank line and as many body bytes as
    Content-Length says give the code, the headers and the body of the response, and leave exactly
    the bytes that follow it. *)
Theorem build_read_roundtrip (b b' : response_builder) (bufs : list bytes) (rest : bytes) :
  framed (response_ b) -> clean (response_ b) ->
  (zlen (res_body_ (response_ b)) <= INT_MAX)%Z ->
  build b = Ok (bufs, b') ->
  read_response (mjoin bufs ++ rest) = Some (response_ b, rest).
Proof. apply build_read. Qed.

Definition sample_builder : response_builder :=
  mkBuilder (mkResponse (Some OK) [(§"Content-Length", §"2")] (§"hi")) None None.

Lemma build_read_roundtrip_witness :
  exists bufs b', build sample_builder = Ok (bufs, b') /\
  read_response (mjoin bufs ++ §"HTTP/1.1 400") = Some (response_ sample_builder, §"HTTP/1.1 400").
Proof.
  eexists _, _. split; [reflexivity|].
  eapply (build_read_roundtrip sample_builder); [| | |reflexivity].
  - split_and!; [discriminate| |reflexivity]. repeat constructor.
  - repeat constructor; not_in.
  - discriminate.
Defined.
