(* ===== verification/LogHelper.v ===== *)
(** * The log

    Models [src/log_helper.cc]: every member that writes a record, with the text it
    writes. A record is a severity and a message; the sinks and the text before the
    message are in the file [LogFile]. A connection matters to the log only through
    the address and port of its peer, [None] when [remote_endpoint] fails. *)

From S2P Require Import Prelude CxxString CxxMap Env ConfigParser RequestParser Response.

(** The levels the program logs at. *)
Inductive severity_level := trace | warning | error.

Record log_record := mkLog { severity : severity_level; message : bytes }.

#[export] Instance severity_level_eq_dec : EqDecision severity_level.
Proof. solve_decision. Defined.
#[export] Instance log_record_eq_dec : EqDecision log_record.
Proof. solve_decision. Defined.

(** Address and port of the peer of a socket. *)
Abbreviation endpoint := (option (bytes * nat)).

Definition log_trace_file (trace_message : bytes) : log_record :=
  mkLog trace (§"Trace: " ++ trace_message).

Definition log_error_file (error_message : bytes) : log_record :=
  mkLog error (§"Error: " ++ error_message).

Definition log_warning_file (warning_message : bytes) : log_record :=
  mkLog warning (§"Warning: " ++ warning_message).

(** [methods[req.method_]] in an array that also names INVALID. *)
Definition log_method (m : option http_method) : outcome bytes :=
  match m with
  | Some GET => Ok (§"GET") | Some POST => Ok (§"POST") | Some PUT => Ok (§"PUT")
  | Some HEAD => Ok (§"HEAD") | Some INVALID => Ok (§"INVALID")
  | None => UB
  end.

(** [codes[res.code_]]. *)
Definition log_code (c : option status_code) : outcome bytes :=
  match c with
  | Some BAD_REQ => Ok (§"400") | Some NOT_FOUND => Ok (§"404") | Some OK => Ok (§"200")
  | None => UB
  end.

(** [remote_endpoint()] throws when the peer is unknown. *)
Definition log_request_info (req : request) (conn : endpoint) : outcome log_record :=
  m ← log_method (method_ req);
  match conn with
  | None => Throw system_error
  | Some (ip, port) =>
      Ok (mkLog trace (§"Trace: " ++ m ++ §" " ++ uri_ req ++ §" HTTP " ++
        mjoin ((fun h => §" " ++ h.1 ++ §":" ++ h.2) <$> headers_ req) ++
        §" IP: " ++ ip ++ §" Port: " ++ to_string_size port))
  end.

Definition log_response_info (req : request) (res : response) : outcome log_record :=
  c ← log_code (code_ res);
  Ok (mkLog trace (§"Trace: " ++ c ++ §" for request: " ++ uri_ req)).

Definition log_response_sent : log_record := mkLog trace (§"Response Sent").

Definition log_all_handlers (config : NginxConfig) : outcome log_record :=
  handlers_info ← get_location_result config;
  Ok (mkLog trace (§"all handlers: " ++
    mjoin ((fun l => handler_name l ++ §" " ++ uri l ++ §" ") <$> handlers_info))).

(** The record the status handler reads back; the peer is queried with an error
    code first. *)
Definition log_metrics (req : request) (res : response) (conn : endpoint) (name : bytes)
    : outcome log_record :=
  c ← log_code (code_ res);
  Ok (mkLog trace (§"ResponseMetrics: " ++ §" Response code : " ++ c ++ §" Request path: " ++
    uri_ req ++
    match conn with
    | None => §" IP: " ++ §"Failed to get the remote endpoint of the socket"
    | Some (ip, _) => §" IP: " ++ ip
    end ++
    §" Matched request handler name: " ++ name)).
