(* ===== verification/Handlers.v ===== *)
(** * The interface of a request handler, and the handlers without state

    Models [include/request_handler.h] and [src/echo_request_handler.cc],
    [src/health_request_handler.cc], [src/not_found_request_handler.cc].

    [RequestHandler] is the virtual interface; a call returns the response, the
    handler after the call and the records it logged. [HandlerLaws] is what the
    session relies on: whenever a handler returns, its response is framed (the
    code is set and Content-Length is the length of the body). Each handler of the
    program is an instance of both. *)

From S2P Require Import Prelude CxxString CxxMap Env ConfigParser RequestParser RequestRoundTrip Response LogHelper.

(** ** The interface *)

Record handled (H : Type) := mkHandled {
  h_response : response;
  h_handler : H;
  h_log : list log_record
}.
Arguments mkHandled {H} _ _ _.
Arguments h_response {H} _.
Arguments h_handler {H} _.
Arguments h_log {H} _.

Class RequestHandler (H : Type) := {
  handle_request : env -> H -> request -> outcome (handled H);
  get_handler_name : H -> bytes
}.

Class HandlerLaws (H : Type) `{RequestHandler H} :=
  handle_framed e (h : H) req x : handle_request e h req = Ok x -> framed (h_response x).

(** [methods[req.method_]] in an array of four: INVALID is out of its bounds. *)
Definition methods4 (m : option http_method) : outcome bytes :=
  match m with
  | Some GET => Ok (§"GET") | Some POST => Ok (§"POST")
  | Some PUT => Ok (§"PUT") | Some HEAD => Ok (§"HEAD")
  | Some INVALID | None => UB
  end.

(** [int n = s.length(); if (s.compare(n - 1, 1, "/") != 0) s + "/" else s], the
    step with which handlers make prefixes end in a slash. *)
Definition ensure_slash (s : bytes) : outcome bytes :=
  last ← int_pred (int_of_size (zlen s));
  r ← compare s (size_of_int last) 1 (§"/");
  Ok (if bool_decide (r = Eq) then s else s ++ §"/").

(** ** EchoHandler *)

Module Echo.

Record echo_request_handler := mkEcho {}.

Definition echo_init (location_path : bytes) (config : NginxConfig) : echo_request_handler := mkEcho.

Definition echo_body (m : bytes) (req : request) : bytes :=
  m ++ §" " ++ uri_ req ++ §" " ++ version_ req ++ crlf ++
  mjoin (res_header_line <$> headers_ req) ++ crlf ++ body_ req.

Definition echo_handle_request (e : env) (h : echo_request_handler) (req : request)
    : outcome (handled echo_request_handler) :=
  res ← match method_ req with
        | None => UB
        | Some INVALID => Ok (make_400_error response_builder_default)
        | Some m =>
            name ← methods4 (Some m);
            let res := set_code OK response_builder_default in
            let res := add_header (§"Content-Type") (§"text/plain") res in
            let body := echo_body name req in
            let res := add_header (§"Content-Length") (to_string_size (length body)) res in
            Ok (add_body body res)
        end;
  Ok (mkHandled (get_response (make_date_servername_headers e res)) h []).

Definition echo_get_handler_name (h : echo_request_handler) : bytes := §"EchoHandler".

#[export] Instance echo_handler : RequestHandler echo_request_handler :=
  { handle_request := echo_handle_request; get_handler_name := echo_get_handler_name }.

End Echo.

(** ** HealthHandler *)

Module Health.

Record health_request_handler := mkHealth {}.

Definition health_init (location_path : bytes) (config : NginxConfig) : health_request_handler := mkHealth.

Definition health_handle_request (e : env) (h : health_request_handler) (req : request)
    : outcome (handled health_request_handler) :=
  res ← match method_ req with
        | None => UB
        | Some INVALID => Ok (make_400_error response_builder_default)
        | Some _ =>
            let res := set_code OK response_builder_default in
            let body := §"OK" in
            let res := add_body body res in
            Ok (add_header (§"Content-Length") (to_string_size (length body)) res)
        end;
  Ok (mkHandled (get_response (make_date_servername_headers e res)) h []).

Definition health_get_handler_name (h : health_request_handler) : bytes := §"HealthHandler".

#[export] Instance health_handler : RequestHandler health_request_handler :=
  { handle_request := health_handle_request; get_handler_name := health_get_handler_name }.

End Health.

(** ** NotFoundHandler *)

Module NotFound.

Record not_found_request_handler := mkNotFound {}.

Definition not_found_init (location_path : bytes) (config : NginxConfig) : not_found_request_handler := mkNotFound.

Definition not_found_handle_request (e : env) (h : not_found_request_handler) (req : request)
    : outcome (handled not_found_request_handler) :=
  let res := make_404_error e response_builder_default in
  Ok (mkHandled (get_response res) h []).

Definition not_found_get_handler_name (h : not_found_request_handler) : bytes := §"NotFoundHandler".

#[export] Instance not_found_handler : RequestHandler not_found_request_handler :=
  { handle_request := not_found_handle_request; get_handler_name := not_found_get_handler_name }.

End NotFound.

Export Echo Health NotFound.

(** ** Slashes *)

Lemma compare_last s c :
  (zlen s < INT_MAX)%Z -> exists r,
  compare (s ++ [c]) (zlen s) 1 (§"/") = Ok r /\ (r = Eq <-> c = "/"%char).
Proof.
  intros Hl. unfold compare. rewrite substr_Ok by (unfold zlen; rewrite length_app; lia).
  eexists. split; [reflexivity|]. unfold zlen. rewrite Nat2Z.id, drop_app_length.
  rewrite Z.min_l by (rewrite length_app; cbn [length]; lia). cbn [take Z.to_nat].
  change (Z.to_nat 1) with 1. cbn [take]. rewrite bytes_compare_eq. split; [by intros [=]|by intros ->].
Qed.

(** A non-empty string gets exactly one slash at its end, when it has none. *)
Lemma ensure_slash_spec s c :
  (zlen s < INT_MAX)%Z ->
  ensure_slash (s ++ [c]) = Ok (if bool_decide (c = "/"%char) then s ++ [c] else s ++ [c] ++ §"/").
Proof.
  intros Hl. unfold ensure_slash. pose proof (zlen_nonneg s).
  assert (E : zlen (s ++ [c]) = (zlen s + 1)%Z) by (unfold zlen; rewrite length_app; cbn; lia).
  rewrite E, int_of_size_small by lia. unfold int_pred.
  destruct (Z.eqb_spec (zlen s + 1) INT_MIN) as [Ez|_]; [unfold INT_MIN in Ez; lia|].
  cbn [mbind outcome_bind]. replace (zlen s + 1 - 1)%Z with (zlen s) by lia.
  rewrite size_of_int_small by lia.
  destruct (compare_last s c Hl) as (r & -> & Hr). cbn [mbind outcome_bind].
  rewrite (bool_decide_ext _ _ Hr). case_bool_decide; [done|]. by rewrite <- (assoc_L (++)).
Qed.

(** [s], ending in a slash. *)
Definition with_slash (s : bytes) : bytes :=
  if bool_decide (last s = Some "/"%char) then s else s ++ §"/".

Lemma ensure_slash_nonempty s :
  s <> [] -> (zlen s <= INT_MAX)%Z -> ensure_slash s = Ok (with_slash s).
Proof.
  intros Hs Hl. destruct (list_snoc_cases s) as [->|(s' & c & ->)]; [done|].
  unfold zlen in Hl. rewrite length_app in Hl. cbn [length] in Hl.
  rewrite ensure_slash_spec by (unfold zlen; lia). unfold with_slash. rewrite last_snoc.
  rewrite <- (assoc_L (++)). repeat case_bool_decide; congruence.
Qed.

(** [compare] at position [npos] of an empty string throws. *)
Lemma ensure_slash_empty : ensure_slash [] = Throw out_of_range.
Proof. reflexivity. Qed.

(** ** The laws *)

(** A handler of the program whose response headers are single lines as well. *)
Class CleanHandler (H : Type) `{RequestHandler H} :=
  handle_clean e (h : H) req x : handle_request e h req = Ok x -> clean (h_response x).

#[export] Instance echo_laws : HandlerLaws echo_request_handler.
Proof.
  intros e h req x H. cbn in H. unfold echo_handle_request in H.
  destruct (method_ req) as [m|]; [|done].
  destruct m; cbn [methods4 mbind outcome_bind] in H; apply Ok_inj in H as <-;
    apply framed_date; auto using map_wf_nil with wnza;
    (apply framed_length_body; [apply map_assign_wf, map_wf_nil|done]).
Qed.

#[export] Instance health_laws : HandlerLaws health_request_handler.
Proof.
  intros e h req x H. cbn in H. unfold health_handle_request in H.
  destruct (method_ req) as [m|]; [|done].
  destruct m; cbn [mbind outcome_bind] in H; apply Ok_inj in H as <-;
    apply framed_date; auto using map_wf_nil with wnza;
    apply framed_length_body; auto using map_wf_nil.
Qed.

#[export] Instance not_found_laws : HandlerLaws not_found_request_handler.
Proof. intros e h req x H. apply Ok_inj in H as <-. apply framed_404, map_wf_nil. Qed.

#[export] Instance echo_clean : CleanHandler echo_request_handler.
Proof.
  intros e h req x H. cbn in H. unfold echo_handle_request in H.
  destruct (method_ req) as [m|]; [|done].
  destruct m; cbn [methods4 mbind outcome_bind] in H; apply Ok_inj in H as <-;
    apply clean_date; auto with wnza;
    (apply (clean_length _ (add_header _ _ _));
     apply clean_add_header; [split_and!; not_in|apply clean_default]).
Qed.

#[export] Instance health_clean : CleanHandler health_request_handler.
Proof.
  intros e h req x H. cbn in H. unfold health_handle_request in H.
  destruct (method_ req) as [m|]; [|done].
  destruct m; cbn [mbind outcome_bind] in H; apply Ok_inj in H as <-;
    apply clean_date; auto with wnza; apply clean_length, clean_default.
Qed.

#[export] Instance not_found_clean : CleanHandler not_found_request_handler.
Proof. intros e h req x H. apply Ok_inj in H as <-. apply clean_404, clean_default. Qed.

(** What a handler sends can be read back by the client when its response is clean:
    the proof uses the interface only. *)
Section client.
Context {H : Type} `{HandlerLaws H}.

Lemma handled_readable e (h : H) req x :
  handle_request e h req = Ok x ->
  exists bufs b', build (set_response (h_response x) response_builder_default) = Ok (bufs, b') /\
    forall rest, clean (h_response x) -> (zlen (res_body_ (h_response x)) <= INT_MAX)%Z ->
      read_response (mjoin bufs ++ rest) = Some (h_response x, rest).
Proof.
  intros E. pose proof (handle_framed e h req x E) as Hf.
  destruct (build_framed _ Hf) as (bufs & b' & Eb). exists bufs, b'. split; [done|]. intros rest Hc Hlen.
  by apply (build_read (set_response (h_response x) response_builder_default) b').
Qed.

End client.

(** ** Properties *)

(** The body of the echo is the wire form of the request. *)
Lemma echo_body_wire m req : echo_body m req = wire m req.
Proof. done. Qed.

Definition method_name (m : http_method) : bytes :=
  match m with GET => §"GET" | POST => §"POST" | PUT => §"PUT" | HEAD => §"HEAD" | INVALID => [] end.

Lemma methods4_name m : m <> INVALID -> methods4 (Some m) = Ok (method_name m).
Proof. by destruct m. Qed.

Lemma method_name_token m : m <> INVALID ->
  http_token (method_name m) = true /\ method_of_str (method_name m) = m.
Proof. by destruct m. Qed.

Lemma echo_handle_request_known e h req m : method_ req = Some m -> m <> INVALID ->
  let body := echo_body (method_name m) req in
  echo_handle_request e h req =
  Ok (mkHandled (get_response (make_date_servername_headers e (add_body body
        (add_header (§"Content-Length") (to_string_size (length body))
          (add_header (§"Content-Type") (§"text/plain") (set_code OK response_builder_default))))))
      h []).
Proof. intros E Hm. unfold echo_handle_request. rewrite E. by destruct m. Qed.

(** C17: a well-formed request with a known method is echoed: the answer is 200, plain text,
    dated, and its body is a message that the server's own parser accepts, whole and to the last
    byte, as the request that was received. *)
Theorem echo_reparses (e : env) (h : echo_request_handler) (req : request) (m : http_method) :
  wf_request req -> method_ req = Some m -> m <> INVALID ->
  exists x p, echo_handle_request e h req = Ok x /\
    code_ (h_response x) = Some OK /\
    map_find (§"Content-Type") (res_headers_ (h_response x)) = Some (§"text/plain") /\
    map_find (§"Date") (res_headers_ (h_response x)) = Some (http_date (time_now e)) /\
    parse request_parser_init request_default (res_body_ (h_response x)) 0 =
      Ok (mkParseResult good (zlen (res_body_ (h_response x))) 0 p req).
Proof.
  intros Hwf Hm Hi. destruct (method_name_token m Hi) as [Ht Hs].
  destruct (parse_wire (method_name m) req request_default [] Hwf Ht) as (p & R & _); [done..|].
  rewrite app_nil_r, Hs in R.
  replace (set_method m req) with req in R by (destruct req; unfold set_method; cbn in *; congruence).
  eexists _, p. split; [by apply echo_handle_request_known|].
  split_and!; [done| | |rewrite <- echo_body_wire in R; exact R]; cbn;
    by repeat (rewrite map_find_assign by eauto using map_assign_wf, map_wf_nil).
Qed.

Lemma echo_reparses_witness :
  exists x p, echo_handle_request (one_file_env [] []) mkEcho sample_request = Ok x /\
    parse request_parser_init request_default (res_body_ (h_response x)) 0 =
      Ok (mkParseResult good (zlen (res_body_ (h_response x))) 0 p sample_request).
Proof.
  destruct (echo_reparses (one_file_env [] []) mkEcho sample_request POST sample_request_wf eq_refl)
    as (x & p & H & _ & _ & _ & H'); [discriminate|eauto].
Defined.
