(* ===== verification/StaticHandler.v ===== *)
(** * The handler of static files

    Models [src/static_request_handler.cc]: the constructor and [init] (which
    falls back to the not-found handler), the mapping from a URI to a file, the
    table of content types and the answer. Positions and lengths go through [int]
    as in the code. *)

From S2P Require Import Prelude CxxString CxxMap Env ConfigParser RequestParser RequestRoundTrip Response LogHelper Handlers.

Module Static.

Record static_request_handler := mkStatic { root_ : bytes; prefix_ : bytes }.

Definition static_ctor (config : NginxConfig) (prefix_uri : bytes) : outcome static_request_handler :=
  root_value ← get_value_from_statement (§"root") config;
  root_uri ← (if (zlen root_value =? 0)%Z then Ok (§".")
              else substr root_value 1 (size_sub (zlen root_value) 2));
  root ← ensure_slash root_uri;
  prefix ← ensure_slash prefix_uri;
  Ok (mkStatic root prefix).

Definition static_init (location_path : bytes) (config : NginxConfig)
    : outcome (static_request_handler + not_found_request_handler) :=
  root ← get_value_from_statement (§"root") config;
  if bool_decide (root <> []) then inl <$> static_ctor config location_path
  else Ok (inr mkNotFound).

(** The position goes through an [int], [npos] becoming -1. *)
Definition get_file_name (h : static_request_handler) (uri : bytes) : outcome bytes :=
  let npos := (SIZE_MOD - 1)%Z in
  let i := int_of_size (default npos (Z.of_nat <$> rfind (prefix_ h) uri)) in
  if (size_of_int i =? npos)%Z then Ok []
  else
    let len := int_of_size (zlen (prefix_ h)) in
    pos ← int_add i len;
    substr_from uri (size_of_int pos).

Definition extension_to_type (extension : bytes) : bytes :=
  if bool_decide (extension = §".zip") then §"application/zip"
  else if bool_decide (extension = §".txt") then §"text/plain"
  else if bool_decide (extension = §".jpg") then §"image/jpeg"
  else if bool_decide (extension = §".png") then §"image/png"
  else if bool_decide (extension = §".html") || bool_decide (extension = §".htm") then §"text/html"
  else if bool_decide (extension = §".pdf") then §"application/pdf"
  else if bool_decide (extension = §".zip") then §"application/zip"
  else §"application/octet-stream".

Definition file_to_body (e : env) (file_path : bytes) (result : response_builder)
    : outcome (bool * response_builder) :=
  match open_file e file_path with
  | Some body =>
      extension ← match rfind (§".") file_path with
                  | Some cursor => substr_from file_path (Z.of_nat cursor)
                  | None => Ok []
                  end;
      let result := add_body body result in
      let result := add_header (§"Content-Type") (extension_to_type extension) result in
      let result := add_header (§"Content-Length") (to_string_size (length body)) result in
      Ok (true, result)
  | None => Ok (false, result)
  end.

Definition static_not_found (e : env) (h : static_request_handler) : handled static_request_handler :=
  mkHandled (get_response (make_404_error e response_builder_default)) h [].

Definition static_handle_request (e : env) (h : static_request_handler) (req : request)
    : outcome (handled static_request_handler) :=
  let res := set_code OK response_builder_default in
  filename ← get_file_name h (uri_ req);
  let uri := root_ h ++ filename in
  if bool_decide (filename = []) then Ok (static_not_found e h)
  else
    '(found, res) ← file_to_body e uri res;
    if (found : bool)
    then Ok (mkHandled (get_response (make_date_servername_headers e res)) h [])
    else Ok (static_not_found e h).

Definition static_get_handler_name (h : static_request_handler) : bytes := §"StaticHandler".

#[export] Instance static_handler : RequestHandler static_request_handler :=
  { handle_request := static_handle_request; get_handler_name := static_get_handler_name }.

End Static.

Export Static.

(** ** The laws *)

(** How a static handler answers: with the file or with the 404 page. *)
Lemma static_handle_cases e h req x :
  static_handle_request e h req = Ok x ->
  x = static_not_found e h \/
  exists name body ext,
    get_file_name h (uri_ req) = Ok name /\ name <> [] /\
    open_file e (root_ h ++ name) = Some body /\
    x = mkHandled (get_response (make_date_servername_headers e
          (add_header (§"Content-Length") (to_string_size (length body))
            (add_header (§"Content-Type") (extension_to_type ext)
              (add_body body (set_code OK response_builder_default)))))) h [].
Proof.
  intros H. unfold static_handle_request in H. apply bind_Ok in H as (name & En & H).
  case_bool_decide as Ee; [left; by apply Ok_inj in H|].
  apply bind_Ok in H as ([found res] & Ef & H). unfold file_to_body in Ef.
  destruct (open_file e (root_ h ++ name)) as [body|] eqn:Eo; ok_inv; [right|by left].
  by eexists name, body, _.
Qed.

#[export] Instance static_laws : HandlerLaws static_request_handler.
Proof.
  intros e h req x [->|(name & body & ext & _ & _ & _ & ->)]%static_handle_cases.
  - apply framed_404, map_wf_nil.
  - apply framed_date, framed_length_body; [apply map_assign_wf, map_wf_nil|done].
Qed.

Lemma extension_to_type_no_CR ext : CR ∉ extension_to_type ext.
Proof. unfold extension_to_type. repeat case_bool_decide; cbn [orb]; not_in. Qed.

#[export] Instance static_clean : CleanHandler static_request_handler.
Proof.
  intros e h req x [->|(name & body & ext & _ & _ & _ & ->)]%static_handle_cases.
  - apply clean_404, clean_default.
  - apply clean_date, clean_length, clean_add_header; [|apply clean_default].
    split_and!; [not_in..|apply extension_to_type_no_CR].
Qed.

(** ** From a URI to a file *)

Definition file_name_of (h : static_request_handler) (uri : bytes) : bytes :=
  match rfind (prefix_ h) uri with
  | Some i => drop (i + length (prefix_ h)) uri
  | None => []
  end.

(** The extension of a path starts at its last dot. *)
Definition extension_of (path : bytes) : bytes :=
  match rfind (§".") path with Some i => drop i path | None => [] end.

(** What a static handler should answer: the file under the root named by what
    follows the prefix, or the 404 page. *)
Definition static_spec (e : env) (h : static_request_handler) (uri : bytes) : response :=
  match file_name_of h uri with
  | [] => get_response (make_404_error e response_builder_default)
  | name =>
      match open_file e (root_ h ++ name) with
      | Some body =>
          mkResponse (Some OK)
            [(§"Content-Length", to_string_size (length body));
             (§"Content-Type", extension_to_type (extension_of (root_ h ++ name)));
             (§"Date", http_date (time_now e)); (§"Server", §"WNZA")] body
      | None => get_response (make_404_error e response_builder_default)
      end
  end.

(** The name is what follows the last occurrence of the prefix. *)
Lemma get_file_name_after h a name :
  (zlen (a ++ prefix_ h ++ name) <= INT_MAX)%Z ->
  rfind (prefix_ h) (a ++ prefix_ h ++ name) = Some (length a) ->
  get_file_name h (a ++ prefix_ h ++ name) = Ok name.
Proof.
  intros Hl Hr. unfold get_file_name. rewrite Hr. cbn [fmap option_fmap option_map from_option id].
  unfold zlen in Hl. rewrite !length_app in Hl.
  rewrite (int_of_size_small (Z.of_nat (length a))) by lia.
  rewrite size_of_int_small by lia.
  destruct (Z.eqb_spec (Z.of_nat (length a)) (SIZE_MOD - 1)) as [E|_];
    [unfold INT_MAX, SIZE_MOD in *; lia|].
  unfold zlen. rewrite int_of_size_small by lia.
  rewrite int_add_Ok by (unfold INT_MIN; lia). cbn [mbind outcome_bind].
  rewrite size_of_int_small by lia. rewrite <- Nat2Z.inj_add, substr_from_Ok.
  - by rewrite (assoc_L (++)), <- length_app, drop_app_length.
  - rewrite !length_app. lia.
  - unfold zlen, INT_MAX, SIZE_MOD in *. rewrite !length_app. lia.
Qed.

Lemma get_file_name_spec h uri :
  (zlen uri <= INT_MAX)%Z -> get_file_name h uri = Ok (file_name_of h uri).
Proof.
  intros Hl. unfold file_name_of. destruct (rfind (prefix_ h) uri) as [i|] eqn:E.
  - destruct (rfind_Some _ _ _ E) as ([name Hd] & Hi & _).
    assert (Eu : uri = take i uri ++ prefix_ h ++ name) by (by rewrite <- Hd, take_drop).
    assert (Ei : length (take i uri) = i) by (rewrite length_take; lia).
    rewrite <- drop_drop, Hd, drop_app_length. rewrite Eu.
    apply get_file_name_after; rewrite <- Eu; [done|by rewrite Ei].
  - unfold get_file_name. by rewrite E.
Qed.

Lemma file_to_body_spec e path b :
  (zlen path < SIZE_MOD)%Z ->
  file_to_body e path b = Ok
    match open_file e path with
    | Some body => (true, add_header (§"Content-Length") (to_string_size (length body))
        (add_header (§"Content-Type") (extension_to_type (extension_of path)) (add_body body b)))
    | None => (false, b)
    end.
Proof.
  intros Hl. unfold file_to_body, extension_of. destruct (open_file e path); [|done].
  destruct (rfind (§".") path) as [i|] eqn:E; [|done].
  apply rfind_Some in E as (_ & Hi & _). by rewrite substr_from_Ok.
Qed.

Lemma static_handle_spec e h req :
  (zlen (uri_ req) <= INT_MAX)%Z -> (zlen (root_ h) <= INT_MAX)%Z ->
  static_handle_request e h req = Ok (mkHandled (static_spec e h (uri_ req)) h []).
Proof.
  intros Hu Hr. unfold static_handle_request, static_spec.
  rewrite get_file_name_spec by done. cbn [mbind outcome_bind].
  assert (Hf : length (file_name_of h (uri_ req)) <= length (uri_ req)).
  { unfold file_name_of. destruct (rfind _ _); [rewrite length_drop|simpl]; lia. }
  destruct (file_name_of h (uri_ req)) as [|c name]; [done|].
  rewrite bool_decide_false by done. rewrite file_to_body_spec.
  - by destruct (open_file e _).
  - unfold zlen, INT_MAX, SIZE_MOD in *. rewrite length_app. lia.
Qed.

(** The name of a file under the prefix, when the prefix does not occur again. *)
Lemma file_name_of_last h a name :
  (forall j, length a < j -> starts_with (prefix_ h) (drop j (a ++ prefix_ h ++ name)) = false) ->
  file_name_of h (a ++ prefix_ h ++ name) = name.
Proof.
  intros Hj. unfold file_name_of. rewrite (rfind_last _ _ (length a)).
  - by rewrite <- drop_drop, !drop_app_length.
  - rewrite !length_app. lia.
  - by rewrite drop_app_length, starts_with_app.
  - intros j [? _]. by apply Hj.
Qed.

Lemma static_ctor_spec config value r path q1 q2 :
  get_value_from_statement (§"root") config = Ok value -> value = q1 :: r ++ [q2] ->
  path <> [] -> (zlen value <= INT_MAX)%Z -> (zlen path <= INT_MAX)%Z ->
  static_init path config =
    if bool_decide (r = []) then Throw out_of_range
    else Ok (inl (mkStatic (with_slash r) (with_slash path))).
Proof.
  intros Hv -> Hp Hl Hl'. unfold static_init, static_ctor. rewrite Hv. cbn [mbind outcome_bind].
  rewrite bool_decide_true by done.
  assert (E : zlen (q1 :: r ++ [q2]) = (zlen r + 2)%Z)
    by (unfold zlen; cbn [length]; rewrite length_app; cbn; lia).
  pose proof (zlen_nonneg r). destruct (Z.eqb_spec (zlen (q1 :: r ++ [q2])) 0); [lia|].
  rewrite substr_unquote by (unfold INT_MAX, SIZE_MOD in *; lia). cbn [mbind outcome_bind].
  case_bool_decide as Er; [by subst r|].
  by rewrite !ensure_slash_nonempty by (done || lia).
Qed.

(** ** Properties *)

(** C15: a static handler answers every request, and with exactly what its contract says: the
    contents of the file under the root that is named by what follows the prefix in the URI, with
    its length, the type of its extension and the date; or the 404 page when there is no such name
    or the file does not open. Positions fit in [int] because a request is no longer than that. *)
Theorem static_answers (e : env) (h : static_request_handler) (req : request) :
  (zlen (uri_ req) <= INT_MAX)%Z -> (zlen (root_ h) <= INT_MAX)%Z ->
  static_handle_request e h req = Ok (mkHandled (static_spec e h (uri_ req)) h []).
Proof. apply static_handle_spec. Qed.

Definition sample_static : static_request_handler := mkStatic (§"./files/") (§"/static/").

Definition sample_get (u : bytes) : request := mkRequest (Some GET) u (§"HTTP/1.1") [] [].

Lemma static_answers_witness :
  exists x, static_handle_request (one_file_env (§"./files/a.txt") (§"hello")) sample_static
    (sample_get (§"/static/a.txt")) = Ok x /\
  res_body_ (h_response x) = §"hello" /\
  map_find (§"Content-Type") (res_headers_ (h_response x)) = Some (§"text/plain").
Proof.
  eexists. split; [apply static_answers; discriminate|]. split; reflexivity.
Defined.

(** C33: the part of the path after the prefix is not checked: with enough "../" a URI reaches any
    file [f] above the root, whatever the root is, as long as the text of the prefix does not
    occur in the rest of the URI. *)
Theorem static_escapes_root (e : env) (h : static_request_handler) (m : option http_method)
    (n : nat) (f body : bytes) :
  let name := mjoin (replicate n (§"../")) ++ f in
  f <> [] ->
  (forall j, 0 < j -> starts_with (prefix_ h) (drop j (prefix_ h ++ name)) = false) ->
  (zlen (prefix_ h ++ name) <= INT_MAX)%Z -> (zlen (root_ h) <= INT_MAX)%Z ->
  open_file e (root_ h ++ mjoin (replicate n (§"../")) ++ f) = Some body ->
  exists x, static_handle_request e h (mkRequest m (prefix_ h ++ name) (§"HTTP/1.1") [] []) = Ok x /\
    code_ (h_response x) = Some OK /\ res_body_ (h_response x) = body.
Proof.
  intros name Hf Hj Hl Hr Ho. eexists. split; [by apply static_handle_spec|].
  unfold static_spec. cbn [uri_ h_response].
  change (prefix_ h ++ name) with ([] ++ prefix_ h ++ name). rewrite file_name_of_last by done.
  destruct name as [|c l] eqn:En.
  - exfalso. apply Hf. unfold name in En. by apply app_eq_nil in En as [_ ?].
  - rewrite <- En. unfold name. by rewrite Ho.
Qed.

Lemma static_escapes_root_witness :
  exists x, static_handle_request (one_file_env (§"./files/../../etc/passwd") (§"root"))
    sample_static (sample_get (§"/static/../../etc/passwd")) = Ok x /\
    code_ (h_response x) = Some OK /\ res_body_ (h_response x) = §"root".
Proof.
  apply (static_escapes_root _ sample_static (Some GET) 2 (§"etc/passwd")); try discriminate; [|done].
  intros j Hj. do 26 (destruct j as [|j]; [try lia; reflexivity|]). reflexivity.
Defined.

(** The last occurrence of the prefix counts: below a directory whose name repeats the prefix,
    the file served is the one of that name directly under the root, and the nested file is not
    looked at. *)
Theorem static_nested_prefix (e e' : env) (h : static_request_handler) (req : request)
    (dir name : bytes) :
  uri_ req = (prefix_ h ++ dir) ++ prefix_ h ++ name ->
  (forall j, length (prefix_ h ++ dir) < j ->
    starts_with (prefix_ h) (drop j ((prefix_ h ++ dir) ++ prefix_ h ++ name)) = false) ->
  (zlen (uri_ req) <= INT_MAX)%Z -> (zlen (root_ h) <= INT_MAX)%Z ->
  open_file e' (root_ h ++ name) = open_file e (root_ h ++ name) ->
  open_file e' (§"404page.html") = open_file e (§"404page.html") -> time_now e' = time_now e ->
  static_handle_request e' h req = static_handle_request e h req.
Proof.
  intros Hu Hj Hl Hr H1 H2 H3. rewrite !static_handle_spec by done. unfold static_spec.
  rewrite Hu, file_name_of_last by done. unfold make_404_error. rewrite H2, H3.
  destruct name; [done|]. by rewrite H1.
Qed.

Lemma static_nested_prefix_witness :
  static_handle_request (one_file_env (§"./files/a/static/x") (§"nested")) sample_static
    (sample_get (§"/static/a/static/x")) =
  static_handle_request (one_file_env (§"./files/other") (§"nested")) sample_static
    (sample_get (§"/static/a/static/x")).
Proof.
  apply (static_nested_prefix _ _ sample_static _ (§"a") (§"x")); try reflexivity; try discriminate.
  intros j Hj. do 19 (destruct j as [|j]; [cbn in Hj; first [lia|reflexivity]|]). reflexivity.
Defined.

(** A location block with a root makes a static handler whose root is the quoted value and
    whose prefix is the path of the location, both ending in a slash; a root that is quoted but
    empty makes the construction throw, and without a root the not-found handler is used. *)
Theorem static_init_result (config : NginxConfig) (path value : bytes) :
  get_value_from_statement (§"root") config = Ok value ->
  path <> [] -> (zlen value <= INT_MAX)%Z -> (zlen path <= INT_MAX)%Z ->
  (value = [] -> static_init path config = Ok (inr mkNotFound)) /\
  (forall q1 q2 r, value = q1 :: r ++ [q2] ->
    static_init path config =
      if bool_decide (r = []) then Throw out_of_range
      else Ok (inl (mkStatic (with_slash r) (with_slash path)))).
Proof.
  intros Hv Hp Hl Hl'. split; [|intros; by eapply static_ctor_spec].
  intros ->. unfold static_init. by rewrite Hv.
Qed.

Lemma static_init_result_witness :
  static_init (§"/static") [Statement [§"root"; dquote :: §"./files" ++ [dquote]] None] =
  Ok (inl sample_static).
Proof.
  destruct (static_init_result [Statement [§"root"; dquote :: §"./files" ++ [dquote]] None]
    (§"/static") (dquote :: §"./files" ++ [dquote])) as [_ H]; [reflexivity|discriminate..|].
  exact (H dquote dquote (§"./files") eq_refl).
Defined.
