(* ===== verification/StatusHandler.v ===== *)
(** * The status handler

    Models [src/status_request_handler.cc]: the handler reads every log file,
    takes the list of locations from the records written by [log_all_handlers] and
    one row per record written by [log_metrics], and prints both as a table. The
    theorems read the records of the log back.

    [interval_len] is indeterminate until the first request. The formatting width
    of [all_handlers] is always set again before it is used, so that the stream is
    modelled by its contents. *)

From S2P Require Import Prelude CxxString CxxMap Env ConfigParser RequestParser RequestRoundTrip Response LogHelper Handlers.

Module Status.

Record status_request_handler := mkStatus {
  all_handlers : bytes;
  interval_len : option nat
}.

(** [new status_request_handler()]. *)
Definition status_init (location_path : bytes) (config : NginxConfig) : status_request_handler :=
  mkStatus [] None.

(** [std::left << std::setfill(' ') << std::setw(w) << s]. *)
Definition setw_left (w : nat) (s : bytes) : bytes := s ++ replicate (w - length s) SP.

(** Successive [std::getline]s: a last line without a line feed counts when it
    is not empty. *)
Fixpoint getlines (s acc : bytes) : list bytes :=
  match s with
  | [] => match acc with [] => [] | _ => [acc] end
  | c :: s' => if bool_decide (c = LF) then acc :: getlines s' [] else getlines s' (acc ++ [c])
  end.

(** The loop over the words after "all handlers: ": names padded, URIs ending
    the row. *)
Fixpoint handler_table (w : nat) (s : bytes) (count : nat) (temp : bytes) : bytes :=
  match s with
  | [] => []
  | c :: s' =>
      if bool_decide (c = SP) then
        (if Nat.even count then setw_left w temp else temp ++ crlf) ++ handler_table w s' (S count) []
      else handler_table w s' count (temp ++ [c])
  end.

Fixpoint until_space (s : bytes) : bytes :=
  match s with
  | [] => []
  | c :: s' => if bool_decide (c = SP) then [] else c :: until_space s'
  end.

(** The URL after the request marker; when the marker is missing, [npos] plus its
    length wraps around. *)
Definition request_url (line : bytes) : bytes :=
  let marker := §"Request path: " in
  let found := default (SIZE_MOD - 1)%Z (Z.of_nat <$> find marker line) in
  until_space (drop (Z.to_nat ((found + zlen marker) mod SIZE_MOD)) line).

(** What has been gathered from the log: the table of handlers, the number of
    requests and their rows. *)
Record gathered := mkGathered { g_handlers : bytes; g_count : nat; g_rows : bytes }.

Definition scan_line (w : nat) (g : gathered) (line : bytes) : outcome gathered :=
  let g1 := match find (§"all handlers:") line with
            | Some found =>
                mkGathered (handler_table w (drop (found + 14) line) 0 []) (g_count g) (g_rows g)
            | None => g
            end in
  match find (§"ResponseMetrics") line with
  | None => Ok g1
  | Some _ =>
      let url := request_url line in
      match find (§"Response code : ") line with
      | None => Ok g1
      | Some found =>
          code ← substr line (Z.of_nat (found + 16)) 3;
          Ok (mkGathered (g_handlers g1) (S (g_count g1))
                (g_rows g1 ++ setw_left w url ++ code ++ crlf))
      end
  end.

Fixpoint scan_lines (w : nat) (g : gathered) (lines : list bytes) : outcome gathered :=
  match lines with
  | [] => Ok g
  | line :: rest => g' ← scan_line w g line; scan_lines w g' rest
  end.

(** Files that do not open are skipped. *)
Definition log_lines (files : list (option bytes)) : list bytes :=
  mjoin ((fun f => match f with Some contents => getlines contents [] | None => [] end) <$> files).

(** The records and the handler after reading them; without a log directory the
    directory iterator throws. *)
Definition get_request_records (e : env) (h : status_request_handler)
    : outcome (bytes * status_request_handler) :=
  match log_dir e, interval_len h with
  | None, _ => Throw system_error
  | Some _, None => UB
  | Some files, Some w =>
      let head := setw_left w (§"requests URL") ++ §"response codes" ++ crlf in
      g ← scan_lines w (mkGathered (all_handlers h) 0 head) (log_lines files);
      Ok (§"Total Requests: " ++ to_string_size (g_count g) ++ [LF] ++
          §"Current Host Name: " ++ host_name e ++ [LF; LF] ++ g_rows g,
          mkStatus (g_handlers g) (Some w))
  end.

Definition status_handle_request (e : env) (h : status_request_handler) (req : request)
    : outcome (handled status_request_handler) :=
  let w := 50 in
  let res := add_header (§"Content-Type") (§"text/plain") (set_code OK response_builder_default) in
  '(records, h1) ← get_request_records e (mkStatus (all_handlers h) (Some w));
  let body := setw_left w (§"handlers name") ++ §"URL prefixes" ++ crlf ++
              all_handlers h1 ++ crlf ++ records in
  let res := add_header (§"Content-Length") (to_string_size (length body)) res in
  let res := add_body body res in
  Ok (mkHandled (get_response (make_date_servername_headers e res)) (mkStatus [] (interval_len h1)) []).

Definition status_get_handler_name (h : status_request_handler) : bytes := §"StatusHandler".

#[export] Instance status_handler : RequestHandler status_request_handler :=
  { handle_request := status_handle_request; get_handler_name := status_get_handler_name }.

End Status.

Export Status.

(** ** The laws *)

#[export] Instance status_laws : HandlerLaws status_request_handler.
Proof.
  intros e h req x E. cbn in E. unfold status_handle_request in E.
  apply bind_Ok in E as ([records h1] & _ & E). apply Ok_inj in E as <-.
  apply framed_date, framed_length_body; [apply map_assign_wf, map_wf_nil|done].
Qed.

#[export] Instance status_clean : CleanHandler status_request_handler.
Proof.
  intros e h req x E. cbn in E. unfold status_handle_request in E.
  apply bind_Ok in E as ([records h1] & _ & E). apply Ok_inj in E as <-.
  apply clean_date, (clean_length _ (add_header _ _ _)).
  apply clean_add_header; [split_and!; not_in|apply clean_default].
Qed.

(** ** Finding the markers *)

(** No occurrence of [m] starts inside of [s], whatever follows [s]. *)
Definition marker_free (m s : bytes) : Prop :=
  forall t j, j < length s -> starts_with m (drop j (s ++ t)) = false.

Lemma marker_free_app m s t : marker_free m s -> marker_free m t -> marker_free m (s ++ t).
Proof.
  intros Hs Ht u j Hj. rewrite <- (assoc_L (++)). destruct (decide (j < length s)) as [Hl|Hl].
  - by apply Hs.
  - rewrite drop_app_ge by lia. apply Ht. rewrite length_app in Hj. lia.
Qed.

Lemma find_marker m s t : marker_free m s -> find m (s ++ m ++ t) = Some (length s).
Proof.
  intros Hs. apply find_first.
  - rewrite length_app. lia.
  - by rewrite drop_app_length, starts_with_app.
  - intros j Hj. by apply Hs.
Qed.

Lemma find_free m s : m <> [] -> marker_free m s -> find m s = None.
Proof.
  intros Hm Hs. destruct (find m s) as [k|] eqn:E; [|done].
  apply find_Some in E as ([t Ht] & Hk & _). destruct (decide (k < length s)) as [Hl|Hl].
  - specialize (Hs [] k Hl). by rewrite app_nil_r, Ht, starts_with_app in Hs.
  - rewrite drop_ge in Ht by lia. symmetry in Ht. by apply app_eq_nil in Ht as [-> _].
Qed.

(** A test for literals: no suffix of [s] agrees with [m] as far as both go. *)
Fixpoint agrees (m s : bytes) : bool :=
  match m, s with
  | c :: m', d :: s' => bool_decide (c = d) && agrees m' s'
  | _, _ => true
  end.

Fixpoint marker_freeb (m s : bytes) : bool :=
  match s with
  | [] => true
  | _ :: s' => negb (agrees m s) && marker_freeb m s'
  end.

Lemma agrees_starts m s t : agrees m s = false -> starts_with m (s ++ t) = false.
Proof.
  revert s. induction m as [|c m IH]; intros [|d s] H; try done. cbn in *.
  destruct (bool_decide (c = d)); [|done]. by apply IH.
Qed.

Lemma marker_freeb_sound m s : marker_freeb m s = true -> marker_free m s.
Proof.
  induction s as [|c s IH]; intros H t j Hj; [simpl in Hj; lia|].
  cbn [marker_freeb] in H. apply andb_true_iff in H as [Ha%negb_true_false Hs].
  destruct j as [|j]; [by apply agrees_starts|]. apply (IH Hs t j). simpl in Hj. lia.
Qed.

(** ** Words *)

Lemma until_space_word u t : SP ∉ u -> until_space (u ++ SP :: t) = u.
Proof.
  induction u as [|c u IH]; intros Hu; [done|]. apply not_elem_of_cons in Hu as [Hc Hu].
  cbn [app until_space]. rewrite bool_decide_false by done. by rewrite IH.
Qed.

(** A marker of two words does not start in a word [u] followed by a space and
    text that does not continue with its second word. *)
Lemma marker_free_word m1 m2 u t j :
  SP ∉ u -> SP ∉ m1 -> starts_with m2 t = false -> j <= length u ->
  starts_with (m1 ++ SP :: m2) (drop j (u ++ SP :: t)) = false.
Proof.
  intros Hu Hm Ht Hj. rewrite drop_app_le by done.
  assert (Hu' : SP ∉ drop j u) by (intros Hin; apply Hu; rewrite <- (take_drop j u); set_solver).
  revert Hm Hu'. generalize (drop j u) as v. clear -Ht. induction m1 as [|c m IH]; intros v Hm Hv.
  - destruct v as [|d v]; [done|]. cbn. apply not_elem_of_cons in Hv as [Hd _].
    by rewrite bool_decide_false.
  - apply not_elem_of_cons in Hm as [Hc Hm]. destruct v as [|d v]; cbn.
    + by rewrite bool_decide_false by done.
    + apply not_elem_of_cons in Hv as [_ Hv]. rewrite IH by done. by rewrite andb_false_r.
Qed.

Lemma getlines_app l s acc : LF ∉ l -> getlines (l ++ LF :: s) acc = (acc ++ l) :: getlines s [].
Proof.
  revert acc. induction l as [|c l IH]; intros acc Hl; cbn [app getlines].
  - rewrite bool_decide_true by done. by rewrite app_nil_r.
  - apply not_elem_of_cons in Hl as [Hc Hl]. rewrite bool_decide_false by congruence.
    rewrite IH by done. by rewrite <- (assoc_L (++)).
Qed.

(** A file written one line at a time is read back line by line. *)
Lemma getlines_lines ls :
  Forall (fun l => LF ∉ l) ls -> getlines (mjoin ((fun l => l ++ [LF]) <$> ls)) [] = ls.
Proof.
  induction 1 as [|l ls Hl _ IH]; [done|].
  change (mjoin ((fun l => l ++ [LF]) <$> l :: ls))
    with ((l ++ [LF]) ++ mjoin ((fun l => l ++ [LF]) <$> ls)).
  rewrite <- (assoc_L (++)). cbn [app]. rewrite getlines_app by done. by rewrite IH.
Qed.

(** ** Texts without a marker *)

Definition absent (m s : bytes) : Prop := forall j, starts_with m (drop j s) = false.

Lemma absent_find m s : absent m s -> find m s = None.
Proof.
  intros Ha. destruct (find m s) as [k|] eqn:E; [|done].
  apply find_Some in E as ([t Ht] & _ & _). specialize (Ha k). by rewrite Ht, starts_with_app in Ha.
Qed.

Lemma absent_app m a b : marker_free m a -> absent m b -> absent m (a ++ b).
Proof.
  intros Ha Hb j. destruct (decide (j < length a)); [by apply Ha|].
  rewrite drop_app_ge by lia. apply Hb.
Qed.

Lemma absent_word m1 m2 u t :
  SP ∉ u -> SP ∉ m1 -> starts_with m2 t = false -> absent (m1 ++ SP :: m2) (SP :: t) ->
  absent (m1 ++ SP :: m2) (u ++ SP :: t).
Proof.
  intros Hu Hm Ht Ha j. destruct (decide (j <= length u)); [by apply marker_free_word|].
  rewrite drop_app_ge by lia. apply Ha.
Qed.

Lemma absent_last m1 m2 s : SP ∉ s -> absent (m1 ++ SP :: m2) s.
Proof.
  intros Hs j. destruct (starts_with _ _) eqn:E; [|done]. apply starts_with_spec in E as [t Ht].
  exfalso. apply Hs. rewrite <- (take_drop j s), Ht. set_solver.
Qed.

(** ** The records of the log *)

(** A record as the program writes it. *)
Inductive log_entry :=
| Metrics (req : request) (res : response) (conn : endpoint) (name : bytes)
| Locations (locs : list (bytes * bytes))       (* handler name, URI *)
| Other (msg : bytes).

Definition locations_message (locs : list (bytes * bytes)) : bytes :=
  §"all handlers: " ++ mjoin ((fun l => l.1 ++ §" " ++ l.2 ++ §" ") <$> locs).

Definition entry_message (en : log_entry) : outcome bytes :=
  match en with
  | Metrics req res conn name => message <$> log_metrics req res conn name
  | Locations locs => Ok (locations_message locs)
  | Other msg => Ok msg
  end.

Definition ip_ok (conn : endpoint) : Prop :=
  match conn with Some (ip, _) => SP ∉ ip | None => True end.

(** The words the handler looks for are separated by spaces, and no other marker
    is in the record. *)
Definition entry_ok (en : log_entry) : Prop :=
  match en with
  | Metrics req res conn name => (SP ∉ uri_ req) /\
      forall rec, log_metrics req res conn name = Ok rec -> absent (§"all handlers:") (message rec)
  | Locations locs =>
      Forall (fun l => (SP ∉ l.1) /\ (SP ∉ l.2)) locs /\
      absent (§"ResponseMetrics") (locations_message locs)
  | Other msg => absent (§"all handlers:") msg /\ absent (§"ResponseMetrics") msg
  end.

(** The text before the message (time stamp, ids, severity) has none of the
    markers in it. *)
Definition prefix_ok (pre : bytes) : Prop :=
  marker_free (§"all handlers:") pre /\ marker_free (§"ResponseMetrics") pre /\
  marker_free (§"Request path: ") pre /\ marker_free (§"Response code : ") pre.

(** What the status page should say after a record. *)
Definition summarize (w : nat) (g : gathered) (en : log_entry) : gathered :=
  match en with
  | Metrics req res _ _ =>
      match log_code (code_ res) with
      | Ok c => mkGathered (g_handlers g) (S (g_count g)) (g_rows g ++ setw_left w (uri_ req) ++ c ++ crlf)
      | _ => g
      end
  | Locations locs =>
      mkGathered (mjoin ((fun l => setw_left w l.1 ++ l.2 ++ crlf) <$> locs)) (g_count g) (g_rows g)
  | Other _ => g
  end.

Lemma handler_table_word w u s count temp :
  SP ∉ u ->
  handler_table w (u ++ SP :: s) count temp =
  (if Nat.even count then setw_left w (temp ++ u) else (temp ++ u) ++ crlf) ++
    handler_table w s (S count) [].
Proof.
  revert temp. induction u as [|c u IH]; intros temp Hu; cbn [app handler_table].
  - rewrite bool_decide_true by done. by rewrite app_nil_r.
  - apply not_elem_of_cons in Hu as [Hc Hu]. rewrite bool_decide_false by congruence.
    rewrite IH by done. by rewrite <- !(assoc_L (++)).
Qed.

Lemma handler_table_locations w locs count :
  Forall (fun l => (SP ∉ l.1) /\ (SP ∉ l.2)) locs -> Nat.even count = true ->
  handler_table w (mjoin ((fun l => l.1 ++ §" " ++ l.2 ++ §" ") <$> locs)) count [] =
  mjoin ((fun l => setw_left w l.1 ++ l.2 ++ crlf) <$> locs).
Proof.
  intros Hl. revert count. induction Hl as [|[name u] locs [Hn Hu] _ IH]; intros count Hc; [done|].
  cbn [fst snd] in *.
  change (mjoin ((fun l => l.1 ++ §" " ++ l.2 ++ §" ") <$> (name, u) :: locs))
    with ((name ++ §" " ++ u ++ §" ") ++ mjoin ((fun l => l.1 ++ §" " ++ l.2 ++ §" ") <$> locs)).
  change (mjoin ((fun l => setw_left w l.1 ++ l.2 ++ crlf) <$> (name, u) :: locs))
    with ((setw_left w name ++ u ++ crlf) ++ mjoin ((fun l => setw_left w l.1 ++ l.2 ++ crlf) <$> locs)).
  rewrite <- !(assoc_L (++)). change (§" ") with [SP]. cbn [app].
  rewrite handler_table_word, Hc by done. cbn [app]. rewrite handler_table_word by done.
  replace (Nat.even (S count)) with false by (by rewrite Nat.even_succ, <- Nat.negb_even, Hc).
  cbn [app]. rewrite IH by (by rewrite !Nat.even_succ_succ || done). by rewrite <- !(assoc_L (++)).
Qed.

(** What follows the URI in a metrics record. *)
Definition metrics_tail (conn : endpoint) (name : bytes) : bytes :=
  match conn with
  | None => §"IP: Failed to get the remote endpoint of the socket"
  | Some (ip, _) => §"IP: " ++ ip
  end ++ §" Matched request handler name: " ++ name.

Lemma log_metrics_text req res conn name rec :
  log_metrics req res conn name = Ok rec ->
  exists c, log_code (code_ res) = Ok c /\ length c = 3 /\
    marker_free (§"all handlers:") c /\ marker_free (§"Request path: ") c /\
    message rec = §"ResponseMetrics:  " ++ §"Response code : " ++ c ++ §" " ++ §"Request path: " ++
      uri_ req ++ SP :: metrics_tail conn name.
Proof.
  unfold log_metrics, metrics_tail. intros E. apply bind_Ok in E as (c & Ec & E). apply Ok_inj in E as <-.
  exists c. split; [done|]. destruct (code_ res) as [[]|]; try done;
    apply Ok_inj in Ec as <-; (split; [done|]);
    (split; [by apply marker_freeb_sound|]); (split; [by apply marker_freeb_sound|]);
    cbn [message]; destruct conn as [[ip port]|]; reflexivity.
Qed.

Ltac free_literal := apply marker_freeb_sound; reflexivity.

Lemma metrics_no_handlers u conn name :
  SP ∉ u -> SP ∉ name -> ip_ok conn ->
  absent (§"all handlers:") (u ++ SP :: metrics_tail conn name).
Proof.
  intros Hu Hn Hip. change (§"all handlers:") with (§"all" ++ SP :: §"handlers:").
  assert (Hm : SP ∉ §"all") by not_in.
  assert (Hend : absent (§"all" ++ SP :: §"handlers:") (§" Matched request handler name: " ++ name))
    by (apply absent_app; [free_literal|by apply absent_last]).
  apply absent_word; [done|done| |]; unfold metrics_tail; destruct conn as [[ip port]|]; try reflexivity.
  - change (SP :: (§"IP: " ++ ip) ++ §" Matched request handler name: " ++ name)
      with (§" IP: " ++ (ip ++ SP :: §"Matched request handler name: " ++ name)).
    apply absent_app; [free_literal|]. by apply absent_word.
  - change (SP :: §"IP: Failed to get the remote endpoint of the socket" ++ §" Matched request handler name: " ++ name)
      with (§" IP: Failed to get the remote endpoint of the socket" ++ (§" Matched request handler name: " ++ name)).
    apply absent_app; [free_literal|done].
Qed.

(** Metrics records without spaces in their words are such. *)
Lemma metrics_entry_ok req res conn name :
  SP ∉ uri_ req -> SP ∉ name -> ip_ok conn -> entry_ok (Metrics req res conn name).
Proof.
  intros Hu Hn Hip. split; [done|]. intros rec E.
  destruct (log_metrics_text _ _ _ _ _ E) as (c & _ & _ & F & _ & ->).
  repeat (apply absent_app; [done || free_literal|]). by apply metrics_no_handlers.
Qed.

(** A line with both markers is a row. *)
Lemma scan_row w g line a1 c t1 a2 u t2 k :
  absent (§"all handlers:") line -> find (§"ResponseMetrics") line = Some k ->
  line = a1 ++ §"Response code : " ++ c ++ t1 -> find (§"Response code : ") line = Some (length a1) ->
  length c = 3 ->
  line = a2 ++ §"Request path: " ++ u ++ SP :: t2 -> find (§"Request path: ") line = Some (length a2) ->
  SP ∉ u -> (zlen line < SIZE_MOD)%Z ->
  scan_line w g line =
    Ok (mkGathered (g_handlers g) (S (g_count g)) (g_rows g ++ setw_left w u ++ c ++ crlf)).
Proof.
  intros Ha Hm E1 F1 Hc E2 F2 Hu Hlen. unfold scan_line, request_url.
  rewrite (absent_find _ _ Ha), Hm, F1, F2.
  assert (Hd1 : drop (length a1 + 16) line = c ++ t1) by (by rewrite E1, <- drop_drop, drop_app_length).
  assert (Hd2 : drop (length a2 + 14) line = u ++ SP :: t2) by (by rewrite E2, <- drop_drop, drop_app_length).
  assert (Hl1 : length line = length a1 + (16 + (3 + length t1))) by (by rewrite E1, !length_app, Hc).
  assert (Hl2 : length line = length a2 + (14 + (length u + S (length t2)))) by (by rewrite E2, !length_app).
  rewrite substr_Ok by (unfold zlen; lia). rewrite Nat2Z.id, Hd1.
  rewrite Z.min_l by (unfold zlen; lia). change (Z.to_nat 3) with 3.
  rewrite <- Hc, take_app_length. cbn [mbind outcome_bind fmap option_fmap option_map from_option id].
  change (zlen (§"Request path: ")) with 14%Z.
  rewrite Z.mod_small by (unfold zlen in Hlen; lia).
  replace (Z.to_nat (Z.of_nat (length a2) + 14)) with (length a2 + 14) by lia.
  by rewrite Hd2, until_space_word.
Qed.

Lemma scan_metrics w g pre req res conn name rec :
  prefix_ok pre -> entry_ok (Metrics req res conn name) -> log_metrics req res conn name = Ok rec ->
  (zlen (pre ++ message rec) < SIZE_MOD)%Z ->
  scan_line w g (pre ++ message rec) = Ok (summarize w g (Metrics req res conn name)).
Proof.
  intros (P1 & P2 & P3 & P4) (Hu & Hh) E Hlen. specialize (Hh _ E).
  destruct (log_metrics_text _ _ _ _ _ E) as (c & Ec & Hc & F1 & F2 & Em).
  cbn [summarize]. rewrite Ec. rewrite Em in *. set (tail := metrics_tail conn name) in *.
  set (a := pre ++ §"ResponseMetrics:  ").
  set (b := pre ++ §"ResponseMetrics:  " ++ §"Response code : " ++ c ++ §" ").
  assert (Ea : pre ++ §"ResponseMetrics:  " ++ §"Response code : " ++ c ++ §" " ++ §"Request path: " ++
    uri_ req ++ SP :: tail = a ++ §"Response code : " ++ c ++ §" " ++ §"Request path: " ++ uri_ req ++ SP :: tail)
    by (unfold a; by rewrite <- (assoc_L (++))).
  assert (Eb : pre ++ §"ResponseMetrics:  " ++ §"Response code : " ++ c ++ §" " ++ §"Request path: " ++
    uri_ req ++ SP :: tail = b ++ §"Request path: " ++ uri_ req ++ SP :: tail)
    by (unfold b; by rewrite <- !(assoc_L (++))).
  eapply (scan_row _ _ _ a c _ b (uri_ req)); [| |exact Ea| |done|exact Eb| |done|done].
  - by apply absent_app.
  - by apply (find_marker (§"ResponseMetrics") pre (§":  " ++ _)).
  - rewrite Ea. apply find_marker. repeat apply marker_free_app; done || free_literal.
  - rewrite Eb. apply find_marker. repeat apply marker_free_app; done || free_literal.
Qed.

Lemma scan_locations w g pre locs :
  prefix_ok pre -> entry_ok (Locations locs) ->
  scan_line w g (pre ++ locations_message locs) = Ok (summarize w g (Locations locs)).
Proof.
  intros (P1 & P2 & _) (Hl & Ha). unfold scan_line.
  rewrite (absent_find (§"ResponseMetrics")) by (by apply absent_app).
  unfold locations_message at 1.
  change (§"all handlers: " ++ ?x) with (§"all handlers:" ++ SP :: x).
  rewrite (find_marker (§"all handlers:") pre) by done.
  rewrite <- drop_drop, drop_app_length. cbn [summarize]. do 2 f_equal.
  by apply handler_table_locations.
Qed.

Lemma scan_other w g pre msg :
  prefix_ok pre -> entry_ok (Other msg) -> scan_line w g (pre ++ msg) = Ok g.
Proof.
  intros (P1 & P2 & _) (H1 & H2). unfold scan_line.
  by rewrite !absent_find by (by apply absent_app).
Qed.

(** A line of the log and the record it was written for. *)
Definition written (en : log_entry) (line : bytes) : Prop :=
  entry_ok en /\ (zlen line < SIZE_MOD)%Z /\
  exists pre msg, prefix_ok pre /\ entry_message en = Ok msg /\ line = pre ++ msg.

Lemma scan_written w g en line : written en line -> scan_line w g line = Ok (summarize w g en).
Proof.
  intros (Hok & Hlen & pre & msg & Hp & Em & ->). destruct en as [req res conn name|locs|msg']; cbn in Em.
  - destruct (log_metrics req res conn name) as [rec| |] eqn:El; try done. injection Em as <-.
    by apply scan_metrics.
  - injection Em as <-. by apply scan_locations.
  - injection Em as <-. by apply scan_other.
Qed.

Lemma scan_lines_written w g entries lines :
  Forall2 written entries lines ->
  scan_lines w g lines = Ok (foldl (summarize w) g entries).
Proof.
  intros Hw. revert g. induction Hw as [|en line entries lines He _ IH]; intros g; [done|].
  cbn [scan_lines foldl]. rewrite (scan_written _ _ _ _ He). apply IH.
Qed.

(** ** The status page *)

Definition rows_head (w : nat) : bytes := setw_left w (§"requests URL") ++ §"response codes" ++ crlf.

Definition status_page (e : env) (g : gathered) : bytes :=
  setw_left 50 (§"handlers name") ++ §"URL prefixes" ++ crlf ++ g_handlers g ++ crlf ++
  §"Total Requests: " ++ to_string_size (g_count g) ++ [LF] ++
  §"Current Host Name: " ++ host_name e ++ [LF; LF] ++ g_rows g.

Definition is_metrics (en : log_entry) : bool :=
  match en with Metrics _ _ _ _ => true | _ => false end.

(** A log file written line by line. *)
Definition log_file (lines : list bytes) : bytes := mjoin ((fun l => l ++ [LF]) <$> lines).

Lemma summarize_count w g entries :
  Forall (fun en => entry_message en <> UB) entries ->
  g_count (foldl (summarize w) g entries) = g_count g + length (List.filter is_metrics entries).
Proof.
  intros He. revert g. induction He as [|en entries H _ IH]; intros g; cbn [foldl List.filter length]; [lia|].
  rewrite IH. destruct en as [req res conn name|locs|msg]; cbn; [|lia..].
  cbn in H. unfold log_metrics in H. destruct (code_ res) as [[]|]; cbn in *; [lia..|done].
Qed.

Lemma log_lines_files lss :
  Forall (Forall (fun l => LF ∉ l)) lss -> log_lines ((fun ls => Some (log_file ls)) <$> lss) = mjoin lss.
Proof.
  induction 1 as [|ls lss Hl _ IH]; [done|].
  change (log_lines ((fun ls => Some (log_file ls)) <$> ls :: lss))
    with (getlines (log_file ls) [] ++ log_lines ((fun ls => Some (log_file ls)) <$> lss)).
  change (mjoin (ls :: lss)) with (ls ++ mjoin lss).
  unfold log_file at 1. by rewrite getlines_lines, IH.
Qed.

(** ** Properties *)

(** The status page reports what the log says: when the files of the log directory are the
    records the program wrote, one per line, whatever harmless text comes before each message, the
    page lists the locations of the last record of them, counts exactly the answered requests, and
    has one row with the URL and the code of each, in the order of the log. *)
Theorem status_reports_log (e : env) (h : status_request_handler) (req : request)
    (lss : list (list bytes)) (entries : list log_entry) :
  log_dir e = Some ((fun ls => Some (log_file ls)) <$> lss) ->
  Forall (Forall (fun l => LF ∉ l)) lss -> Forall2 written entries (mjoin lss) ->
  let g := foldl (summarize 50) (mkGathered (all_handlers h) 0 (rows_head 50)) entries in
  exists x, status_handle_request e h req = Ok x /\
    code_ (h_response x) = Some OK /\ res_body_ (h_response x) = status_page e g /\
    g_count g = length (List.filter is_metrics entries).
Proof.
  intros Hd Hl Hw g. unfold status_handle_request, get_request_records.
  rewrite Hd. cbn [interval_len all_handlers]. rewrite log_lines_files by done.
  rewrite (scan_lines_written _ _ _ _ Hw). cbn [mbind outcome_bind].
  eexists. split; [reflexivity|]. split; [done|]. split.
  - done.
  - unfold g. rewrite summarize_count; [done|]. clear -Hw. induction Hw as [|en line entries lines He _ IH];
      constructor; [|done]. destruct He as (_ & _ & pre & msg & _ & Em & _). by rewrite Em.
Qed.

(** A request whose only header carries the text of a metrics record. *)
Definition forged (u c : bytes) : request :=
  mkRequest (Some GET) (§"/") (§"HTTP/1.1")
    [(§"X", §"ResponseMetrics Request path: " ++ u ++ §" Response code : " ++ c)] [].

(** The peer at the end of a request record. *)
Lemma peer_no_handlers v ip port :
  SP ∉ v -> SP ∉ ip ->
  absent (§"all handlers:") (v ++ SP :: §"IP: " ++ ip ++ §" Port: " ++ to_string_size port).
Proof.
  intros Hv Hip. change (§"all handlers:") with (§"all" ++ SP :: §"handlers:").
  assert (Hm : SP ∉ §"all") by not_in. apply absent_word; [done|done|reflexivity|].
  change (SP :: §"IP: " ++ ip ++ §" Port: " ++ to_string_size port)
    with (§" IP: " ++ (ip ++ SP :: §"Port: " ++ to_string_size port)).
  apply absent_app; [free_literal|]. apply absent_word; [done|done|reflexivity|].
  apply (absent_app _ (§" Port: ")); [free_literal|]. apply absent_last.
  intros Hin. pose proof (to_string_N_digits (N.of_nat port)) as Hd. rewrite Forall_forall in Hd.
  by apply Hd in Hin.
Qed.

(** C36: the page believes the headers of requests: a well-formed request can carry the text of a
    record in a header, and the line logged for it is counted as an answered request for a URL and
    with a code of the client's choice. *)
Theorem status_record_forged (w : nat) (g : gathered) (pre u c ip : bytes) (port : nat) (rec : log_record) :
  prefix_ok pre -> SP ∉ u -> SP ∉ c -> SP ∉ ip -> length c = 3 ->
  value_ok u = true -> value_ok c = true ->
  log_request_info (forged u c) (Some (ip, port)) = Ok rec ->
  (zlen (pre ++ message rec) < SIZE_MOD)%Z ->
  wf_request (forged u c) /\
  scan_line w g (pre ++ message rec) =
    Ok (mkGathered (g_handlers g) (S (g_count g)) (g_rows g ++ setw_left w u ++ c ++ crlf)).
Proof.
  intros (P1 & P2 & P3 & P4) Hu Hc Hip Hlc Vu Vc E Hlen. split.
  { assert (Hv : value_ok (§"ResponseMetrics Request path: " ++ u ++ §" Response code : " ++ c) = true)
      by (unfold value_ok in *; by rewrite !forallb_app, Vu, Vc).
    split; [done|exists (§"1"), (§"1"); by split_and!|by repeat constructor| |done].
    cbn [forged headers_ forallb]. unfold header_ok. cbn [fst snd]. by rewrite Hv. }
  unfold log_request_info in E. cbn [forged method_ log_method mbind outcome_bind] in E.
  apply Ok_inj in E as <-. cbn [message] in *.
  set (tail := §"IP: " ++ ip ++ §" Port: " ++ to_string_size port).
  set (f := §"Trace: GET / HTTP  X:").
  replace (§"Trace: " ++ §"GET" ++ §" " ++ uri_ (forged u c) ++ §" HTTP " ++ _ ++ _)
    with (f ++ §"ResponseMetrics " ++ §"Request path: " ++ u ++ §" Response code : " ++ c ++ SP :: tail) in *.
  2: { unfold f, tail. cbn [forged headers_ uri_ fmap list_fmap mjoin list_join fst snd].
       rewrite <- !(assoc_L (++)). done. }
  set (a := pre ++ f ++ §"ResponseMetrics ").
  set (b := pre ++ f ++ §"ResponseMetrics " ++ §"Request path: " ++ u ++ §" ").
  assert (Ea : pre ++ f ++ §"ResponseMetrics " ++ §"Request path: " ++ u ++ §" Response code : " ++ c ++ SP :: tail
    = a ++ §"Request path: " ++ u ++ SP :: §"Response code : " ++ c ++ SP :: tail)
    by (unfold a; by rewrite <- !(assoc_L (++))).
  assert (Eb : pre ++ f ++ §"ResponseMetrics " ++ §"Request path: " ++ u ++ §" Response code : " ++ c ++ SP :: tail
    = b ++ §"Response code : " ++ c ++ SP :: tail) by (unfold b; by rewrite <- !(assoc_L (++))).
  eapply (scan_row _ _ _ b c _ a u); [| |exact Eb| |done|exact Ea| |done|done].
  - do 4 (apply absent_app; [done || free_literal|]).
    change (§"all handlers:") with (§"all" ++ SP :: §"handlers:").
    apply (absent_word _ _ _ (§"Response code : " ++ c ++ SP :: tail)); [done|not_in|reflexivity|].
    apply (absent_app _ (§" Response code : ")); [free_literal|]. by apply peer_no_handlers.
  - rewrite (assoc_L (++) pre f).
    apply (find_marker (§"ResponseMetrics") (pre ++ f) (§" " ++ _)). apply marker_free_app; done || free_literal.
  - rewrite Eb. apply find_first; [rewrite !length_app; lia|by rewrite drop_app_length, starts_with_app|].
    intros j Hj. rewrite <- Eb.
    set (a' := pre ++ f ++ §"ResponseMetrics " ++ §"Request path: ").
    assert (Fa' : marker_free (§"Response code : ") a')
      by (repeat apply marker_free_app; done || free_literal).
    replace (pre ++ f ++ §"ResponseMetrics " ++ §"Request path: " ++ u ++ §" Response code : " ++ c ++ SP :: tail)
      with (a' ++ u ++ SP :: §"Response code : " ++ c ++ SP :: tail) by (unfold a'; by rewrite <- !(assoc_L (++))).
    assert (Hb : length b = length a' + (length u + 1))
      by (unfold a', b; rewrite !length_app; change (length (§" ")) with 1; lia).
    destruct (decide (j < length a')); [by apply Fa'|]. rewrite drop_app_ge by lia.
    apply (marker_free_word (§"Response") (§"code : ")); [done|not_in|reflexivity|lia].
  - rewrite Ea. apply find_marker. repeat apply marker_free_app; done || free_literal.
Qed.

(** The text Boost.Log puts before a message. *)
Definition sample_prefix : bytes := §"2019-05-27 10:11:12.123456 [0x00007f01] [trace] [42] [7] ".

Lemma sample_prefix_ok : prefix_ok sample_prefix.
Proof. split_and!; free_literal. Qed.

Definition sample_metrics : log_entry :=
  Metrics (mkRequest (Some GET) (§"/echo/x") (§"HTTP/1.1") [] []) (mkResponse (Some OK) [] [])
    (Some (§"127.0.0.1", 4000)) (§"EchoHandler").

Definition sample_log_env (files : list (option bytes)) : env :=
  mkEnv (fun _ => None) 0 (Some files) (§"localhost") (fun _ _ _ _ => unresolved) 1000 (fun s _ _ => s).

Lemma status_reports_log_witness :
  exists line x, entry_message sample_metrics = Ok line /\
    status_handle_request (sample_log_env [Some (log_file [sample_prefix ++ line])]) (mkStatus [] None)
      (mkRequest (Some GET) (§"/status") (§"HTTP/1.1") [] []) = Ok x /\
    find (§"Total Requests: 1") (res_body_ (h_response x)) <> None.
Proof.
  eexists. destruct (status_reports_log (sample_log_env [Some (log_file [sample_prefix ++
    (§"ResponseMetrics:  Response code : 200 Request path: /echo/x IP: 127.0.0.1" ++
     §" Matched request handler name: EchoHandler")])]) (mkStatus [] None)
    (mkRequest (Some GET) (§"/status") (§"HTTP/1.1") [] [])
    [[sample_prefix ++ (§"ResponseMetrics:  Response code : 200 Request path: /echo/x IP: 127.0.0.1" ++
     §" Matched request handler name: EchoHandler")]] [sample_metrics]) as (x & Ex & _ & Hb & _).
  - reflexivity.
  - repeat constructor. not_in.
  - constructor; [|constructor]. split; [apply metrics_entry_ok; not_in|]. split; [done|].
    eexists sample_prefix, _. split; [apply sample_prefix_ok|]. split; reflexivity.
  - exists x. split; [reflexivity|]. split; [exact Ex|]. rewrite Hb. vm_compute. discriminate.
Defined.

Lemma status_record_forged_witness :
  exists rec, log_request_info (forged (§"/secret") (§"500")) (Some (§"127.0.0.1", 4000)) = Ok rec /\
  scan_line 50 (mkGathered [] 0 []) (sample_prefix ++ message rec) =
    Ok (mkGathered [] 1 (setw_left 50 (§"/secret") ++ §"500" ++ crlf)).
Proof.
  eexists. split; [reflexivity|].
  eapply (status_record_forged 50 (mkGathered [] 0 []) sample_prefix (§"/secret") (§"500") (§"127.0.0.1") 4000);
    try reflexivity; [apply sample_prefix_ok|not_in..].
Defined.
