(* ===== verification/LogFile.v ===== *)
(** * The files of the log

    Models the constructor of [log_helper] and [log_helper::instance] in
    [src/log_helper.cc]: how the program sets up Boost.Log, and the singleton that
    does it once.

    Boost.Log itself is a parameter. The class [BoostLog] has its logging core as an
    abstract state, the set-up functions the program calls, and what logging records
    does to the files of a directory. [BoostLogLaws] states the documented behaviour
    as far as the program relies on it: which settings each call changes, which
    sinks get a record, and how a format is rendered. Text is only known to be in a
    file when its sink flushes and appends, a severity is only known to print by
    name when a formatter is registered for it, and the time stamp and the ids are
    only known to be there when the common attributes have been added. Their values
    are arbitrary for each record. *)

From S2P Require Import Prelude CxxString LogHelper StatusHandler.

(** ** Formats *)









(** A record with the values of the attributes that come from outside. *)
Abbreviation stamped := ((bytes -> bytes) * log_record)%type.

(** ** Boost.Log *)











(** ** The program's log *)



Section program.
Context `{BoostLog}.





End program.

(** ** Lines *)









(** ** What ends up in the files *)





Section laws.
Context `{BoostLogLaws}.





(** ** Properties *)


End laws.

(** ** A logging core *)











