(* ===== verification/ProxyHandler.v ===== *)
(** * The reverse proxy handler

    Models [src/reverse_proxy_request_handler.cc]: construction from a location
    block, URL parsing, the request that is sent on, the reading of the answer and
    redirects.

    The network is a parameter: an exchange is a failure to resolve or to connect,
    or the chunks that successive reads bring and the way the stream ends. The
    answer is read through a [boost::asio::streambuf] and an [istream] on it, whose
    state flags are modelled. [send_request] and [handle_redirect] call each other;
    the depth of the stack bounds the recursion, and exceeding it is undefined
    behaviour. Reading an unsigned number past [UINT_MAX] sets the fail flag, as in
    the standard library. *)

From S2P Require Import Prelude CxxString CxxMap Env ConfigParser RequestParser RequestRoundTrip Response LogHelper Handlers.

(** ** Input streams on a buffer *)

Module IStream.

Record istream := mkStream { rest : bytes; eof : bool; fail : bool }.

Definition stream_new : istream := mkStream [] false false.

Definition good_stream (i : istream) : bool := negb (eof i) && negb (fail i).

(** Bytes of [s] up to the first that satisfies [stop], and from there on. *)
Fixpoint span (stop : ascii -> bool) (s : bytes) : bytes * bytes :=
  match s with
  | [] => ([], [])
  | c :: s' => if stop c then ([], s) else let '(a, b) := span stop s' in (c :: a, b)
  end.

(** The sentry of a formatted extraction: white space is skipped, the end of the
    buffer fails. *)
Definition sentry_skip (i : istream) : istream :=
  if good_stream i then
    match skip_spaces (rest i) with
    | [] => mkStream [] true true
    | s => mkStream s false false
    end
  else mkStream (rest i) (eof i) true.

(** [i >> word]. *)
Definition read_word (i : istream) : bytes * istream :=
  let i1 := sentry_skip i in
  if fail i1 then ([], i1)
  else
    let '(w, r) := span is_space (rest i1) in
    (w, mkStream r (bool_decide (r = [])) false).

Definition UINT_MOD : Z := 4294967296.

(** [i >> n] on an [unsigned int]; a sign is accepted, and negation is modular. *)
Definition read_unsigned (i : istream) : Z * istream :=
  let i1 := sentry_skip i in
  if fail i1 then (0%Z, i1)
  else
    let '(neg, s) := match rest i1 with
                     | c :: s' => if bool_decide (c = "-"%char) then (true, s')
                                  else if bool_decide (c = "+"%char) then (false, s')
                                  else (false, c :: s')
                     | [] => (false, [])
                     end in
    let '(ds, r) := span (fun c => negb (is_dec_digit c)) s in
    let at_end := bool_decide (r = []) in
    let v := digits_value ds in
    if bool_decide (ds = []) then (0%Z, mkStream r at_end true)
    else if (UINT_MOD <=? v)%Z then ((UINT_MOD - 1)%Z, mkStream r at_end true)
    else ((if (neg : bool) then (- v) mod UINT_MOD else v)%Z, mkStream r at_end false).

(** [std::getline(i, line)]. *)
Definition getline (i : istream) : bytes * istream :=
  if good_stream i then
    let '(l, r) := span (fun c => bool_decide (c = LF)) (rest i) in
    match r with
    | _ :: r' => (l, mkStream r' false false)
    | [] => (l, mkStream [] true (bool_decide (l = [])))
    end
  else ([], mkStream (rest i) (eof i) true).

(** The buffer grows under the stream; the flags stay. *)
Definition feed_stream (more : bytes) (i : istream) : istream :=
  mkStream (rest i ++ more) (eof i) (fail i).

(** [boost::asio::read_until(socket, buffer, delim, ec)]: reads until the buffer
    holds the delimiter or the stream ends. *)
Fixpoint read_until (delim : bytes) (i : istream) (chunks : list bytes) : istream * list bytes :=
  match find delim (rest i) with
  | Some _ => (i, chunks)
  | None =>
      match chunks with
      | [] => (i, [])
      | c :: chunks' => read_until delim (feed_stream c i) chunks'
      end
  end.

End IStream.

Export IStream.

Module Proxy.

Record url := mkUrl { url_host_ : bytes; url_path_ : bytes; url_query_ : bytes }.

Definition url_empty : url := mkUrl [] [] [].

Record reverse_proxy_request_handler := mkProxy {
  dest_ : bytes;
  port_ : bytes;
  host_ : bytes;
  path_ : bytes;
  proxy_prefix_ : bytes
}.

(** [tolower] on a [char]: a negative one but EOF is outside of its domain. *)
Definition lower_char (c : ascii) : ascii :=
  let n := N_of_ascii c in
  if ((65 <=? n) && (n <=? 90))%N then ascii_of_N (n + 32) else c.

Definition to_lower (s : bytes) : outcome bytes :=
  if forallb (fun c => (-1 <=? char_to_int c)%Z) s then Ok (lower_char <$> s) else UB.

Definition parse_url (url_s : bytes) : outcome url :=
  match find (§"://") url_s with
  | None => _ ← to_lower url_s; Ok url_empty
  | Some i =>
      _ ← to_lower (take i url_s);
      let '(h, from_path) := span (fun c => bool_decide (c = "/"%char)) (drop (i + 3) url_s) in
      host ← to_lower h;
      let '(path, from_query) := span (fun c => bool_decide (c = "?"%char)) from_path in
      Ok (mkUrl host path (drop 1 from_query))
  end.

Definition proxy_ctor (config : NginxConfig) (prefix_uri : bytes)
    : outcome reverse_proxy_request_handler :=
  prefix ← ensure_slash prefix_uri;
  dest_value ← get_value_from_statement (§"dest") config;
  dest_text ← substr dest_value 1 (size_sub (zlen dest_value) 2);
  dest ← ensure_slash dest_text;
  port_value ← get_value_from_statement (§"port") config;
  let port := if bool_decide (port_value <> []) then port_value else §"80" in
  loc ← parse_url dest;
  Ok (mkProxy dest port (url_host_ loc) (url_path_ loc) prefix).

Definition proxy_init (prefix_uri : bytes) (config : NginxConfig)
    : outcome (reverse_proxy_request_handler + not_found_request_handler) :=
  dest ← get_value_from_statement (§"dest") config;
  if bool_decide (dest <> []) && bool_decide (prefix_uri <> [])
  then inl <$> proxy_ctor config prefix_uri
  else Ok (inr (not_found_init prefix_uri config)).

Definition throw_400_error (e : env) : response :=
  get_response (make_date_servername_headers e (make_400_error response_builder_default)).

Definition request_to_string (req : request) : outcome bytes :=
  m ← methods4 (method_ req);
  Ok (m ++ §" " ++ uri_ req ++ §" " ++ version_ req ++ crlf ++
      mjoin (res_header_line <$> headers_ req) ++ body_ req ++ crlf ++ crlf).

Definition get_proxy_request (req : request) (dest : url) : request :=
  mkRequest (method_ req) (url_path_ dest ++ url_query_ dest) (§"HTTP/1.0")
    (map_assign (§"Host") (url_host_ dest)
      (map_assign (§"Accept-Encoding") (§"*/*") (map_erase (§"Connection") (headers_ req))))
    (body_ req).

(** [header.substr(header.find(":") + 2)]: [npos] plus 2 is 1. *)
Definition after_colon (header : bytes) : outcome bytes :=
  let pos := default (SIZE_MOD - 1)%Z (Z.of_nat <$> find (§":") header) in
  substr_from header ((pos + 2) mod SIZE_MOD)%Z.

(** [s.pop_back()]; undefined on an empty string. *)
Definition pop_back (s : bytes) : outcome bytes :=
  match s with [] => UB | _ => Ok (take (length s - 1) s) end.

(** The loop that looks for the Location header; one line per byte at most. *)
Fixpoint find_location (fuel : nat) (i : istream) : outcome (option bytes) :=
  match fuel with
  | O => Ok None
  | S n =>
      let '(header, i1) := getline i in
      if fail i1 || bool_decide (header = [CR]) then Ok None
      else match find (§"Location") header with
           | Some _ => h ← pop_back header; l ← after_colon h; Ok (Some l)
           | None => find_location n i1
           end
  end.

(** The loop over the headers of the answer. *)
Fixpoint read_reply_headers (fuel : nat) (i : istream) (res : response_builder)
    : outcome (istream * response_builder) :=
  match fuel with
  | O => Ok (i, res)
  | S n =>
      let '(header, i1) := getline i in
      if fail i1 || bool_decide (header = [CR]) then Ok (i1, res)
      else
        h ← pop_back header;
        let token := take (default (length h) (find (§":") h)) h in
        if bool_decide (token <> §"Transfer-Encoding") then
          v ← after_colon h;
          read_reply_headers n i1 (add_header token v res)
        else read_reply_headers n i1 res
  end.

Definition proxied := (response * list log_record)%type.

(** A 400 response after logging an error. *)
Definition refuse (e : env) (log : list log_record) (msg : bytes) : outcome proxied :=
  Ok (throw_400_error e, log ++ [log_error_file msg]).

Definition href_from : bytes := §"href=" ++ [dquote] ++ §"/".
Definition src_from : bytes := §"src=" ++ [dquote] ++ §"/".

(** The end of [send_request] for status 200: headers, body, rewritten links. *)
Definition relay (e : env) (h : reverse_proxy_request_handler) (i : istream) (chunks : list bytes)
    (last : stream_end) : outcome response :=
  let '(i1, chunks1) := read_until (crlf ++ crlf) i chunks in
  '(i2, res) ← read_reply_headers (S (length (rest i1))) i1 (set_code OK response_builder_default);
  let body := rest i2 ++ mjoin chunks1 in
  match last with
  | end_failure => Throw system_error
  | end_eof =>
      let body := replace_all e body href_from (§"href=" ++ [dquote] ++ proxy_prefix_ h) in
      let body := replace_all e body src_from (§"src=" ++ [dquote] ++ proxy_prefix_ h) in
      let res := add_header (§"Content-Length") (to_string_size (length body)) res in
      Ok (get_response (make_date_servername_headers e (add_body body res)))
  end.

(** [send] is the recursive call of [send_request]. *)
Definition handle_redirect (e : env) (send : request -> bytes -> list log_record -> outcome proxied)
    (req : request) (location : bytes) (prev_loc : url) (log : list log_record) : outcome proxied :=
  let absolute := bool_decide (find (§"http://") location <> None) ||
                  bool_decide (find (§"https://") location <> None) in
  redir_loc ← parse_url (if (absolute : bool) then location else §"http://" ++ location);
  if bool_decide (url_host_ redir_loc = url_host_ prev_loc) &&
     bool_decide (url_path_ redir_loc = url_path_ prev_loc)
  then refuse e log (§"Infinite redirection to: " ++ url_host_ prev_loc ++ §"/" ++ url_path_ prev_loc)
  else send (get_proxy_request req redir_loc) (url_host_ redir_loc) log.

Fixpoint send_request (depth : nat) (e : env) (h : reverse_proxy_request_handler) (n : nat)
    (req : request) (host : bytes) (log : list log_record) : outcome proxied :=
  match depth with
  | O => UB
  | S depth' =>
      text ← request_to_string req;
      match upstream e n host (port_ h) text with
      | unresolved => refuse e log (§"Could not resolve endpoint for host: " ++ host)
      | unreachable => refuse e log (§"Could not connect to host: " ++ host)
      | answered chunks last =>
          let '(i1, chunks1) := read_until crlf stream_new chunks in
          let '(http_version, i2) := read_word i1 in
          let '(status_code, i3) := read_unsigned i2 in
          let '(_, i4) := getline i3 in
          if fail i4 || negb (starts_with (§"HTTP/") http_version)
          then refuse e log (§"No HTTP response detected from server")
          else if (status_code =? 302)%Z || (status_code =? 301)%Z then
            location ← find_location (S (length (rest i4))) i4;
            match location with
            | Some l =>
                handle_redirect e (send_request depth' e h (S n)) req l (mkUrl host (uri_ req) []) log
            | None => refuse e log (§"No redirect location was provided")
            end
          else if (status_code =? 200)%Z then
            res ← relay e h i4 chunks1 last; Ok (res, log)
          else if (status_code =? 404)%Z then
            Ok (get_response (make_date_servername_headers e (make_404_error e response_builder_default)), log)
          else refuse e log (§"Unsupported return code: " ++ to_string_int status_code)
      end
  end.

Definition proxy_handle_request (e : env) (h : reverse_proxy_request_handler) (req : request)
    : outcome (handled reverse_proxy_request_handler) :=
  if bool_decide (host_ h = []) || bool_decide (path_ h = []) then
    '(res, log) ← refuse e [] (§"Destination: " ++ dest_ h ++ §" is malformed");
    Ok (mkHandled res h log)
  else
    uri ← ensure_slash (uri_ req);
    match find (proxy_prefix_ h) uri with
    | None =>
        Ok (mkHandled (get_response (make_404_error e response_builder_default)) h
              [log_error_file (§"Proxy handler received uri: " ++ uri ++
                 §" but this handler is for path: " ++ proxy_prefix_ h)])
    | Some index =>
        new_uri ← substr_from uri (size_sub (Z.of_nat index + zlen (proxy_prefix_ h)) 1);
        path ← (if bool_decide (new_uri <> §"/") then pop_back new_uri else Ok new_uri);
        let new_req := get_proxy_request req (mkUrl (host_ h) path []) in
        '(res, log) ← send_request (stack_depth e) e h 0 new_req (host_ h) [];
        Ok (mkHandled res h log)
    end.

Definition proxy_get_handler_name (h : reverse_proxy_request_handler) : bytes := §"ProxyHandler".

#[export] Instance proxy_handler : RequestHandler reverse_proxy_request_handler :=
  { handle_request := proxy_handle_request; get_handler_name := proxy_get_handler_name }.

End Proxy.

Export Proxy.

(** ** The laws *)

Lemma framed_throw_400 e : framed (throw_400_error e).
Proof. apply framed_date, framed_400, map_wf_nil. Qed.

Lemma read_reply_headers_wf fuel i res i' res' :
  map_wf (res_headers_ (response_ res)) -> code_ (response_ res) <> None ->
  read_reply_headers fuel i res = Ok (i', res') ->
  map_wf (res_headers_ (response_ res')) /\ code_ (response_ res') <> None.
Proof.
  revert i res. induction fuel as [|n IH]; intros i res Hw Hc E; cbn [read_reply_headers] in E.
  - by injection E as <- <-.
  - destruct (getline i) as [header i1]. destruct (fail i1 || _); [by injection E as <- <-|].
    apply bind_Ok in E as (h & _ & E). case_bool_decide; [|by eapply IH].
    apply bind_Ok in E as (v & _ & E). refine (IH _ _ _ _ E); [by apply map_assign_wf|done].
Qed.

Lemma relay_framed e h i chunks last res : relay e h i chunks last = Ok res -> framed res.
Proof.
  unfold relay. destruct (read_until _ i chunks) as [i1 chunks1]. intros E.
  apply bind_Ok in E as ([i2 b] & Eb & E). destruct last; [|done]. apply Ok_inj in E as <-.
  apply read_reply_headers_wf in Eb as [Hw Hc]; [|apply map_wf_nil|done].
  apply framed_date. split_and!; cbn.
  - done.
  - by apply map_assign_wf.
  - by rewrite map_find_assign, bool_decide_true.
Qed.

Lemma send_request_framed depth e h n req host log res log' :
  send_request depth e h n req host log = Ok (res, log') -> framed res.
Proof.
  revert n req host log. induction depth as [|d IH]; intros n req host log E; [done|].
  cbn [send_request] in E. apply bind_Ok in E as (text & _ & E). unfold refuse in E.
  destruct (upstream _ _ _ _ _) as [| |chunks last].
  1-2: apply Ok_pair in E as [<- _]; apply framed_throw_400.
  destruct (read_until _ _ _) as [i1 chunks1]. destruct (read_word i1) as [v i2].
  destruct (read_unsigned i2) as [status i3]. destruct (getline i3) as [msg i4].
  case_match; [apply Ok_pair in E as [<- _]; apply framed_throw_400|].
  case_match.
  - apply bind_Ok in E as ([loc|] & _ & E); [|apply Ok_pair in E as [<- _]; apply framed_throw_400].
    unfold handle_redirect in E. apply bind_Ok in E as (redir & _ & E).
    case_match; [apply Ok_pair in E as [<- _]; apply framed_throw_400|by eapply IH].
  - case_match.
    + apply bind_Ok in E as (r & Er & E). apply Ok_pair in E as [<- _]. by eapply relay_framed.
    + case_match; apply Ok_pair in E as [<- _]; [apply framed_date, framed_404, map_wf_nil|apply framed_throw_400].
Qed.

#[export] Instance proxy_laws : HandlerLaws reverse_proxy_request_handler.
Proof.
  intros e h req x E. cbn in E. unfold proxy_handle_request, refuse in E.
  case_match; [cbn in E; apply Ok_inj in E as <-; apply framed_throw_400|].
  apply bind_Ok in E as (u & _ & E). destruct (find _ u) as [index|].
  - apply bind_Ok in E as (new_uri & _ & E). apply bind_Ok in E as (path & _ & E).
    apply bind_Ok in E as ([res log] & Es & E). apply Ok_inj in E as <-. by eapply send_request_framed.
  - apply Ok_inj in E as <-. apply framed_404, map_wf_nil.
Qed.
