(* ===== verification/ProxyRelay.v ===== *)
(** * Properties of the reverse proxy

    The answer of an upstream server is relayed independently of the chunks in
    which it arrives; what is sent upstream; how URLs are taken apart; and what
    happens on redirects. *)

From S2P Require Import Prelude CxxString CxxMap Env ConfigParser RequestParser RequestRoundTrip Response LogHelper Handlers ProxyHandler.

(** ** Streams *)

Lemma span_stop f a c b : forallb (fun x => negb (f x)) a = true -> f c = true ->
  span f (a ++ c :: b) = (a, c :: b).
Proof.
  induction a as [|x a IH]; cbn [app span forallb]; intros Ha Hc; [by rewrite Hc|].
  apply andb_true_iff in Ha as [Hx%negb_true_false Ha]. by rewrite Hx, IH.
Qed.

Lemma span_all f a : forallb (fun x => negb (f x)) a = true -> span f a = (a, []).
Proof.
  induction a as [|x a IH]; cbn [span forallb]; intros Ha; [done|].
  apply andb_true_iff in Ha as [Hx%negb_true_false Ha]. by rewrite Hx, IH.
Qed.

Lemma not_in_forallb (c : ascii) a : c ∉ a -> forallb (fun x => negb (bool_decide (x = c))) a = true.
Proof.
  intros H. apply forallb_forall. intros x Hx%list_elem_of_In. apply negb_true_iff.
  rewrite bool_decide_false; [done|]. by intros ->.
Qed.

(** What [read_until] does: it moves chunks into the buffer until the delimiter
    is there or there are no more. *)
Lemma read_until_spec delim i chunks :
  exists more chunks', read_until delim i chunks = (feed_stream more i, chunks') /\
    more ++ mjoin chunks' = mjoin chunks /\
    (find delim (rest i ++ more) <> None \/ chunks' = []).
Proof.
  revert i. induction chunks as [|c chunks IH]; intros i; cbn [read_until].
  - destruct (find delim (rest i)) eqn:E; exists [], []; (split; [|split; [done|by right]]);
      destruct i; unfold feed_stream; cbn; by rewrite app_nil_r.
  - destruct (find delim (rest i)) eqn:E.
    + exists [], (c :: chunks). split; [|split; [done|left; by rewrite app_nil_r, E]].
      destruct i; unfold feed_stream; cbn; by rewrite app_nil_r.
    + destruct (IH (feed_stream c i)) as (more & chunks' & -> & Hm & Hf).
      exists (c ++ more), chunks'. split; [|split].
      * unfold feed_stream. cbn. by rewrite <- (assoc_L (++)).
      * change (mjoin (c :: chunks)) with (c ++ mjoin chunks). by rewrite <- (assoc_L (++)), Hm.
      * cbn [feed_stream rest] in Hf. by rewrite <- (assoc_L (++)) in Hf.
Qed.

(** A prefix of [t] that holds the delimiter is at least as long as any part of
    [t] within which no occurrence ends. *)
Lemma prefix_covers (delim p q head tail : bytes) :
  p ++ q = head ++ tail -> find delim p <> None ->
  (forall j, starts_with delim (drop j (head ++ tail)) = true -> length head <= j + length delim) ->
  exists p', p = head ++ p' /\ p' ++ q = tail.
Proof.
  intros E Hf Hj. destruct (find delim p) as [j|] eqn:Ef; [|done].
  apply find_Some in Ef as ([t Ht] & Hl & _).
  assert (Hlen : length head <= length p).
  { assert (Hd : j + length delim <= length p).
    { apply (f_equal length) in Ht. rewrite length_drop, length_app in Ht. lia. }
    specialize (Hj j). rewrite <- E, drop_app_le, Ht, <- (assoc_L (++)), starts_with_app in Hj by lia.
    specialize (Hj eq_refl). lia. }
  exists (drop (length head) p). assert (Hp : take (length head) p = head).
  { apply (f_equal (take (length head))) in E. by rewrite take_app_le, take_app_length in E by done. }
  assert (Ep : p = head ++ drop (length head) p) by (by rewrite <- Hp at 1; rewrite take_drop).
  split; [done|]. rewrite Ep, <- (assoc_L (++)) in E. by apply app_inv_head in E.
Qed.

Lemma getline_line l t : LF ∉ l -> getline (mkStream (l ++ LF :: t) false false) = (l, mkStream t false false).
Proof.
  intros Hl. unfold getline. cbn [good_stream eof fail rest negb andb].
  rewrite span_stop; [done|by apply not_in_forallb|by apply bool_decide_eq_true].
Qed.

(** ** The status line *)

(** The status line of an answer; [msg] is the text after the code. *)
Definition status_line (ver : bytes) (code : N) (msg : bytes) : bytes :=
  ver ++ [SP] ++ to_string_N code ++ msg ++ crlf.

Record status_ok (ver : bytes) (code : N) (msg : bytes) : Prop := {
  so_version : starts_with (§"HTTP/") ver = true;
  so_word : forallb (fun c => negb (is_space c)) ver = true;
  so_code : (Z.of_N code < UINT_MOD)%Z;
  so_msg : match msg with c :: _ => is_dec_digit c = false | [] => True end;
  so_line : CR ∉ msg;
  so_line' : LF ∉ msg
}.

Lemma skip_spaces_none c s : is_space c = false -> skip_spaces (c :: s) = c :: s.
Proof. intros H. cbn. by rewrite H. Qed.

Lemma read_word_version ver t :
  starts_with (§"HTTP/") ver = true -> forallb (fun c => negb (is_space c)) ver = true ->
  read_word (mkStream (ver ++ SP :: t) false false) = (ver, mkStream (SP :: t) false false).
Proof.
  intros Hv Hs. unfold read_word, sentry_skip. cbn [good_stream eof fail rest negb andb].
  destruct ver as [|c ver]; [done|]. pose proof Hs as Hs'. cbn [forallb] in Hs'.
  apply andb_true_iff in Hs' as [Hc%negb_true_false _]. cbn [app].
  rewrite skip_spaces_none by done. cbn [fail rest].
  change (c :: ver ++ SP :: t) with ((c :: ver) ++ SP :: t). by rewrite span_stop.
Qed.

Lemma read_unsigned_code code d t :
  (Z.of_N code < UINT_MOD)%Z -> is_dec_digit d = false ->
  read_unsigned (mkStream (SP :: to_string_N code ++ d :: t) false false) =
    (Z.of_N code, mkStream (d :: t) false false).
Proof.
  intros Hc Hd. unfold read_unsigned, sentry_skip. cbn [good_stream eof fail rest negb andb].
  pose proof (to_string_N_digits code) as Hds. pose proof (to_string_N_value code) as Hv.
  destruct (to_string_N code) as [|c ds] eqn:E; [by apply to_string_N_nonempty in E|].
  pose proof Hds as Hds'. apply Forall_cons in Hds' as [H1 _].
  change (skip_spaces (SP :: (c :: ds) ++ d :: t)) with (skip_spaces (c :: ds ++ d :: t)).
  rewrite skip_spaces_none by (by apply is_dec_digit_not_space). cbn [fail rest].
  destruct (is_dec_digit_not_sign c H1) as [Hm Hp].
  rewrite !bool_decide_false by done.
  change (c :: ds ++ d :: t) with ((c :: ds) ++ d :: t).
  rewrite span_stop; [|by apply forallb_forall; intros x Hx%list_elem_of_In;
    rewrite Forall_forall in Hds; rewrite (Hds x Hx)|by rewrite Hd].
  rewrite Hv, bool_decide_false by done. rewrite (proj2 (Z.leb_gt _ _)) by done.
  by rewrite bool_decide_false by done.
Qed.

Lemma read_status ver code msg t :
  status_ok ver code msg ->
  exists i2 i3, read_word (mkStream (status_line ver code msg ++ t) false false) = (ver, i2) /\
    read_unsigned i2 = (Z.of_N code, i3) /\
    getline i3 = (msg ++ [CR], mkStream t false false).
Proof.
  intros [Hv Hw Hc Hm Hcr Hlf]. unfold status_line. rewrite <- !(assoc_L (++)). cbn [app].
  assert (Hd : exists d t', msg ++ crlf ++ t = d :: t' /\ is_dec_digit d = false)
    by (destruct msg as [|d msg]; [by eexists _, _|by eexists d, _]).
  destruct Hd as (d & t' & E & Hd). rewrite E.
  eexists _, _. split; [by apply read_word_version|]. split; [by apply read_unsigned_code|].
  rewrite <- E. change (msg ++ crlf ++ t) with (msg ++ [CR] ++ LF :: t). rewrite (assoc_L (++)).
  apply getline_line. rewrite not_elem_of_app. split; [done|not_in].
Qed.

(** The first line end of a text that starts with a status line. *)
Lemma status_line_first ver code msg tail j :
  status_ok ver code msg ->
  starts_with crlf (drop j (status_line ver code msg ++ tail)) = true ->
  length (status_line ver code msg) <= j + length crlf.
Proof.
  intros [Hv Hw Hc Hm Hcr Hlf] Hj. destruct (decide (length (status_line ver code msg) <= j + 2)) as [|Hn]; [done|].
  exfalso. unfold status_line in *. set (l := ver ++ [SP] ++ to_string_N code ++ msg) in *.
  replace (ver ++ [SP] ++ to_string_N code ++ msg ++ crlf) with (l ++ crlf) in *
    by (unfold l; by rewrite <- !(assoc_L (++))).
  assert (Hl : CR ∉ l).
  { unfold l. rewrite !not_elem_of_app. split_and!; [|not_in|apply to_string_N_no_CR|done].
    intros Hin. rewrite forallb_forall in Hw. apply list_elem_of_In, Hw in Hin. done. }
  rewrite length_app in Hn. change (length crlf) with 2 in Hn.
  rewrite <- (assoc_L (++)), drop_app_le in Hj by lia.
  destruct (drop j l) as [|c d] eqn:Ed.
  - apply (f_equal length) in Ed. rewrite length_drop in Ed. cbn in Ed. lia.
  - cbn in Hj. apply andb_true_iff in Hj as [<-%bool_decide_eq_true _].
    apply Hl. rewrite <- (take_drop j l), Ed. set_solver.
Qed.

(** ** The headers *)

(** A header of the answer: a name, a value, on one line. *)
Record reply_header_ok (h : bytes * bytes) : Prop := {
  rh_name : h.1 <> [];
  rh_colon : ":"%char ∉ h.1;
  rh_line : CR ∉ h.1 ++ h.2;
  rh_line' : LF ∉ h.1 ++ h.2;
  rh_size : (zlen (h.1 ++ §": " ++ h.2) < SIZE_MOD)%Z
}.

Definition header_lines (hs : list (bytes * bytes)) : bytes := mjoin (res_header_line <$> hs).

(** The headers that are passed on. *)
Definition relayed_headers (hs : list (bytes * bytes)) (b : response_builder) : response_builder :=
  foldl (fun b h => if bool_decide (h.1 <> §"Transfer-Encoding") then add_header h.1 h.2 b else b) b hs.

Lemma pop_back_snoc s c : pop_back (s ++ [c]) = Ok s.
Proof.
  unfold pop_back. destruct (s ++ [c]) eqn:E; [by destruct s|]. rewrite <- E.
  rewrite length_app. cbn [length]. replace (length s + 1 - 1) with (length s) by lia.
  by rewrite take_app_length.
Qed.

Lemma after_colon_value k v :
  ":"%char ∉ k -> (zlen (k ++ §": " ++ v) < SIZE_MOD)%Z -> after_colon (k ++ §": " ++ v) = Ok v.
Proof.
  intros Hk Hl. unfold after_colon.
  change (§":") with [":"%char]. change (k ++ §": " ++ v) with (k ++ ":"%char :: SP :: v) in *.
  rewrite find_byte by done. cbn [fmap option_fmap option_map from_option id].
  assert (El : length (k ++ ":"%char :: SP :: v) = length k + (2 + length v)) by (by rewrite length_app).
  rewrite Z.mod_small by (unfold zlen in Hl; lia).
  replace (Z.of_nat (length k) + 2)%Z with (Z.of_nat (length k + 2)) by lia.
  rewrite substr_from_Ok by (done || lia). by rewrite <- drop_drop, drop_app_length.
Qed.

Lemma header_lines_cons h hs : header_lines (h :: hs) = res_header_line h ++ header_lines hs.
Proof. done. Qed.

Lemma read_reply_headers_lines fuel hs b t :
  length hs < fuel -> Forall reply_header_ok hs ->
  read_reply_headers fuel (mkStream (header_lines hs ++ crlf ++ t) false false) b =
    Ok (mkStream t false false, relayed_headers hs b).
Proof.
  intros Hf Hhs. revert fuel b Hf.
  induction Hhs as [|[k v] hs [Hn Hc Hcr Hlf Hsz] _ IH]; intros [|n] b Hf; cbn [length] in Hf; try lia.
  - cbn [read_reply_headers]. change (header_lines [] ++ crlf ++ t) with ([CR] ++ LF :: t).
    by rewrite getline_line by not_in.
  - cbn [read_reply_headers fst snd] in *. rewrite header_lines_cons. unfold res_header_line. cbn [fst snd].
    replace ((k ++ §": " ++ v ++ crlf) ++ header_lines hs) with
      ((k ++ §": " ++ v ++ [CR]) ++ LF :: header_lines hs) by (by rewrite <- !(assoc_L (++))).
    rewrite <- (assoc_L (++)). cbn [app]. apply not_elem_of_app in Hlf as [Hl1 Hl2].
    rewrite getline_line by (rewrite !not_elem_of_app; split_and!; done || not_in).
    cbn [fail orb]. rewrite bool_decide_false by (destruct k as [|? [|]]; naive_solver).
    replace (k ++ §": " ++ v ++ [CR]) with ((k ++ §": " ++ v) ++ [CR]) by (by rewrite <- !(assoc_L (++))).
    rewrite pop_back_snoc. cbn [mbind outcome_bind]. rewrite after_colon_value by done.
    assert (Et : take (default (length (k ++ §": " ++ v)) (find (§":") (k ++ §": " ++ v))) (k ++ §": " ++ v) = k).
    { change (§":") with [":"%char]. change (k ++ §": " ++ v) with (k ++ ":"%char :: SP :: v).
      rewrite find_byte by done. cbn [from_option id]. by rewrite take_app_length. }
    rewrite Et. unfold relayed_headers. cbn [foldl fst snd].
    case_bool_decide; cbn [mbind outcome_bind]; by apply IH; lia.
Qed.

(** No blank line before the end of the headers. *)
Lemma header_lines_blank hs tail j :
  Forall reply_header_ok hs ->
  starts_with (crlf ++ crlf) (drop j (header_lines hs ++ crlf ++ tail)) = true ->
  length (header_lines hs) <= j + 2.
Proof.
  intros Hhs. revert j. induction Hhs as [|[k v] hs [Hn Hc Hcr Hlf Hsz] Hhs IH]; intros j Hj; [cbn; lia|].
  rewrite header_lines_cons in *. set (l := k ++ §": " ++ v) in *. cbn [fst snd] in *.
  replace (res_header_line (k, v)) with (l ++ crlf) in *
    by (unfold l, res_header_line; cbn; by rewrite <- !(assoc_L (++))).
  assert (Hl : CR ∉ l).
  { apply not_elem_of_app in Hcr as [? ?]. unfold l. rewrite !not_elem_of_app. split_and!; done || not_in. }
  rewrite !length_app. change (length crlf) with 2. rewrite <- !(assoc_L (++)) in Hj.
  destruct (decide (j < length l)) as [H1|H1].
  { exfalso. rewrite drop_app_le in Hj by lia. destruct (drop j l) as [|c d] eqn:Ed.
    - apply (f_equal length) in Ed. rewrite length_drop in Ed. cbn in Ed. lia.
    - cbn in Hj. apply andb_true_iff in Hj as [<-%bool_decide_eq_true _].
      apply Hl. rewrite <- (take_drop j l), Ed. set_solver. }
  rewrite drop_app_ge in Hj by lia. destruct (j - length l) as [|[|m]] eqn:Em.
  - destruct hs as [|[k2 v2] hs]; [cbn; lia|]. exfalso.
    apply Forall_cons in Hhs as [[Hn2 _ Hcr2 _ _] _]. cbn [fst snd] in *. destruct k2 as [|c k2]; [done|].
    apply starts_with_spec in Hj as [t Ht]. injection Ht as -> _. apply Hcr2. left.
  - done.
  - change (drop (S (S m)) (crlf ++ header_lines hs ++ crlf ++ tail)) with
      (drop m (header_lines hs ++ crlf ++ tail)) in Hj. specialize (IH m Hj). lia.
Qed.

Lemma header_lines_count hs : length hs <= length (header_lines hs).
Proof. apply header_lines_length. Qed.

(** ** The answer, in any chunks *)

Definition reply_text (ver : bytes) (code : N) (msg : bytes) (hs : list (bytes * bytes)) (body : bytes) : bytes :=
  status_line ver code msg ++ header_lines hs ++ crlf ++ body.

(** What the client should get for an answer with status 200. *)
Definition relayed (e : env) (h : reverse_proxy_request_handler) (hs : list (bytes * bytes)) (body : bytes)
    : response :=
  let body1 := replace_all e body href_from (§"href=" ++ [dquote] ++ proxy_prefix_ h) in
  let body2 := replace_all e body1 src_from (§"src=" ++ [dquote] ++ proxy_prefix_ h) in
  get_response (make_date_servername_headers e (add_body body2
    (add_header (§"Content-Length") (to_string_size (length body2))
      (relayed_headers hs (set_code OK response_builder_default))))).

(** After a successful or exhausted [read_until], the buffer covers [head]. *)
Lemma read_until_covers delim p chunks head tail :
  p ++ mjoin chunks = head ++ tail ->
  (forall j, starts_with delim (drop j (head ++ tail)) = true -> length head <= j + length delim) ->
  exists p' chunks', read_until delim (mkStream p false false) chunks =
      (mkStream (head ++ p') false false, chunks') /\ p' ++ mjoin chunks' = tail.
Proof.
  intros E Hj. destruct (read_until_spec delim (mkStream p false false) chunks) as (more & chunks' & -> & Hm & Hf).
  cbn [rest] in Hf. unfold feed_stream. cbn [rest eof fail].
  assert (E' : (p ++ more) ++ mjoin chunks' = head ++ tail) by (by rewrite <- (assoc_L (++)), Hm).
  destruct Hf as [Hf| ->].
  - destruct (prefix_covers _ _ _ _ _ E' Hf Hj) as (p' & -> & Hp). by exists p', chunks'.
  - exists tail, []. cbn [mjoin list_join] in *. rewrite app_nil_r in *. by rewrite E'.
Qed.

Lemma read_head ver code msg chunks tail :
  status_ok ver code msg -> mjoin chunks = status_line ver code msg ++ tail ->
  exists p chunks', read_until crlf stream_new chunks =
    (mkStream (status_line ver code msg ++ p) false false, chunks') /\ p ++ mjoin chunks' = tail.
Proof.
  intros Hs E. apply (read_until_covers crlf [] chunks); [done|]. intros j. by apply status_line_first.
Qed.

Lemma relay_spec e h p chunks ends hs body :
  Forall reply_header_ok hs -> p ++ mjoin chunks = header_lines hs ++ crlf ++ body ->
  relay e h (mkStream p false false) chunks ends =
    match ends with end_eof => Ok (relayed e h hs body) | end_failure => Throw system_error end.
Proof.
  intros Hhs E. unfold relay.
  destruct (read_until_covers (crlf ++ crlf) p chunks (header_lines hs ++ crlf) body)
    as (p' & chunks' & -> & Hp).
  - by rewrite <- (assoc_L (++)).
  - intros j Hj. rewrite <- (assoc_L (++)) in Hj. apply header_lines_blank in Hj; [|done].
    rewrite length_app. change (length crlf) with 2. change (length (crlf ++ crlf)) with 4. lia.
  - rewrite <- (assoc_L (++)). cbn [rest]. rewrite read_reply_headers_lines; [| |done].
    + cbn [mbind outcome_bind rest]. by rewrite Hp.
    + pose proof (header_lines_count hs). rewrite length_app. lia.
Qed.

(** A text that contains the delimiter. *)
Lemma find_somewhere m s : (exists a b, s = a ++ m ++ b) -> find m s <> None.
Proof.
  intros (a & b & ->) E. pose proof (find_None _ _ E (length a)) as Hf.
  by rewrite drop_app_length, starts_with_app in Hf.
Qed.

Lemma status_line_found ver code msg tail : find crlf (status_line ver code msg ++ tail) <> None.
Proof.
  apply find_somewhere. exists (ver ++ [SP] ++ to_string_N code ++ msg), tail.
  unfold status_line. by rewrite <- !(assoc_L (++)).
Qed.

(** One exchange, up to the status line. *)
Section exchange.
Context (d : nat) (e : env) (h : reverse_proxy_request_handler) (n : nat) (req : request)
  (host text : bytes) (log : list log_record) (chunks : list bytes) (last : stream_end)
  (ver : bytes) (code : N) (msg tail : bytes).
Hypothesis Htext : request_to_string req = Ok text.
Hypothesis Hup : upstream e n host (port_ h) text = answered chunks last.
Hypothesis Hst : status_ok ver code msg.
Hypothesis Hchunks : mjoin chunks = status_line ver code msg ++ tail.

Lemma send_request_head :
  exists p chunks', p ++ mjoin chunks' = tail /\ 
  (forall c rest, chunks = c :: rest -> find crlf c <> None -> c = status_line ver code msg ++ p /\ chunks' = rest) /\
  send_request (S d) e h n req host log =
    if (Z.of_N code =? 302)%Z || (Z.of_N code =? 301)%Z then
      location ← find_location (S (length p)) (mkStream p false false);
      match location with
      | Some l => handle_redirect e (send_request d e h (S n)) req l (mkUrl host (uri_ req) []) log
      | None => refuse e log (§"No redirect location was provided")
      end
    else if (Z.of_N code =? 200)%Z then
      res ← relay e h (mkStream p false false) chunks' last; Ok (res, log)
    else if (Z.of_N code =? 404)%Z then
      Ok (get_response (make_date_servername_headers e (make_404_error e response_builder_default)), log)
    else refuse e log (§"Unsupported return code: " ++ to_string_int (Z.of_N code)).
Proof.
  destruct (read_head ver code msg chunks tail Hst Hchunks) as (p & chunks' & E & Hp).
  exists p, chunks'. split; [done|]. split.
  - intros c more -> Hf.
    change (read_until crlf stream_new (c :: more)) with (read_until crlf (mkStream c false false) more) in E.
    assert (E' : read_until crlf (mkStream c false false) more = (mkStream c false false, more))
      by (destruct more; cbn [read_until rest]; by destruct (find crlf c)).
    rewrite E' in E. by injection E as -> ->.
  - cbn [send_request]. rewrite Htext. cbn [mbind outcome_bind]. rewrite Hup, E.
    destruct (read_status ver code msg p Hst) as (i2 & i3 & -> & -> & ->). cbn [fail rest].
    by rewrite (so_version _ _ _ Hst).
Qed.

End exchange.

(** ** What is forwarded *)

(** The requests for [prefix ++ r], with or without a slash at the end. *)
Lemma proxy_forwarded e h req q r :
  host_ h <> [] -> path_ h <> [] -> proxy_prefix_ h = q ++ §"/" -> last r <> Some "/"%char ->
  uri_ req = proxy_prefix_ h ++ r \/ uri_ req = proxy_prefix_ h ++ r ++ §"/" ->
  (zlen (uri_ req) < INT_MAX)%Z ->
  proxy_handle_request e h req =
    ('(res, log) ← send_request (stack_depth e) e h 0
        (get_proxy_request req (mkUrl (host_ h) (§"/" ++ r) [])) (host_ h) [];
     Ok (mkHandled res h log)).
Proof.
  intros Hh Hp Hq Hr Hu Hl. unfold proxy_handle_request.
  rewrite !bool_decide_false by done. cbn [orb].
  assert (Hne : uri_ req <> []) by (destruct Hu as [-> | ->]; rewrite Hq; by destruct q).
  rewrite ensure_slash_nonempty by (done || lia). cbn [mbind outcome_bind].
  assert (Hs : exists s, with_slash (uri_ req) = q ++ §"/" ++ s /\ (s = [] /\ r = [] \/ s = r ++ §"/")).
  { destruct Hu as [-> | ->]; unfold with_slash; rewrite Hq.
    - case_bool_decide as E.
      + exists r. split; [by rewrite <- (assoc_L (++))|]. left.
        destruct (list_snoc_cases r) as [->|(r' & c & ->)]; [done|].
        exfalso. rewrite last_app, last_snoc in E. rewrite last_snoc in Hr. done.
      + exists (r ++ §"/"). split; [by rewrite <- !(assoc_L (++))|by right].
    - exists (r ++ §"/"). split; [|by right]. rewrite bool_decide_true; [by rewrite <- !(assoc_L (++))|].
      rewrite (assoc_L (++)), last_app. done. }
  destruct Hs as (s & -> & Hs). rewrite Hq, (assoc_L (++)), find_here.
  assert (Hlen : (zlen ((q ++ §"/") ++ s) <= INT_MAX)%Z).
  { destruct Hs as [[-> ->]| ->]; destruct Hu as [Eu|Eu]; rewrite Eu, Hq in Hl; unfold zlen in *;
      rewrite !length_app in *; cbn in *; lia. }
  assert (Ez : size_sub (Z.of_nat 0 + zlen (q ++ §"/")) 1 = Z.of_nat (length q)).
  { unfold zlen, INT_MAX in *. rewrite !length_app in *. change (length (§"/")) with 1 in *.
    rewrite size_sub_small; unfold SIZE_MOD; lia. }
  rewrite Ez, substr_from_Ok; [|rewrite !length_app; lia|unfold INT_MAX, SIZE_MOD in *; lia].
  cbn [mbind outcome_bind]. rewrite <- (assoc_L (++)), drop_app_length.
  destruct Hs as [[-> ->]| ->].
  - done.
  - rewrite bool_decide_true by (by destruct r).
    rewrite (assoc_L (++)). change (§"/") with ["/"%char] at 2. by rewrite pop_back_snoc.
Qed.

(** ** Redirects *)

(** An answer with a redirect, in one chunk. *)
Definition redirect_text (location : bytes) : bytes :=
  status_line (§"HTTP/1.1") 302 (§" Found") ++ §"Location: " ++ location ++ crlf ++ crlf.

Lemma redirect_status_ok : status_ok (§"HTTP/1.1") 302 (§" Found").
Proof. split; try reflexivity; not_in. Qed.

Lemma find_location_text n location :
  LF ∉ location -> (zlen (§"Location: " ++ location) < SIZE_MOD)%Z ->
  find_location (S n) (mkStream (§"Location: " ++ location ++ crlf ++ crlf) false false) = Ok (Some location).
Proof.
  intros Hl Hz. cbn [find_location].
  replace (§"Location: " ++ location ++ crlf ++ crlf)
    with ((§"Location: " ++ location ++ [CR]) ++ LF :: crlf) by (by rewrite <- !(assoc_L (++))).
  rewrite getline_line by (rewrite !not_elem_of_app; split_and!; done || not_in). cbn [fail orb].
  rewrite bool_decide_false by done.
  change (§"Location: " ++ location ++ [CR]) with (§"Location" ++ (§": " ++ location ++ [CR])).
  rewrite find_here.
  replace (§"Location" ++ §": " ++ location ++ [CR]) with ((§"Location" ++ §": " ++ location) ++ [CR])
    by (by rewrite <- !(assoc_L (++))).
  rewrite pop_back_snoc. cbn [mbind outcome_bind]. rewrite after_colon_value; [done|not_in|done].
Qed.

(** A redirect in one chunk is followed. *)
Lemma send_request_redirect d e h n req host text log location :
  request_to_string req = Ok text ->
  upstream e n host (port_ h) text = answered [redirect_text location] end_eof ->
  LF ∉ location -> (zlen (§"Location: " ++ location) < SIZE_MOD)%Z ->
  send_request (S d) e h n req host log =
    handle_redirect e (send_request d e h (S n)) req location (mkUrl host (uri_ req) []) log.
Proof.
  intros Ht Hu Hl Hz.
  destruct (send_request_head d e h n req host text log [redirect_text location] end_eof (§"HTTP/1.1") 302
    (§" Found") (§"Location: " ++ location ++ crlf ++ crlf) Ht Hu redirect_status_ok)
    as (p & chunks' & _ & Hone & ->).
  { cbn [mjoin list_join]. by rewrite app_nil_r. }
  destruct (Hone _ _ eq_refl) as [Hc ->]; [apply status_line_found|].
  apply app_inv_head in Hc as <-. change (Z.of_N 302 =? 302)%Z with true. cbn [orb].
  by rewrite find_location_text.
Qed.

Lemma request_to_string_known req m :
  method_ req = Some m -> m <> INVALID -> exists text, request_to_string req = Ok text.
Proof. intros Hm Hi. unfold request_to_string. rewrite Hm. destruct m; try done; by eexists. Qed.

Lemma handle_redirect_absolute e send req location prev u log :
  find (§"http://") location <> None -> parse_url location = Ok u ->
  handle_redirect e send req location prev log =
    if bool_decide (url_host_ u = url_host_ prev /\ url_path_ u = url_path_ prev)
    then refuse e log (§"Infinite redirection to: " ++ url_host_ prev ++ §"/" ++ url_path_ prev)
    else send (get_proxy_request req u) (url_host_ u) log.
Proof.
  intros Ha Hu. unfold handle_redirect. rewrite (bool_decide_true (find (§"http://") location <> None)) by done.
  cbn [orb]. rewrite Hu. cbn [mbind outcome_bind]. by rewrite bool_decide_and.
Qed.

Section redirects.
Context (e : env) (h : reverse_proxy_request_handler) (loc : nat -> bytes) (u : nat -> url).
Hypothesis Habs : forall n, find (§"http://") (loc n) <> None.
Hypothesis Hurl : forall n, parse_url (loc n) = Ok (u n).
Hypothesis Hline : forall n, LF ∉ loc n.
Hypothesis Hsize : forall n, (zlen (§"Location: " ++ loc n) < SIZE_MOD)%Z.
Hypothesis Hup : forall n host text,
  upstream e n host (port_ h) text = answered [redirect_text (loc n)] end_eof.

Definition differs (v : url) (host path : bytes) : Prop := ~ (url_host_ v = host /\ url_path_ v = path).

Hypothesis Hdiff : forall n, differs (u (S n)) (url_host_ (u n)) (url_path_ (u n) ++ url_query_ (u n)).

Lemma redirects_from d n req host log m :
  method_ req = Some m -> m <> INVALID -> differs (u n) host (uri_ req) ->
  send_request d e h n req host log = UB.
Proof.
  revert n req host log. induction d as [|d IH]; intros n req host log Hm Hi Hd; [done|].
  destruct (request_to_string_known req m Hm Hi) as [text Ht].
  rewrite (send_request_redirect d e h n req host text log (loc n)) by done.
  rewrite (handle_redirect_absolute _ _ _ _ _ (u n)) by done. cbn [url_host_ url_path_].
  rewrite bool_decide_false by done. by apply IH.
Qed.

End redirects.

Lemma to_lower_ascii s :
  forallb (fun c => (-1 <=? char_to_int c)%Z) s = true -> to_lower s = Ok (lower_char <$> s).
Proof. intros H. unfold to_lower. by rewrite H. Qed.

(** ** The request that is sent *)

Lemma forallb_Forall {A} (f : A -> bool) l : forallb f l = true <-> Forall (fun x => f x = true) l.
Proof.
  rewrite forallb_forall, Forall_forall. split; intros H x Hx; apply H; by apply list_elem_of_In.
Qed.

Lemma proxy_headers_find req loc k :
  map_wf (headers_ req) ->
  map_find k (headers_ (get_proxy_request req loc)) =
    if bool_decide (k = §"Host") then Some (url_host_ loc)
    else if bool_decide (k = §"Accept-Encoding") then Some (§"*/*")
    else if bool_decide (k = §"Connection") then None
    else map_find k (headers_ req).
Proof.
  intros Hw. cbn [get_proxy_request headers_].
  rewrite map_find_assign, map_find_assign, map_find_erase
    by eauto using map_assign_wf, map_erase_wf. done.
Qed.

Lemma proxy_request_wf req loc :
  wf_request req -> uri_ok (url_path_ loc ++ url_query_ loc) = true -> value_ok (url_host_ loc) = true ->
  wf_request (get_proxy_request req loc).
Proof.
  intros [Hu Hv Hm Hh Hf] Hp Hhost.
  assert (Hf' : framing_ok (get_proxy_request req loc))
    by (unfold framing_ok; rewrite proxy_headers_find by done; exact Hf).
  split; [..|exact Hf']; cbn [get_proxy_request uri_ version_ headers_ body_].
  - done.
  - exists (§"1"), (§"0"). by split_and!.
  - eauto using map_assign_wf, map_erase_wf.
  - apply forallb_Forall. apply forallb_Forall in Hh.
    apply map_assign_Forall; [apply map_assign_Forall; [by apply map_erase_Forall|done]|].
    unfold header_ok. cbn [fst snd]. by rewrite Hhost.
Qed.

Lemma request_to_string_wire req m :
  method_ req = Some m -> m <> INVALID -> body_ req = [] ->
  request_to_string req = Ok (wire (method_name m) req ++ crlf).
Proof.
  intros Hm Hi Hb. unfold request_to_string, wire. rewrite Hm, (methods4_name m Hi), Hb.
  cbn [mbind outcome_bind]. f_equal. rewrite <- !(assoc_L (++)). done.
Qed.

(** ** Properties *)

(** C11: what the proxy does for an answered request: a URI below the prefix is sent to the
    destination host as a path of its own, and an answer with status 200 comes back to the client
    with its headers (Transfer-Encoding removed, Content-Length set to the length of the body) and
    its body with the links rewritten, whatever the chunks in which it arrives are. When the stream
    ends with an error other than end of file, the handler throws. *)
Theorem proxy_relays_answer (e : env) (h : reverse_proxy_request_handler) (req : request) (q r text : bytes)
    (ver msg body : bytes) (hs : list (bytes * bytes)) (chunks : list bytes) (ends : stream_end) :
  host_ h <> [] -> path_ h <> [] -> proxy_prefix_ h = q ++ §"/" -> last r <> Some "/"%char ->
  uri_ req = proxy_prefix_ h ++ r \/ uri_ req = proxy_prefix_ h ++ r ++ §"/" ->
  (zlen (uri_ req) < INT_MAX)%Z -> 0 < stack_depth e ->
  request_to_string (get_proxy_request req (mkUrl (host_ h) (§"/" ++ r) [])) = Ok text ->
  upstream e 0 (host_ h) (port_ h) text = answered chunks ends ->
  status_ok ver 200 msg -> Forall reply_header_ok hs -> mjoin chunks = reply_text ver 200 msg hs body ->
  proxy_handle_request e h req =
    match ends with
    | end_eof => Ok (mkHandled (relayed e h hs body) h [])
    | end_failure => Throw system_error
    end.
Proof.
  intros Hh Hp Hq Hr Hu Hl Hd Ht Hup Hst Hhs Hc. rewrite (proxy_forwarded e h req q r) by done.
  destruct (stack_depth e) as [|d]; [lia|].
  destruct (send_request_head d e h 0 _ (host_ h) text [] chunks ends ver 200 msg
    (header_lines hs ++ crlf ++ body) Ht Hup Hst Hc) as (p & chunks' & Hp' & _ & ->).
  change (Z.of_N 200 =? 302)%Z with false. change (Z.of_N 200 =? 301)%Z with false.
  change (Z.of_N 200 =? 200)%Z with true. cbn [orb].
  rewrite (relay_spec e h p chunks' ends hs body) by done. by destruct ends.
Qed.

(** C37: a chain of redirects in which every answer points to a place other than the one just asked,
    such as two pages that redirect to each other, is followed without end: whatever the depth of
    the stack is, the recursion exceeds it. *)
Theorem proxy_redirects_exhaust_stack (e : env) (h : reverse_proxy_request_handler)
    (loc : nat -> bytes) (u : nat -> url) (depth : nat) (req : request) (host : bytes) (m : http_method) :
  (forall n, find (§"http://") (loc n) <> None) -> (forall n, parse_url (loc n) = Ok (u n)) ->
  (forall n, LF ∉ loc n) -> (forall n, (zlen (§"Location: " ++ loc n) < SIZE_MOD)%Z) ->
  (forall n host text, upstream e n host (port_ h) text = answered [redirect_text (loc n)] end_eof) ->
  (forall n, differs (u (S n)) (url_host_ (u n)) (url_path_ (u n) ++ url_query_ (u n))) ->
  method_ req = Some m -> m <> INVALID -> differs (u 0) host (uri_ req) ->
  send_request depth e h 0 req host [] = UB.
Proof. intros. by apply (redirects_from e h loc u) with (m := m). Qed.

Definition sample_proxy : reverse_proxy_request_handler :=
  mkProxy (§"http://upstream/") (§"80") (§"upstream") (§"/") (§"/proxy/").

(** A world whose only server answers with [reply n]. *)
Definition upstream_env (reply : nat -> list bytes) : env :=
  mkEnv (fun _ => None) 0 (Some []) (§"localhost") (fun n _ _ _ => answered (reply n) end_eof)
    8 (fun s _ _ => s).

Definition sample_chunks : list bytes :=
  [§"HTTP/1.1 2"; §"00 OK" ++ crlf ++ §"Content-T"; §"ype: text/html" ++ crlf ++ [CR]; LF :: §"<p>"; §"hi</p>"].

Lemma proxy_relays_answer_witness :
  proxy_handle_request (upstream_env (fun _ => sample_chunks)) sample_proxy
    (mkRequest (Some GET) (§"/proxy/a.html") (§"HTTP/1.1") [(§"Connection", §"close")] []) =
  Ok (mkHandled (relayed (upstream_env (fun _ => sample_chunks)) sample_proxy
    [(§"Content-Type", §"text/html")] (§"<p>hi</p>")) sample_proxy []).
Proof.
  eapply (proxy_relays_answer _ sample_proxy _ (§"/proxy") (§"a.html") _ (§"HTTP/1.1") (§" OK")
    (§"<p>hi</p>") [(§"Content-Type", §"text/html")] sample_chunks end_eof);
    try reflexivity; try discriminate.
  - by left.
  - cbn. lia.
  - split; try reflexivity; not_in.
  - repeat constructor; try not_in; try discriminate; reflexivity.
Defined.

Definition ping_pong (n : nat) : bytes := if Nat.even n then §"http://a/x" else §"http://a/y".

Lemma proxy_redirects_exhaust_stack_witness :
  send_request 1000 (upstream_env (fun n => [redirect_text (ping_pong n)])) sample_proxy 0
    (mkRequest (Some GET) (§"/y") (§"HTTP/1.0") [] []) (§"a") [] = UB.
Proof.
  apply (proxy_redirects_exhaust_stack _ sample_proxy ping_pong
    (fun n => mkUrl (§"a") (if Nat.even n then §"/x" else §"/y") []) 1000 _ (§"a") GET).
  - intros n. unfold ping_pong. destruct (Nat.even n); vm_compute; discriminate.
  - intros n. unfold ping_pong. by destruct (Nat.even n).
  - intros n. unfold ping_pong. destruct (Nat.even n); not_in.
  - intros n. unfold ping_pong. by destruct (Nat.even n).
  - reflexivity.
  - intros n [_ E]. cbn [url_path_ url_query_] in E. rewrite Nat.even_succ, <- Nat.negb_even in E.
    by destruct (Nat.even n).
  - reflexivity.
  - discriminate.
  - intros [_ E]. discriminate E.
Defined.

(** C19: the text sent upstream for a request without a body is a request that the server's own
    parser accepts, as the forwarded request: the method of the client, the path of the destination,
    version 1.0, the Host of the destination, no Connection header, and every other header but
    Accept-Encoding as the client sent it. *)
Theorem proxy_request_reparses (req : request) (loc : url) (m : http_method) :
  wf_request req -> method_ req = Some m -> m <> INVALID -> body_ req = [] ->
  uri_ok (url_path_ loc ++ url_query_ loc) = true -> value_ok (url_host_ loc) = true ->
  exists text p, request_to_string (get_proxy_request req loc) = Ok text /\
    parse request_parser_init request_default text 0 =
      Ok (mkParseResult good (zlen text - 2) 0 p (get_proxy_request req loc)) /\
    forall k, map_find k (headers_ (get_proxy_request req loc)) =
      if bool_decide (k = §"Host") then Some (url_host_ loc)
      else if bool_decide (k = §"Accept-Encoding") then Some (§"*/*")
      else if bool_decide (k = §"Connection") then None
      else map_find k (headers_ req).
Proof.
  intros Hwf Hm Hi Hb Hu Hh. destruct (method_name_token m Hi) as [Ht Hs].
  pose proof (proxy_request_wf req loc Hwf Hu Hh) as Hwf'.
  destruct (parse_wire (method_name m) _ request_default crlf Hwf' Ht) as (p & R & _); [done..|].
  rewrite Hs in R. exists (wire (method_name m) (get_proxy_request req loc) ++ crlf), p. split_and!.
  - by apply request_to_string_wire.
  - rewrite R. do 2 f_equal; [unfold zlen; rewrite length_app; change (length crlf) with 2; lia|].
    unfold set_method, get_proxy_request. cbn. by rewrite Hm.
  - intros k. apply proxy_headers_find. by destruct Hwf.
Qed.

Lemma proxy_request_reparses_witness :
  exists text p, request_to_string (get_proxy_request
      (mkRequest (Some GET) (§"/proxy/a") (§"HTTP/1.1") [(§"Connection", §"close")] [])
      (mkUrl (§"upstream") (§"/a") [])) = Ok text /\
    parse request_parser_init request_default text 0 =
      Ok (mkParseResult good (zlen text - 2) 0 p (mkRequest (Some GET) (§"/a") (§"HTTP/1.0")
        [(§"Accept-Encoding", §"*/*"); (§"Host", §"upstream")] [])).
Proof.
  destruct (proxy_request_reparses (mkRequest (Some GET) (§"/proxy/a") (§"HTTP/1.1") [(§"Connection", §"close")] [])
    (mkUrl (§"upstream") (§"/a") []) GET) as (text & p & Ht & Hp & _); try reflexivity; try discriminate.
  - split; try reflexivity; [exists (§"1"), (§"1"); by split_and!|by repeat constructor].
  - exists text, p. split; [exact Ht|exact Hp].
Defined.

(** An absolute URL is taken apart into its host, in lower case, its path and its query; when it
    is the target of a redirect the request sent there is for the path followed directly by the
    query, without the question mark between them. *)
Theorem parse_url_parts (req : request) (scheme host path query : bytes) :
  forallb (fun c => (-1 <=? char_to_int c)%Z) (scheme ++ host) = true ->
  ":"%char ∉ scheme -> "/"%char ∉ host -> "?"%char ∉ path ->
  parse_url (scheme ++ §"://" ++ host ++ §"/" ++ path ++ §"?" ++ query) =
    Ok (mkUrl (lower_char <$> host) (§"/" ++ path) query) /\
  uri_ (get_proxy_request req (mkUrl (lower_char <$> host) (§"/" ++ path) query)) = §"/" ++ path ++ query.
Proof.
  intros Ha Hs Hh Hp. rewrite forallb_app in Ha. apply andb_true_iff in Ha as [Ha1 Ha2].
  split; [|done]. unfold parse_url.
  rewrite (find_first (§"://") _ (length scheme)).
  - rewrite take_app_length, to_lower_ascii by done. cbn [mbind outcome_bind].
    rewrite <- drop_drop, drop_app_length.
    change (drop 3 (§"://" ++ host ++ §"/" ++ path ++ §"?" ++ query))
      with (host ++ "/"%char :: path ++ "?"%char :: query).
    rewrite span_stop; [|by apply not_in_forallb|done].
    rewrite to_lower_ascii by done. cbn [mbind outcome_bind].
    change ("/"%char :: path ++ "?"%char :: query) with (("/"%char :: path) ++ "?"%char :: query).
    rewrite span_stop; [done| |done]. apply not_in_forallb. by apply not_elem_of_cons.
  - rewrite length_app. lia.
  - by rewrite drop_app_length, starts_with_app.
  - intros j Hj. rewrite drop_app_le by lia. destruct (drop j scheme) as [|c t] eqn:E.
    + apply (f_equal length) in E. rewrite length_drop in E. cbn in E. lia.
    + cbn. rewrite bool_decide_false; [done|]. intros <-. apply Hs.
      rewrite <- (take_drop j scheme), E. set_solver.
Qed.

Lemma parse_url_parts_witness :
  parse_url (§"http" ++ §"://" ++ §"Example.org" ++ §"/" ++ §"a/b" ++ §"?" ++ §"x=1") =
    Ok (mkUrl (§"example.org") (§"/a/b") (§"x=1")) /\
  uri_ (get_proxy_request request_default (mkUrl (§"example.org") (§"/a/b") (§"x=1"))) = §"/a/bx=1".
Proof.
  apply (parse_url_parts request_default (§"http") (§"Example.org") (§"a/b") (§"x=1")); [reflexivity|not_in..].
Defined.
