(* ===== verification/ProxyErrors.v ===== *)
(** * Where the reverse proxy fails

    Behaviours of [src/reverse_proxy_request_handler.cc] that are not what
    the code means to do: requests with a body are sent malformed, and a redirect is
    lost when its headers come in a later read than the status line. *)

From S2P Require Import Prelude CxxString CxxMap Env ConfigParser RequestParser RequestRoundTrip Response LogHelper Handlers ProxyHandler ProxyRelay.

(** ** Requests with a body *)




(** ** Properties *)


(** C40: a redirect is only found in the bytes that arrive together with the status line: when the
    first read brings the status line alone, the answer is refused with a 400 error, although the
    Location header follows in the next read. *)
Theorem split_redirect_refused (e : env) (h : reverse_proxy_request_handler) (depth n : nat) (req : request)
    (host text : bytes) (log : list log_record) (ver msg : bytes) (code : N) (more : list bytes) (ends : stream_end) :
  request_to_string req = Ok text -> code = 301%N \/ code = 302%N -> status_ok ver code msg ->
  upstream e n host (port_ h) text = answered (status_line ver code msg :: more) ends ->
  send_request (S depth) e h n req host log =
    Ok (throw_400_error e, log ++ [log_error_file (§"No redirect location was provided")]).
Proof.
  intros Ht Hcode Hst Hup.
  destruct (send_request_head depth e h n req host text log (status_line ver code msg :: more) ends ver code msg
    (mjoin more) Ht Hup Hst eq_refl) as (p & chunks' & _ & Hone & ->).
  destruct (Hone _ _ eq_refl) as [Hp _]; [rewrite <- (app_nil_r (status_line _ _ _)); apply status_line_found|].
  assert (p = []) as -> by (rewrite <- (app_nil_r (status_line _ _ _)) in Hp at 1; by apply app_inv_head in Hp).
  by destruct Hcode as [-> | ->].
Qed.

(** ** Witnesses *)


Lemma split_redirect_refused_witness :
  exists text, request_to_string (mkRequest (Some GET) (§"/a") (§"HTTP/1.0") [] []) = Ok text /\
  send_request 3 (upstream_env (fun _ => [status_line (§"HTTP/1.1") 302 (§" Found");
      §"Location: http://a/b" ++ crlf ++ crlf])) sample_proxy 0
    (mkRequest (Some GET) (§"/a") (§"HTTP/1.0") [] []) (§"upstream") [] =
    Ok (throw_400_error (upstream_env (fun _ => [status_line (§"HTTP/1.1") 302 (§" Found");
      §"Location: http://a/b" ++ crlf ++ crlf])),
      [log_error_file (§"No redirect location was provided")]).
Proof.
  eexists. split; [reflexivity|].
  eapply (split_redirect_refused _ sample_proxy 2 0 _ (§"upstream") _ [] (§"HTTP/1.1") (§" Found") 302);
    [reflexivity|by right|apply redirect_status_ok|reflexivity].
Defined.
