(* ===== verification/Session.v ===== *)
(** * Sessions: routing, the response cache and the reading of requests

    Models [src/session.cc] and the state of [include/session.h].

    The location handlers, the response cache and the log are shared by all
    sessions of a server: they are the [world], passed through every call. A
    session keeps the request it is reading and the state of its parser. A call
    returns the session and the world after it and the operations it started on its
    connection, in order.

    Everything is stated for any implementation of the handler interface. The
    [do]-[while] loop of [received_req] takes fuel; [None] is "not finished with
    this fuel". *)

From S2P Require Import Prelude CxxString CxxMap Env ConfigParser RequestParser Response LogHelper Handlers.

(** ** State *)

Record world (H : Type) := mkWorld {
  location_handlers_ : std_map H;
  cache_query_ : gmap bytes response;
  log_ : list log_record
}.
Arguments mkWorld {H} _ _ _.
Arguments location_handlers_ {H} _.
Arguments cache_query_ {H} _.
Arguments log_ {H} _.

Record session := mkSession {
  request_ : request;
  request_parser_ : request_parser;
  connection_ : endpoint
}.

(** A new session: [request_] is default-initialised. *)
Definition session_new (conn : endpoint) : session :=
  mkSession request_default request_parser_init conn.

(** What a session asks of its connection. *)
Inductive action := Read | Write (bufs : list bytes).

Definition max_len : Z := 8192.

(** ** Routing *)

(** The test of one key of [location_handlers_] against the URI. *)
Definition prefix_test (uri key : bytes) : outcome bool :=
  skip ← (if (zlen key <? zlen uri)%Z then
            r ← compare uri (size_sub (zlen key) 1) 1 (§"/"); Ok (bool_decide (r <> Eq))
          else Ok false);
  if (skip : bool) then Ok false
  else
    p ← substr key 0 (size_sub (zlen key) 1);
    r ← compare uri 0 (size_sub (zlen key) 1) p;
    Ok (bool_decide (r = Eq)).

(** The loop over the handlers: [matched], [max_matched_length] (an [int]) and
    [max_matched_key]. *)
Fixpoint match_loop {H} (uri : bytes) (handlers : std_map H) (matched : bool) (max_len : Z)
    (max_key : bytes) : outcome (bool * bytes) :=
  match handlers with
  | [] => Ok (matched, max_key)
  | (key, _) :: rest =>
      m ← prefix_test uri key;
      if (m : bool) then
        if (size_of_int max_len <? zlen key)%Z
        then match_loop uri rest true (int_of_size (zlen key)) key
        else match_loop uri rest true max_len max_key
      else match_loop uri rest matched max_len max_key
  end.

Section session.
Context {H : Type} `{RequestHandler H}.

Definition add_log (records : list log_record) (w : world H) : world H :=
  mkWorld (location_handlers_ w) (cache_query_ w) (log_ w ++ records).

Definition process_req (e : env) (w : world H) (conn : endpoint) (req : request)
    : outcome (response_builder * world H) :=
  match (if bool_decide (uri_ req <> §"/status") then cache_query_ w !! uri_ req else None) with
  | Some res => Ok (set_response res response_builder_default, w)
  | None =>
      '(matched, key) ← match method_ req with
                        | None => UB
                        | Some INVALID => Ok (false, [])
                        | Some _ => match_loop (uri_ req) (location_handlers_ w) false 0 []
                        end;
      if (matched : bool) then
        h ← map_at key (location_handlers_ w);
        x ← handle_request e h req;
        record ← log_metrics req (h_response x) conn (get_handler_name (h_handler x));
        Ok (set_response (h_response x) response_builder_default,
            mkWorld (map_assign key (h_handler x) (location_handlers_ w))
              (<[uri_ req := h_response x]> (cache_query_ w))
              (log_ w ++ h_log x ++ [record]))
      else Ok (make_400_error response_builder_default, w)
  end.

Definition thread_work (e : env) (w : world H) (conn : endpoint) (r : request)
    : outcome (world H * action) :=
  '(res_build, w') ← process_req e w conn r;
  '(bufs, _) ← build res_build;
  Ok (w', Write bufs).

(** ** Reading *)

(** The [do]-[while] loop: every round starts at the beginning of the buffer. *)
Fixpoint collect (fuel : nat) (p : request_parser) (r : request) (data : bytes)
    (requests : list request) : option (outcome (list request * request_parser * request)) :=
  match fuel with
  | O => None
  | S n =>
      match
        (pr ← parse p r data 0;
         if bool_decide (pr_result pr <> indeterminate) then
           pr' ← parse (reset (pr_parser pr)) request_value_init data
                   (pr_begin pr + pr_body_length pr)%Z;
           Ok (pr', requests ++ [pr_request pr])
         else Ok (pr, requests))
      with
      | Ok (pr, requests') =>
          if (pr_begin pr + pr_body_length pr <? zlen data)%Z
          then collect n (pr_parser pr) (pr_request pr) data requests'
          else Some (Ok (requests', pr_parser pr, pr_request pr))
      | Throw x => Some (Throw x)
      | UB => Some UB
      end
  end.

(** The loop over the requests that were read; the clock and the files may
    change between two of them. *)
Fixpoint dispatch (es : nat -> env) (i : nat) (w : world H) (conn : endpoint)
    (requests : list request) : outcome (world H * list action) :=
  match requests with
  | [] => Ok (w, [])
  | r :: rest =>
      record ← log_request_info r conn;
      '(w1, a) ← thread_work (es i) (add_log [record] w) conn r;
      '(w2, acts) ← dispatch es (S i) w1 conn rest;
      Ok (w2, a :: acts)
  end.

Definition start (s : session) : list action := [Read].

Definition wait_for_req (s : session) : list action := [Read].

(** [received_req(error, bytes_transferred)], with the bytes that were read. *)
Definition received_req (fuel : nat) (es : nat -> env) (s : session) (w : world H)
    (error : bool) (data : bytes) : option (outcome (session * world H * list action)) :=
  if error then Some (Ok (s, w, []))
  else
    match collect fuel (request_parser_ s) (request_ s) data [] with
    | None => None
    | Some o => Some (
        '(requests, p, r) ← o;
        '(w', acts) ← dispatch es 0 w (connection_ s) requests;
        let s' := mkSession r p (connection_ s) in
        Ok (s', w', acts ++ wait_for_req s'))
    end.

Definition completed_request (w : world H) : world H := add_log [log_response_sent] w.

End session.
