(* ===== verification/SessionRouting.v ===== *)
(** * Properties of routing and of the response cache

    [routes] is the reference for the test of one location key, and
    [longest_route] for the loop: the code is shown to compute both. The theorems
    about [process_req] hold for any handlers that satisfy the laws of the handler
    interface. *)

From S2P Require Import Prelude CxxString CxxMap Env ConfigParser RequestParser Response LogHelper Handlers Session.

(** ** One key *)

(** The key without its last byte is a prefix of the URI, and what is left is at
    most one byte or starts with a slash. *)
Definition routes (uri key : bytes) : bool :=
  let k := take (length key - 1) key in
  starts_with k uri &&
  match drop (length k) uri with
  | [] | [_] => true
  | c :: _ => bool_decide (c = "/"%char)
  end.

Lemma prefix_test_routes uri key :
  key <> [] -> (zlen key < SIZE_MOD)%Z -> prefix_test uri key = Ok (routes uri key).
Proof.
  intros Hk Hl. destruct (list_snoc_cases key) as [->|(k & c & ->)]; [done|]. clear Hk.
  unfold prefix_test, routes.
  assert (Ek : length (k ++ [c]) - 1 = length k) by (rewrite length_app; cbn; lia).
  assert (Ez : size_sub (zlen (k ++ [c])) 1 = Z.of_nat (length k)).
  { unfold zlen in *. rewrite length_app in *. cbn [length] in *. rewrite size_sub_small; lia. }
  rewrite Ek, take_app_length, Ez. unfold compare.
  rewrite !substr_prefix_clip, take_app_length. cbn [mbind outcome_bind].
  assert (Etest : bool_decide (bytes_compare (take (length k) uri) k = Eq) = starts_with k uri).
  { rewrite starts_with_take. apply bool_decide_ext, bytes_compare_eq. }
  destruct (Z.ltb_spec (zlen (k ++ [c])) (zlen uri)) as [Hlt|Hge];
    unfold zlen in *; rewrite length_app in *; cbn [length] in *.
  - rewrite substr_Ok by (unfold zlen; lia). rewrite Nat2Z.id. unfold zlen.
    rewrite Z.min_l by lia. change (Z.to_nat 1) with 1. cbn [mbind outcome_bind].
    destruct (drop (length k) uri) as [|d [|d' t]] eqn:Ed;
      apply (f_equal length) in Ed as El; rewrite length_drop in El; cbn [length] in El; [lia..|].
    cbn [take]. rewrite Etest.
    assert (Hs : bytes_compare [d] (§"/") = Eq <-> d = "/"%char)
      by (rewrite bytes_compare_eq; split; [by intros [=]|by intros ->]).
    rewrite <- (bool_decide_ext _ _ Hs), bool_decide_not.
    destruct (bool_decide (bytes_compare [d] (§"/") = Eq)); cbn [negb];
      by rewrite ?andb_true_r, ?andb_false_r.
  - cbn [mbind outcome_bind]. rewrite Etest.
    destruct (drop (length k) uri) as [|d [|d' t]] eqn:Ed; rewrite ?andb_true_r; [done..|].
    apply (f_equal length) in Ed. rewrite length_drop in Ed. cbn [length] in Ed. lia.
Qed.

(** ** All keys *)

(** The keys a server should use: not empty, lengths fit an [int]. *)
Definition key_ok (key : bytes) : Prop := key <> [] /\ (zlen key <= INT_MAX)%Z.

(** [k] is the longest of the keys that route the URI, the first in the order of
    the map among equally long ones. *)
Definition best_route (uri : bytes) (keys : list bytes) (k : bytes) : Prop :=
  k ∈ keys /\ routes uri k = true /\
  forall k', k' ∈ keys -> routes uri k' = true ->
    length k' < length k \/ length k' = length k /\ (k' = k \/ bytes_lt k k').

Definition no_route (uri : bytes) (keys : list bytes) : Prop :=
  forall k', k' ∈ keys -> routes uri k' = false.

Definition route_result (uri : bytes) (keys : list bytes) (o : bool * bytes) : Prop :=
  if o.1 then best_route uri keys o.2 else o.2 = [] /\ no_route uri keys.

Section match_loop.
Context {H : Type} (uri : bytes).

Lemma route_result_skip keys key o :
  routes uri key = false -> route_result uri keys o -> route_result uri (keys ++ [key]) o.
Proof.
  intros Hk. destruct o as [[] k]; unfold route_result; cbn [fst snd].
  - intros (Hin & Hr & Hb). split_and!; [set_solver|done|].
    intros k' [Hk'| ->%list_elem_of_singleton]%elem_of_app Hr'; [auto|congruence].
  - intros [-> Hn]. split; [done|].
    by intros k' [Hk'| ->%list_elem_of_singleton]%elem_of_app; [apply Hn|].
Qed.

Lemma route_result_longer keys key o :
  routes uri key = true -> length o.2 < length key -> route_result uri keys o ->
  route_result uri (keys ++ [key]) (true, key).
Proof.
  intros Hk Hl Ho. unfold route_result at 1. cbn [fst snd].
  split_and!; [set_solver|done|].
  intros k' [Hk'| ->%list_elem_of_singleton]%elem_of_app Hr'; [|auto]. left.
  destruct o as [[] k]; cbn [fst snd] in *; unfold route_result in Ho; cbn [fst snd] in Ho.
  - destruct Ho as (_ & _ & Hb). destruct (Hb k' Hk' Hr') as [?|[? _]]; lia.
  - destruct Ho as [_ Hn]. by rewrite Hn in Hr'.
Qed.

Lemma route_result_shorter keys key k :
  bytes_lt k key -> length key <= length k ->
  route_result uri keys (true, k) -> route_result uri (keys ++ [key]) (true, k).
Proof.
  intros Hlt Hl (Hin & Hr & Hb). split_and!; [set_solver|done|].
  intros k' [Hk'| ->%list_elem_of_singleton]%elem_of_app Hr'; [auto|]. cbn [snd] in *.
  destruct (decide (length key = length k)); [auto|left; lia].
Qed.

Lemma match_loop_result (rest pre : std_map H) matched k :
  map_wf (pre ++ rest) -> Forall key_ok (pre ++ rest).*1 ->
  route_result uri pre.*1 (matched, k) ->
  exists o, match_loop uri rest matched (zlen k) k = Ok o /\ route_result uri (pre ++ rest).*1 o.
Proof.
  revert pre matched k. induction rest as [|[key h] rest IH]; intros pre matched k Hwf Hks Hr.
  { rewrite app_nil_r. eauto. }
  assert (Happ : pre ++ (key, h) :: rest = (pre ++ [(key, h)]) ++ rest) by (by rewrite <- (assoc_L (++))).
  assert (Hkeys : (pre ++ [(key, h)]).*1 = pre.*1 ++ [key]) by (by rewrite fmap_app).
  assert (Hkey : key_ok key).
  { rewrite Forall_forall in Hks. apply Hks. rewrite fmap_app. set_solver. }
  assert (Hk : (zlen k <= INT_MAX)%Z).
  { destruct matched; [|destruct Hr as [Ek _]; cbn in Ek; by subst k]. destruct Hr as [Hin _]. rewrite Forall_forall in Hks.
    destruct (Hks k) as [_ ?]; [|done]. rewrite fmap_app. set_solver. }
  destruct Hkey as [Hne Hl]. cbn [match_loop].
  rewrite prefix_test_routes by (done || unfold INT_MAX, SIZE_MOD in *; lia). cbn [mbind outcome_bind].
  rewrite size_of_int_small by (pose proof (zlen_nonneg k); lia).
  rewrite int_of_size_small by (pose proof (zlen_nonneg key); lia).
  rewrite Happ in *. destruct (routes uri key) eqn:Er; [destruct (Z.ltb_spec (zlen k) (zlen key))|].
  - apply IH; [done..|]. rewrite Hkeys. unfold zlen in *. eapply route_result_longer; [done| |done]. cbn; lia.
  - destruct matched.
    + apply IH; [done..|]. rewrite Hkeys. unfold zlen in *. apply route_result_shorter; [|lia|done].
      rewrite <- Happ in Hwf. apply map_wf_app_lt in Hwf. rewrite Forall_forall in Hwf.
      apply Hwf. by destruct Hr.
    + exfalso. destruct Hr as [Ek _]. cbn in Ek. subst k. unfold zlen in *. cbn in *.
      by destruct key; [|simpl in *; lia].
  - apply IH; [done..|]. rewrite Hkeys. by apply route_result_skip.
Qed.

End match_loop.

Lemma match_loop_longest {H} uri (handlers : std_map H) :
  map_wf handlers -> Forall key_ok handlers.*1 ->
  exists o, match_loop uri handlers false 0 [] = Ok o /\ route_result uri handlers.*1 o.
Proof.
  intros Hwf Hks. apply (match_loop_result uri handlers [] false []); [done..|].
  split; [done|]. by intros k' ?%elem_of_nil.
Qed.

Lemma best_route_unique uri keys k1 k2 :
  best_route uri keys k1 -> best_route uri keys k2 -> k1 = k2.
Proof.
  intros (Hi1 & Hr1 & Hb1) (Hi2 & Hr2 & Hb2).
  destruct (Hb1 k2 Hi2 Hr2) as [?|[? [?|Hlt1]]]; [|done|];
    destruct (Hb2 k1 Hi1 Hr1) as [?|[? [?|Hlt2]]]; try lia; [done..|].
  exfalso. apply (bytes_lt_irrefl k1). by eapply bytes_lt_trans.
Qed.

(** ** [process_req] *)

Section process.
Context {H : Type} `{HandlerLaws H}.

(** The invariant of the shared state: handlers in the order of their keys, usable
    keys, and only framed responses in the cache. *)
Record world_ok (w : world H) : Prop := {
  ok_sorted : map_wf (location_handlers_ w);
  ok_keys : Forall key_ok (location_handlers_ w).*1;
  ok_cache : map_Forall (fun _ res => framed res) (cache_query_ w)
}.

(** What the cache has for a URI; "/status" is never looked up. *)
Definition cached (w : world H) (uri : bytes) : option response :=
  if bool_decide (uri <> §"/status") then cache_query_ w !! uri else None.

(** The world after a handler has answered. *)
Definition answered_world (w : world H) (k uri : bytes) (x : handled H) (record : log_record) : world H :=
  mkWorld (map_assign k (h_handler x) (location_handlers_ w))
    (<[uri := h_response x]> (cache_query_ w)) (log_ w ++ h_log x ++ [record]).

Lemma process_req_cached e w conn req res :
  cached w (uri_ req) = Some res ->
  process_req e w conn req = Ok (set_response res response_builder_default, w).
Proof. intros E. unfold process_req, cached in *. by rewrite E. Qed.

Lemma process_req_unrouted e w conn req m :
  world_ok w -> cached w (uri_ req) = None -> method_ req = Some m ->
  (m <> INVALID -> no_route (uri_ req) (location_handlers_ w).*1) ->
  process_req e w conn req = Ok (make_400_error response_builder_default, w).
Proof.
  intros [Hs Hk _] Ec Em Hn. unfold process_req, cached in *. rewrite Ec, Em.
  destruct (match_loop_longest (uri_ req) _ Hs Hk) as ([[] k] & El & Hr);
    destruct m; try done; rewrite El; try done; exfalso;
    destruct Hr as (Hi & Ht & _); specialize (Hn ltac:(done) _ Hi); congruence.
Qed.

Lemma process_req_routed e w conn req m k h :
  world_ok w -> cached w (uri_ req) = None -> method_ req = Some m -> m <> INVALID ->
  best_route (uri_ req) (location_handlers_ w).*1 k ->
  map_find k (location_handlers_ w) = Some h ->
  process_req e w conn req =
    (x ← handle_request e h req;
     record ← log_metrics req (h_response x) conn (get_handler_name (h_handler x));
     Ok (set_response (h_response x) response_builder_default,
         answered_world w k (uri_ req) x record)).
Proof.
  intros [Hs Hk _] Ec Em Hm Hb Hf. unfold process_req, cached in *. rewrite Ec, Em.
  destruct (match_loop_longest (uri_ req) _ Hs Hk) as ([[] k'] & El & Hr).
  - assert (k' = k) as -> by exact (best_route_unique _ _ _ _ Hr Hb).
    destruct m; try done; rewrite El; cbn [mbind outcome_bind]; by rewrite (map_at_Ok _ _ _ Hf).
  - exfalso. destruct Hr as [_ Hn], Hb as (Hi & Ht & _). by rewrite Hn in Ht.
Qed.

(** Every outcome of [process_req] is one of the three. *)
Lemma process_req_cases e w conn req o :
  world_ok w -> process_req e w conn req = Ok o ->
  (exists res, cached w (uri_ req) = Some res /\ o = (set_response res response_builder_default, w)) \/
  (cached w (uri_ req) = None /\ o = (make_400_error response_builder_default, w)) \/
  (exists k h x record, cached w (uri_ req) = None /\
    map_find k (location_handlers_ w) = Some h /\ handle_request e h req = Ok x /\
    log_metrics req (h_response x) conn (get_handler_name (h_handler x)) = Ok record /\
    o = (set_response (h_response x) response_builder_default, answered_world w k (uri_ req) x record)).
Proof.
  intros Hw Ho. destruct (cached w (uri_ req)) as [res|] eqn:Ec.
  { left. exists res. rewrite (process_req_cached _ _ _ _ _ Ec) in Ho. apply Ok_inj in Ho. eauto. }
  right. pose proof Hw as [Hs Hk _]. unfold process_req in Ho. unfold cached in Ec. rewrite Ec in Ho.
  apply bind_Ok in Ho as ([[] k] & _ & Ho); [right|left; by apply Ok_inj in Ho].
  unfold map_at in Ho. destruct (map_find k _) as [h|] eqn:Ef; [|done]. cbn [mbind outcome_bind] in Ho.
  apply bind_Ok in Ho as (x & Ex & Ho). apply bind_Ok in Ho as (record & Er & Ho).
  apply Ok_inj in Ho. by exists k, h, x, record.
Qed.

Lemma answered_world_ok w k h uri x record :
  world_ok w -> map_find k (location_handlers_ w) = Some h -> framed (h_response x) ->
  world_ok (answered_world w k uri x record).
Proof.
  intros [Hs Hk Hc] Hf Hx. split; cbn.
  - by apply map_assign_wf.
  - by rewrite (map_assign_keys _ _ _ _ Hs Hf).
  - by apply map_Forall_insert_2.
Qed.

Lemma process_req_ok e w conn req b w' :
  world_ok w -> process_req e w conn req = Ok (b, w') -> framed (response_ b) /\ world_ok w'.
Proof.
  intros Hw Ho. destruct (process_req_cases _ _ _ _ _ Hw Ho)
    as [(res & Ec & [= -> ->])|[(_ & [= -> ->])|(k & h & x & record & _ & Hf & Ex & _ & [= -> ->])]].
  - split; [|done]. destruct Hw as [_ _ Hc]. unfold cached in Ec.
    case_bool_decide; [|done]. by eapply Hc.
  - split; [|done]. apply framed_400, map_wf_nil.
  - assert (framed (h_response x)) by (by eapply handle_framed).
    split; [done|]. by eapply answered_world_ok.
Qed.

End process.

Lemma routes_slash k uri :
  routes uri (k ++ §"/") = true <->
  uri = k \/ (exists t, uri = k ++ §"/" ++ t) \/ (exists c, uri = k ++ [c] /\ c <> "/"%char).
Proof.
  unfold routes. replace (length (k ++ §"/") - 1) with (length k) by (rewrite length_app; cbn; lia).
  rewrite take_app_length, andb_true_iff, starts_with_spec. split.
  - intros [[t ->] Ht]. rewrite drop_app_length in Ht.
    destruct t as [|c [|d t]]; [left; by rewrite app_nil_r| |].
    + right. destruct (decide (c = "/"%char)) as [->|Hc]; [left; by exists []|right; eauto].
    + apply bool_decide_eq_true in Ht as ->. right. left. by exists (d :: t).
  - intros [->|[[t ->]|(c & -> & _)]].
    + split; [exists []; by rewrite app_nil_r|by rewrite drop_all].
    + split; [eauto|]. rewrite drop_app_length. by destruct t.
    + split; [eauto|]. by rewrite drop_app_length.
Qed.

(** ** Properties *)

(** C6: the loop over the location handlers never throws and finds the longest matching location:
    it reports a match exactly when some key routes the URI, and then the key it chose is the
    longest of those that do. *)
Theorem match_loop_finds_longest {H} (uri : bytes) (handlers : std_map H) :
  map_wf handlers -> Forall key_ok handlers.*1 ->
  exists matched k, match_loop uri handlers false 0 [] = Ok (matched, k) /\
    (matched = true <-> exists k', k' ∈ handlers.*1 /\ routes uri k' = true) /\
    (matched = true -> best_route uri handlers.*1 k).
Proof.
  intros Hwf Hks. destruct (match_loop_longest uri handlers Hwf Hks) as ([[] k] & E & Hr).
  - exists true, k. split_and!; [done| |done]. split; [|done]. destruct Hr as (? & ? & _). eauto.
  - exists false, k. split_and!; [done| |done]. destruct Hr as [_ Hn].
    split; [done|]. intros (k' & Hk' & Ht). by rewrite Hn in Ht.
Qed.

Definition sample_handlers : std_map echo_request_handler :=
  [(§"/", mkEcho); (§"/echo/", mkEcho); (§"/echo/deep/", mkEcho)].

Lemma sample_handlers_ok : map_wf sample_handlers /\ Forall key_ok sample_handlers.*1.
Proof. split; repeat constructor; discriminate. Qed.

Lemma match_loop_finds_longest_witness :
  exists matched k, match_loop (§"/echo/deep/x") sample_handlers false 0 [] = Ok (matched, k) /\
    best_route (§"/echo/deep/x") sample_handlers.*1 k.
Proof.
  destruct (match_loop_finds_longest (§"/echo/deep/x") sample_handlers) as (b & k & E & Hb & Hr);
    [apply sample_handlers_ok..|].
  exists b, k. split; [done|]. apply Hr, Hb. exists (§"/echo/").
  split; [|reflexivity]. right. left.
Defined.

(** C27: a location that ends in a slash takes the URIs the comment in the code promises, the
    location without its slash and everything below it, and by the comparison of one byte less than
    the key also every URI as long as the key that differs from it in the last byte only. *)
Theorem prefix_test_slash_key (k uri : bytes) :
  (zlen k < INT_MAX)%Z ->
  exists b, prefix_test uri (k ++ §"/") = Ok b /\
  (b = true <->
   uri = k \/ (exists t, uri = k ++ §"/" ++ t) \/ (exists c, uri = k ++ [c] /\ c <> "/"%char)).
Proof.
  intros Hl. exists (routes uri (k ++ §"/")). rewrite prefix_test_routes.
  - split; [done|]. apply routes_slash.
  - by destruct k.
  - unfold zlen, INT_MAX, SIZE_MOD in *. rewrite length_app. cbn. lia.
Qed.

Lemma prefix_test_slash_key_witness :
  exists b, prefix_test (§"/echoX") (§"/echo/") = Ok b /\ b = true.
Proof.
  destruct (prefix_test_slash_key (§"/echo") (§"/echoX")) as (b & E & Hb); [reflexivity|].
  exists b. split; [exact E|]. apply Hb. right. right. exists "X"%char. by split.
Defined.

Section properties.
Context {H : Type} `{HandlerLaws H}.

(** C5: how a request is answered, on every path: from the cache when the URI is in it (and is not
    "/status"), whatever the method; with a 400 error when the method is unknown or no location
    matches; and otherwise by the handler of the longest matching location, whose response is
    sent, put into the cache and logged, and whose exceptions are passed on. *)
Theorem process_req_spec (e : env) (w : world H) (conn : endpoint) (req : request) (m : http_method) :
  world_ok w -> method_ req = Some m ->
  (forall res, cached w (uri_ req) = Some res ->
    process_req e w conn req = Ok (set_response res response_builder_default, w)) /\
  (cached w (uri_ req) = None ->
   m = INVALID \/ no_route (uri_ req) (location_handlers_ w).*1 ->
    process_req e w conn req = Ok (make_400_error response_builder_default, w)) /\
  (forall k h, cached w (uri_ req) = None -> m <> INVALID ->
   best_route (uri_ req) (location_handlers_ w).*1 k -> map_find k (location_handlers_ w) = Some h ->
    process_req e w conn req =
      (x ← handle_request e h req;
       record ← log_metrics req (h_response x) conn (get_handler_name (h_handler x));
       Ok (set_response (h_response x) response_builder_default,
           answered_world w k (uri_ req) x record))).
Proof.
  intros Hw Hm. split_and!.
  - apply process_req_cached.
  - intros Hc Hr. eapply process_req_unrouted; [done..|]. naive_solver.
  - intros k h Hc Hi Hb Hf. by eapply process_req_routed.
Qed.

(** Whatever the handlers return is framed, so every response the session sends is: its code
    is set and Content-Length is the length of its body; and answering keeps the shared state in
    order: sorted handlers, usable keys, framed responses in the cache. *)
Theorem process_req_invariant (e : env) (w w' : world H) (conn : endpoint) (req : request)
    (b : response_builder) :
  world_ok w -> process_req e w conn req = Ok (b, w') -> framed (response_ b) /\ world_ok w'.
Proof. apply process_req_ok. Qed.

(** C28: once a handler or the cache has answered for a URI other than "/status", every later request
    for that URI gets the same response, whatever its code is, and whatever the later request's method
    (even an unknown one), headers or body are, whatever has become of the files, and neither the
    handlers nor the log see it. "/status" is never answered from the cache: what is in the cache
    makes no difference to its answer. *)
Theorem process_req_replays (w : world H) :
  world_ok w ->
  (forall e1 e2 conn1 conn2 r1 r2 b w1,
    is_Some (cached w (uri_ r1)) \/
    (exists m k h, method_ r1 = Some m /\ m <> INVALID /\
      best_route (uri_ r1) (location_handlers_ w).*1 k /\ map_find k (location_handlers_ w) = Some h) ->
    process_req e1 w conn1 r1 = Ok (b, w1) -> uri_ r1 <> §"/status" -> uri_ r2 = uri_ r1 ->
    process_req e2 w1 conn2 r2 = Ok (b, w1)) /\
  (forall e conn r cache, uri_ r = §"/status" ->
    fst <$> process_req e (mkWorld (location_handlers_ w) cache (log_ w)) conn r =
    fst <$> process_req e w conn r).
Proof.
  intros Hw. split.
  - intros e1 e2 conn1 conn2 r1 r2 b w1 Ha Ho Hs Hu. destruct (cached w (uri_ r1)) as [res|] eqn:Ec.
    + rewrite (process_req_cached _ _ _ _ _ Ec) in Ho. apply Ok_pair in Ho as [<- <-].
      apply process_req_cached. by rewrite Hu.
    + destruct Ha as [[? ?]|(m & k & h & Em & Hm & Hb & Hf)]; [done|].
      rewrite (process_req_routed e1 w conn1 r1 m k h Hw Ec Em Hm Hb Hf) in Ho.
      apply bind_Ok in Ho as (x & _ & Ho). apply bind_Ok in Ho as (record & _ & Ho).
      apply Ok_pair in Ho as [<- <-]. apply process_req_cached. unfold cached.
      rewrite Hu, bool_decide_true by done. by apply lookup_insert_eq.
  - intros e conn r cache Hu. unfold process_req. rewrite !(bool_decide_false (uri_ r <> _)) by (intros Hn; by apply Hn).
    cbn [location_handlers_ log_]. destruct (match method_ r with Some _ => _ | None => _ end) as [[[] k]| |]; try done.
    cbn [mbind outcome_bind]. destruct (map_at k _) as [h| |]; try done. cbn [mbind outcome_bind].
    destruct (handle_request e h r) as [x| |]; try done. cbn [mbind outcome_bind].
    by destruct (log_metrics _ _ _ _).
Qed.

End properties.

Definition sample_world : world echo_request_handler := mkWorld sample_handlers ∅ [].

Lemma sample_world_ok : world_ok sample_world.
Proof. split; [apply sample_handlers_ok..|]. apply map_Forall_empty. Qed.

Definition get_echo : request := mkRequest (Some GET) (§"/echo/x") (§"HTTP/1.1") [] [].

Lemma sample_route : best_route (§"/echo/x") sample_handlers.*1 (§"/echo/").
Proof.
  split_and!; [right; left|reflexivity|]. intros k' Hk Hr. cbn in Hk.
  repeat (apply elem_of_cons in Hk as [->|Hk]; [first [discriminate Hr|left; cbn; lia|right; by split; [|left]]|]).
  by apply elem_of_nil in Hk.
Qed.

Lemma process_req_spec_witness :
  process_req (one_file_env [] []) sample_world None
    (mkRequest (Some INVALID) (§"/echo/x") [] [] []) =
  Ok (make_400_error response_builder_default, sample_world).
Proof.
  destruct (process_req_spec (one_file_env [] []) sample_world None
    (mkRequest (Some INVALID) (§"/echo/x") [] [] []) INVALID sample_world_ok eq_refl) as (_ & H & _).
  apply H; [reflexivity|by left].
Defined.

Lemma process_req_invariant_witness :
  exists b w', process_req (one_file_env [] []) sample_world None get_echo = Ok (b, w') /\
  framed (response_ b) /\ world_ok w'.
Proof.
  eexists _, _. split; [vm_compute; reflexivity|].
  eapply (process_req_invariant (one_file_env [] []) sample_world _ None get_echo);
    [apply sample_world_ok|vm_compute; reflexivity].
Defined.

(** The echo handler stands behind "/status" here as well: its answer is not the one in the cache. *)
Lemma process_req_replays_witness :
  (exists b w1, process_req (one_file_env [] []) sample_world None get_echo = Ok (b, w1) /\
   process_req (one_file_env [] []) w1 None
     (mkRequest (Some POST) (§"/echo/x") (§"HTTP/1.1") [(§"Content-Length", §"3")] (§"new")) = Ok (b, w1) /\
   res_body_ (response_ b) = §"GET /echo/x HTTP/1.1" ++ crlf ++ crlf) /\
  let r := mkRequest (Some GET) (§"/status") (§"HTTP/1.1") [] [] in
  fst <$> process_req (one_file_env [] []) (mkWorld sample_handlers {[§"/status" := mkResponse (Some OK) [] []]} [])
    None r = fst <$> process_req (one_file_env [] []) sample_world None r.
Proof.
  destruct (process_req_replays sample_world sample_world_ok) as [H1 H2]. split.
  - eexists _, _. split; [vm_compute; reflexivity|]. split; [|vm_compute; reflexivity].
    eapply (H1 (one_file_env [] []) (one_file_env [] []) None None get_echo);
      [right|vm_compute; reflexivity|discriminate|reflexivity].
    exists GET, (§"/echo/"), mkEcho. split_and!; [reflexivity|discriminate|apply sample_route|reflexivity].
  - apply H2. reflexivity.
Defined.
