(* ===== verification/SessionReading.v ===== *)
(** * Properties of reading and dispatching requests

    How [received_req] turns the bytes of successive reads into requests: whole
    and fragmented requests are dispatched once, when they are complete; and what
    the loop does with several requests in one read and with malformed ones. *)

From S2P Require Import Prelude CxxString CxxMap Env ConfigParser RequestParser RequestRoundTrip Response LogHelper Handlers Session SessionRouting.

(** ** Nothing read yet *)

Definition blank (r : request) : Prop :=
  uri_ r = [] /\ version_ r = [] /\ headers_ r = [] /\ body_ r = [].

(** A session between two requests. *)
Definition idle (s : session) : Prop :=
  request_parser_ s = request_parser_init /\ blank (request_ s).

Lemma blank_value_init : blank request_value_init.
Proof. done. Qed.

(** ** The pending length never becomes negative inside a well-formed request *)

(** On every prefix of [s] without a verdict the outstanding length is not negative. *)
Definition safe (p : request_parser) (r : request) (s : bytes) : Prop :=
  forall a b p1 r1, s = a ++ b -> runs p r a p1 r1 -> (0 <= body_length p1)%Z.

Lemma runs_app_inv p r a p1 r1 b p2 r2 :
  runs p r a p1 r1 -> runs p r (a ++ b) p2 r2 -> runs p1 r1 b p2 r2.
Proof. intros R R2. unfold runs in R2. by rewrite (feed_runs _ _ _ _ _ _ R) in R2. Qed.

Lemma safe_app p r s1 p' r' s2 :
  safe p r s1 -> runs p r s1 p' r' -> safe p' r' s2 -> safe p r (s1 ++ s2).
Proof.
  intros S1 R S2 a b p1 r1 E Ra. apply app_eq_app in E as [l [[-> ->]|[-> ->]]].
  - by eapply S1.
  - eapply S2; [done|]. by eapply runs_app_inv.
Qed.

(** States from which a byte changes the length. *)
Definition quiet (st : state) : Prop :=
  st <> s_header_line_start /\ st <> s_expecting_newline_3 /\ st <> s_body.

Lemma consume_quiet p r c p' r' :
  quiet (state_ p) -> consume p r c = Ok (indeterminate, p', r') ->
  body_length p' = body_length p /\ (c <> LF -> quiet (state_ p')).
Proof.
  intros Hq E. destruct p as [st k v ms n]. cbn [state_] in Hq. unfold quiet in *.
  unfold_consume in E; unfold go, go_version, reject in E. cbn [state_] in E.
  destruct st; try (exfalso; tauto); repeat case_hyp E; ok_inv;
    cbn [body_length state_ set_state push_method push_key push_val];
    (split; [done|]); intros Hc; repeat split; try done;
    match goal with Hb : bool_decide (_ = LF) = true |- _ => apply bool_decide_eq_true in Hb end; done.
Qed.

Lemma runs_inv_cons p r c s p2 r2 :
  runs p r (c :: s) p2 r2 ->
  exists p1 r1, consume p r c = Ok (indeterminate, p1, r1) /\ runs p1 r1 s p2 r2.
Proof.
  unfold runs. cbn [feed]. intros E. apply bind_Ok in E as ([[res p1] r1] & Ec & E).
  destruct res; [by injection E|by injection E|eauto].
Qed.

Lemma runs_quiet p r s p1 r1 :
  quiet (state_ p) -> LF ∉ s -> runs p r s p1 r1 ->
  quiet (state_ p1) /\ body_length p1 = body_length p.
Proof.
  revert p r. induction s as [|c s IH]; intros p r Hq Hl R.
  - injection R as -> ->. done.
  - apply not_elem_of_cons in Hl as [Hc Hl].
    apply runs_inv_cons in R as (p' & r' & Ec & R).
    destruct (consume_quiet _ _ _ _ _ Hq Ec) as [Hb Hq']. rewrite <- Hb. eapply IH; eauto.
Qed.

(** A line read from a quiet state. *)
Lemma safe_line p r l :
  quiet (state_ p) -> (0 <= body_length p)%Z -> LF ∉ l -> safe p r (l ++ [LF]).
Proof.
  intros Hq Hn Hl a b p1 r1 E R. apply app_eq_app in E as [t [[-> Et]|[-> Et]]].
  - apply not_elem_of_app in Hl as [Hl _].
    by destruct (runs_quiet _ _ _ _ _ Hq Hl R) as [_ ->].
  - destruct t as [|c t]; [rewrite app_nil_r in R; by destruct (runs_quiet _ _ _ _ _ Hq Hl R) as [_ ->]|].
    injection Et as <- Et. symmetry in Et. apply app_eq_nil in Et as [-> ->].
    unfold runs in R. rewrite feed_app in R. apply bind_Ok in R as ([[[res p'] r'] rest] & R1 & R).
    destruct res; [by injection R; intros; simplify_eq|by injection R|].
    assert (rest = []) as -> by (destruct (feed_suffix _ _ _ _ _ _ _ R1) as (? & _ & Hr); auto).
    destruct (runs_quiet _ _ _ _ _ Hq Hl R1) as [Hq' Hb].
    apply runs_inv_cons in R as (p2 & r2 & Ec & R). injection R as -> ->.
    destruct (consume_quiet _ _ _ _ _ Hq' Ec) as [-> _]. lia.
Qed.

(** No line feed inside the parts of a request. *)
Lemma forallb_not_in (f : ascii -> bool) c s : forallb f s = true -> f c = false -> c ∉ s.
Proof.
  intros Hs Hf Hc. rewrite forallb_forall in Hs. apply list_elem_of_In, Hs in Hc. congruence.
Qed.

Lemma http_token_no_LF s : http_token s = true -> LF ∉ s.
Proof. intros [_ H]%andb_true_iff. by apply (forallb_not_in _ _ _ H). Qed.

Lemma uri_no_LF s : uri_ok s = true -> LF ∉ s.
Proof. intros H. by apply (forallb_not_in _ _ _ H). Qed.

Lemma value_no_LF s : value_ok s = true -> LF ∉ s.
Proof. intros H. by apply (forallb_not_in _ _ _ H). Qed.

Lemma digits_no_LF s : digits_ok s = true -> LF ∉ s.
Proof. intros [_ H]%andb_true_iff. by apply (forallb_not_in _ _ _ H). Qed.

Lemma version_no_LF s : version_ok s -> LF ∉ s.
Proof.
  intros (a & b & -> & Ha%digits_no_LF & Hb%digits_no_LF).
  rewrite !not_elem_of_app. split_and!; [not_in|done|not_in|done].
Qed.

Lemma run_request_line_blank ms u v r0 :
  blank r0 -> http_token ms = true -> uri_ok u = true -> version_ok v ->
  runs request_parser_init r0 (request_line ms u v)
    (mkParser s_header_line_start [] [] ms 0) (mkRequest (method_ r0) u v [] []).
Proof.
  intros (Hu0 & Hv0 & Hh0 & Hb0) Hms Hu Hv.
  unfold request_line. rewrite (assoc_L (++) ms), (assoc_L (++) u).
  eapply runs_app; [by apply run_method|]. eapply runs_app; [by apply run_uri|].
  replace (mkRequest (method_ r0) u v [] [])
    with (mkRequest (method_ r0) (uri_ r0 ++ u) v (headers_ r0) (body_ r0))
    by (by rewrite Hu0, Hh0, Hb0).
  by apply run_version.
Qed.

Lemma safe_request_line ms u v r0 :
  http_token ms = true -> uri_ok u = true -> version_ok v ->
  safe request_parser_init r0 (request_line ms u v).
Proof.
  intros Hms%http_token_no_LF Hu%uri_no_LF Hv%version_no_LF. unfold request_line.
  replace (ms ++ §" " ++ u ++ §" " ++ v ++ crlf)
    with ((ms ++ §" " ++ u ++ §" " ++ v ++ [CR]) ++ [LF]) by (by rewrite <- !(assoc_L (++))).
  apply safe_line; [done|done|]. rewrite !not_elem_of_app. split_and!; done || not_in.
Qed.

Lemma safe_header_line p r p1 r1 kv :
  state_ p = s_header_line_start -> store_header p r = Ok (p1, r1) -> header_ok kv = true ->
  (0 <= body_length p)%Z -> (0 <= body_length p1)%Z -> safe p r (header_line kv).
Proof.
  destruct kv as [k v]. intros Hst Hs [Hk Hv]%andb_true_iff Hn Hn1. cbn [fst snd] in *.
  pose proof (http_token_no_LF _ Hk) as Hkl. pose proof (value_no_LF _ Hv) as Hvl.
  unfold http_token in Hk. apply andb_true_iff in Hk as [Hne%bool_decide_eq_true Hk].
  destruct k as [|c k]; [done|]. cbn [forallb] in Hk. apply andb_true_iff in Hk as [Hc%negb_true_false _].
  pose proof (consume_header_start _ _ _ _ _ Hst Hc Hs) as Ec.
  apply (safe_app p r [c] (mkParser s_header_name [c] [] (method_str p) (body_length p1)) r1
    (k ++ §": " ++ v ++ crlf)).
  - intros a b p' r' E R. destruct a as [|c' a]; [by injection R as -> ->|].
    injection E as <- E. symmetry in E. apply app_eq_nil in E as [-> ->].
    unfold runs in R. cbn [feed] in R. rewrite Ec in R. by injection R as <- <-.
  - by apply runs_one.
  - replace (k ++ §": " ++ v ++ crlf) with ((k ++ §": " ++ v ++ [CR]) ++ [LF])
      by (by rewrite <- !(assoc_L (++))).
    apply not_elem_of_cons in Hkl as [_ Hkl].
    apply safe_line; [done|done|]. rewrite !not_elem_of_app. split_and!; done || not_in.
Qed.

(** Every declared length in [hs] is not negative. *)
Definition lengths_ok (hs : list (bytes * bytes)) : Prop :=
  Forall (fun kv => kv.1 = §"Content-Length" -> forall n, stoi kv.2 = Ok n -> (0 <= n)%Z) hs.

Lemma safe_headers hs p r p1 r1 m n :
  state_ p = s_header_line_start -> store_header p r = Ok (p1, r1) ->
  forallb header_ok hs = true -> stored hs (headers_ r1) (body_length p1) = Ok (m, n) ->
  (0 <= body_length p)%Z -> (0 <= body_length p1)%Z -> lengths_ok hs ->
  safe p r (mjoin (header_line <$> hs)).
Proof.
  revert p r p1 r1. induction hs as [|[k v] hs IH]; intros p r p1 r1 Hst Hs Hok Hm Hn Hn1 Hls.
  - intros a b p' r' E R. symmetry in E. apply app_eq_nil in E as [-> ->]. by injection R as -> ->.
  - cbn [forallb] in Hok. apply andb_true_iff in Hok as [Hkv Hok].
    cbn [stored] in Hm. apply bind_Ok in Hm as (n' & Hn' & Hm). apply Forall_cons in Hls as [Hl Hls].
    pose proof (header_ok_key _ _ Hkv) as Hk.
    change (mjoin (header_line <$> (k, v) :: hs)) with (header_line (k, v) ++ mjoin (header_line <$> hs)).
    eapply safe_app; [by eapply safe_header_line|by eapply run_header_line|]. cbn [fst snd].
    apply (IH _ _ (mkParser s_header_line_start k v (method_str p) n') (insert_header k v r1));
      [done| |done..| |done].
    + by rewrite store_header_pending, Hn' by done.
    + cbn. case_bool_decide; [by apply Hl|]. by injection Hn' as <-.
Qed.

(** In the body the length counts down. *)
Lemma runs_body p r s p1 r1 :
  state_ p = s_body -> runs p r s p1 r1 -> body_length p1 = (body_length p - zlen s)%Z.
Proof.
  revert p r. induction s as [|c s IH]; intros p r Hst R.
  - injection R as -> ->. unfold zlen. simpl. lia.
  - apply runs_inv_cons in R as (p' & r' & Ec & R). unfold_consume in Ec. rewrite Hst in Ec.
    apply bind_Ok in Ec as (n & En & Ec). unfold int_pred in En.
    destruct (_ =? _)%Z; [done|]. injection En as <-.
    destruct (_ - 1 =? 0)%Z; [done|]. injection Ec as <- <-.
    rewrite (IH (set_body_length _ p) _ Hst R). unfold zlen. cbn. lia.
Qed.

Lemma safe_end p r p2 r2 s :
  state_ p = s_header_line_start -> store_header p r = Ok (p2, r2) ->
  (0 <= body_length p)%Z -> body_length p2 = zlen s -> safe p r (crlf ++ s).
Proof.
  intros Hst Hs Hn Hb a b p1 r1 E R.
  assert (Ec : consume p r CR = Ok (indeterminate, set_state s_expecting_newline_3 p, r))
    by (unfold_consume; rewrite Hst; reflexivity).
  destruct a as [|c a]; [by injection R as -> ->|]. injection E as <- E.
  apply runs_inv_cons in R as (p' & r' & Ec' & R). rewrite Ec in Ec'. injection Ec' as <- <-.
  destruct a as [|c a]; [by injection R as <- <-|]. injection E as <- E.
  apply runs_inv_cons in R as (p' & r' & Ec' & R). unfold_consume in Ec'. cbn [state_ set_state] in Ec'.
  assert (Hs' : store_header (set_state s_expecting_newline_3 p) r =
    Ok (set_state s_expecting_newline_3 p2, r2)).
  { revert Hs. unfold store_header. cbn. repeat case_bool_decide; intros; ok_inv; done. }
  rewrite Hs' in Ec'. cbn [mbind outcome_bind] in Ec'. rewrite (bool_decide_true (LF = LF)) in Ec' by done.
  set (q := if bool_decide _ then _ else _) in Ec'.
  assert (Hq : body_length q = zlen s) by (unfold q; by case_bool_decide).
  destruct (_ =? 0)%Z; [done|]. injection Ec' as <- <-.
  rewrite (runs_body (set_state s_body q) _ _ _ _ eq_refl R). cbn [body_length set_state]. rewrite Hq.
  unfold zlen. rewrite E, length_app. lia.
Qed.

Lemma wire_parts ms r :
  wire ms r = request_line ms (uri_ r) (version_ r) ++
    mjoin (header_line <$> headers_ r) ++ crlf ++ body_ r.
Proof. unfold wire, request_line. by rewrite <- !(assoc_L (++)). Qed.

Lemma wf_lengths r : wf_request r -> lengths_ok (headers_ r).
Proof.
  intros [_ _ Hm _ Hf]. apply Forall_forall. intros [k v] Hin. cbn [fst snd]. intros -> n Hn.
  unfold framing_ok in Hf. rewrite (map_find_in _ _ _ Hm Hin) in Hf.
  rewrite Hf in Hn. injection Hn as <-. apply zlen_nonneg.
Qed.

Lemma wf_stored r : wf_request r -> stored (headers_ r) [] 0 = Ok (headers_ r, zlen (body_ r)).
Proof.
  intros [_ _ Hm _ Hf]. unfold framing_ok in Hf.
  rewrite (stored_ordered _ _ _ (zlen (body_ r))); [|done|].
  - destruct (map_find _ (headers_ r)); [done|]. by rewrite Hf.
  - intros v E. by rewrite E in Hf.
Qed.

Lemma safe_wire ms r r0 :
  wf_request r -> http_token ms = true -> blank r0 -> safe request_parser_init r0 (wire ms r).
Proof.
  intros Hwf Hms H0. pose proof (wf_lengths r Hwf) as Hls. pose proof (wf_stored r Hwf) as Hst.
  destruct Hwf as [Hu Hv Hm Hh Hf]. rewrite wire_parts.
  eapply safe_app; [by apply safe_request_line|by apply run_request_line_blank|].
  set (p := mkParser s_header_line_start [] [] ms 0).
  set (r1 := mkRequest (method_ r0) (uri_ r) (version_ r) [] []).
  destruct (run_headers (headers_ r) p r1 p r1 (headers_ r) (zlen (body_ r)))
    as (p' & r' & p2 & r2 & R & H1 & H2 & H3 & H4 & H5 & ->); [done..|].
  assert (Sh : safe p r1 (mjoin (header_line <$> headers_ r))) by (by eapply (safe_headers _ p r1 p r1)).
  eapply safe_app; [exact Sh|exact R|]. eapply safe_end; [done|done| |done].
  eapply Sh; [by rewrite app_nil_r|exact R].
Qed.

(** ** Fragments *)

Lemma feed_blank_wire ms r r0 :
  wf_request r -> http_token ms = true -> blank r0 ->
  exists p', feed request_parser_init r0 (wire ms r) =
    Ok (good, p', mkRequest (method_ r0) (uri_ r) (version_ r) (headers_ r) (body_ r), []) /\
    method_str p' = ms /\ body_length p' = 0%Z.
Proof.
  intros Hwf Hms (? & ? & ? & ?). rewrite <- (app_nil_r (wire ms r)). by apply feed_wire.
Qed.

(** A read that ends inside of a message: nothing is dispatched. *)
Lemma collect_partial n p r a p1 r1 reqs :
  runs p r a p1 r1 -> (0 <= body_length p1)%Z ->
  collect (S n) p r a reqs = Some (Ok (reqs, p1, r1)).
Proof.
  intros R Hb. cbn [collect]. rewrite (parse_runs _ _ _ _ _ R). cbn [mbind outcome_bind pr_result].
  rewrite bool_decide_false by naive_solver. cbn [pr_begin pr_body_length pr_parser pr_request].
  by destruct (Z.ltb_spec (zlen a + body_length p1) (zlen a)); [lia|].
Qed.

(** A parse at the end of the buffer reads nothing. *)
Lemma parse_end p r data :
  parse p r data (zlen data) = Ok (mkParseResult indeterminate (zlen data) (body_length p) p r).
Proof.
  unfold parse. rewrite (proj2 (Z.leb_le _ _) (zlen_nonneg data)), Z.leb_refl. cbn [andb].
  by rewrite drop_ge by (unfold zlen; lia).
Qed.

(** A read that ends a message dispatches it, and the parser is as new. *)
Lemma collect_last n p r a p' r' reqs :
  feed p r a = Ok (good, p', r', []) -> body_length p' = 0%Z ->
  collect (S n) p r a reqs = Some (Ok (reqs ++ [set_method (method_of_str (method_str p')) r'],
    request_parser_init, request_value_init)).
Proof.
  intros E Hb. cbn [collect]. rewrite parse_0, parse_loop_feed, E. cbn [mbind outcome_bind]. rewrite Hb.
  replace (0 + zlen a - zlen (@nil ascii))%Z with (zlen a) by (unfold zlen; simpl; lia).
  rewrite Z.add_0_r, Z.leb_refl. cbn [pr_result]. rewrite bool_decide_true by done.
  cbn [pr_begin pr_body_length pr_parser pr_request]. rewrite Z.add_0_r, parse_end.
  cbn [mbind outcome_bind pr_begin pr_body_length reset body_length]. rewrite Z.add_0_r, Z.ltb_irrefl. done.
Qed.

Section reads.
Context {H : Type} `{RequestHandler H}.
Implicit Types (w : world H) (s : session).

(** Successive completions of the reads of one session. *)
Fixpoint receive_all (fuel : nat) (es : nat -> nat -> env) (i : nat) (s : session) (w : world H)
    (reads : list bytes) : option (outcome (session * world H * list action)) :=
  match reads with
  | [] => Some (Ok (s, w, []))
  | data :: rest =>
      match received_req fuel (es i) s w false data with
      | Some (Ok (s1, w1, acts1)) =>
          match receive_all fuel es (S i) s1 w1 rest with
          | Some (Ok (s2, w2, acts2)) => Some (Ok (s2, w2, acts1 ++ acts2))
          | o => o
          end
      | o => o
      end
  end.

Lemma received_partial n es s w a p1 r1 :
  runs (request_parser_ s) (request_ s) a p1 r1 -> (0 <= body_length p1)%Z ->
  received_req (S n) es s w false a = Some (Ok (mkSession r1 p1 (connection_ s), w, [Read])).
Proof. intros R Hb. unfold received_req. by rewrite (collect_partial _ _ _ _ _ _ _ R Hb). Qed.

Lemma received_last n es s w a p' r' :
  feed (request_parser_ s) (request_ s) a = Ok (good, p', r', []) -> body_length p' = 0%Z ->
  received_req (S n) es s w false a = Some (
    '(w', acts) ← dispatch es 0 w (connection_ s) [set_method (method_of_str (method_str p')) r'];
    Ok (mkSession request_value_init request_parser_init (connection_ s), w', acts ++ [Read])).
Proof. intros E Hb. unfold received_req. by rewrite (collect_last _ _ _ _ _ _ _ E Hb). Qed.

(** A session that has read [pre] of a message that began when it was idle. *)
Definition midway (pre : bytes) (s : session) : Prop :=
  exists r0, blank r0 /\ runs request_parser_init r0 pre (request_parser_ s) (request_ s).

Lemma midway_idle s : idle s -> midway [] s.
Proof. intros [Hp Hr]. exists (request_ s). split; [done|]. rewrite Hp. apply runs_nil. Qed.

(** A read that ends inside of a request only moves the parser. *)
Lemma received_fragment ms r pre f rest s :
  wf_request r -> http_token ms = true -> midway pre s -> rest <> [] -> pre ++ f ++ rest = wire ms r ->
  exists s1, connection_ s1 = connection_ s /\ midway (pre ++ f) s1 /\
    forall n es w, received_req (S n) es s w false f = Some (Ok (s1, w, [Read])).
Proof.
  intros Hwf Hms (r0 & Hr0 & R) Hl Hw.
  destruct (feed_blank_wire ms r r0 Hwf Hms Hr0) as (p' & E & Hp & Hb).
  rewrite <- Hw, (feed_runs _ _ _ _ _ _ R) in E.
  rewrite <- (app_nil_r rest) in E. destruct (feed_prefix _ _ _ _ [] _ _ E Hl) as (p1 & r1 & Rf & _).
  assert (Rpf : runs request_parser_init r0 (pre ++ f) p1 r1) by (by eapply runs_app).
  assert (Hb1 : (0 <= body_length p1)%Z).
  { eapply (safe_wire ms r r0); [done..| |exact Rpf]. rewrite <- Hw. apply (assoc_L (++)). }
  exists (mkSession r1 p1 (connection_ s)). split; [done|]. split; [by exists r0|].
  intros n es w. exact (received_partial _ _ _ _ _ _ _ Rf Hb1).
Qed.

(** The read that brings the end of a request dispatches it. *)
Lemma received_final n es s w ms r pre last :
  wf_request r -> http_token ms = true -> midway pre s -> pre ++ last = wire ms r ->
  received_req (S n) es s w false last = Some (
    '(w', acts) ← dispatch es 0 w (connection_ s) [set_method (method_of_str ms) r];
    Ok (mkSession request_value_init request_parser_init (connection_ s), w', acts ++ [Read])).
Proof.
  intros Hwf Hms (r0 & Hr0 & R) Hw.
  destruct (feed_blank_wire ms r r0 Hwf Hms Hr0) as (p' & E & Hp & Hb).
  rewrite <- Hw, (feed_runs _ _ _ _ _ _ R) in E. by rewrite (received_last _ _ _ _ _ _ _ E Hb), Hp.
Qed.

Lemma join_nonempty frags (last : bytes) :
  Forall (fun f => f <> []) (frags ++ [last]) -> mjoin (frags ++ [last]) <> [].
Proof.
  intros Hne E. rewrite join_app in E. apply app_eq_nil in E as [_ E].
  cbn [mjoin list_join] in E. rewrite app_nil_r in E. subst.
  rewrite Forall_app, Forall_singleton in Hne. by destruct Hne.
Qed.

(** What a session does with the fragments of a request. *)
Lemma receive_fragments n es i s w ms r pre frags last :
  wf_request r -> http_token ms = true -> midway pre s ->
  Forall (fun f => f <> []) (frags ++ [last]) -> pre ++ mjoin (frags ++ [last]) = wire ms r ->
  receive_all (S n) es i s w (frags ++ [last]) = Some (
    '(w', acts) ← dispatch (es (i + length frags)) 0 w (connection_ s)
                    [set_method (method_of_str ms) r];
    Ok (mkSession request_value_init request_parser_init (connection_ s), w',
        replicate (length frags) Read ++ acts ++ [Read])).
Proof.
  intros Hwf Hms. revert i s pre. induction frags as [|f frags IH]; intros i s pre Hs Hne Hw.
  - cbn [app receive_all length replicate mjoin list_join] in *. rewrite app_nil_r in Hw.
    rewrite (received_final _ _ _ _ ms r pre) by done. rewrite Nat.add_0_r.
    destruct (dispatch _ _ _ _ _) as [[w' acts]| |]; cbn [mbind outcome_bind]; [|done|done].
    by rewrite app_nil_r.
  - cbn [app] in Hne. apply Forall_cons in Hne as [Hf Hne].
    change (mjoin ((f :: frags) ++ [last])) with (f ++ mjoin (frags ++ [last])) in Hw.
    destruct (received_fragment ms r pre f _ s Hwf Hms Hs (join_nonempty _ _ Hne) Hw) as (s1 & Hc & Hs1 & E).
    cbn [app receive_all]. rewrite E.
    rewrite (IH (S i) s1 (pre ++ f)); [|done|done|by rewrite <- (assoc_L (++))].
    rewrite Hc. cbn [length]. rewrite Nat.add_succ_comm.
    by destruct (dispatch _ _ _ _ _) as [[w' acts]| |].
Qed.

End reads.

(** ** Dispatching one request *)

Section answer.
Context {H : Type} `{HandlerLaws H}.

Lemma add_log_ok (w : world H) records : world_ok w -> world_ok (add_log records w).
Proof. intros [? ? ?]. by split. Qed.

Lemma log_metrics_framed req res conn name :
  framed res -> exists record, log_metrics req res conn name = Ok record.
Proof.
  intros [Hc _]. unfold log_metrics. destruct (code_ res) as [[]|]; [eexists; reflexivity..|done].
Qed.

Lemma dispatch_routed es (w : world H) ip port req m k h x :
  world_ok w -> method_ req = Some m -> m <> INVALID -> cached w (uri_ req) = None ->
  best_route (uri_ req) (location_handlers_ w).*1 k -> map_find k (location_handlers_ w) = Some h ->
  handle_request (es 0) h req = Ok x ->
  exists w' bufs b', dispatch es 0 w (Some (ip, port)) [req] = Ok (w', [Write bufs]) /\
    build (set_response (h_response x) response_builder_default) = Ok (bufs, b') /\
    world_ok w' /\ cache_query_ w' !! uri_ req = Some (h_response x) /\
    (clean (h_response x) -> (zlen (res_body_ (h_response x)) <= INT_MAX)%Z ->
     read_response (mjoin bufs) = Some (h_response x, [])).
Proof.
  intros Hw Hm Hi Hc Hb Hf Ex. pose proof (handle_framed _ _ _ _ Ex) as Hx.
  destruct (handled_readable (es 0) h req x Ex) as (bufs & b' & Eb & Er).
  destruct (log_metrics_framed req (h_response x) (Some (ip, port))
    (get_handler_name (h_handler x)) Hx) as [record El].
  assert (Eq : exists rec, log_request_info req (Some (ip, port)) = Ok rec)
    by (unfold log_request_info; rewrite Hm; destruct m; eexists; reflexivity).
  destruct Eq as [rec Eq]. cbn [dispatch]. rewrite Eq. cbn [mbind outcome_bind].
  unfold thread_work. rewrite (process_req_routed (es 0) (add_log [rec] w) _ req m k h);
    [|by apply add_log_ok|done..].
  rewrite Ex. cbn [mbind outcome_bind]. rewrite El. cbn [mbind outcome_bind]. rewrite Eb.
  cbn [mbind outcome_bind]. eexists _, bufs, b'. split; [reflexivity|]. split_and!.
  - done.
  - eapply answered_world_ok; [by apply add_log_ok|done|done].
  - cbn. by apply lookup_insert_eq.
  - intros Hcl Hl. rewrite <- (app_nil_r (mjoin bufs)). by apply Er.
Qed.

End answer.

(** A peer that is gone makes the first dispatched request throw. *)
Lemma dispatch_gone {H} `{RequestHandler H} es i (w : world H) req rest m :
  method_ req = Some m -> dispatch es i w None (req :: rest) = Throw system_error.
Proof. intros Hm. cbn [dispatch]. unfold log_request_info. rewrite Hm. by destruct m. Qed.

Lemma known_method_token ms : method_of_str ms <> INVALID -> http_token ms = true.
Proof. unfold method_of_str. repeat case_bool_decide; by subst. Qed.

(** ** Several messages in one read *)

(** A message without body is accepted with the parser at the end of the head
    and no header pending. *)
Lemma consume_good_end p r c p' r' :
  consume p r c = Ok (good, p', r') ->
  (state_ p' = s_expecting_newline_3 /\ header_key p' = []) \/ body_ r' <> [].
Proof.
  intros E. destruct p as [st k v ms n].
  destruct st; consume_inv E; try (right; cbn; by destruct (body_ r)); left.
  - by destruct Hfields.
  - destruct Hfields as [Hs _]. split; [done|].
    assert (k = []) as -> by (by apply dec_stable). unfold store_header in Estore. cbn in Estore. by simplify_eq.
Qed.

Lemma feed_good_end p r s p' r' rest :
  feed p r s = Ok (good, p', r', rest) -> body_ r' = [] ->
  state_ p' = s_expecting_newline_3 /\ header_key p' = [].
Proof.
  revert p r. induction s as [|c s IH]; intros p r E Hb; simpl in E; [done|].
  destruct (consume p r c) as [[[res1 p1] r1]| |] eqn:Ec; simpl in E; [|done|done].
  destruct res1; simplify_eq; [|by eapply IH].
  by destruct (consume_good_end _ _ _ _ _ Ec).
Qed.

(** [parse] from the start of a message inside of the buffer. *)
Lemma parse_at pre ms r r0 rest :
  wf_request r -> http_token ms = true -> blank r0 ->
  exists p', parse request_parser_init r0 (pre ++ wire ms r ++ rest) (zlen pre) =
    Ok (mkParseResult good (zlen pre + zlen (wire ms r)) 0 p' (set_method (method_of_str ms) r)) /\
    (body_ r = [] -> state_ p' = s_expecting_newline_3 /\ header_key p' = []) /\ body_length p' = 0%Z.
Proof.
  intros Hwf Hms (H1 & H2 & H3 & H4).
  destruct (feed_wire ms r r0 rest Hwf Hms H1 H2 H3 H4) as (p' & R & Hp & Hb).
  assert (Hlen : zlen (pre ++ wire ms r ++ rest) = (zlen pre + zlen (wire ms r) + zlen rest)%Z)
    by (unfold zlen; rewrite !length_app; lia).
  pose proof (zlen_nonneg pre). pose proof (zlen_nonneg (wire ms r)). pose proof (zlen_nonneg rest).
  exists p'. split_and!; [|intros Hn; by eapply feed_good_end|done].
  unfold parse. rewrite (proj2 (Z.leb_le 0 (zlen pre))) by done.
  rewrite (proj2 (Z.leb_le (zlen pre) _)) by lia. cbn [andb].
  replace (drop (Z.to_nat (zlen pre)) (pre ++ wire ms r ++ rest)) with (wire ms r ++ rest)
    by (unfold zlen; by rewrite Nat2Z.id, drop_app_length).
  rewrite parse_loop_feed, R. cbn [mbind outcome_bind]. rewrite Hb, Hp.
  replace (zlen pre + zlen (wire ms r ++ rest) - zlen rest)%Z with (zlen pre + zlen (wire ms r))%Z
    by (unfold zlen; rewrite length_app; lia).
  by rewrite (proj2 (Z.leb_le _ _)) by lia.
Qed.

(** Two messages: the second parse accepts the second message, and its verdict
    is dropped. *)
Lemma collect_two n ms1 ms2 r1 r2 r0 rest reqs :
  wf_request r1 -> wf_request r2 -> http_token ms1 = true -> http_token ms2 = true -> blank r0 ->
  exists p', (body_ r2 = [] -> state_ p' = s_expecting_newline_3 /\ header_key p' = []) /\
  body_length p' = 0%Z /\
  collect (S n) request_parser_init r0 (wire ms1 r1 ++ wire ms2 r2 ++ rest) reqs =
    let reqs' := reqs ++ [set_method (method_of_str ms1) r1] in
    let r' := set_method (method_of_str ms2) r2 in
    if bool_decide (rest = []) then Some (Ok (reqs', p', r'))
    else collect n p' r' (wire ms1 r1 ++ wire ms2 r2 ++ rest) reqs'.
Proof.
  intros Hw1 Hw2 Hm1 Hm2 H0.
  destruct (parse_at [] ms1 r1 r0 (wire ms2 r2 ++ rest) Hw1 Hm1 H0) as (p1 & E1 & _ & _).
  destruct (parse_at (wire ms1 r1) ms2 r2 request_value_init rest Hw2 Hm2 blank_value_init)
    as (p2 & E2 & Hp2 & Hb2).
  exists p2. split; [done|]. split; [done|]. cbn [collect].
  change (parse request_parser_init r0 (wire ms1 r1 ++ wire ms2 r2 ++ rest) 0)
    with (parse request_parser_init r0 ([] ++ wire ms1 r1 ++ wire ms2 r2 ++ rest) (zlen (@nil ascii))).
  rewrite E1. cbn [mbind outcome_bind pr_result]. rewrite bool_decide_true by done.
  cbn [pr_begin pr_body_length pr_parser pr_request]. change (zlen (@nil ascii)) with 0%Z.
  rewrite Z.add_0_r, Z.add_0_l. change (reset p1) with request_parser_init. rewrite E2.
  cbn [mbind outcome_bind pr_begin pr_body_length pr_parser pr_request].
  destruct (Z.ltb_spec (zlen (wire ms1 r1) + zlen (wire ms2 r2) + 0)
    (zlen (wire ms1 r1 ++ wire ms2 r2 ++ rest))) as [Hlt|Hge];
    unfold zlen in *; rewrite !length_app in *.
  - rewrite bool_decide_false; [done|]. intros ->. cbn [length] in *. lia.
  - rewrite bool_decide_true; [done|]. destruct rest; [done|cbn [length] in *; lia].
Qed.

(** At the end of a head, a byte other than a line feed is a verdict [bad]. *)
Lemma parse_stuck p r c data :
  state_ p = s_expecting_newline_3 -> header_key p = [] -> body_length p = 0%Z -> c <> LF ->
  parse p r (c :: data) 0 =
    Ok (mkParseResult bad 1 0 p (set_method (method_of_str (method_str p)) r)).
Proof.
  intros Hs Hk Hb Hc. rewrite parse_0. cbn [parse_loop]. unfold_consume. rewrite Hs.
  unfold store_header. rewrite Hk. cbn [mbind outcome_bind].
  rewrite !(bool_decide_false (@nil ascii <> [])) by naive_solver. cbn [mbind outcome_bind].
  rewrite (bool_decide_false (c = LF)) by done. cbn [mbind outcome_bind]. rewrite Hb.
  pose proof (zlen_nonneg data).
  by rewrite (proj2 (Z.leb_le (0 + 1 + 0) (zlen (c :: data)))) by (unfold zlen in *; simpl; lia).
Qed.

(** From then on each round starts over, and none is the last. *)
Lemma collect_forever n p r c ms r1 rest reqs :
  state_ p = s_expecting_newline_3 -> header_key p = [] -> body_length p = 0%Z ->
  c <> LF -> http_token ms = true -> wf_request r1 -> body_ r1 = [] -> rest <> [] ->
  collect n p r (c :: wire ms r1 ++ rest) reqs = None.
Proof.
  intros Hs Hk Hb Hc Hms Hw Hn Hr. revert p r reqs Hs Hk Hb.
  induction n as [|n IH]; intros p r reqs Hs Hk Hb; [done|]. cbn [collect].
  rewrite parse_stuck by done. cbn [mbind outcome_bind pr_result]. rewrite bool_decide_true by done.
  cbn [pr_begin pr_body_length pr_parser pr_request]. change (reset p) with request_parser_init.
  destruct (parse_at [c] ms r1 request_value_init rest Hw Hms blank_value_init) as (p' & E & Hp & Hb').
  destruct (Hp Hn) as [Hs' Hk']. change (c :: wire ms r1 ++ rest) with ([c] ++ wire ms r1 ++ rest) in *.
  change (1 + 0)%Z with (zlen [c]). rewrite E.
  cbn [mbind outcome_bind pr_begin pr_body_length pr_parser pr_request].
  rewrite (proj2 (Z.ltb_lt _ _)); [by apply IH|]. unfold zlen. rewrite !length_app.
  destruct rest; [done|]. cbn [length]. lia.
Qed.

(** ** Properties *)

Section properties.
Context {H : Type} `{RequestHandler H}.

(** However TCP cuts a well-formed request into reads, an idle session dispatches exactly that
    request, once, when its last read completes; the earlier reads only ask for more, one round of
    the loop is enough for each of them, and the session is idle again afterwards. *)
Theorem fragmented_request_dispatched_once (n : nat) (es : nat -> nat -> env) (s : session)
    (w : world H) (ms : bytes) (r : request) (frags : list bytes) (last : bytes) :
  idle s -> wf_request r -> http_token ms = true ->
  Forall (fun f => f <> []) (frags ++ [last]) -> mjoin (frags ++ [last]) = wire ms r ->
  receive_all (S n) es 0 s w (frags ++ [last]) = Some (
    '(w', acts) ← dispatch (es (length frags)) 0 w (connection_ s) [set_method (method_of_str ms) r];
    Ok (mkSession request_value_init request_parser_init (connection_ s), w',
        replicate (length frags) Read ++ acts ++ [Read])).
Proof.
  intros [Hp Hr] Hwf Hms Hne Hw. apply (receive_fragments n es 0 s w ms r []); [done..| |done|done].
  exists (request_ s). split; [done|]. rewrite Hp. apply runs_nil.
Qed.

(** C29: when two well-formed requests arrive in one read, only the first is dispatched: the verdict
    on the second is thrown away, the request stays in the session, and nothing is sent for it
    while the session waits for the next read. *)
Theorem pipelined_request_not_dispatched (n : nat) (es : nat -> env) (s : session) (w : world H)
    (ms1 ms2 : bytes) (r1 r2 : request) :
  idle s -> wf_request r1 -> wf_request r2 -> http_token ms1 = true -> http_token ms2 = true ->
  exists p', received_req (S n) es s w false (wire ms1 r1 ++ wire ms2 r2) = Some (
    '(w', acts) ← dispatch es 0 w (connection_ s) [set_method (method_of_str ms1) r1];
    Ok (mkSession (set_method (method_of_str ms2) r2) p' (connection_ s), w', acts ++ [Read])).
Proof.
  intros [Hp Hr] H1 H2 Hm1 Hm2. unfold received_req. rewrite Hp.
  destruct (collect_two n ms1 ms2 r1 r2 (request_ s) [] [] H1 H2 Hm1 Hm2 Hr) as (p' & _ & _ & E).
  rewrite app_nil_r in E. rewrite E, bool_decide_true by done. by exists p'.
Qed.

(** C30: when two requests without bodies are followed by at least one more byte in the same read,
    the loop never ends, whatever the fuel: every round starts again at the beginning of the buffer
    and adds one more request. *)
Theorem pipelined_requests_loop_forever (fuel : nat) (es : nat -> env) (s : session) (w : world H)
    (c : ascii) (ms ms2 : bytes) (r1 r2 : request) (rest : bytes) :
  idle s -> wf_request r1 -> wf_request r2 ->
  http_token (c :: ms) = true -> ms <> [] -> http_token ms2 = true ->
  body_ r1 = [] -> body_ r2 = [] -> rest <> [] ->
  received_req fuel es s w false (wire (c :: ms) r1 ++ wire ms2 r2 ++ rest) = None.
Proof.
  intros [Hp Hr] H1 H2 Hm1 Hne Hm2 Hb1 Hb2 Hrest. unfold received_req. rewrite Hp.
  assert (Hc : c <> LF /\ http_token ms = true).
  { split; [intros ->; by apply http_token_no_LF in Hm1 as Hl; destruct Hl; left|].
    unfold http_token in *. rewrite bool_decide_true by done. cbn [forallb andb] in *.
    by apply andb_true_iff in Hm1 as [_ ?%andb_true_iff]; naive_solver. }
  destruct Hc as [Hc Hms]. destruct fuel as [|n]; [done|].
  destruct (collect_two n (c :: ms) ms2 r1 r2 (request_ s) rest [] H1 H2 Hm1 Hm2 Hr)
    as (p' & Hs & Hbl & E). destruct (Hs Hb2) as [Hst Hk].
  rewrite E, bool_decide_false by done. cbn zeta.
  change (wire (c :: ms) r1) with (c :: wire ms r1). cbn [app].
  rewrite collect_forever; [done|done..|]. by destruct (wire ms2 r2) eqn:Ew.
Qed.

(** C31: a malformed message is dispatched like a good one: after a valid request line, a byte that
    cannot start a header ends the message with the verdict [bad], and the request read so far,
    with its method and URI, goes to the handlers instead of being refused. *)
Theorem bad_request_dispatched (n : nat) (es : nat -> env) (s : session) (w : world H)
    (ms u v : bytes) (c : ascii) :
  idle s -> http_token ms = true -> uri_ok u = true -> version_ok v ->
  not_token_char c = true -> c <> CR ->
  received_req (S n) es s w false (request_line ms u v ++ [c]) = Some (
    '(w', acts) ← dispatch es 0 w (connection_ s) [mkRequest (Some (method_of_str ms)) u v [] []];
    Ok (mkSession request_value_init request_parser_init (connection_ s), w', acts ++ [Read])).
Proof.
  intros [Hp Hr] Hms Hu Hv Hc Hcr. unfold received_req. rewrite Hp. cbn [collect].
  rewrite parse_0, parse_loop_feed.
  rewrite (feed_runs _ _ _ _ _ _ (run_request_line_blank ms u v (request_ s) Hr Hms Hu Hv)).
  cbn [feed]. unfold_consume; unfold reject. cbn [state_ headers_].
  rewrite (bool_decide_false (c = CR)), Hc by done.
  rewrite (bool_decide_false (@nil (bytes * bytes) <> [])) by naive_solver.
  cbn [andb mbind outcome_bind body_length method_str].
  set (data := request_line ms u v ++ [c]).
  replace (0 + zlen data - zlen (@nil ascii))%Z with (zlen data) by (unfold zlen; simpl; lia).
  rewrite Z.add_0_r, Z.leb_refl. cbn [pr_result]. rewrite bool_decide_true by done.
  cbn [pr_begin pr_body_length pr_parser pr_request]. rewrite Z.add_0_r, parse_end.
  cbn [mbind outcome_bind pr_begin pr_body_length pr_parser pr_request reset body_length].
  by rewrite Z.add_0_r, Z.ltb_irrefl.
Qed.

(** C32: a request from a peer that has gone by the time it is dispatched makes [received_req]
    throw, out of the completion handler: the address of the peer is queried with the throwing
    overload to log it. *)
Theorem gone_peer_throws (n : nat) (es : nat -> env) (s : session) (w : world H)
    (ms : bytes) (r : request) :
  idle s -> connection_ s = None -> wf_request r -> http_token ms = true ->
  received_req (S n) es s w false (wire ms r) = Some (Throw system_error).
Proof.
  intros [Hp Hr] Hconn Hwf Hms. destruct (feed_blank_wire ms r _ Hwf Hms Hr) as (p' & E & Hms' & Hb).
  rewrite <- Hp in E. rewrite (received_last n es s w _ _ _ E Hb), Hconn, Hms'.
  by rewrite (dispatch_gone es 0 w _ [] (method_of_str ms)).
Qed.

End properties.

(** ** Witnesses *)

Definition sample_peer : endpoint := Some (§"127.0.0.1", 4000).

Lemma session_new_idle conn : idle (session_new conn).
Proof. done. Qed.

Lemma get_echo_wf : wf_request get_echo.
Proof.
  split; try reflexivity.
  - exists (§"1"), (§"1"). by split_and!.
  - by constructor.
Qed.

Definition sample_env : env := one_file_env [] [].

(** The request cut inside its request line and inside the blank line. *)
Definition sample_cut : list bytes := [§"GE"; §"T /echo/x HTTP/1.1" ++ crlf ++ [CR]].

Lemma fragmented_request_dispatched_once_witness :
  receive_all 1 (fun _ _ => sample_env) 0 (session_new sample_peer) sample_world (sample_cut ++ [[LF]]) =
  Some ('(w', acts) ← dispatch (fun _ => sample_env) 0 sample_world sample_peer [get_echo];
    Ok (mkSession request_value_init request_parser_init sample_peer, w', [Read; Read] ++ acts ++ [Read])).
Proof.
  apply (fragmented_request_dispatched_once 0 (fun _ _ => sample_env) (session_new sample_peer)
    sample_world (§"GET") get_echo sample_cut [LF]).
  - apply session_new_idle.
  - apply get_echo_wf.
  - reflexivity.
  - repeat constructor; discriminate.
  - reflexivity.
Defined.

Lemma pipelined_request_not_dispatched_witness :
  exists p', received_req 1 (fun _ => sample_env) (session_new sample_peer) sample_world false
    (wire (§"GET") get_echo ++ wire (§"POST") sample_request) = Some (
    '(w', acts) ← dispatch (fun _ => sample_env) 0 sample_world sample_peer [get_echo];
    Ok (mkSession sample_request p' sample_peer, w', acts ++ [Read])).
Proof.
  exact (pipelined_request_not_dispatched 0 _ (session_new sample_peer) sample_world (§"GET") (§"POST")
    get_echo sample_request (session_new_idle _) get_echo_wf sample_request_wf eq_refl eq_refl).
Defined.

Lemma pipelined_requests_loop_forever_witness :
  received_req 1000 (fun _ => sample_env) (session_new sample_peer) sample_world false
    (wire (§"GET") get_echo ++ wire (§"GET") get_echo ++ §"G") = None.
Proof.
  apply (pipelined_requests_loop_forever 1000 (fun _ => sample_env) (session_new sample_peer)
    sample_world "G"%char (§"ET") (§"GET") get_echo get_echo (§"G"));
    try reflexivity; try discriminate; apply session_new_idle || apply get_echo_wf.
Defined.

Lemma bad_request_dispatched_witness :
  received_req 1 (fun _ => sample_env) (session_new sample_peer) sample_world false
    (request_line (§"GET") (§"/echo/x") (§"HTTP/1.1") ++ §"@") = Some (
    '(w', acts) ← dispatch (fun _ => sample_env) 0 sample_world sample_peer [get_echo];
    Ok (mkSession request_value_init request_parser_init sample_peer, w', acts ++ [Read])).
Proof.
  apply (bad_request_dispatched 0 _ (session_new sample_peer) sample_world (§"GET") (§"/echo/x")
    (§"HTTP/1.1") "@"%char); try reflexivity; [apply session_new_idle|apply get_echo_wf|discriminate].
Defined.

Lemma gone_peer_throws_witness :
  received_req 1 (fun _ => sample_env) (session_new None) sample_world false (wire (§"GET") get_echo) =
  Some (Throw system_error).
Proof.
  exact (gone_peer_throws 0 _ (session_new None) sample_world (§"GET") get_echo
    (session_new_idle _) eq_refl get_echo_wf eq_refl).
Defined.
