(* ===== verification/Server.v ===== *)
(** * The server: its handlers and its connections

    Models [src/server.cc], the life cycle of [src/connection.cc] and the counter
    of open connections in [include/connection.h].

    The constructor turns the locations of the config into a table of handlers.
    When [main] starts the threads the server is a state machine: the acceptor
    checks the number of connections, opens a connection and waits for a client, or
    waits for a timer when there are too many; connections complete reads, time out
    and are released in any order in between. The check and the increment of the counter are two
    steps, because releases on other threads may come between them. A connection
    is released when no read and no write of it is outstanding, because only their
    callbacks share the session; what it has been asked to write is recorded in its
    outbox. A callback that throws or does not return ends or blocks its thread:
    such a run has no further step. *)

From S2P Require Import Prelude CxxString CxxMap Env ConfigParser RequestParser Response LogHelper Handlers StaticHandler StatusHandler ProxyHandler Session.

(** ** The handlers of the program *)

Inductive request_handler :=
| EchoH (h : echo_request_handler)
| HealthH (h : health_request_handler)
| NotFoundH (h : not_found_request_handler)
| StaticH (h : static_request_handler)
| StatusH (h : status_request_handler)
| ProxyH (h : reverse_proxy_request_handler).

Definition map_handled {A B} (f : A -> B) (x : handled A) : handled B :=
  mkHandled (h_response x) (f (h_handler x)) (h_log x).

(** Virtual dispatch. *)
Definition any_handle_request (e : env) (h : request_handler) (req : request)
    : outcome (handled request_handler) :=
  match h with
  | EchoH h => map_handled EchoH <$> handle_request e h req
  | HealthH h => map_handled HealthH <$> handle_request e h req
  | NotFoundH h => map_handled NotFoundH <$> handle_request e h req
  | StaticH h => map_handled StaticH <$> handle_request e h req
  | StatusH h => map_handled StatusH <$> handle_request e h req
  | ProxyH h => map_handled ProxyH <$> handle_request e h req
  end.

Definition any_get_handler_name (h : request_handler) : bytes :=
  match h with
  | EchoH h => get_handler_name h
  | HealthH h => get_handler_name h
  | NotFoundH h => get_handler_name h
  | StaticH h => get_handler_name h
  | StatusH h => get_handler_name h
  | ProxyH h => get_handler_name h
  end.

#[export] Instance any_handler : RequestHandler request_handler :=
  { handle_request := any_handle_request; get_handler_name := any_get_handler_name }.

#[export] Instance any_laws : HandlerLaws request_handler.
Proof.
  intros e h req x E. cbn in E.
  destruct h as [h|h|h|h|h|h]; cbn [any_handle_request] in E;
    destruct (handle_request e h req) as [y| |] eqn:Ey; try discriminate E;
    apply Ok_inj in E as <-; exact (handle_framed e h req y Ey).
Qed.

(** Only a proxied answer can have headers that are not clean. *)
Lemma any_handled_clean e (h : request_handler) req x :
  (forall p, h <> ProxyH p) -> handle_request e h req = Ok x -> clean (h_response x).
Proof.
  intros Hp E. cbn in E.
  destruct h as [h|h|h|h|h|h]; cbn [any_handle_request] in E;
    destruct (handle_request e h req) as [y| |] eqn:Ey; try discriminate E;
    apply Ok_inj in E as <-; try exact (handle_clean e h req y Ey). by destruct (Hp h).
Qed.

(** ** The table of handlers *)

Definition inject {A B} (f : A -> request_handler) (g : B -> request_handler) (s : A + B) : request_handler :=
  match s with inl a => f a | inr b => g b end.

(** The [init] that goes with a handler name of the config. *)
Definition init_of (name : bytes) : option (bytes -> NginxConfig -> outcome request_handler) :=
  if bool_decide (name = §"EchoHandler") then Some (fun p c => Ok (EchoH (echo_init p c)))
  else if bool_decide (name = §"StaticHandler") then
    Some (fun p c => inject StaticH NotFoundH <$> static_init p c)
  else if bool_decide (name = §"StatusHandler") then Some (fun p c => Ok (StatusH (status_init p c)))
  else if bool_decide (name = §"NotFoundHandler") then Some (fun p c => Ok (NotFoundH (not_found_init p c)))
  else if bool_decide (name = §"ProxyHandler") then
    Some (fun p c => inject ProxyH NotFoundH <$> proxy_init p c)
  else if bool_decide (name = §"HealthHandler") then Some (fun p c => Ok (HealthH (health_init p c)))
  else None.

(** [add_request_handler(init, res)]: [*res.block_config] of a null pointer is
    undefined; a location that is there already is kept. *)
Definition add_request_handler (init : bytes -> NginxConfig -> outcome request_handler)
    (res : location_parse_result) (handlers : std_map request_handler) : outcome (std_map request_handler) :=
  match block_config res with
  | None => UB
  | Some block => sr ← init (uri res) block; Ok (map_insert (uri res) sr handlers)
  end.

(** The loop of the constructor over the locations. *)
Fixpoint add_locations (locs : list location_parse_result) (handlers : std_map request_handler)
    : outcome (std_map request_handler) :=
  match locs with
  | [] => Ok handlers
  | loc :: rest =>
      match init_of (handler_name loc) with
      | Some init => handlers' ← add_request_handler init loc handlers; add_locations rest handlers'
      | None => add_locations rest handlers
      end
  end.

(** ** Connections *)

(** A connection of the server: its session, whether a read of it is
    outstanding and was started on an open socket, how many writes and waits of its
    timer are outstanding, whether its timer has closed the socket, and what it was
    asked to write. *)
Record conn_state := mkConn {
  c_session : session;
  c_reading : bool;
  c_live : bool;
  c_writing : nat;
  c_timers : nat;
  c_closed : bool;
  c_outbox : list (list bytes)
}.

(** [tcp_connection]: a socket is moved in; its peer is not known before the
    accept. *)
Definition conn_new : conn_state := mkConn (session_new None) false false 0 0 false [].

(** [read]: starts a wait of the timer, whose handler is called whether the wait
    expires or is cancelled by the next one, and a read. *)
Definition conn_read (c : conn_state) : conn_state :=
  mkConn (c_session c) true (negb (c_closed c)) (c_writing c) (S (c_timers c)) (c_closed c) (c_outbox c).

(** [write]: starts a write of the buffers. *)
Definition conn_write (bufs : list bytes) (c : conn_state) : conn_state :=
  mkConn (c_session c) (c_reading c) (c_live c) (S (c_writing c)) (c_timers c) (c_closed c) (c_outbox c ++ [bufs]).

(** [timeout(e)]: a cancelled wait does nothing, an expired one closes the socket. *)
Definition timeout (e : bool) (c : conn_state) : conn_state :=
  if e then c else mkConn (c_session c) (c_reading c) (c_live c) (c_writing c) (c_timers c) true (c_outbox c).

(** One wait, or one write, fewer is outstanding. *)
Definition timer_done (c : conn_state) : conn_state :=
  mkConn (c_session c) (c_reading c) (c_live c) (c_writing c) (pred (c_timers c)) (c_closed c) (c_outbox c).

Definition write_done (c : conn_state) : conn_state :=
  mkConn (c_session c) (c_reading c) (c_live c) (pred (c_writing c)) (c_timers c) (c_closed c) (c_outbox c).

(** The operations a session starts, in order. *)
Definition conn_act (c : conn_state) (a : action) : conn_state :=
  match a with Read => conn_read c | Write bufs => conn_write bufs c end.

(** The read that was outstanding has completed and the session has run. *)
Definition conn_acted (s : session) (acts : list action) (c : conn_state) : conn_state :=
  foldl conn_act (mkConn s false false (c_writing c) (c_timers c) (c_closed c) (c_outbox c)) acts.

(** The session as it sees its peer at some moment. *)
Definition with_peer (p : endpoint) (s : session) : session :=
  mkSession (request_ s) (request_parser_ s) p.

(** ** The server *)

(** What the acceptor does next. *)
Inductive phase :=
| Checking              (* about to look at the counter *)
| Opening               (* the counter was low enough *)
| Accepting (id : nat)  (* waiting for a client on this connection *)
| Retrying              (* waiting for the timer *)
| Stopped.              (* after a signal *)

#[export] Instance phase_eq_dec : EqDecision phase.
Proof. solve_decision. Defined.

Record server := mkServer {
  shared : world request_handler;
  cnt_ : Z;
  acceptor_ : phase;
  conns : gmap nat conn_state
}.

Definition max_connections : Z := 100.

Definition log_count (n : Z) : log_record :=
  log_trace_file (§"Number of Connections: " ++ to_string_int n).

(** [start_accept] up to the test of the counter. *)
Definition start_accept_check (s : server) : server :=
  mkServer (add_log [log_count (cnt_ s)] (shared s)) (cnt_ s)
    (if (cnt_ s >? max_connections)%Z then Retrying else Opening) (conns s).

(** The rest of [start_accept]: count, make a connection and a session, accept. *)
Definition start_accept_open (id : nat) (s : server) : server :=
  mkServer (shared s) (cnt_ s + 1) (Accepting id) (<[id := conn_new]> (conns s)).

(** [start_accept] without anything in between, as the constructor runs it. *)
Definition start_accept (id : nat) (s : server) : server :=
  let s1 := start_accept_check s in
  match acceptor_ s1 with Opening => start_accept_open id s1 | _ => s1 end.

(** The constructor, with the records that are in the log before it. *)
Definition server_new (log : list log_record) (config : NginxConfig) : outcome server :=
  location_results ← get_location_result config;
  handlers ← add_locations location_results [];
  record ← log_all_handlers config;
  Ok (start_accept 0 (mkServer (mkWorld handlers ∅ (log ++ [record])) 0 Checking ∅)).

(** What [main] logs before the server is made, and when it has been. *)
Definition start_log : list log_record :=
  [log_trace_file (§"server config parsing begins"); log_trace_file (§"server config parsing successed")].

Definition startup_record : log_record := log_trace_file (§"server startup successed").

(** The server when its threads are started. *)
Definition startup (log : list log_record) (config : NginxConfig) : outcome server :=
  s ← server_new log config;
  Ok (mkServer (add_log [startup_record] (shared s)) (cnt_ s) (acceptor_ s) (conns s)).

(** [handle_accept]: the session starts to read unless there was an error, and
    [start_accept] is called in both cases. *)
Definition handle_accept (id : nat) (c : conn_state) (peer : option endpoint) (s : server) : server :=
  mkServer (shared s) (cnt_ s) Checking
    match peer with
    | Some p =>
        let c' := mkConn (with_peer p (c_session c)) (c_reading c) (c_live c) (c_writing c) (c_timers c)
                    (c_closed c) (c_outbox c) in
        <[id := foldl conn_act c' (start (c_session c'))]> (conns s)
    | None => conns s
    end.

(** [signal_handler]: the acceptor is closed and the service stops. *)
Definition signal_handler (s : server) : server :=
  mkServer (add_log [log_warning_file (§"server is shutting down")] (shared s)) (cnt_ s) Stopped (conns s).

(** [~connection]. *)
Definition release (id : nat) (s : server) : server :=
  mkServer (shared s) (cnt_ s - 1) (acceptor_ s) (delete id (conns s)).

Definition set_conn (id : nat) (c : conn_state) (w : world request_handler) (s : server) : server :=
  mkServer w (cnt_ s) (acceptor_ s) (<[id := c]> (conns s)).

(** ** The steps of the server *)

Inductive label :=
| LCheck                                           (* start_accept: the test of the counter *)
| LOpen (id : nat)                                 (* start_accept: the rest of it *)
| LTimer                                           (* the retry timer calls start_accept *)
| LAccept (peer : option endpoint)                 (* handle_accept, None for an error *)
| LRead (id : nat) (peer : endpoint) (error : bool) (data : bytes)  (* a read completes *)
| LTimeout (id : nat) (e : bool)                   (* the timer of a connection *)
| LSent (id : nat)                                 (* a write completes *)
| LRelease (id : nat)                              (* the last reference to a session goes *)
| LSignal.

(** A read on a socket that the timer has closed fails, unless it was started
    before: then it may have completed already and only wait for its turn. *)
Inductive step (s : server) : label -> server -> Prop :=
| step_check :
    acceptor_ s = Checking -> step s LCheck (start_accept_check s)
| step_open id :
    acceptor_ s = Opening -> conns s !! id = None -> step s (LOpen id) (start_accept_open id s)
| step_timer :
    acceptor_ s = Retrying ->
    step s LTimer (mkServer (shared s) (cnt_ s) Checking (conns s))
| step_accept id c peer :
    acceptor_ s = Accepting id -> conns s !! id = Some c ->
    step s (LAccept peer) (handle_accept id c peer s)
| step_read id c peer error data fuel es s' w' acts :
    acceptor_ s <> Stopped -> conns s !! id = Some c -> c_reading c = true ->
    (c_closed c = true -> c_live c = false -> error = true) -> (zlen data <= max_len)%Z ->
    received_req fuel es (with_peer peer (c_session c)) (shared s) error data = Some (Ok (s', w', acts)) ->
    step s (LRead id peer error data) (set_conn id (conn_acted s' acts c) w' s)
| step_timeout id c e :
    acceptor_ s <> Stopped -> conns s !! id = Some c -> 0 < c_timers c ->
    step s (LTimeout id e) (set_conn id (timeout e (timer_done c)) (shared s) s)
| step_sent id c :
    acceptor_ s <> Stopped -> conns s !! id = Some c -> 0 < c_writing c ->
    step s (LSent id) (set_conn id (write_done c) (completed_request (shared s)) s)
| step_release id c :
    conns s !! id = Some c ->
    (acceptor_ s <> Stopped -> c_reading c = false /\ c_writing c = 0) ->
    acceptor_ s <> Accepting id ->
    step s (LRelease id) (release id s)
| step_signal :
    acceptor_ s <> Stopped -> step s LSignal (signal_handler s).

(** Runs, with their labels. *)
Inductive exec : server -> list label -> server -> Prop :=
| exec_nil s : exec s [] s
| exec_cons s1 l s2 ls s3 : step s1 l s2 -> exec s2 ls s3 -> exec s1 (l :: ls) s3.

Definition reachable (config : NginxConfig) (s : server) : Prop :=
  exists s0 ls, startup start_log config = Ok s0 /\ exec s0 ls s.
