(* ===== verification/ServerInvariant.v ===== *)
(** * Properties of the server

    The handlers it creates, the invariant of all reachable states (the counter
    is the number of connections and bounded, the shared state keeps its invariant,
    only framed responses are written) and the liveness of its acceptor. *)

From S2P Require Import Prelude CxxString CxxMap Env ConfigParser RequestParser Response LogHelper Handlers StaticHandler StatusHandler ProxyHandler Session SessionRouting Server.

(** ** The table of handlers *)

(** The location that decides about a path: the first with that path and a known
    handler name. *)
Fixpoint deciding_location (k : bytes) (locs : list location_parse_result) : option location_parse_result :=
  match locs with
  | [] => None
  | loc :: rest =>
      if bool_decide (uri loc = k) && bool_decide (is_Some (init_of (handler_name loc)))
      then Some loc else deciding_location k rest
  end.

(** The handler a location makes. *)
Definition makes (loc : location_parse_result) (h : request_handler) : Prop :=
  exists init block, init_of (handler_name loc) = Some init /\ block_config loc = Some block /\
    init (uri loc) block = Ok h.

Lemma add_locations_find locs handlers0 handlers k :
  map_wf handlers0 -> add_locations locs handlers0 = Ok handlers ->
  map_wf handlers /\
  match map_find k handlers0, deciding_location k locs with
  | Some h, _ => map_find k handlers = Some h
  | None, Some loc => exists h, makes loc h /\ map_find k handlers = Some h
  | None, None => map_find k handlers = None
  end.
Proof.
  revert handlers0. induction locs as [|loc rest IH]; intros hs0 Hwf E; cbn [add_locations] in E.
  { apply Ok_inj in E as ->. split; [done|]. by destruct (map_find k handlers) eqn:Ek. }
  cbn [deciding_location]. destruct (init_of (handler_name loc)) as [init|] eqn:Ei.
  - apply bind_Ok in E as (hs1 & Ea & E). unfold add_request_handler in Ea.
    destruct (block_config loc) as [block|] eqn:Eb; [|done].
    apply bind_Ok in Ea as (sr & Es & Ea). apply Ok_inj in Ea as <-.
    destruct (IH _ (map_insert_wf _ sr _ Hwf) E) as [Hw Hk]. split; [done|].
    rewrite map_find_insert in Hk by done.
    rewrite (bool_decide_true (is_Some (Some init))) by eauto. rewrite andb_true_r.
    destruct (decide (uri loc = k)) as [<-|Hne].
    + rewrite bool_decide_true in Hk by done. rewrite (bool_decide_true (uri loc = uri loc)) by done.
      destruct (map_find (uri loc) hs0) as [h|]; [done|]. exists sr. split; [by exists init, block|done].
    + rewrite bool_decide_false in Hk by congruence. by rewrite (bool_decide_false (uri loc = k)).
  - rewrite (bool_decide_false (is_Some None)) by (by intros [? ?]). rewrite andb_false_r. by apply IH.
Qed.

Lemma add_locations_keys locs handlers0 handlers (P : bytes -> Prop) :
  Forall P handlers0.*1 -> Forall (fun loc => P (uri loc)) locs ->
  add_locations locs handlers0 = Ok handlers -> Forall P handlers.*1.
Proof.
  intros H0 Hl. revert handlers0 H0. induction Hl as [|loc rest Hloc _ IH]; intros hs0 H0 E; cbn [add_locations] in E.
  { apply Ok_inj in E as <-. exact H0. }
  destruct (init_of (handler_name loc)) as [init|]; [|exact (IH _ H0 E)].
  apply bind_Ok in E as (hs1 & Ea & E). unfold add_request_handler in Ea.
  destruct (block_config loc) as [block|]; [|done].
  apply bind_Ok in Ea as (sr & _ & Ea). apply Ok_inj in Ea as <-. refine (IH _ _ E).
  rewrite Forall_fmap in H0 |- *. by apply map_insert_Forall.
Qed.

(** ** What sessions write *)

(** Buffers that are a framed response on the wire. *)
Definition framed_write (bufs : list bytes) : Prop :=
  exists res b', framed res /\ build (set_response res response_builder_default) = Ok (bufs, b').

Definition framed_action (a : action) : Prop :=
  match a with Write bufs => framed_write bufs | Read => True end.

Lemma framed_write_build b bufs b' :
  framed (response_ b) -> build b = Ok (bufs, b') -> framed_write bufs.
Proof.
  intros Hf E. exists (response_ b). unfold build in *. cbn. destruct (code_ (response_ b)); [|done].
  apply Ok_pair in E as [<- _]. by eexists.
Qed.

Section writes.
Context {H : Type} `{HandlerLaws H}.

Lemma add_log_world_ok (w : world H) records : world_ok w -> world_ok (add_log records w).
Proof. intros [? ? ?]. by split. Qed.

Lemma dispatch_ok es i (w : world H) conn requests w' acts :
  world_ok w -> dispatch es i w conn requests = Ok (w', acts) ->
  world_ok w' /\ Forall framed_action acts.
Proof.
  revert i w acts. induction requests as [|r rest IH]; intros i w acts Hw E; cbn [dispatch] in E.
  { by apply Ok_pair in E as [<- <-]. }
  apply bind_Ok in E as (record & _ & E). apply bind_Ok in E as ([w1 a] & Et & E).
  apply bind_Ok in E as ([w2 acts2] & Ed & E). apply Ok_pair in E as [<- <-].
  unfold thread_work in Et. apply bind_Ok in Et as ([b w1'] & Ep & Et).
  apply bind_Ok in Et as ([bufs b'] & Eb & Et). apply Ok_pair in Et as [<- <-].
  destruct (process_req_ok _ _ _ _ _ _ (add_log_world_ok _ [record] Hw) Ep) as [Hf Hw1].
  destruct (IH _ _ _ Hw1 Ed) as [Hw2 Hacts]. split; [done|].
  constructor; [|done]. by eapply framed_write_build.
Qed.

Lemma received_req_ok fuel es s (w : world H) error data s' w' acts :
  world_ok w -> received_req fuel es s w error data = Some (Ok (s', w', acts)) ->
  world_ok w' /\ Forall framed_action acts.
Proof.
  intros Hw E. unfold received_req in E. destruct error.
  { injection E as <- <- <-. done. }
  destruct (collect _ _ _ _ _) as [o|]; [|done]. injection E as E.
  apply bind_Ok in E as ([[requests p] r] & _ & E). apply bind_Ok in E as ([w1 acts1] & Ed & E).
  injection E as <- <- <-. destruct (dispatch_ok _ _ _ _ _ _ _ Hw Ed) as [? ?].
  split; [done|]. apply Forall_app. split; [done|]. by repeat constructor.
Qed.

End writes.

(** ** The invariant *)

Definition outbox_ok (c : conn_state) : Prop := Forall framed_write (c_outbox c).

(** The count a phase allows. *)
Definition limit (ph : phase) : Z :=
  match ph with Opening => max_connections | _ => max_connections + 1 end.

Record server_ok (s : server) : Prop := {
  ok_world : world_ok (shared s);
  ok_count : cnt_ s = Z.of_nat (size (conns s));
  ok_limit : (cnt_ s <= limit (acceptor_ s))%Z;
  ok_accepting : forall id, acceptor_ s = Accepting id -> is_Some (conns s !! id);
  ok_outbox : map_Forall (fun _ c => outbox_ok c) (conns s)
}.

Lemma conn_act_outbox acts c :
  outbox_ok c -> Forall framed_action acts -> outbox_ok (foldl conn_act c acts).
Proof.
  intros Hc Ha. revert c Hc. induction Ha as [|a acts Ha _ IH]; intros c Hc; [done|].
  cbn [foldl]. apply IH. destruct a; [done|]. apply Forall_app. split; [done|]. by repeat constructor.
Qed.

Lemma size_set_conn (m : gmap nat conn_state) id c c' :
  m !! id = Some c -> size (<[id := c']> m) = size m.
Proof. intros E. by apply map_size_insert_Some; rewrite E. Qed.

Lemma release_size (m : gmap nat conn_state) id c :
  m !! id = Some c -> Z.of_nat (size (delete id m)) = (Z.of_nat (size m) - 1)%Z.
Proof.
  intros E. rewrite map_size_delete_Some by (by rewrite E).
  assert (size m <> 0); [|lia]. intros H0%map_size_empty_inv. by rewrite H0 in E.
Qed.

Lemma limit_le ph : (limit ph <= max_connections + 1)%Z.
Proof. unfold limit. destruct ph; lia. Qed.

Lemma set_conn_ok s id c c' w :
  server_ok s -> conns s !! id = Some c -> world_ok w -> outbox_ok c' -> server_ok (set_conn id c' w s).
Proof.
  intros [Hw Hc Hl Ha Ho] Ec Hw' Hc'. split; cbn.
  - done.
  - by rewrite (size_set_conn _ _ c).
  - done.
  - intros id' Eid. apply lookup_insert_is_Some'. right. by apply Ha.
  - by apply map_Forall_insert_2.
Qed.

Lemma step_ok s l s' : server_ok s -> step s l s' -> server_ok s'.
Proof.
  intros Hok Hs. pose proof Hok as [Hw Hc Hl Ha Ho]. pose proof (limit_le (acceptor_ s)) as Hlim.
  destruct Hs as [Hp|id Hp Hid|Hp|id c peer Hp Ec|id c peer error data fuel es s' w' acts Hp Ec Hr Hcl Hlen E
    |id c e Hp Ec Hr|id c Hp Ec Hr|id c Ec Hr Hp|Hp].
  - split; cbn; [by apply add_log_world_ok|done| | |done].
    + destruct (Z.gtb_spec (cnt_ s) max_connections); cbn; lia.
    + intros id. by destruct (_ >? _)%Z.
  - rewrite Hp in Hl. split; cbn; [done| |cbn in Hl; lia| |].
    + rewrite map_size_insert_None by done. lia.
    + intros id' [= <-]. rewrite lookup_insert_eq. eauto.
    + apply map_Forall_insert_2; [by constructor|done].
  - split; cbn; [done|done|lia|done|done].
  - assert (Hsz : size (conns (handle_accept id c peer s)) = size (conns s))
      by (destruct peer; cbn; [by rewrite (size_set_conn _ _ c)|done]).
    split; cbn in *; [done|by rewrite Hsz|lia|done|].
    destruct peer; [|done]. apply map_Forall_insert_2; [|done]. apply (conn_act_outbox [Read]); [|by repeat constructor].
    exact (Ho _ _ Ec).
  - destruct (received_req_ok _ _ _ _ _ _ _ _ _ Hw E) as [Hw' Hacts].
    apply (set_conn_ok _ _ c); [done..|]. apply conn_act_outbox; [exact (Ho _ _ Ec)|done].
  - apply (set_conn_ok _ _ c); [done..|]. pose proof (Ho _ _ Ec) as Hoc. by destruct e.
  - apply (set_conn_ok _ _ c); [done|done|by apply add_log_world_ok|exact (Ho _ _ Ec)].
  - split; cbn; [done|rewrite (release_size _ _ c) by done; lia|lia| |].
    + intros id' E'. rewrite lookup_delete_ne by congruence. by apply Ha.
    + by apply map_Forall_delete.
  - split; cbn; [by apply add_log_world_ok|done|lia|done|done].
Qed.

Lemma exec_ok s ls s' : server_ok s -> exec s ls s' -> server_ok s'.
Proof. intros Hs He. induction He; eauto using step_ok. Qed.

(** The locations of a config have usable paths. *)
Definition locations_ok (config : NginxConfig) : Prop :=
  forall locs, get_location_result config = Ok locs -> Forall (fun loc => key_ok (uri loc)) locs.

Lemma server_new_inv log config s :
  server_new log config = Ok s ->
  exists locs hs record, get_location_result config = Ok locs /\ add_locations locs [] = Ok hs /\
    log_all_handlers config = Ok record /\
    s = mkServer (mkWorld hs ∅ (log ++ [record; log_count 0])) 1 (Accepting 0) {[0 := conn_new]}.
Proof.
  intros E. unfold server_new in E. apply bind_Ok in E as (locs & El & E).
  apply bind_Ok in E as (hs & Eh & E). apply bind_Ok in E as (record & Er & E). apply Ok_inj in E as <-.
  exists locs, hs, record. split_and!; [done..|]. unfold start_accept, start_accept_check, add_log. cbn.
  by rewrite <- (assoc_L (++)).
Qed.

Lemma startup_inv log config s :
  startup log config = Ok s ->
  exists locs hs record, get_location_result config = Ok locs /\ add_locations locs [] = Ok hs /\
    log_all_handlers config = Ok record /\
    s = mkServer (mkWorld hs ∅ (log ++ [record; log_count 0; startup_record])) 1 (Accepting 0) {[0 := conn_new]}.
Proof.
  intros E. apply bind_Ok in E as (s1 & E & Es). apply Ok_inj in Es as <-.
  apply server_new_inv in E as (locs & hs & record & El & Eh & Er & ->).
  exists locs, hs, record. split_and!; [done..|]. unfold add_log. cbn. by rewrite <- (assoc_L (++)).
Qed.

Lemma startup_ok log config s :
  locations_ok config -> startup log config = Ok s -> server_ok s.
Proof.
  intros Hl (locs & hs & record & El & Eh & _ & ->)%startup_inv.
  split; cbn; [|done|unfold max_connections; lia| |].
  - split; cbn; [|refine (add_locations_keys locs [] hs key_ok _ (Hl _ El) Eh); constructor|apply map_Forall_empty].
    by destruct (add_locations_find locs [] hs [] map_wf_nil Eh).
  - intros id [= <-]. rewrite lookup_singleton_eq. eauto.
  - apply map_Forall_singleton. constructor.
Qed.

Lemma reachable_ok config s : locations_ok config -> reachable config s -> server_ok s.
Proof. intros Hl (s0 & ls & E & He). by eapply exec_ok; [eapply startup_ok|]. Qed.

(** ** Liveness of the acceptor *)

Definition acceptor_move (l : label) : bool :=
  match l with LCheck | LOpen _ | LTimer => true | _ => false end.

Definition is_accept (l : label) : bool := match l with LAccept _ => true | _ => false end.

Definition count_labels (f : label -> bool) (ls : list label) : nat := length (List.filter f ls).

(** Moves of the acceptor left until it waits for a client, with room. *)
Definition moves_left (ph : phase) : nat :=
  match ph with Retrying => 3 | Checking => 2 | Opening => 1 | Accepting _ | Stopped => 0 end.

(** Runs in which there is room whenever the acceptor checks. *)
Inductive exec_room : server -> list label -> server -> Prop :=
| room_nil s : exec_room s [] s
| room_cons s1 l s2 ls s3 :
    step s1 l s2 -> (l = LCheck -> cnt_ s1 <= max_connections)%Z -> exec_room s2 ls s3 ->
    exec_room s1 (l :: ls) s3.

Lemma phase_step s l s' :
  step s l s' -> l <> LSignal -> (l = LCheck -> cnt_ s <= max_connections)%Z ->
  (if acceptor_move l then 1 else 0) + moves_left (acceptor_ s') =
    moves_left (acceptor_ s) + (if is_accept l then 2 else 0).
Proof.
  intros Hs Hl Hroom.
  destruct Hs as [Hp|id Hp Hid|Hp|id c peer Hp Ec|? ? ? ? ? ? ? ? ? ? ? ? ? ? ? ?|? ? ? ? ? ?|? ? ? ? ?|? ? ? ? ?|Hp];
    cbn; try rewrite Hp; try done; try lia.
  specialize (Hroom eq_refl). by destruct (Z.gtb_spec (cnt_ s) max_connections); [lia|].
Qed.

Lemma count_cons f l ls :
  count_labels f (l :: ls) = (if f l then 1 else 0) + count_labels f ls.
Proof. unfold count_labels. cbn. by destruct (f l). Qed.

Lemma phase_exec s ls s' :
  exec_room s ls s' -> LSignal ∉ ls ->
  count_labels acceptor_move ls + moves_left (acceptor_ s') =
    moves_left (acceptor_ s) + 2 * count_labels is_accept ls.
Proof.
  induction 1 as [s|s1 l s2 ls s3 Hs Hroom _ IH]; intros Hsig; [cbn; lia|].
  apply not_elem_of_cons in Hsig as [Hl Hsig]. specialize (IH Hsig).
  pose proof (phase_step _ _ _ Hs (not_eq_sym Hl) Hroom) as Hp. rewrite !count_cons.
  destruct (acceptor_move l), (is_accept l); lia.
Qed.

(** The acceptor can always move, unless it waits for a client or is stopped. *)
Lemma acceptor_enabled s :
  acceptor_ s <> Stopped -> (forall id, acceptor_ s <> Accepting id) ->
  exists l s', acceptor_move l = true /\ step s l s'.
Proof.
  intros Hst Hw. destruct (acceptor_ s) as [| |id| |] eqn:E.
  - exists LCheck. eexists. split; [done|]. by constructor.
  - exists (LOpen (fresh (dom (conns s)))). eexists. split; [done|]. constructor; [done|].
    apply not_elem_of_dom, is_fresh.
  - by destruct (Hw id).
  - exists LTimer. eexists. split; [done|]. by constructor.
  - done.
Qed.

(** What a completed accept does. *)
Lemma accept_step s id peer s' :
  acceptor_ s = Accepting id -> step s (LAccept peer) s' ->
  acceptor_ s' = Checking /\
  forall p, peer = Some p -> exists c, conns s' !! id = Some c /\ c_reading c = true /\
    connection_ (c_session c) = p.
Proof.
  intros Ha Hs. inversion Hs as [| | |id' c ? Ha' Ec| | | | |]; subst. split; [done|].
  intros p ->. assert (id' = id) as -> by congruence. cbn. rewrite lookup_insert_eq. by eexists.
Qed.

(** ** Properties *)

(** C4: in every state the server can reach, whatever the order in which clients connect, send,
    time out and leave: the counter is the number of open connections and never above 101, the
    handlers, their keys and the cache are in order, and everything that was ever written to a
    connection is a framed response. *)
Theorem reachable_server_ok (config : NginxConfig) (s : server) :
  locations_ok config -> reachable config s ->
  (0 <= cnt_ s <= max_connections + 1)%Z /\ cnt_ s = Z.of_nat (size (conns s)) /\ world_ok (shared s) /\
  map_Forall (fun _ c => Forall framed_write (c_outbox c)) (conns s).
Proof.
  intros Hl Hr. destruct (reachable_ok _ _ Hl Hr) as [Hw Hc Hm Ha Ho].
  pose proof (limit_le (acceptor_ s)). split_and!; [lia|lia|done|done|done].
Qed.

(** C12: the server goes on accepting. The acceptor is never stuck: when it waits for a client, a
    client (or an error) can be accepted, and otherwise it can move (timer, test, open). Every accept
    brings it back to the test, with the session of the client reading, and as long as there is room
    it waits for the next client after exactly two more moves of its own, whatever the connections
    do in between: over any run without a signal its moves, with those left until it waits again,
    are those left at the start and two for each accept. *)
Theorem server_keeps_accepting (config : NginxConfig) (s : server) :
  locations_ok config -> reachable config s -> acceptor_ s <> Stopped ->
  match acceptor_ s with
  | Accepting id => forall peer,
      (exists s', step s (LAccept peer) s') /\
      forall s', step s (LAccept peer) s' ->
        acceptor_ s' = Checking /\
        forall p, peer = Some p -> exists c, conns s' !! id = Some c /\ c_reading c = true /\
          connection_ (c_session c) = p
  | _ => exists l s', acceptor_move l = true /\ step s l s'
  end /\
  forall ls s', exec_room s ls s' -> LSignal ∉ ls ->
    count_labels acceptor_move ls + moves_left (acceptor_ s') =
      moves_left (acceptor_ s) + 2 * count_labels is_accept ls.
Proof.
  intros Hl Hr Hst. split; [|intros; by apply phase_exec].
  pose proof (acceptor_enabled s Hst) as He. pose proof (ok_accepting _ (reachable_ok _ _ Hl Hr)) as Ha.
  destruct (acceptor_ s) as [| |id| |] eqn:E; try (by apply He). intros peer. split.
  - destruct (Ha id eq_refl) as [c Ec]. eexists. by apply (step_accept _ id c).
  - intros s'. by apply accept_step.
Qed.

(** The table of handlers the server starts with: a path has a handler exactly when some location
    with that path names a known handler, and then it is the handler made by the first of them, from
    its own block. *)
Lemma startup_handlers (log : list log_record) (config : NginxConfig) (s : server) (locs : list location_parse_result) (k : bytes) :
  startup log config = Ok s -> get_location_result config = Ok locs ->
  match deciding_location k locs with
  | Some loc => exists h, makes loc h /\ map_find k (location_handlers_ (shared s)) = Some h
  | None => map_find k (location_handlers_ (shared s)) = None
  end.
Proof.
  intros E El. apply startup_inv in E as (locs' & hs & record & El' & Eh & _ & ->).
  rewrite El in El'. apply Ok_inj in El' as <-.
  by destruct (add_locations_find locs [] hs k map_wf_nil Eh) as [_ Hk].
Qed.

(** C38: a location that names a known handler but ends in a semicolon instead of a block makes the
    constructor of the server dereference a null pointer, although the config parser accepts it. *)
Theorem location_without_block (log : list log_record) (config : NginxConfig) (pre post : list location_parse_result)
    (loc : location_parse_result) (handlers : std_map request_handler) :
  get_location_result config = Ok (pre ++ loc :: post) -> add_locations pre [] = Ok handlers ->
  is_Some (init_of (handler_name loc)) -> block_config loc = None ->
  server_new log config = UB.
Proof.
  intros El Ep [init Ei] Eb. unfold server_new. rewrite El. cbn [mbind outcome_bind].
  assert (E : add_locations (pre ++ loc :: post) [] = UB); [|by rewrite E].
  clear El. revert Ep. generalize (@nil (bytes * request_handler)) as hs0.
  induction pre as [|l pre IH]; intros hs0 Ep; cbn [app add_locations] in *.
  - rewrite Ei. unfold add_request_handler. by rewrite Eb.
  - destruct (init_of (handler_name l)); [|by apply IH].
    apply bind_Ok in Ep as (hs1 & -> & Ep). cbn [mbind outcome_bind]. by apply IH.
Qed.

(** ** Witnesses *)

(** location "/echo/" EchoHandler { } *)
Definition sample_config : NginxConfig :=
  [Statement [§"location"; dquote :: §"/echo/" ++ [dquote]; §"EchoHandler"] (Some [])].

Lemma sample_config_locations_ok : locations_ok sample_config.
Proof.
  intros locs E. cbn in E. injection E as <-. repeat constructor; cbn; discriminate.
Qed.

(** The server of the config, which waits for its first client. *)
Definition sample_server : server :=
  mkServer (mkWorld [(§"/echo/", EchoH mkEcho)] ∅
    (start_log ++ [mkLog trace (§"all handlers: EchoHandler /echo/ "); log_count 0; startup_record]))
    1 (Accepting 0) {[0 := conn_new]}.

Lemma sample_startup : startup start_log sample_config = Ok sample_server.
Proof. reflexivity. Qed.

Lemma sample_server_reachable : reachable sample_config sample_server.
Proof. exists sample_server, []. split; [apply sample_startup|constructor]. Qed.

Lemma reachable_server_ok_witness :
  reachable sample_config sample_server /\ (0 <= cnt_ sample_server <= max_connections + 1)%Z /\
  world_ok (shared sample_server).
Proof.
  split; [exact sample_server_reachable|].
  destruct (reachable_server_ok sample_config sample_server sample_config_locations_ok sample_server_reachable)
    as (H1 & _ & H2 & _).
  split; [exact H1|exact H2].
Defined.

(** A client, the next check and the next connection. *)
Lemma sample_round :
  exists s', exec_room sample_server [LAccept None; LCheck; LOpen 1] s'.
Proof.
  eexists. econstructor; [by apply (step_accept _ 0 conn_new)|done|].
  econstructor; [by constructor|done|]. econstructor; [by apply (step_open _ 1)|done|]. constructor.
Qed.

Lemma server_keeps_accepting_witness :
  (exists s', step sample_server (LAccept None) s') /\
  exists s', exec_room sample_server [LAccept None; LCheck; LOpen 1] s' /\ moves_left (acceptor_ s') = 0.
Proof.
  destruct (server_keeps_accepting sample_config sample_server sample_config_locations_ok
    sample_server_reachable) as [H1 H2]; [discriminate|].
  split; [exact (proj1 (H1 None))|]. destruct sample_round as [s' Hs]. exists s'. split; [exact Hs|].
  assert (E : count_labels acceptor_move [LAccept None; LCheck; LOpen 1] + moves_left (acceptor_ s') = 0 + 2 * 1)
    by (apply (H2 _ _ Hs); set_solver).
  cbn in E. lia.
Defined.

Lemma location_without_block_witness :
  server_new start_log [Statement [§"location"; dquote :: §"/echo/" ++ [dquote]; §"EchoHandler"] None] = UB.
Proof.
  apply (location_without_block start_log _ [] []
    {| uri := §"/echo/"; handler_name := §"EchoHandler"; block_config := None |} []);
    [reflexivity|reflexivity|eexists; reflexivity|reflexivity].
Defined.
