(* ===== verification/ServerRuns.v ===== *)
(** * Runs of the server

    What holds along every run, whatever the order of its steps: a rule that lifts
    a property of the shared state from the answering of one request to all
    reachable states, the handlers behind the locations, and the answer to a request
    whose reads are interleaved with the work of other connections. *)

From S2P Require Import Prelude CxxString CxxMap Env ConfigParser RequestParser RequestRoundTrip Response LogHelper Handlers StaticHandler StatusHandler ProxyHandler Session SessionRouting SessionReading Server ServerInvariant.

(** ** A rule for the shared state *)

(** Records other than those of [log_metrics] and [log_all_handlers]. *)
Definition plain (r : log_record) : Prop :=
  starts_with (§"ResponseMetrics") (message r) = false /\
  starts_with (§"all handlers:") (message r) = false.

Lemma log_request_info_plain req conn r : log_request_info req conn = Ok r -> plain r.
Proof.
  unfold log_request_info. intros E. apply bind_Ok in E as (m & _ & E).
  destruct conn as [[ip port]|]; [|done]. by apply Ok_inj in E as <-.
Qed.

Section rule.
Context {H : Type} `{HandlerLaws H} (P : world H -> Prop).
Hypothesis P_log : forall w r, P w -> plain r -> P (add_log [r] w).
Hypothesis P_answer : forall e w conn req k h x record,
  P w -> world_ok w -> cached w (uri_ req) = None -> map_find k (location_handlers_ w) = Some h ->
  handle_request e h req = Ok x ->
  log_metrics req (h_response x) conn (get_handler_name (h_handler x)) = Ok record ->
  P (answered_world w k (uri_ req) x record).

Lemma process_req_rule e w conn req b w' :
  P w -> world_ok w -> process_req e w conn req = Ok (b, w') -> P w'.
Proof.
  intros HP Hw E. destruct (process_req_cases _ _ _ _ _ Hw E)
    as [(res & _ & [= _ ->])|[(_ & [= _ ->])|(k & h & x & record & Hc & Hf & Ex & El & [= _ ->])]];
    [done|done|]. by eapply P_answer.
Qed.

Lemma dispatch_rule es i w conn requests w' acts :
  P w -> world_ok w -> dispatch es i w conn requests = Ok (w', acts) -> P w'.
Proof.
  revert i w acts. induction requests as [|r rest IH]; intros i w acts HP Hw E; cbn [dispatch] in E.
  { by apply Ok_pair in E as [<- _]. }
  apply bind_Ok in E as (record & Er & E). apply bind_Ok in E as ([w1 a] & Et & E).
  apply bind_Ok in E as ([w2 acts2] & Ed & E). apply Ok_pair in E as [<- _].
  unfold thread_work in Et. apply bind_Ok in Et as ([b w1'] & Ep & Et).
  apply bind_Ok in Et as ([bufs b'] & _ & Et). apply Ok_pair in Et as [<- _].
  pose proof (add_log_world_ok w [record] Hw) as Hw1.
  refine (IH _ _ _ _ _ Ed); [|by eapply process_req_ok].
  refine (process_req_rule _ _ _ _ _ _ _ Hw1 Ep). eauto using log_request_info_plain.
Qed.

Lemma received_req_rule fuel es s w error data s' w' acts :
  P w -> world_ok w -> received_req fuel es s w error data = Some (Ok (s', w', acts)) -> P w'.
Proof.
  intros HP Hw E. unfold received_req in E. destruct error; [by injection E as _ <- _|].
  destruct (collect _ _ _ _ _) as [o|]; [|done]. injection E as E.
  apply bind_Ok in E as ([[requests p] r] & _ & E). apply bind_Ok in E as ([w1 acts1] & Ed & E).
  injection E as _ <- _. by eapply dispatch_rule.
Qed.

End rule.

Section server_rule.
Context (P : world request_handler -> Prop).
Hypothesis P_log : forall w r, P w -> plain r -> P (add_log [r] w).
Hypothesis P_answer : forall e w conn req k h x record,
  P w -> world_ok w -> cached w (uri_ req) = None -> map_find k (location_handlers_ w) = Some h ->
  handle_request e h req = Ok x ->
  log_metrics req (h_response x) conn (get_handler_name (h_handler x)) = Ok record ->
  P (answered_world w k (uri_ req) x record).

Lemma step_rule s l s' : server_ok s -> step s l s' -> P (shared s) -> P (shared s').
Proof.
  intros Hok Hs HP. destruct Hs; cbn; try done; try (by apply P_log).
  eapply received_req_rule; [done|done|done|apply Hok|done].
Qed.

Lemma exec_rule s ls s' : server_ok s -> exec s ls s' -> P (shared s) -> P (shared s').
Proof. intros Hok He. induction He; eauto using step_rule, step_ok. Qed.

Lemma reachable_rule config s :
  locations_ok config -> (forall s0, startup start_log config = Ok s0 -> P (shared s0)) ->
  reachable config s -> P (shared s).
Proof.
  intros Hl H0 (s0 & ls & E & He). eapply exec_rule; [by eapply startup_ok|done|by apply H0].
Qed.

End server_rule.

(** ** The handlers behind the locations *)

(** The same handler up to what the status handler has gathered. *)
Definition same_handler (h h' : request_handler) : Prop :=
  match h, h' with StatusH _, StatusH _ => True | _, _ => h = h' end.

Lemma same_handler_refl h : same_handler h h.
Proof. by destruct h. Qed.

Lemma same_handler_trans h1 h2 h3 : same_handler h1 h2 -> same_handler h2 h3 -> same_handler h1 h3.
Proof. destruct h1, h2, h3; cbn; congruence || done. Qed.

Lemma handle_request_same e (h : request_handler) req x :
  handle_request e h req = Ok x -> same_handler h (h_handler x).
Proof.
  intros E. cbn in E.
  destruct h as [h|h|h|h|h|h]; cbn [any_handle_request] in E;
    destruct (handle_request e h req) as [y| |] eqn:Ey; try discriminate E;
    apply Ok_inj in E as <-; cbn in *; try done; f_equal.
  - unfold echo_handle_request in Ey. apply bind_Ok in Ey as (? & _ & Ey). by apply Ok_inj in Ey as <-.
  - unfold health_handle_request in Ey. apply bind_Ok in Ey as (? & _ & Ey). by apply Ok_inj in Ey as <-.
  - unfold not_found_handle_request in Ey. by apply Ok_inj in Ey as <-.
  - by apply static_handle_cases in Ey as [->|(? & ? & ? & _ & _ & _ & ->)].
  - unfold proxy_handle_request in Ey. case_match.
    + by apply bind_Ok in Ey as ([? ?] & _ & [= <-]).
    + apply bind_Ok in Ey as (? & _ & Ey). case_match; [|by apply Ok_inj in Ey as <-].
      apply bind_Ok in Ey as (? & _ & Ey). apply bind_Ok in Ey as (? & _ & Ey).
      by apply bind_Ok in Ey as ([? ?] & _ & [= <-]).
Qed.

(** Two tables with the same keys and handlers. *)
Definition same_table (t t' : std_map request_handler) : Prop :=
  forall k, option_Forall2 same_handler (map_find k t) (map_find k t').

Lemma table_rule t e (w : world request_handler) conn req k h x record :
  same_table t (location_handlers_ w) -> world_ok w -> cached w (uri_ req) = None ->
  map_find k (location_handlers_ w) = Some h -> handle_request e h req = Ok x ->
  log_metrics req (h_response x) conn (get_handler_name (h_handler x)) = Ok record ->
  same_table t (location_handlers_ (answered_world w k (uri_ req) x record)).
Proof.
  intros Ht [Hwf _ _] _ Hf Ex _ k'. cbn [answered_world location_handlers_].
  rewrite map_find_assign by done. specialize (Ht k').
  case_bool_decide as Hk; [subst|done]. rewrite Hf in Ht. inversion Ht as [h0 ? Hs|]; subst.
  constructor. eauto using same_handler_trans, handle_request_same.
Qed.

(** What the config promises about the handler of a location: its kind is the one
    that is named, made with the settings of the block; only a static location
    without a root and a proxy location without a destination fall back to the
    not-found handler. *)
Definition handler_for (loc : location_parse_result) (h : request_handler) : Prop :=
  exists block, block_config loc = Some block /\
  match h with
  | EchoH _ => handler_name loc = §"EchoHandler"
  | HealthH _ => handler_name loc = §"HealthHandler"
  | StatusH _ => handler_name loc = §"StatusHandler"
  | StaticH h =>
      handler_name loc = §"StaticHandler" /\ prefix_ h = with_slash (uri loc) /\
      static_ctor block (uri loc) = Ok h /\
      exists root, get_value_from_statement (§"root") block = Ok root /\ root <> []
  | ProxyH h =>
      handler_name loc = §"ProxyHandler" /\ proxy_prefix_ h = with_slash (uri loc) /\
      proxy_ctor block (uri loc) = Ok h /\
      exists dest, get_value_from_statement (§"dest") block = Ok dest /\ dest <> []
  | NotFoundH _ =>
      handler_name loc = §"NotFoundHandler" \/
      handler_name loc = §"StaticHandler" /\ get_value_from_statement (§"root") block = Ok [] \/
      handler_name loc = §"ProxyHandler" /\ get_value_from_statement (§"dest") block = Ok []
  end.

Lemma static_init_for p c s :
  key_ok p -> static_init p c = Ok s ->
  exists root, get_value_from_statement (§"root") c = Ok root /\
  match s with
  | inl h => root <> [] /\ static_ctor c p = Ok h /\ prefix_ h = with_slash p
  | inr _ => root = []
  end.
Proof.
  intros [Hn Hl] E. unfold static_init in E. apply bind_Ok in E as (root & Er & E). exists root. split; [done|].
  case_bool_decide as Hr; [|apply Ok_inj in E as <-; by destruct root].
  apply fmap_Ok in E as (h' & E & ->). split_and!; [done|done|]. unfold static_ctor in E.
  apply bind_Ok in E as (rv & _ & E). apply bind_Ok in E as (ru & _ & E). apply bind_Ok in E as (ro & _ & E).
  apply bind_Ok in E as (pr & Ep & E). apply Ok_inj in E as <-.
  rewrite ensure_slash_nonempty in Ep by done. by apply Ok_inj in Ep as <-.
Qed.

Lemma proxy_init_for p c s :
  key_ok p -> proxy_init p c = Ok s ->
  exists dest, get_value_from_statement (§"dest") c = Ok dest /\
  match s with
  | inl h => dest <> [] /\ proxy_ctor c p = Ok h /\ proxy_prefix_ h = with_slash p
  | inr _ => dest = []
  end.
Proof.
  intros [Hn Hl] E. unfold proxy_init in E. apply bind_Ok in E as (dest & Ed & E). exists dest. split; [done|].
  rewrite (bool_decide_true (p <> [])), andb_true_r in E by done.
  case_bool_decide as Hd; [|apply Ok_inj in E as <-; by destruct dest].
  apply fmap_Ok in E as (h' & E & ->). split_and!; [done|done|]. unfold proxy_ctor in E.
  apply bind_Ok in E as (pr & Ep & E). do 4 (apply bind_Ok in E as (? & _ & E)).
  apply bind_Ok in E as (loc & _ & E). apply Ok_inj in E as <-.
  rewrite ensure_slash_nonempty in Ep by done. by apply Ok_inj in Ep as <-.
Qed.

Lemma makes_for loc h : key_ok (uri loc) -> makes loc h -> handler_for loc h.
Proof.
  intros Hk (init & block & Ei & Eb & E). exists block. split; [done|]. unfold init_of in Ei.
  repeat match type of Ei with context [bool_decide ?Q] =>
    destruct (bool_decide_reflect Q) as [Hname|_]; [apply (inj Some) in Ei; subst init|] end; try done.
  - apply Ok_inj in E as <-. done.
  - apply fmap_Ok in E as (s & E & ->). destruct (static_init_for _ _ _ Hk E) as (root & Er & Hs).
    destruct s as [sh|nf]; cbn; naive_solver.
  - apply Ok_inj in E as <-. done.
  - apply Ok_inj in E as <-. by left.
  - apply fmap_Ok in E as (s & E & ->). destruct (proxy_init_for _ _ _ Hk E) as (dest & Ed & Hs).
    destruct s as [ph|nf]; cbn; naive_solver.
  - apply Ok_inj in E as <-. done.
Qed.

Lemma handler_for_same loc h h' : same_handler h h' -> handler_for loc h -> handler_for loc h'.
Proof.
  intros Hs (block & Eb & Hh). exists block. split; [done|].
  destruct h, h'; cbn in *; congruence || done || (injection Hs as ->; done).
Qed.

Lemma deciding_location_In k locs loc : deciding_location k locs = Some loc -> loc ∈ locs /\ uri loc = k.
Proof.
  induction locs as [|l locs IH]; [done|]. cbn [deciding_location].
  destruct (bool_decide (uri l = k)) eqn:Eu; cbn [andb]; [|intros [? ?]%IH; set_solver].
  destruct (bool_decide (is_Some _)); [|intros [? ?]%IH; set_solver].
  intros [= ->]. apply bool_decide_eq_true in Eu. set_solver.
Qed.

(** ** Properties *)

(** C9: the locations of the config are served by their own handlers for ever: in every state the
    server can reach, a path has a handler exactly when a location of the config with that path
    names a known one, and then it is the handler the first such location names, made with the
    settings of its block and its path as prefix; only a static location without a root and a proxy
    location without a destination have the not-found handler instead. Answering requests never
    mixes or replaces handlers. *)
Theorem reachable_handlers (config : NginxConfig) (s : server) (locs : list location_parse_result) (k : bytes) :
  locations_ok config -> reachable config s -> get_location_result config = Ok locs ->
  match deciding_location k locs with
  | Some loc => exists h, map_find k (location_handlers_ (shared s)) = Some h /\ handler_for loc h /\
      loc ∈ locs /\ uri loc = k
  | None => map_find k (location_handlers_ (shared s)) = None
  end.
Proof.
  intros Hl Hr El. pose proof Hr as (s0 & ls & E & _).
  assert (Ht : same_table (location_handlers_ (shared s0)) (location_handlers_ (shared s))).
  { refine (reachable_rule (fun w => same_table _ (location_handlers_ w)) _ _ config s Hl _ Hr).
    - done.
    - apply table_rule.
    - intros s1 E1. rewrite E in E1. apply Ok_inj in E1 as <-. intros k'.
      destruct (map_find k' _); constructor. apply same_handler_refl. }
  specialize (Ht k). pose proof (startup_handlers start_log config s0 locs k E El) as Hk.
  destruct (deciding_location k locs) as [loc|] eqn:Ed.
  - destruct Hk as (h0 & Hm & Hf). rewrite Hf in Ht. inversion Ht as [? h Hs E1 E2|]; subst.
    destruct (deciding_location_In _ _ _ Ed) as [Hin Hu]. exists h. split_and!; [done| |done|done].
    eapply handler_for_same; [done|]. apply makes_for; [|done].
    pose proof (Hl locs El) as Hall. rewrite Forall_forall in Hall. by apply Hall.
  - rewrite Hk in Ht. by inversion Ht.
Qed.

(** ** Witnesses *)

Lemma reachable_handlers_witness :
  exists h, map_find (§"/echo/") (location_handlers_ (shared sample_server)) = Some h /\
    h = EchoH mkEcho.
Proof.
  pose proof (reachable_handlers sample_config sample_server _ (§"/echo/") sample_config_locations_ok
    sample_server_reachable eq_refl) as H.
  cbn in H. destruct H as (h & Hf & _). exists h. split; [exact Hf|]. cbn in Hf. by injection Hf as <-.
Defined.
