(* ===== verification/ServerAnswers.v ===== *)
(** * Requests on a busy server

    The answer to a request whose reads are interleaved with everything else the
    server does: other connections are accepted, read, time out and are released in
    between, and the writes and timers of the same connection complete; and the way
    of one request through its session, for any handlers. *)

From S2P Require Import Prelude CxxString CxxMap Env ConfigParser RequestParser RequestRoundTrip Response LogHelper Handlers Session SessionRouting SessionReading Server ServerInvariant.

(** What the reads of a connection brought in a run: whether each failed, and its
    bytes. *)
Fixpoint reads_of (id : nat) (ls : list label) : list (bool * bytes) :=
  match ls with
  | [] => []
  | LRead id' _ er data :: rest =>
      if bool_decide (id' = id) then (er, data) :: reads_of id rest else reads_of id rest
  | _ :: rest => reads_of id rest
  end.

Definition is_read_of (id : nat) (l : label) : Prop := exists peer error data, l = LRead id peer error data.

Lemma reads_of_other id l ls : ~ is_read_of id l -> reads_of id (l :: ls) = reads_of id ls.
Proof.
  intros Hl. destruct l as [| | | |id' peer er data| | | |]; try done. cbn.
  rewrite bool_decide_false; [done|]. intros ->. apply Hl. by eexists _, _, _.
Qed.

#[export] Instance is_read_of_dec id l : Decision (is_read_of id l).
Proof.
  destruct l as [| | | |id' peer er data| | | |]; try (right; by intros (? & ? & ? & ?)).
  destruct (decide (id' = id)) as [->|Hn]; [left; by eexists _, _, _|right]. intros (? & ? & ? & [= ? ? ?]). done.
Qed.

(** The connection [id] is open and waits for more of a message of which it has
    read [pre]; it has been asked to write [out]. *)
Record waiting_for (id : nat) (out : list (list bytes)) (pre : bytes) (s : server) : Prop := {
  wf_running : acceptor_ s <> Stopped;
  wf_accepted : acceptor_ s <> Accepting id;
  wf_conn : exists c, conns s !! id = Some c /\ c_reading c = true /\ c_outbox c = out /\
    midway pre (c_session c)
}.

Lemma midway_with_peer peer pre s : midway pre s -> midway pre (with_peer peer s).
Proof. done. Qed.

Lemma other_step id out pre s l s' :
  waiting_for id out pre s -> step s l s' -> l <> LSignal -> ~ is_read_of id l -> waiting_for id out pre s'.
Proof.
  intros [Hrun Hacc (c & Ec & Hr & Ho & Hm)] Hs Hl Hn.
  destruct Hs as [Hp|id' Hp Hid|Hp|id' c' peer Hp Ec'|id' c' peer error data fuel es s' w' acts Hp Ec' Hr' Hcl Hlen E
    |id' c' e Hp Ec' Hr'|id' c' Hp Ec' Hr'|id' c' Ec' Hr' Hp|Hp].
  - split; cbn; [by case_match|by case_match|eauto].
  - assert (id' <> id) by congruence. split; cbn; [done|congruence|]. exists c. by rewrite lookup_insert_ne.
  - split; cbn; [done|done|eauto].
  - assert (id' <> id) by congruence. split; cbn; [done|done|]. exists c.
    destruct peer; [by rewrite lookup_insert_ne|done].
  - assert (id' <> id) by (intros ->; apply Hn; by eexists _, _, _).
    split; cbn; [done|done|]. exists c. by rewrite lookup_insert_ne.
  - split; cbn; [done|done|]. destruct (decide (id' = id)) as [->|Hne]; [|exists c; by rewrite lookup_insert_ne].
    exists (timeout e (timer_done c')). rewrite lookup_insert_eq. assert (c' = c) as -> by congruence.
    by destruct e.
  - split; cbn; [done|done|]. destruct (decide (id' = id)) as [->|Hne]; [|exists c; by rewrite lookup_insert_ne].
    exists (write_done c'). rewrite lookup_insert_eq. by assert (c' = c) as -> by congruence.
  - destruct (decide (id' = id)) as [->|Hne].
    { assert (c' = c) as -> by congruence. by destruct (Hr' Hrun) as [? _]; congruence. }
    split; cbn; [done|done|]. exists c. by rewrite lookup_delete_ne.
  - done.
Qed.

(** A read of the connection, as the session completes it. *)
Lemma read_step s id peer error data s' :
  step s (LRead id peer error data) s' ->
  exists c fuel es s1 acts, conns s !! id = Some c /\
    received_req fuel es (with_peer peer (c_session c)) (shared s) error data = Some (Ok (s1, shared s', acts)) /\
    acceptor_ s' = acceptor_ s /\ conns s' !! id = Some (conn_acted s1 acts c).
Proof.
  intros Hs. inversion Hs as [| | | |? c ? ? ? fuel es s1 w' acts _ Ec _ _ _ E| | | |]; subst.
  exists c, fuel, es, s1, acts. split_and!; [done|done|done|]. cbn. apply lookup_insert_eq.
Qed.

Section request.
Context (id : nat) (ms : bytes) (r : request).
Hypothesis Hwf : wf_request r.
Hypothesis Hms : http_token ms = true.

Lemma fragment_step out pre s peer f rest s' :
  waiting_for id out pre s -> step s (LRead id peer false f) s' -> rest <> [] -> pre ++ f ++ rest = wire ms r ->
  waiting_for id out (pre ++ f) s'.
Proof.
  intros [Hrun Hacc (c & Ec & Hr & Ho & Hm)] Hs Hrest Hw.
  apply read_step in Hs as (c' & fuel & es & s1 & acts & Ec' & E & Ha & Es).
  assert (c' = c) as -> by congruence. destruct fuel as [|n]; [done|].
  destruct (received_fragment (H := request_handler) ms r pre f rest (with_peer peer (c_session c))
    Hwf Hms Hm Hrest Hw) as (s2 & _ & Hm' & E').
  rewrite E' in E. injection E as <- _ <-.
  split; [by rewrite Ha|by rewrite Ha|]. by eexists.
Qed.

Lemma fragments_run s ls s' out pre frags last :
  exec s ls s' -> waiting_for id out pre s -> LSignal ∉ ls ->
  reads_of id ls = (fun f => (false, f)) <$> frags ->
  Forall (fun f => f <> []) (frags ++ [last]) -> pre ++ mjoin (frags ++ [last]) = wire ms r ->
  waiting_for id out (pre ++ mjoin frags) s'.
Proof.
  intros He. revert pre frags. induction He as [s|s1 l s2 ls s3 Hs He IH]; intros pre frags Hwait Hsig Hreads Hne Hw.
  - symmetry in Hreads. apply fmap_nil_inv in Hreads as ->. by rewrite app_nil_r.
  - apply not_elem_of_cons in Hsig as [Hl Hsig]. destruct (decide (is_read_of id l)) as [(peer & er & f & ->)|Hn].
    + cbn in Hreads. rewrite bool_decide_true in Hreads by done.
      destruct frags as [|f' frags]; [done|]. injection Hreads as -> -> Hreads.
      cbn [app] in Hne. apply Forall_cons in Hne as [_ Hne].
      change (mjoin ((f' :: frags) ++ [last])) with (f' ++ mjoin (frags ++ [last])) in Hw.
      change (mjoin (f' :: frags)) with (f' ++ mjoin frags). rewrite (assoc_L (++)).
      apply IH; [|done|done|done|by rewrite <- (assoc_L (++))].
      eapply fragment_step; [done|done|by apply join_nonempty|done].
    + rewrite reads_of_other in Hreads by done. apply (IH pre frags); [|done..].
      by eapply other_step.
Qed.

(** The step that completes the request: it is answered by [process_req] in the
    shared state of that moment, and the answer is written. *)
Definition answers (s : server) (peer : endpoint) (out : list (list bytes)) (s' : server) : Prop :=
  let req := set_method (method_of_str ms) r in
  exists e record b bufs b' c,
    log_request_info req peer = Ok record /\
    process_req e (add_log [record] (shared s)) peer req = Ok (b, shared s') /\
    build b = Ok (bufs, b') /\
    conns s' !! id = Some c /\ c_outbox c = out ++ [bufs] /\ c_reading c = true /\ idle (c_session c).

Lemma final_step out pre s peer last s' :
  waiting_for id out pre s -> pre ++ last = wire ms r -> step s (LRead id peer false last) s' ->
  answers s peer out s'.
Proof.
  intros [_ _ (c & Ec & Hr & Ho & Hm)] Hw Hs.
  apply read_step in Hs as (c' & fuel & es & s1 & acts & Ec' & E & Ha & Es).
  assert (c' = c) as -> by congruence. destruct fuel as [|n]; [done|].
  rewrite (received_final n es _ _ ms r pre) in E by done. injection E as E. cbn [connection_ with_peer] in E.
  apply bind_Ok in E as ([w' acts'] & Ed & E). injection E as E1 E2 E3. subst s1 w' acts.
  cbn [dispatch] in Ed. apply bind_Ok in Ed as (record & Er & Ed). apply bind_Ok in Ed as ([w1 a] & Et & Ed).
  cbn [mbind outcome_bind] in Ed. apply Ok_pair in Ed as [-> <-].
  unfold thread_work in Et. apply bind_Ok in Et as ([b w2] & Ep & Et).
  apply bind_Ok in Et as ([bufs b'] & Eb & Et). apply Ok_pair in Et as [-> <-].
  exists (es 0), record, b, bufs, b', (conn_acted (mkSession request_value_init request_parser_init peer)
    ([Write bufs] ++ [Read]) c).
  split_and!; [done|done|done|done| |done|done]. cbn. by rewrite Ho.
Qed.

Lemma final_step_enabled out pre s peer last e record b w' bufs b' c :
  waiting_for id out pre s -> pre ++ last = wire ms r -> conns s !! id = Some c -> c_closed c = false ->
  (zlen last <= max_len)%Z ->
  log_request_info (set_method (method_of_str ms) r) peer = Ok record ->
  process_req e (add_log [record] (shared s)) peer (set_method (method_of_str ms) r) = Ok (b, w') ->
  build b = Ok (bufs, b') ->
  exists s', step s (LRead id peer false last) s'.
Proof.
  intros [Hrun _ (c' & Ec & Hr & Ho & Hm)] Hw Ec' Hcl Hlen Er Ep Eb. assert (c' = c) as -> by congruence.
  eexists. eapply (step_read s id c peer false last 1 (fun _ => e)); [done|done|done|by rewrite Hcl|done|].
  rewrite (received_final 0 _ _ _ ms r pre) by done. cbn [connection_ with_peer dispatch].
  rewrite Er. cbn [mbind outcome_bind]. unfold thread_work. rewrite Ep. cbn [mbind outcome_bind].
  rewrite Eb. cbn [mbind outcome_bind]. reflexivity.
Qed.

End request.

(** ** Properties *)

(** C1: a request on a busy server: while its bytes arrive, cut into reads in any way and interleaved
    with any other steps (clients that connect, send, time out and leave), nothing is written to its
    connection; the read that completes it writes exactly one response, the one [process_req] gives
    in the state of the server at that moment, which is framed, and leaves the connection reading
    and idle. That read can complete whenever the socket is open, the peer is known and
    [process_req] returns. *)
Theorem busy_server_answers (config : NginxConfig) (s0 s1 : server) (ls : list label) (id : nat)
    (c0 : conn_state) (ms : bytes) (r : request) (frags : list bytes) (last : bytes) :
  locations_ok config -> reachable config s0 ->
  acceptor_ s0 <> Stopped -> acceptor_ s0 <> Accepting id ->
  conns s0 !! id = Some c0 -> c_reading c0 = true -> idle (c_session c0) ->
  wf_request r -> http_token ms = true ->
  Forall (fun f => f <> []) (frags ++ [last]) -> mjoin (frags ++ [last]) = wire ms r ->
  exec s0 ls s1 -> LSignal ∉ ls -> reads_of id ls = (fun f => (false, f)) <$> frags ->
  exists c1, conns s1 !! id = Some c1 /\ c_outbox c1 = c_outbox c0 /\
    (forall peer s2, step s1 (LRead id peer false last) s2 -> answers id ms r s1 peer (c_outbox c0) s2) /\
    (forall e ip port b w',
      let req := set_method (method_of_str ms) r in
      c_closed c1 = false -> (zlen last <= max_len)%Z ->
      (x ← log_request_info req (Some (ip, port));
       process_req e (add_log [x] (shared s1)) (Some (ip, port)) req) = Ok (b, w') ->
      framed (response_ b) /\ exists s2, step s1 (LRead id (Some (ip, port)) false last) s2).
Proof.
  intros Hl Hr Hrun Hacc Ec Hre Hi Hwf Hms Hne Hj He Hsig Hreads.
  assert (Hw0 : waiting_for id (c_outbox c0) [] s0)
    by (split; [done|done|exists c0; split_and!; [done..|by apply midway_idle]]).
  pose proof (fragments_run id ms r Hwf Hms s0 ls s1 _ [] frags last He Hw0 Hsig Hreads Hne Hj) as Hw1.
  assert (Hj' : mjoin frags ++ last = wire ms r)
    by (rewrite <- Hj, join_app; cbn [mjoin list_join]; by rewrite app_nil_r).
  pose proof Hw1 as [_ _ (c1 & Ec1 & _ & Ho & _)]. exists c1. split_and!; [done|done| |].
  - intros peer s2 Hs. by eapply final_step.
  - intros e ip port b w' req Hcl Hlen E. apply bind_Ok in E as (record & Er & Ep).
    pose proof (ok_world _ (exec_ok _ _ _ (reachable_ok _ _ Hl Hr) He)) as Hw.
    destruct (process_req_ok _ _ _ _ _ _ (add_log_world_ok _ [record] Hw) Ep) as [Hf _].
    split; [done|]. destruct (build_framed _ Hf) as (bufs & b' & Eb). by eapply final_step_enabled.
Qed.

(** C7: the way of a request through a session: cut into reads in any way, with a known method, from a
    known peer, not in the cache and routed to a location whose handler answers, it causes exactly
    one write, of the buffers built from the handler's response, followed by the next read; the
    session is idle again, the shared state keeps its invariant and the response is in the cache.
    When the response is clean (no carriage returns in its headers, which only a proxied answer can
    have) and its body no longer than an [int] can say, a client reads the written bytes back as
    this response with nothing left over. *)
Theorem session_answers {H} `{HandlerLaws H} (n : nat) (es : nat -> nat -> env)
    (s : session) (w : world H) (ms : bytes) (r : request) (frags : list bytes) (last : bytes)
    (ip : bytes) (port : nat) (k : bytes) (h : H) (x : handled H) :
  idle s -> connection_ s = Some (ip, port) -> world_ok w ->
  wf_request r -> method_of_str ms <> INVALID ->
  Forall (fun f => f <> []) (frags ++ [last]) -> mjoin (frags ++ [last]) = wire ms r ->
  cached w (uri_ r) = None ->
  best_route (uri_ r) (location_handlers_ w).*1 k -> map_find k (location_handlers_ w) = Some h ->
  handle_request (es (length frags) 0) h (set_method (method_of_str ms) r) = Ok x ->
  exists s' w' bufs b',
    receive_all (S n) es 0 s w (frags ++ [last]) =
      Some (Ok (s', w', replicate (length frags) Read ++ [Write bufs; Read])) /\
    build (set_response (h_response x) response_builder_default) = Ok (bufs, b') /\
    idle s' /\ world_ok w' /\ cache_query_ w' !! uri_ r = Some (h_response x) /\
    (clean (h_response x) -> (zlen (res_body_ (h_response x)) <= INT_MAX)%Z ->
     read_response (mjoin bufs) = Some (h_response x, [])).
Proof.
  intros [Hp Hr] Hconn Hw Hwf Hm Hne Hj Hc Hb Hf Ex.
  destruct (dispatch_routed (es (length frags)) w ip port (set_method (method_of_str ms) r)
    (method_of_str ms) k h x) as (w' & bufs & b' & Ed & Eb & Hw' & Hc' & Er); [done..|].
  exists (mkSession request_value_init request_parser_init (connection_ s)), w', bufs, b'.
  split_and!; [|done..].
  rewrite (receive_fragments n es 0 s w ms r []); [|done|by apply known_method_token| |done|done].
  - cbn [Nat.add]. rewrite Hconn, Ed. done.
  - exists (request_ s). split; [done|]. rewrite Hp. apply runs_nil.
Qed.

(** ** Witnesses *)

(** A client has connected, and sends "GET /echo/x" in two reads while the acceptor opens the next
    connection. *)
Definition busy_client : endpoint := Some (§"127.0.0.1", 4000).
Definition busy_env : env := one_file_env [] [].
Definition busy_start : server := handle_accept 0 conn_new (Some busy_client) sample_server.
Definition busy_next : server := start_accept_open 1 (start_accept_check busy_start).
Definition busy_first : bytes := §"GET /ec".
Definition busy_last : bytes := §"ho/x HTTP/1.1" ++ crlf ++ crlf.

Definition busy_session : session :=
  match received_req 1 (fun _ => busy_env) (session_new busy_client) (shared busy_next) false busy_first with
  | Some (Ok (s, _, _)) => s
  | _ => session_new busy_client
  end.

Definition busy_read : server :=
  set_conn 0 (conn_acted busy_session [Read]
    (mkConn (session_new busy_client) true true 0 1 false [])) (shared busy_next) busy_next.

Definition busy_labels : list label := [LCheck; LOpen 1; LRead 0 busy_client false busy_first].

Lemma busy_start_reachable : reachable sample_config busy_start.
Proof.
  exists sample_server, [LAccept (Some busy_client)]. split; [apply sample_startup|].
  econstructor; [by apply (step_accept _ 0 conn_new)|]. constructor.
Qed.

Lemma busy_run : exec busy_start busy_labels busy_read.
Proof.
  econstructor; [by constructor|]. econstructor; [by apply (step_open _ 1)|].
  econstructor; [|constructor].
  apply (step_read _ 0 (mkConn (session_new busy_client) true true 0 1 false []) busy_client false busy_first 1
    (fun _ => busy_env)); done.
Qed.

Lemma busy_server_answers_witness :
  exists s2, step busy_read (LRead 0 busy_client false busy_last) s2 /\
    answers 0 (§"GET") (mkRequest None (§"/echo/x") (§"HTTP/1.1") [] []) busy_read busy_client [] s2.
Proof.
  destruct (busy_server_answers sample_config busy_start busy_read busy_labels 0
    (mkConn (session_new busy_client) true true 0 1 false []) (§"GET")
    (mkRequest None (§"/echo/x") (§"HTTP/1.1") [] []) [busy_first] busy_last) as (c1 & E1 & _ & Ha & He).
  - apply sample_config_locations_ok.
  - apply busy_start_reachable.
  - discriminate.
  - discriminate.
  - reflexivity.
  - reflexivity.
  - done.
  - split; [done|exists (§"1"), (§"1"); by split_and!|by repeat constructor|done|done].
  - reflexivity.
  - repeat constructor; discriminate.
  - reflexivity.
  - apply busy_run.
  - unfold busy_labels. set_solver.
  - reflexivity.
  - injection E1 as <-.
    edestruct (He busy_env (§"127.0.0.1") 4000) as [_ [s2 Hs]]; [reflexivity|vm_compute; discriminate|reflexivity|].
    exists s2. split; [exact Hs|]. exact (Ha _ _ Hs).
Defined.

Lemma busy_route : best_route (§"/echo/x") (location_handlers_ (shared busy_start)).*1 (§"/echo/").
Proof.
  split_and!; [left|reflexivity|]. intros k' [->|[]%elem_of_nil]%elem_of_cons _. right. by split; [|left].
Qed.

(** The first request of the client, on the handlers of the server. *)
Lemma session_answers_witness :
  exists s' w' bufs (x : handled request_handler),
    receive_all 1 (fun _ _ => busy_env) 0 (session_new busy_client) (shared busy_start) ([busy_first] ++ [busy_last]) =
      Some (Ok (s', w', [Read] ++ [Write bufs; Read])) /\
    read_response (mjoin bufs) = Some (h_response x, []) /\
    res_body_ (h_response x) = wire (§"GET") get_echo.
Proof.
  assert (Ex : exists x, handle_request busy_env (EchoH mkEcho) get_echo = Ok x) by (eexists; reflexivity).
  destruct Ex as [x Ex].
  destruct (session_answers 0 (fun _ _ => busy_env) (session_new busy_client) (shared busy_start) (§"GET")
    get_echo [busy_first] busy_last (§"127.0.0.1") 4000 (§"/echo/") (EchoH mkEcho) x)
    as (s' & w' & bufs & b' & E & _ & _ & _ & _ & Er).
  - apply session_new_idle.
  - reflexivity.
  - apply (ok_world _ (reachable_ok _ _ sample_config_locations_ok busy_start_reachable)).
  - apply get_echo_wf.
  - discriminate.
  - repeat constructor; discriminate.
  - reflexivity.
  - reflexivity.
  - apply busy_route.
  - reflexivity.
  - exact Ex.
  - exists s', w', bufs, x. split; [exact E|].
    assert (Hc : clean (h_response x)) by (refine (any_handled_clean _ (EchoH mkEcho) _ _ _ Ex); discriminate).
    apply Ok_inj in Ex as <-. split; [apply Er; [exact Hc|discriminate]|reflexivity].
Defined.
