(* ===== verification/StatusRun.v ===== *)
(** * The status page of a running server

    The records a server writes to its log while it runs, how they end up in the
    log files, and what the status page says when it reads them back: the
    composition of [main], the server, the session, the log and the status handler.
    Earlier runs may have left lines in the files. *)

From S2P Require Import Prelude CxxString CxxMap Env ConfigParser RequestParser RequestRoundTrip Response LogHelper LogFile Handlers StaticHandler StatusHandler ProxyHandler Session SessionRouting Server ServerInvariant ServerRuns ServerAnswers.

(** ** What handlers log *)

Definition error_record (r : log_record) : Prop := exists msg, r = log_error_file msg.

Lemma error_record_plain r : error_record r -> plain r.
Proof. by intros [msg ->]. Qed.

Lemma send_request_errors depth e h n req host log res log' :
  Forall error_record log -> send_request depth e h n req host log = Ok (res, log') -> Forall error_record log'.
Proof.
  revert n req host log. induction depth as [|d IH]; intros n req host log Hlog E; [done|].
  assert (Hrefuse : forall msg, refuse e log msg = Ok (res, log') -> Forall error_record log').
  { intros msg Er. unfold refuse in Er. apply Ok_pair in Er as [_ <-]. apply Forall_app. split; [done|].
    constructor; [by eexists|done]. }
  cbn [send_request] in E. apply bind_Ok in E as (text & _ & E).
  destruct (upstream _ _ _ _ _) as [| |chunks last]; [by eapply Hrefuse..|].
  destruct (read_until _ _ _) as [i1 chunks1]. destruct (read_word i1) as [v i2].
  destruct (read_unsigned i2) as [status i3]. destruct (getline i3) as [msg i4].
  case_match; [by eapply Hrefuse|]. case_match.
  - apply bind_Ok in E as ([loc|] & _ & E); [|by eapply Hrefuse].
    unfold handle_redirect in E. apply bind_Ok in E as (redir & _ & E).
    case_match; [by eapply Hrefuse|by eapply IH].
  - case_match; [apply bind_Ok in E as (r & _ & E); by apply Ok_pair in E as [_ <-]|].
    case_match; [by apply Ok_pair in E as [_ <-]|by eapply Hrefuse].
Qed.

Lemma handle_request_errors e (h : request_handler) req x :
  handle_request e h req = Ok x -> Forall error_record (h_log x).
Proof.
  intros E. cbn in E.
  destruct h as [h|h|h|h|h|h]; cbn [any_handle_request] in E;
    destruct (handle_request e h req) as [y| |] eqn:Ey; try discriminate E;
    apply Ok_inj in E as <-; cbn in *.
  - unfold echo_handle_request in Ey. apply bind_Ok in Ey as (? & _ & Ey). by apply Ok_inj in Ey as <-.
  - unfold health_handle_request in Ey. apply bind_Ok in Ey as (? & _ & Ey). by apply Ok_inj in Ey as <-.
  - unfold not_found_handle_request in Ey. by apply Ok_inj in Ey as <-.
  - by apply static_handle_cases in Ey as [->|(? & ? & ? & _ & _ & _ & ->)].
  - unfold status_handle_request in Ey. apply bind_Ok in Ey as ([? ?] & _ & Ey). by apply Ok_inj in Ey as <-.
  - unfold proxy_handle_request, refuse in Ey. case_match.
    + apply Ok_inj in Ey as <-. constructor; [by eexists|done].
    + apply bind_Ok in Ey as (? & _ & Ey).
      case_match; [|apply Ok_inj in Ey as <-; constructor; [by eexists|done]].
      apply bind_Ok in Ey as (? & _ & Ey). apply bind_Ok in Ey as (? & _ & Ey).
      apply bind_Ok in Ey as ([? ?] & Es & Ey). apply Ok_inj in Ey as <-.
      eapply send_request_errors; [|exact Es]. done.
Qed.

(** ** The records of a run *)

(** The record that is written for an entry. *)
Definition logged (en : log_entry) (r : log_record) : Prop :=
  match en with
  | Metrics req res conn name => log_metrics req res conn name = Ok r
  | Locations locs => r = mkLog trace (locations_message locs)
  | Other msg => message r = msg /\ plain r
  end.

Lemma plain_logged r : plain r -> logged (Other (message r)) r.
Proof. done. Qed.

Lemma plains_logged rs : Forall plain rs -> Forall2 logged ((fun r => Other (message r)) <$> rs) rs.
Proof. induction 1; constructor; [by apply plain_logged|done]. Qed.

(** The URIs of the answers in a log, but for those of the status page. *)
Definition answered_uri (en : log_entry) : option bytes :=
  match en with
  | Metrics req _ _ _ => if bool_decide (uri_ req = §"/status") then None else Some (uri_ req)
  | _ => None
  end.

Definition answered_uris (entries : list log_entry) : list bytes := omap answered_uri entries.

Definition is_locations (en : log_entry) : bool :=
  match en with Locations _ => true | _ => false end.

(** The handler names and URIs of the locations of a config. *)
Definition location_pairs (locs : list location_parse_result) : list (bytes * bytes) :=
  (fun l => (handler_name l, uri l)) <$> locs.

(** What [main] logs before the server is made, as entries. *)
Definition start_entries : list log_entry := (fun r => Other (message r)) <$> start_log.

(** The entries of a log: those of [main], the locations, and the others. *)
Definition run_entries (locs : list location_parse_result) (entries : list log_entry) : list log_entry :=
  start_entries ++ Locations (location_pairs locs) :: entries.

(** The log is the records of [main], the record of the locations, and after it
    the records of the run: among them one for each URI in the cache, with the
    response that is in the cache. *)
Definition log_ok (locs : list location_parse_result) (w : world request_handler) : Prop :=
  exists entries,
    Forall2 logged (run_entries locs entries) (log_ w) /\
    Forall (fun en => is_locations en = false) entries /\
    NoDup (answered_uris entries) /\
    forall u res, u <> §"/status" ->
      (cache_query_ w !! u = Some res <->
       exists req conn name, Metrics req res conn name ∈ entries /\ uri_ req = u).

Lemma run_entries_app locs es1 es2 : run_entries locs (es1 ++ es2) = run_entries locs es1 ++ es2.
Proof. unfold run_entries. by rewrite app_comm_cons, (assoc_L (++)). Qed.

Lemma plain_entries_none rs : answered_uris ((fun r => Other (message r)) <$> rs) = [].
Proof. by induction rs. Qed.

Lemma answered_uris_elem u entries :
  u ∈ answered_uris entries <->
  u <> §"/status" /\ exists req res conn name, Metrics req res conn name ∈ entries /\ uri_ req = u.
Proof.
  unfold answered_uris. rewrite list_elem_of_omap. split.
  - intros ([req res conn name|locs|msg] & Hin & E); try done. cbn in E.
    case_bool_decide; [done|]. injection E as <-. naive_solver.
  - intros (Hu & req & res & conn & name & Hin & <-). exists (Metrics req res conn name).
    split; [done|]. cbn. by rewrite bool_decide_false.
Qed.

Lemma log_ok_plain locs w rs : log_ok locs w -> Forall plain rs -> log_ok locs (add_log rs w).
Proof.
  intros (entries & Hl & Hn & Hd & Hc) Hrs. set (es := (fun r => Other (message r)) <$> rs).
  pose proof (plain_entries_none rs) as Hes. fold es in Hes.
  exists (entries ++ es). split_and!.
  - rewrite run_entries_app. apply Forall2_app; [done|]. by apply plains_logged.
  - apply Forall_app. split; [done|]. unfold es. clear. by induction rs; constructor.
  - unfold answered_uris in *. by rewrite omap_app, Hes, app_nil_r.
  - intros u res Hu. cbn. rewrite (Hc u res Hu). apply exist_proper. intros req. apply exist_proper. intros conn.
    apply exist_proper. intros name. rewrite elem_of_app. split; [naive_solver|].
    intros [[Hin|Hin] E]; [done|]. exfalso. unfold es in Hin. apply list_elem_of_fmap in Hin as (? & ? & ?). done.
Qed.

(** One more answer, to a URI that is not in the cache. *)
Lemma log_ok_metrics locs (w : world request_handler) req res conn name record table :
  log_ok locs w -> cached w (uri_ req) = None -> log_metrics req res conn name = Ok record ->
  log_ok locs (mkWorld table (<[uri_ req := res]> (cache_query_ w)) (log_ w ++ [record])).
Proof.
  intros (entries & Hl & Hn & Hd & Hc) Hnone El.
  assert (Hnew : uri_ req <> §"/status" -> cache_query_ w !! uri_ req = None)
    by (intros Hu; unfold cached in Hnone; by rewrite bool_decide_true in Hnone).
  exists (entries ++ [Metrics req res conn name]). split_and!.
  - rewrite run_entries_app. apply Forall2_app; [done|]. by repeat constructor.
  - apply Forall_app. split; [done|]. by repeat constructor.
  - unfold answered_uris. rewrite omap_app. cbn. case_bool_decide as Hs; [by rewrite app_nil_r|].
    apply NoDup_app. split_and!; [done| |apply NoDup_singleton].
    intros u Hu ->%list_elem_of_singleton. apply answered_uris_elem in Hu as (_ & req' & res' & conn' & name' & Hin & E).
    assert (cache_query_ w !! uri_ req = Some res') by (apply Hc; naive_solver). by rewrite Hnew in *.
  - intros u res' Hu. cbn [cache_query_]. setoid_rewrite elem_of_app. setoid_rewrite list_elem_of_singleton.
    destruct (decide (uri_ req = u)) as [<-|Hne].
    + rewrite lookup_insert_eq. split; [intros [= ->]; naive_solver|].
      intros (req' & conn' & name' & [Hin|[= -> -> -> ->]] & E); [|done].
      assert (cache_query_ w !! uri_ req = Some res') by (apply Hc; naive_solver). by rewrite Hnew in *.
    + rewrite lookup_insert_ne by done. rewrite (Hc u res' Hu). naive_solver.
Qed.

Lemma log_ok_answer locs e (w : world request_handler) conn req k h x record :
  log_ok locs w -> world_ok w -> cached w (uri_ req) = None -> map_find k (location_handlers_ w) = Some h ->
  handle_request e h req = Ok x ->
  log_metrics req (h_response x) conn (get_handler_name (h_handler x)) = Ok record ->
  log_ok locs (answered_world w k (uri_ req) x record).
Proof.
  intros Hw _ Hc _ Ex El. unfold answered_world. rewrite (assoc_L (++)).
  assert (Hp : Forall plain (h_log x))
    by (eapply Forall_impl; [exact (handle_request_errors _ _ _ _ Ex)|apply error_record_plain]).
  exact (log_ok_metrics locs (add_log (h_log x) w) req _ _ _ _ _ (log_ok_plain _ _ _ Hw Hp) Hc El).
Qed.

Lemma reachable_log_ok config s locs :
  locations_ok config -> get_location_result config = Ok locs -> reachable config s -> log_ok locs (shared s).
Proof.
  intros Hl El. apply (reachable_rule (log_ok locs)); [|apply log_ok_answer|done|].
  - intros w r Hw Hr. apply log_ok_plain; [done|by constructor].
  - intros s0 (locs' & hs & record & El' & _ & Er & ->)%startup_inv.
    rewrite El in El'. apply Ok_inj in El' as <-.
    unfold log_all_handlers in Er. rewrite El in Er. cbn [mbind outcome_bind] in Er. apply Ok_inj in Er as <-.
    exists ((fun r => Other (message r)) <$> [log_count 0; startup_record]). cbn [shared log_ cache_query_]. split_and!.
    + apply Forall2_app; [|constructor; [|apply plains_logged; repeat constructor]].
      * apply plains_logged. repeat constructor.
      * cbn. unfold locations_message, location_pairs. do 3 f_equal. by rewrite <- list_fmap_compose.
    + by repeat constructor.
    + apply NoDup_nil_2.
    + intros u res _. rewrite lookup_empty. split; [done|]. intros (? & ? & ? & Hin & _). revert Hin. cbn. set_solver.
Qed.

(** ** The lines of the log *)




Lemma logged_message en r : logged en r -> entry_message en = Ok (message r).
Proof. destruct en; cbn; [by intros ->|by intros ->|by intros [-> _]]. Qed.





(** ** The page *)





Lemma logged_defined entries records :
  Forall2 logged entries records -> Forall (fun en => entry_message en <> UB) entries.
Proof. induction 1 as [|en r ? ? Hr _ IH]; constructor; [by rewrite (logged_message _ _ Hr)|done]. Qed.










(** ** Properties *)

(** C10: what a running server has logged: first the records of [main] and the locations of its config,
    and after that, among records of other kinds, exactly one metrics record for each URI in the
    response cache, with the response that is cached for it (the status page apart, which is answered
    and logged each time): requests that are answered from the cache, or with a 400 error, leave no
    metrics record. *)
Theorem answers_logged_once (config : NginxConfig) (s : server) (locs : list location_parse_result) :
  locations_ok config -> get_location_result config = Ok locs -> reachable config s ->
  exists entries,
    Forall2 logged (run_entries locs entries) (log_ (shared s)) /\
    Forall (fun en => is_locations en = false) entries /\
    NoDup (answered_uris entries) /\
    forall u res, u <> §"/status" ->
      (cache_query_ (shared s) !! u = Some res <->
       exists req conn name, Metrics req res conn name ∈ entries /\ uri_ req = u).
Proof. apply reachable_log_ok. Qed.


(** ** Witnesses *)

Lemma answers_logged_once_witness :
  exists entries, Forall2 logged (start_entries ++ Locations [(§"EchoHandler", §"/echo/")] :: entries)
    (log_ (shared sample_server)) /\ NoDup (answered_uris entries).
Proof.
  destruct (answers_logged_once sample_config sample_server _ sample_config_locations_ok eq_refl
    sample_server_reachable) as (entries & H1 & _ & H2 & _).
  exists entries. split; [exact H1|exact H2].
Defined.























