(* ===== verification/Main.v ===== *)
(** * The main program

    Models [src/server_main.cc]: the command line, the config, the port, the
    construction of the server and the exceptions that reach [main].

    Binding the port is a parameter: [None] when it succeeds, and otherwise the
    text of the exception the acceptor throws. [what] gives the text of the other
    exceptions. Once the server is constructed, [main] only waits for its threads:
    what they do is the step relation of the server. *)

From S2P Require Import Prelude CxxString CxxMap Env ConfigParser ConfigRoundTrip RequestParser Response LogHelper Handlers Session SessionRouting Server ServerInvariant.

(** ** Definitions *)

(** [(short)port], and the conversion to [unsigned short] in the endpoint. *)
Definition to_short (n : Z) : Z := ((n + 32768) mod 65536 - 32768)%Z.
Definition to_ushort (n : Z) : Z := (n mod 65536)%Z.

(** [main] ends with an exit code and a log, or runs a server on a port; the log
    is then in the server. *)
Inductive main_result :=
| Exits (code : Z) (log : list log_record)
| Serves (port : Z) (s : server).

Record platform := {
  read_file : bytes -> option bytes;
  bind : Z -> option bytes;
  what : exn -> bytes
}.

(** The handler of the exceptions of [main]. *)
Definition caught (text : bytes) (log : list log_record) : main_result :=
  if bool_decide (text = §"bind: Permission denied")
  then Exits 0 (log ++ [log_error_file (§"port forbidden please choose another port")])
  else Exits 1 (log ++ [log_error_file text]).

(** [server s(io_service, (short)port, config)]: the acceptor is initialised
    before the body of the constructor runs. *)
Definition construct (p : platform) (port : Z) (config : NginxConfig) (log : list log_record)
    : outcome main_result :=
  let n := to_ushort (to_short port) in
  match bind p n with
  | Some text => Ok (caught text log)
  | None =>
      match startup log config with
      | Ok s => Ok (Serves n s)
      | Throw x => Ok (caught (what p x) log)
      | UB => UB
      end
  end.

Definition main (p : platform) (argv : list bytes) : outcome main_result :=
  match argv with
  | [_; file] =>
      let log := [log_trace_file (§"server config parsing begins")] in
      '(ok, config, _) ← Parse_file (read_file p) file [];
      if (ok : bool) then
        port ← parse_port config;
        if (port =? -1)%Z
        then Ok (Exits 1 (log ++ [log_error_file
               (§"invalid port number in cofig file,the port numbers range from 0 to 65535")]))
        else construct p port config (log ++ [log_trace_file (§"server config parsing successed")])
      else Ok (Exits 1 (log ++ [log_error_file (§" config parsing failed")]))
  | _ =>
      Ok (Exits 1 [log_error_file
        (§"Argument count mismatch. Usage: async_tcp_echo_server " ++ §"config_file")])
  end.

(** ** Lemmas *)

Lemma port_conversions n : (0 <= n <= 65535)%Z -> to_ushort (to_short n) = n.
Proof. unfold to_ushort, to_short. intros H. Z.div_mod_to_equations. lia. Qed.

Lemma parse_port_range config n : parse_port config = Ok n -> n = (-1)%Z \/ (0 <= n <= 65535)%Z.
Proof. rewrite parse_port_spec. apply first_port_range. Qed.

Lemma main_two p prog file :
  main p [prog; file] =
    ('(ok, config, _) ← Parse_file (read_file p) file [];
     if (ok : bool) then
       port ← parse_port config;
       if (port =? -1)%Z
       then Ok (Exits 1 (take 1 start_log ++ [log_error_file
              (§"invalid port number in cofig file,the port numbers range from 0 to 65535")]))
       else construct p port config start_log
     else Ok (Exits 1 (take 1 start_log ++ [log_error_file (§" config parsing failed")]))).
Proof. reflexivity. Qed.

Lemma Parse_no_throw fuel st o x : Parse_loop fuel st = Some o -> o <> Throw x.
Proof.
  revert st. induction fuel as [|n IH]; intros st E; [done|]. cbn [Parse_loop] in E.
  destruct (Parse_step st); [by eapply IH|injection E as <-; discriminate..].
Qed.

Lemma Parse_file_no_throw open file x : Parse_file open file [] <> Throw x.
Proof.
  unfold Parse_file, Parse. destruct (open file) as [contents|]; [|done].
  destruct (Parse_loop _ _) as [o|] eqn:E; [|done]. by eapply Parse_no_throw.
Qed.

Lemma first_port_no_throw vs x : first_port vs <> Throw x.
Proof.
  induction vs as [|v vs IH]; [done|]. cbn [first_port].
  unfold atoi. destruct (strtol v) as [z|]; [destruct (in_int z); [|done]|]; cbn [mbind outcome_bind]; by case_match.
Qed.

Lemma construct_no_throw p port config log x : construct p port config log <> Throw x.
Proof. unfold construct. by destruct (bind p _), (startup log config). Qed.

(** The code for an exception with a text. *)
Definition code_of (text : bytes) : Z := if bool_decide (text = §"bind: Permission denied") then 0%Z else 1%Z.

(** [main] ends with a code, and an error is the last it logs. *)
Definition exits (code : Z) (o : outcome main_result) : Prop :=
  exists log r, o = Ok (Exits code (log ++ [r])) /\ severity r = error.

Lemma caught_exits text log : exits (code_of text) (Ok (caught text log)).
Proof. unfold caught, code_of, exits. case_bool_decide; by eexists _, _. Qed.

(** ** Properties *)

(** C20: the server listens on the port of the config: the conversion to a signed [short] on the way
    does not change it, although ports above 32767 become negative in between, and it is a number
    between 0 and 65535. *)
Theorem main_serves_port (p : platform) (argv : list bytes) (n : Z) (s : server) :
  main p argv = Ok (Serves n s) ->
  exists file config out, argv = [nth 0 argv []; file] /\
    Parse_file (read_file p) file [] = Ok (true, config, out) /\
    parse_port config = Ok n /\ (0 <= n <= 65535)%Z /\ bind p n = None /\ startup start_log config = Ok s.
Proof.
  intros E. destruct argv as [|prog [|file [|]]]; try done. rewrite main_two in E.
  apply bind_Ok in E as ([[ok config] out] & Ep & E). destruct ok; [|done].
  apply bind_Ok in E as (port & Eport & E). destruct (Z.eqb_spec port (-1)) as [->|Hp]; [done|].
  destruct (parse_port_range _ _ Eport) as [->|Hr]; [done|].
  unfold construct in E. rewrite (port_conversions port Hr) in E.
  destruct (bind p port) eqn:Eb; [unfold caught in E; by case_bool_decide|].
  destruct (startup start_log config) eqn:Es; [|unfold caught in E; by case_bool_decide|done].
  injection E as <- <-. by exists file, config, out.
Qed.

(** C21: how [main] ends on every path without undefined behaviour. No exception leaves it. It ends with code 1 and an error in
    the log when the number of arguments is wrong, when the config is not accepted, and when it has no
    valid port; a failure to bind the port and an exception of the constructor end it with code 1 as
    well, except that the text "bind: Permission denied" gives code 0 although it is an error too; and
    when nothing fails it serves the port of the config with the server that was made. *)
Theorem main_exit_codes (p : platform) (argv : list bytes) :
  (forall x, main p argv <> Throw x) /\
  (length argv <> 2 -> exits 1 (main p argv)) /\
  forall prog file ok config out, argv = [prog; file] -> Parse_file (read_file p) file [] = Ok (ok, config, out) ->
    (ok = false -> exits 1 (main p argv)) /\
    forall n, ok = true -> parse_port config = Ok n ->
      (n = (-1)%Z -> exits 1 (main p argv)) /\
      (n <> (-1)%Z ->
        (forall text, bind p n = Some text -> exits (code_of text) (main p argv)) /\
        (bind p n = None ->
          (forall x, startup start_log config = Throw x -> exits (code_of (what p x)) (main p argv)) /\
          (forall s, startup start_log config = Ok s -> main p argv = Ok (Serves n s)))).
Proof.
  split_and!.
  - intros x. destruct argv as [|prog [|file [|]]]; try done. rewrite main_two. intros E.
    apply bind_Throw in E as [E|([[[] config] out] & _ & E)]; [by apply Parse_file_no_throw in E| |done].
    apply bind_Throw in E as [E|(n & _ & E)]; [rewrite parse_port_spec in E; by apply first_port_no_throw in E|].
    case_match; [done|by apply construct_no_throw in E].
  - intros Hl. destruct argv as [|prog [|file [|]]]; try done; by eexists [], _.
  - intros prog file ok config out -> Ep. rewrite main_two, Ep. cbn [mbind outcome_bind].
    split; [intros ->; by eexists _, _|]. intros n -> En. rewrite En. cbn [mbind outcome_bind].
    split; [intros ->; by eexists _, _|]. intros Hn. rewrite (proj2 (Z.eqb_neq n (-1))) by done.
    destruct (parse_port_range _ _ En) as [->|Hr]; [done|].
    unfold construct. rewrite (port_conversions n Hr). split.
    + intros text ->. apply caught_exits.
    + intros ->. split; [intros x ->; apply caught_exits|by intros s ->].
Qed.

(** ** Witnesses *)

(** port 40000; location "/echo/" EchoHandler { x y; } *)
Definition sample_config_text : bytes :=
  §"port 40000; location " ++ [dquote] ++ §"/echo/" ++ [dquote] ++ §" EchoHandler { x y; }".

Definition sample_platform (bind_result : option bytes) : platform := {|
  read_file := fun f => if bool_decide (f = §"server.conf") then Some sample_config_text else None;
  bind := fun _ => bind_result;
  what := fun _ => §"exception"
|}.

Lemma main_serves_port_witness :
  exists n s config, main (sample_platform None) [§"server"; §"server.conf"] = Ok (Serves n s) /\
    parse_port config = Ok n /\ (0 <= n <= 65535)%Z.
Proof.
  exists 40000%Z, sample_server.
  destruct (main_serves_port (sample_platform None) [§"server"; §"server.conf"] 40000 sample_server)
    as (file & config & out & _ & _ & Hp & Hr & _).
  - vm_compute. reflexivity.
  - exists config. split; [vm_compute; reflexivity|]. split; [exact Hp|exact Hr].
Defined.

Lemma main_exit_codes_witness :
  exits 0 (main (sample_platform (Some (§"bind: Permission denied"))) [§"server"; §"server.conf"]).
Proof.
  destruct (main_exit_codes (sample_platform (Some (§"bind: Permission denied"))) [§"server"; §"server.conf"])
    as (_ & _ & H).
  edestruct (H (§"server") (§"server.conf")) as [_ H1]; [reflexivity|vm_compute; reflexivity|].
  destruct (H1 40000%Z) as [_ H2]; [reflexivity|vm_compute; reflexivity|].
  destruct H2 as [H3 _]; [discriminate|]. exact (H3 _ eq_refl).
Defined.
